(* ===== verification/_CoqProject ===== *)
-Q . S2P
Prelude.v
StdString.v
Posix.v
PosixProcess.v
PosixRename.v
DefaultFilesystem.v
Invocation.v
DefaultContext.v
DefaultContextUnix.v
SimpleXML.v
DependencyInfoReader.v
AuxiliaryFiles.v
InvocationGraph.v
Scheduler.v
Staleness.v
Build.v
Rebuild.v
Execution.v
Win32.v
DefaultFilesystemWin32.v
DefaultContextWin32.v
