(* ===== verification/Prelude.v ===== *)
(** * A verification development for the xcbuild execution core

    The repository is a native build tool.  The specification describes
    its execution core: the invocation (one unit of build work), the
    files it needs written before it runs, the resolver of its
    executable, the reader of the dependency information a tool reports,
    the staleness detector and the scheduler.  The sources hold the data
    model and the operating-system wrappers the core runs on:

    - [src/Libraries/pbxbuild/Headers/pbxbuild/Tool/Invocation.h], lines
      19-257: the classes [Invocation], [Invocation::AuxiliaryFile],
      [AuxiliaryFile::Chunk], [Invocation::DependencyInfo] and
      [Invocation::Executable];
    - the same file, lines 264-678: [process::DefaultContext], the
      process-wide values (current directory, executable path, command
      line, environment, user and group), with branches for Linux, macOS
      and Windows;
    - [src/Libraries/libutil/Sources/DefaultFilesystem.cpp]: the sixteen
      methods of [libutil::DefaultFilesystem] over POSIX and stdio, and
      their branches for Windows;
    - [src/unnamed/part_000]: the [plist::Format::SimpleXML] format
      descriptor.

    The materializer, the reader, the detector, the graph and the
    scheduler have no code among the sources; they are modelled from the
    specification, over the definitions that model the sources.

    ** Files

    Of the environment (no line of the repository; the assumptions are
    listed at the top of each file):

    - [Prelude] (this file): the outcome monad for calls that can throw or
      abort, machine-width integers as [Z] with their wrap-around written
      out, C strings, path splitting and rendering, the hint database [xc]
      and the tactics the other files share.
    - [StdString]: the members of [std::string] the sources call ([find],
      [substr], [reserve], [resize], [size]) with [npos] and the length
      limit; the write of a system call through a pointer to the first
      element of a string or vector ([poke]) and the read of a terminated
      string through a pointer ([c_read]).
    - [Posix]: a tree of files, directories and symbolic links with
      permissions, the system calls of [DefaultFilesystem.cpp] as
      functions on it, stdio streams, [dirname] and [basename].
    - [PosixProcess]: what a process can ask about itself: [getcwd],
      [environ] and [getenv], the command line, the user and group
      databases.
    - [PosixRename]: [rename] and [chmod], which the materializer needs
      and [DefaultFilesystem.cpp] does not call.
    - [Win32]: wide strings, the conversion between UTF-8 and UTF-16 as
      the class [CodePage], the Win32 calls of the two sources as
      functions on a record [windows], the error that [GetLastError]
      returns after a call, and [assert] with and without [NDEBUG].

    Of the sources:

    - [DefaultFilesystem]: one definition per method of
      [DefaultFilesystem.cpp], each composed of the calls the method
      makes in the order it makes them.
    - [Invocation]: the five classes of [Invocation.h] as records in a
      module each (the const accessors are the projections, the reference
      accessors [Invocation.get] and [Invocation.set]), the
      well-formedness of the two tagged unions, and the executable
      resolver [Executable.Determine].
    - [DefaultContext]: one definition per method of [DefaultContext]
      in its branch for Linux with glibc 2.16 or later, with the static
      pointers of the methods as explicit state and [std::call_once] on
      the flag the method declares.
    - [DefaultContextUnix]: [executablePath] on macOS (module [Darwin])
      and with an older glibc (module [Glibc]), with the calls
      [_NSGetExecutablePath] and [strncpy] they are made of.
    - [DefaultFilesystemWin32]: module [WinFS], the methods of
      [DefaultFilesystem.cpp] in their branch for [_WIN32].
    - [DefaultContextWin32]: module [Win], the two conversions and the
      methods of [DefaultContext] in their branch for [_WIN32].
    - [SimpleXML]: the format descriptor, over the class [Plist] that
      stands for the encodings, the object model and the parser.

    Of the specification:

    - [DependencyInfoReader]: the binary and the Make-style format and
      [Parse], which reads a file through [DefaultFilesystem.read].
    - [AuxiliaryFiles]: the materializer: the bytes of the chunks of an
      [AuxiliaryFile.t] ([resolve]), written under a temporary name with
      [DefaultFilesystem.write], given their mode and renamed
      ([install]), with the states the file system goes through
      ([install_states]).
    - [InvocationGraph]: the construction of the graph from a list of
      [Invocation.t]: one producer for each output, the edges, the
      detection of cycles.
    - [Scheduler]: the state machine of the invocations as a step
      relation over the statuses and a state of the world, the class
      [Oracle] of what the scheduler asks of the world and does to it,
      and the executor as a function that runs the machine to the end.
    - [Staleness]: the decision [IsStale] over the modification times
      and the prior state.
    - [Build]: the instance [build_world] of [Oracle]: a store of
      modification times and prior state that the events change, and
      [rebuild], the scheduler run in it.
    - [Rebuild]: which invocations a build runs: [affected] and the two
      invariants that carry the result.
    - [Execution]: the instance [file_world] of [Oracle] on the file tree
      of [Posix]: a start runs the materializer of [AuxiliaryFiles], an
      exit is the result of [spawn] on the executable of the invocation,
      and a success needs the reader of [DependencyInfoReader] to accept
      the files that the process has left; [execute] is the scheduler
      run in it.

    ** Conventions

    A C++ method that returns [bool] and mutates the file system is a
    function from the state to a pair of the result and the new state.  A
    method that can throw, call [abort] or dereference a null pointer
    returns an [outcome].  [size_t] is a [Z] reduced modulo [2^64] at every
    arithmetic step; [long] is its two's complement reading ([to_long]).
    A path given to a system call goes through [c_str] first, as in the
    source.  A part of the system that a component only calls is a
    parameter of a section or a member of a class: [Plist] for the plist
    library, [CodePage] for the conversion of text on Windows, [Oracle]
    for the world of the scheduler.  A branch of the sources for another
    system is a module of its own ([WinFS], [Win], [Darwin], [Glibc])
    with the names of the methods.  A write through a pointer into a
    string past its size is undefined behaviour, whatever was reserved.

    ** What the theorems show

    - [DefaultFilesystem]: the result of each method on every branch, the
      errors included; round trips (write then read, link then readlink);
      the bounds where [read] computes on [size_t] and [long]; that
      [enumerateDirectory] calls back once for each entry and for
      nothing else; that [createDirectory] refines [mkdir_p], a
      recursive definition on the list of components, and terminates.
      The lemmas that a method keeps the tree well formed
      ([createFile_wf], [write_wf], ...) serve [Execution]; they say
      little of the methods, since every call of [Posix] keeps it.
    - [Invocation]: the resolver classifies every string; an assignment
      through a reference accessor changes one member.
    - [DefaultContext]: what each method returns, with the behaviour the
      code has and probably does not mean: [currentDirectory] aborts,
      nothing is cached, malformed entries of the environment, ids read
      as signed; the map of [environmentVariables] agrees with
      [getenv] and is a well-formed environment: no name with an equals
      sign, every binding cut from an entry of [environ]
      ([environmentVariables_well_formed]).
    - [SimpleXML]: [Deserialize] parses the contents converted to UTF-8;
      [Serialize] and [Identify] return nothing.
    - [DependencyInfoReader]: encoding then parsing is the identity for
      both formats; truncated and unterminated files are errors; an absent
      file is the empty set.
    - [AuxiliaryFiles]: a materialized file holds the concatenation of
      its chunks; in every state on the way its path holds the old entry
      or the whole new file; an unreadable chunk is fatal and changes
      nothing; a file that is installed changes its two entries only
      ([materialize_apart]), and the files of a list whose entries
      differ all hold their bytes at the end
      ([materialize_all_readable]).
    - [InvocationGraph]: duplicated outputs and cycles are refused, and
      nothing else is; what is accepted has an order that respects the
      edges.
    - [Scheduler]: in every run an invocation starts after all it depends
      on has finished, no transition happens twice, the running
      invocations fit the workers, the dependents of a failure never
      start; the executor ends, with every invocation in a final state
      unless fail-fast stopped it.
      From every state that a run reaches the machine can go on to
      such an end ([every_run_completes]).
    - [Staleness]: an invocation that is up to date is not stale; a
      written path makes every invocation that watches it stale; order
      dependencies and absent phony inputs have no part; the decision
      depends on the modification times only through their values
      ([IsStale_proper]).
    - [Build]: in every run of a build what has succeeded or been
      skipped stays up to date ([settled], [build_keeps_up_to_date]); a
      build of what is up to date runs nothing; a second build after a
      build that succeeded runs nothing ([rebuild_idempotent]).  These
      hold for a description that is [tidy], which [tidyb] checks, and
      a store that is [bounded], and not without: an invocation whose
      phony input another invocation writes is built twice
      ([phony_input_built_twice]).
    - [Rebuild]: a build starts an invocation only if it is affected
      and never skips an affected one; a build that succeeds has run
      exactly the affected invocations ([rebuild_exact]).
    - [Execution]: when an invocation starts, its auxiliary files have
      just been materialized and [DefaultFilesystem.read] returns the
      bytes of each, when the files go to entries that differ and no
      chunk copies one of them ([started_file_holds_chunks]; a second
      file of the same path replaces the first,
      [materialize_all_overwrites]); an error of the materializer
      fails the invocation before it is spawned; a success has the
      reported inputs recorded, and a report that the reader refuses fails
      the invocation; every run keeps the tree well formed.
    - [DefaultFilesystemWin32], [DefaultContextWin32]: what the branches
      for Windows do: the conversions of [DefaultContext.cpp] return the
      empty string or write past the end of a string, [exists] passes a
      string without terminator, [createFile] empties a file that
      exists, the loop of [environmentVariables] does not end,
      [executablePath] aborts; the two [assert]s on [GetLastError]
      hold where they are reached.
    - [DefaultContextUnix]: on macOS the path of the executable keeps its
      terminator as a character; with an older glibc a long [argv[0]] is
      kept without terminator.

    ** Fuel and bounds

    - [createDirectory] walks up a path with [FSUtil::GetDirectoryName]
      until a fixed point.  [createDirectory_terminates] shows that a
      measure which [GetDirectoryName] decreases is enough fuel; for POSIX
      [dirname] the measure is [path_measure], at most twice the length of
      the path plus one.
    - [currentDirectory] doubles a buffer until [getcwd] stops answering
      [ERANGE]; it never does so twice ([getcwd_loop_aborts]).
    - Symbolic links are followed at most [SYMLOOP_MAX] times, as the
      kernel does.
    - [parse_entries] takes the number of bytes as fuel; each record uses
      at least one ([parse_entries_fuel]).
    - Cycle detection runs as many rounds as there are invocations; a
      round that peels nothing is the last that could, and what is then
      left holds a cycle ([peel_rounds_grow], [peel_rounds_stuck]).
    - The executor takes [budget], three transitions for each invocation;
      no run has more ([steps_budget], [run_quiescent]).
    - The loop of [executablePath] on Windows takes fuel and never uses
      it ([module_loop_aborts]).  The loop of [environmentVariables] on
      Windows takes fuel and returns [None] when it runs out: once
      entered it never returns a map, whatever the fuel
      ([environ_loop_entered]).
    - Lengths that the sources keep in an [int] or a [uint32_t] are
      assumed to fit: the theorems on the conversions and on
      [_NSGetExecutablePath] state the bound as a hypothesis.

    ** What is not modelled

    I/O errors of the device below a stream; memory exhaustion other
    than the length checks of [std::vector] and [std::string] and the
    null pointer of [GetEnvironmentStringsW]; the last error of a thread
    but right after the calls that the sources ask it of;
    the conversion between UTF-8 and UTF-16 beyond what [CodePage] says
    of the empty string; the bytes of the files in the store of [Build]
    (the file tree of [Posix] has contents and no times, the store has
    times and no contents); the format in which the incremental state is
    kept, of which the specification says nothing; what a spawned tool
    computes (the records [tools] of [Build] and [programs] of
    [Execution] hold what a build cannot know of it; what a process
    writes is seen when it exits);
    the constructor and the destructor of [Invocation], which are
    declared without a body. *)

From Stdlib Require Import ZArith Lia Ascii.
From stdpp Require Import gmap strings list pretty.

Open Scope Z_scope.

Declare Scope xc_scope.
Delimit Scope xc_scope with xc.

Create HintDb xc discriminated.
Create Rewrite HintDb xc.

(** ** Outcomes of C++ calls

    A call returns, throws a standard exception, aborts the process or has
    undefined behaviour. *)

Inductive fault : Type :=
| LengthError
| OutOfRange
| Aborted
| Undefined.

Inductive outcome (A : Type) : Type :=
| Done (a : A)
| Fault (f : fault).

Arguments Done {A} a.
Arguments Fault {A} f.

#[global] Instance fault_eq_dec : EqDecision fault.
Proof. solve_decision. Defined.

#[global] Instance outcome_eq_dec `{EqDecision A} : EqDecision (outcome A).
Proof. solve_decision. Defined.

#[global] Instance outcome_ret : MRet outcome := @Done.

#[global] Instance outcome_bind : MBind outcome := λ A B f m,
  match m with
  | Done a => f a
  | Fault e => Fault e
  end.

#[global] Instance outcome_fmap : FMap outcome := λ A B f m,
  match m with
  | Done a => Done (f a)
  | Fault e => Fault e
  end.

Definition is_done {A} (m : outcome A) : bool :=
  match m with
  | Done _ => true
  | Fault _ => false
  end.

Lemma outcome_bind_done {A B} (f : A → outcome B) (m : outcome A) (b : B) :
  m ≫= f = Done b ↔ ∃ a, m = Done a ∧ f a = Done b.
Proof.
  destruct m as [a|e]; cbn; split.
  - intros ?. by exists a.
  - intros (a' & ? & ?). by simplify_eq.
  - done.
  - intros (a' & ? & ?). by simplify_eq.
Qed.

Lemma outcome_bind_fault {A B} (f : A → outcome B) (m : outcome A) (e : fault) :
  m ≫= f = Fault e ↔ m = Fault e ∨ ∃ a, m = Done a ∧ f a = Fault e.
Proof.
  destruct m as [a|e']; cbn; split.
  - intros ?. right. by exists a.
  - intros [?|(a' & ? & ?)]; by simplify_eq.
  - intros [= ->]. by left.
  - intros [?|(a' & ? & ?)]; by simplify_eq.
Qed.

(** ** Machine-width integers *)

Definition size_bits : Z := 64.
Definition SIZE_MAX : Z := 2 ^ size_bits - 1.
Definition LONG_MAX : Z := 2 ^ (size_bits - 1) - 1.

(** Reduction of a mathematical integer to an unsigned integer of [w] bits. *)
Definition wrap (w : Z) (z : Z) : Z := z mod 2 ^ w.

(** The two's complement reading of the low [w] bits of [z]. *)
Definition swrap (w : Z) (z : Z) : Z := (z + 2 ^ (w - 1)) mod 2 ^ w - 2 ^ (w - 1).

Definition to_size_t : Z → Z := wrap size_bits.
Definition to_long : Z → Z := swrap size_bits.
Definition to_int32 : Z → Z := swrap 32.
Definition to_uint32 : Z → Z := wrap 32.

Definition is_size_t (z : Z) : Prop := 0 ≤ z ≤ SIZE_MAX.

#[global] Instance is_size_t_dec z : Decision (is_size_t z).
Proof. unfold is_size_t. apply _. Defined.

(** [a + b] as the machine computes it on [size_t]. *)
Definition size_add (a b : Z) : Z := to_size_t (a + b).

Lemma wrap_range w z : 0 ≤ w → 0 ≤ wrap w z < 2 ^ w.
Proof. intros. apply Z.mod_pos_bound. by apply Z.pow_pos_nonneg. Qed.

Lemma wrap_small w z : 0 ≤ z < 2 ^ w → wrap w z = z.
Proof. intros. by apply Z.mod_small. Qed.

Lemma swrap_range w z : 0 < w → - 2 ^ (w - 1) ≤ swrap w z < 2 ^ (w - 1).
Proof.
  intros Hw. unfold swrap.
  assert (2 ^ w = 2 * 2 ^ (w - 1)) as Hp.
  { rewrite <-Z.pow_succ_r by lia. f_equal. lia. }
  pose proof (Z.mod_pos_bound (z + 2 ^ (w - 1)) (2 ^ w)) as Hb.
  assert (0 < 2 ^ (w - 1)) by (apply Z.pow_pos_nonneg; lia). lia.
Qed.

Lemma swrap_small w z : 0 < w → - 2 ^ (w - 1) ≤ z < 2 ^ (w - 1) → swrap w z = z.
Proof.
  intros Hw Hz. unfold swrap.
  assert (2 ^ w = 2 * 2 ^ (w - 1)) as Hp.
  { rewrite <-Z.pow_succ_r by lia. f_equal. lia. }
  rewrite Z.mod_small; lia.
Qed.

Lemma swrap_high w z : 0 < w → 2 ^ (w - 1) ≤ z < 2 ^ w → swrap w z = z - 2 ^ w.
Proof.
  intros Hw Hz. unfold swrap.
  assert (2 ^ w = 2 * 2 ^ (w - 1)) as Hp.
  { rewrite <-Z.pow_succ_r by lia. f_equal. lia. }
  replace (z + 2 ^ (w - 1)) with ((z - 2 ^ (w - 1)) + 1 * 2 ^ w) by lia.
  rewrite Z.mod_add by lia. rewrite Z.mod_small; lia.
Qed.

Lemma to_size_t_small z : is_size_t z → to_size_t z = z.
Proof. unfold is_size_t, SIZE_MAX. intros. apply wrap_small. lia. Qed.

Lemma to_size_t_range z : is_size_t (to_size_t z).
Proof.
  unfold is_size_t, SIZE_MAX, to_size_t.
  pose proof (wrap_range size_bits z). unfold size_bits in *. lia.
Qed.

Lemma to_long_small z : 0 ≤ z ≤ LONG_MAX → to_long z = z.
Proof.
  unfold LONG_MAX, to_long, size_bits. intros. apply swrap_small; [lia|].
  change (64 - 1) with 63 in *. lia.
Qed.

Lemma to_long_high z : LONG_MAX < z ≤ SIZE_MAX → to_long z = z - 2 ^ size_bits.
Proof.
  unfold LONG_MAX, SIZE_MAX, to_long, size_bits. intros. apply swrap_high; [lia|].
  change (64 - 1) with 63 in *. lia.
Qed.

Lemma to_long_high_neg z : LONG_MAX < z ≤ SIZE_MAX → to_long z < 0.
Proof. intros Hz. rewrite to_long_high by done. unfold SIZE_MAX in Hz. lia. Qed.

Lemma size_add_no_overflow a b :
  0 ≤ a → 0 ≤ b → a + b ≤ SIZE_MAX → size_add a b = a + b.
Proof. intros. apply to_size_t_small. unfold is_size_t. lia. Qed.

Lemma size_add_overflow a b :
  is_size_t a → is_size_t b → SIZE_MAX < a + b →
  size_add a b = a + b - 2 ^ size_bits.
Proof.
  unfold is_size_t, SIZE_MAX, size_add, to_size_t, wrap. intros.
  replace (a + b) with ((a + b - 2 ^ size_bits) + 1 * 2 ^ size_bits) at 1 by lia.
  rewrite Z.mod_add by (unfold size_bits; lia).
  apply Z.mod_small. lia.
Qed.

#[export] Hint Resolve to_size_t_range : xc.
#[export] Hint Rewrite to_size_t_small to_long_small using (unfold is_size_t, SIZE_MAX, LONG_MAX, size_bits in *; lia) : xc.

(** ** Bytes and strings *)

Abbreviation byte := Byte.byte.

#[global] Instance byte_eq_dec : EqDecision byte := Byte.byte_eq_dec.

Definition NUL : ascii := "000"%char.
Definition SLASH : ascii := "/"%char.

(** [c] occurs in [s]. *)
Fixpoint str_mem (c : ascii) (s : string) : bool :=
  match s with
  | "" => false
  | String a s' => bool_decide (a = c) || str_mem c s'
  end.

(** [std::string::c_str] as a callee reads it: the characters before the
    first NUL. *)
Fixpoint c_str (s : string) : string :=
  match s with
  | "" => ""
  | String a s' => if decide (a = NUL) then "" else String a (c_str s')
  end.

(** The segments of [s] between occurrences of [c]; never the empty list. *)
Fixpoint split_on (c : ascii) (s : string) : list string :=
  match s with
  | "" => [""]
  | String a s' =>
    if decide (a = c) then "" :: split_on c s'
    else match split_on c s' with
         | [] => [String a ""]
         | w :: ws => String a w :: ws
         end
  end.

(** The non-empty segments of a path between slashes. *)
Definition components (s : string) : list string :=
  filter (λ w, w ≠ "") (split_on SLASH s).

Definition is_absolute (s : string) : bool :=
  match s with
  | String a _ => bool_decide (a = SLASH)
  | "" => false
  end.

(** ["/c1/c2/.../cn"]; the empty list gives the empty string. *)
Fixpoint join_path (cs : list string) : string :=
  match cs with
  | [] => ""
  | c :: cs' => String SLASH (c +:+ join_path cs')
  end.

(** The absolute path that names the components [cs]; the root is ["/"]. *)
Definition render_path (cs : list string) : string :=
  match cs with
  | [] => "/"
  | _ => join_path cs
  end.

Lemma str_app_cons a (s t : string) : String a s +:+ t = String a (s +:+ t).
Proof. done. Qed.

Lemma str_app_nil_l (t : string) : "" +:+ t = t.
Proof. done. Qed.

(** Unfolds an append whose left side starts with a constructor, then
    computes. *)
Ltac str_simpl := rewrite ?str_app_cons, ?str_app_nil_l; cbn.

Lemma str_app_nil_r (s : string) : s +:+ "" = s.
Proof. induction s as [|a s IH]; [done|]. str_simpl. by rewrite IH. Qed.

Lemma str_app_assoc (s1 s2 s3 : string) : (s1 +:+ s2) +:+ s3 = s1 +:+ (s2 +:+ s3).
Proof. induction s1 as [|a s1 IH]; [done|]. str_simpl. by rewrite IH. Qed.

Lemma str_app_length (s1 s2 : string) :
  String.length (s1 +:+ s2) = (String.length s1 + String.length s2)%nat.
Proof. induction s1 as [|a s1 IH]; [done|]. str_simpl. by rewrite IH. Qed.

Lemma str_mem_app c (s1 s2 : string) :
  str_mem c (s1 +:+ s2) = str_mem c s1 || str_mem c s2.
Proof.
  induction s1 as [|a s1 IH]; [done|]. str_simpl. rewrite IH. by rewrite orb_assoc.
Qed.

Lemma c_str_id s : str_mem NUL s = false → c_str s = s.
Proof.
  induction s as [|a s IH]; [done|]. cbn. intros [Ha Hs]%orb_false_elim.
  apply bool_decide_eq_false in Ha. rewrite decide_False by done. by rewrite IH.
Qed.

Lemma c_str_no_nul s : str_mem NUL (c_str s) = false.
Proof.
  induction s as [|a s IH]; [done|]. cbn. case_decide; [done|].
  cbn. rewrite IH. by rewrite bool_decide_eq_false_2.
Qed.

Lemma c_str_idemp s : c_str (c_str s) = c_str s.
Proof. apply c_str_id, c_str_no_nul. Qed.

Lemma c_str_app_nul s1 s2 :
  str_mem NUL s1 = false → c_str (s1 +:+ String NUL s2) = s1.
Proof.
  induction s1 as [|a s1 IH]; str_simpl.
  - by rewrite decide_True.
  - intros [Ha Hs]%orb_false_elim. apply bool_decide_eq_false in Ha.
    rewrite decide_False by done. by rewrite IH.
Qed.

Lemma split_on_nonempty c s : split_on c s ≠ [].
Proof. destruct s as [|a s]; [done|]. cbn. case_decide; [done|]. by destruct (split_on c s). Qed.

Lemma split_on_nomem c s : str_mem c s = false → split_on c s = [s].
Proof.
  induction s as [|a s IH]; [done|]. cbn. intros [Ha Hs]%orb_false_elim.
  apply bool_decide_eq_false in Ha. rewrite decide_False by done. by rewrite IH.
Qed.

Lemma split_on_app c s1 s2 :
  split_on c (s1 +:+ String c s2) = split_on c s1 ++ split_on c s2.
Proof.
  induction s1 as [|a s1 IH]; str_simpl.
  - by rewrite decide_True.
  - case_decide; [by rewrite IH|]. rewrite IH.
    pose proof (split_on_nonempty c s1). by destruct (split_on c s1).
Qed.

Lemma components_app_slash s1 s2 :
  components (s1 +:+ String SLASH s2) = components s1 ++ components s2.
Proof. unfold components. by rewrite split_on_app, filter_app. Qed.

Lemma components_nomem s : s ≠ "" → str_mem SLASH s = false → components s = [s].
Proof.
  intros Hne Hs. unfold components. rewrite split_on_nomem by done.
  by rewrite filter_cons_True.
Qed.

Lemma components_empty : components "" = [].
Proof. done. Qed.

#[export] Hint Rewrite str_app_nil_r str_app_assoc str_app_length str_mem_app : xc.
#[export] Hint Rewrite c_str_idemp c_str_no_nul components_app_slash : xc.

(** The first [n] characters of [s] ([std::string::substr (0, n)]). *)
Fixpoint str_take (n : nat) (s : string) : string :=
  match n, s with
  | S n', String a s' => String a (str_take n' s')
  | _, _ => ""
  end.

(** [s] without its first [n] characters. *)
Fixpoint str_drop (n : nat) (s : string) : string :=
  match n, s with
  | S n', String _ s' => str_drop n' s'
  | _, _ => s
  end.

Lemma str_take_drop n s : str_take n s +:+ str_drop n s = s.
Proof.
  revert s. induction n as [|n IH]; intros [|a s]; try done.
  cbn. rewrite str_app_cons. by rewrite IH.
Qed.

Lemma str_take_length n s : String.length (str_take n s) = (n `min` String.length s)%nat.
Proof. revert s. induction n as [|n IH]; intros [|a s]; try done. cbn. by rewrite IH. Qed.

Lemma str_take_ge n s : (String.length s ≤ n)%nat → str_take n s = s.
Proof.
  revert s. induction n as [|n IH]; intros [|a s]; cbn; try done; [lia|].
  intros. rewrite IH; [done|lia].
Qed.

Lemma str_take_app n s t : n = String.length s → str_take n (s +:+ t) = s.
Proof.
  intros ->. induction s as [|a s IH]; [by destruct t|].
  rewrite str_app_cons. cbn. by rewrite IH.
Qed.

Lemma str_drop_app n s t : n = String.length s → str_drop n (s +:+ t) = t.
Proof. intros ->. induction s as [|a s IH]; [done|]. by rewrite str_app_cons. Qed.

#[export] Hint Rewrite str_take_length str_take_drop : xc.

(** ** The C++ library calls the sources make *)

(** [std::vector<uint8_t> (n)] where [n] is the conversion of the signed
    [size] to [size_t]: [n] zero bytes, or [std::length_error] beyond
    [max_size ()], which is [PTRDIFF_MAX]. *)
Definition vector_alloc (size : Z) : outcome (list byte) :=
  let n := to_size_t size in
  if decide (n ≤ LONG_MAX) then Done (replicate (Z.to_nat n) Byte.x00)
  else Fault LengthError.

Lemma vector_alloc_small size :
  0 ≤ size ≤ LONG_MAX → vector_alloc size = Done (replicate (Z.to_nat size) Byte.x00).
Proof.
  intros Hs. unfold vector_alloc. rewrite to_size_t_small.
  - by rewrite decide_True by lia.
  - unfold is_size_t, LONG_MAX, SIZE_MAX, size_bits in *. lia.
Qed.

Lemma vector_alloc_negative size :
  - 2 ^ (size_bits - 1) ≤ size < 0 → vector_alloc size = Fault LengthError.
Proof.
  intros Hs. unfold vector_alloc, to_size_t, wrap.
  replace size with ((size + 2 ^ size_bits) + (-1) * 2 ^ size_bits) by lia.
  rewrite Z.mod_add by (unfold size_bits; lia).
  unfold LONG_MAX, size_bits in *. change (64 - 1) with 63 in *.
  rewrite Z.mod_small by lia. by rewrite decide_False by lia.
Qed.

(** ** Lists of characters *)

Definition chars : string → list ascii := String.list_ascii_of_string.
Definition str : list ascii → string := String.string_of_list_ascii.

Fixpoint drop_while {A} (f : A → bool) (l : list A) : list A :=
  match l with
  | [] => []
  | x :: l' => if f x then drop_while f l' else l
  end.

Fixpoint take_while {A} (f : A → bool) (l : list A) : list A :=
  match l with
  | [] => []
  | x :: l' => if f x then x :: take_while f l' else []
  end.

Definition is_slash (a : ascii) : bool := bool_decide (a = SLASH).
Definition not_slash (a : ascii) : bool := negb (is_slash a).

Lemma str_chars s : str (chars s) = s.
Proof. apply String.string_of_list_ascii_of_string. Qed.

Lemma chars_str l : chars (str l) = l.
Proof. apply String.list_ascii_of_string_of_list_ascii. Qed.

Lemma chars_app s t : chars (s +:+ t) = chars s ++ chars t.
Proof. induction s as [|a s IH]; [done|]. rewrite str_app_cons. cbn. by rewrite IH. Qed.

Lemma chars_length s : length (chars s) = String.length s.
Proof. induction s as [|a s IH]; [done|]. cbn. by rewrite IH. Qed.

Lemma str_length l : String.length (str l) = length l.
Proof. by rewrite <-chars_length, chars_str. Qed.

Lemma str_app l k : str (l ++ k) = str l +:+ str k.
Proof. induction l as [|a l IH]; [done|]. cbn. rewrite str_app_cons. by rewrite IH. Qed.

Lemma chars_inj s t : chars s = chars t → s = t.
Proof. intros H. by rewrite <-(str_chars s), <-(str_chars t), H. Qed.

Lemma str_mem_chars c s : str_mem c s = bool_decide (c ∈ chars s).
Proof.
  induction s as [|a s IH]; [done|]. cbn. rewrite IH.
  destruct (decide (a = c)) as [->|Hne].
  - rewrite bool_decide_eq_true_2 by done. symmetry. apply bool_decide_eq_true_2. left.
  - rewrite (bool_decide_eq_false_2 (a = c)) by done. cbn.
    apply bool_decide_ext. rewrite elem_of_cons.
    split; [by right|]. by intros [->|?].
Qed.

Lemma take_drop_while {A} (f : A → bool) l : take_while f l ++ drop_while f l = l.
Proof. induction l as [|x l IH]; [done|]. cbn. destruct (f x); [|done]. cbn. by rewrite IH. Qed.

Lemma drop_while_length {A} (f : A → bool) l : (length (drop_while f l) ≤ length l)%nat.
Proof. induction l as [|x l IH]; [done|]. cbn. destruct (f x); cbn; lia. Qed.

Lemma drop_while_head {A} (f : A → bool) l x l' : drop_while f l = x :: l' → f x = false.
Proof.
  induction l as [|y l IH]; [done|]. cbn. destruct (f y) eqn:Hy; [done|].
  by intros [= <- <-].
Qed.

Lemma take_while_all {A} (f : A → bool) l : Forall (λ x, f x = true) l → take_while f l = l.
Proof. induction 1 as [|x l Hx _ IH]; [done|]. cbn. by rewrite Hx, IH. Qed.

Lemma drop_while_all {A} (f : A → bool) l : Forall (λ x, f x = true) l → drop_while f l = [].
Proof. induction 1 as [|x l Hx _ IH]; [done|]. cbn. by rewrite Hx. Qed.

Lemma drop_while_app_stop {A} (f : A → bool) l x k :
  Forall (λ y, f y = true) l → f x = false → drop_while f (l ++ x :: k) = x :: k.
Proof. induction 1 as [|y l Hy _ IH]; intros Hx; cbn; [by rewrite Hx|]. rewrite Hy. auto. Qed.

Lemma take_while_app_stop {A} (f : A → bool) l x k :
  Forall (λ y, f y = true) l → f x = false → take_while f (l ++ x :: k) = l.
Proof.
  induction 1 as [|y l Hy _ IH]; intros Hx; cbn; [by rewrite Hx|]. rewrite Hy. by rewrite IH.
Qed.

(** The segments of a split hold no separator, and no character that the
    whole string does not hold. *)
Lemma split_on_no_sep c s : Forall (λ w, str_mem c w = false) (split_on c s).
Proof.
  induction s as [|a s IH]; cbn; [by constructor|].
  destruct (decide (a = c)) as [->|Hac]; [by constructor|].
  destruct (split_on c s) as [|w ws].
  - repeat constructor. cbn. by rewrite bool_decide_eq_false_2.
  - inversion_clear IH as [|?? Hw Hws]. constructor; [|done].
    cbn. by rewrite Hw, bool_decide_eq_false_2.
Qed.

Lemma split_on_no_other c d s :
  str_mem d s = false → Forall (λ w, str_mem d w = false) (split_on c s).
Proof.
  induction s as [|a s IH]; cbn; [by constructor|].
  intros [Ha Hs]%orb_false_elim. specialize (IH Hs).
  destruct (decide (a = c)) as [->|Hac]; [by constructor|].
  destruct (split_on c s) as [|w ws].
  - repeat constructor. cbn. by rewrite Ha.
  - inversion_clear IH as [|?? Hw Hws]. constructor; [|done]. cbn. by rewrite Ha, Hw.
Qed.

Lemma components_clean s :
  Forall (λ c, c ≠ "" ∧ str_mem SLASH c = false ∧ str_mem NUL c = false)
         (components (c_str s)).
Proof.
  unfold components. apply Forall_forall. intros c [Hc Hin]%list_elem_of_filter.
  pose proof (split_on_no_sep SLASH (c_str s)) as H1.
  pose proof (split_on_no_other SLASH NUL (c_str s) (c_str_no_nul s)) as H2.
  rewrite Forall_forall in H1, H2. auto.
Qed.

(** A zeroed buffer of [n] cells whose first cells are overwritten by [got]. *)
Lemma fill_short {A} (got : list A) n x :
  got ++ drop (length got) (replicate n x) = got ++ replicate (n - length got) x.
Proof. by rewrite drop_replicate. Qed.

Lemma fill_exact {A} (got : list A) n x :
  length got = n → got ++ drop (length got) (replicate n x) = got.
Proof. intros <-. by rewrite fill_short, Nat.sub_diag, app_nil_r. Qed.

Lemma str_mem_take c n s : str_mem c s = false → str_mem c (str_take n s) = false.
Proof.
  revert s. induction n as [|n IH]; intros [|a s]; cbn; try done.
  intros [Ha Hs]%orb_false_elim. by rewrite Ha, IH.
Qed.

(** A fold that skips the elements a test rejects is the plain fold when
    the test accepts them all. *)
Lemma foldl_filter_all {A B} (f : A → B → A) (ok : B → bool) (l : list B) (a : A) :
  Forall (λ x, ok x = true) l →
  foldl (λ a x, if ok x then f a x else a) a l = foldl f a l.
Proof.
  intros H. revert a. induction H as [|x l Hx _ IH]; intros a; [done|].
  cbn. by rewrite Hx, IH.
Qed.

Lemma NoDup_omap {A B} (f : A → option B) (l : list A) :
  (∀ x y z, f x = Some z → f y = Some z → x = y) → NoDup l → NoDup (omap f l).
Proof.
  intros Hinj. induction 1 as [|x l Hx Hl IH]; cbn; [constructor|].
  destruct (f x) as [z|] eqn:E; [|done]. constructor; [|done].
  rewrite list_elem_of_omap. intros (y & Hy & Hfy). by rewrite (Hinj _ _ _ E Hfy) in Hx.
Qed.

(** ** Rendered paths *)

(** A component of a rendered path: not empty, no slash. *)
Definition clean_name (c : string) : Prop := c ≠ "" ∧ str_mem SLASH c = false.

Lemma join_path_snoc cs c : join_path (cs ++ [c]) = join_path cs +:+ String SLASH c.
Proof.
  induction cs as [|c' cs IH]; cbn.
  - by rewrite str_app_nil_r.
  - rewrite IH. by rewrite str_app_cons, str_app_assoc.
Qed.

Lemma render_path_snoc cs c :
  render_path (cs ++ [c]) = join_path cs +:+ String SLASH c.
Proof. rewrite <-join_path_snoc. by destruct cs. Qed.

Lemma clean_name_chars c :
  clean_name c → ∃ a l, reverse (chars c) = a :: l ∧ Forall (λ x, not_slash x = true) (a :: l).
Proof.
  intros [Hne Hs]. rewrite str_mem_chars in Hs. apply bool_decide_eq_false in Hs.
  assert (Forall (λ x, not_slash x = true) (reverse (chars c))) as Hall.
  { apply Forall_forall. intros x Hx. rewrite elem_of_reverse in Hx.
    unfold not_slash, is_slash.
    apply negb_true_iff, bool_decide_eq_false. by intros ->. }
  destruct (reverse (chars c)) as [|a l] eqn:E; [|by eauto].
  destruct Hne. apply chars_inj. apply (f_equal reverse) in E.
  by rewrite reverse_involutive in E.
Qed.

(** The characters of [pre/c] from the last to the first. *)
Lemma reverse_chars_snoc pre c :
  reverse (chars (pre +:+ String SLASH c)) = reverse (chars c) ++ SLASH :: reverse (chars pre).
Proof.
  rewrite chars_app. cbn. fold (chars c). rewrite reverse_app, reverse_cons.
  by rewrite <-app_assoc.
Qed.

(** [s] is empty or does not end in a slash. *)
Definition no_trailing_slash (s : string) : Prop :=
  drop_while is_slash (reverse (chars s)) = reverse (chars s).

Lemma no_trailing_slash_snoc pre c : clean_name c → no_trailing_slash (pre +:+ String SLASH c).
Proof.
  intros (a & l & E & Hall)%clean_name_chars. unfold no_trailing_slash.
  rewrite reverse_chars_snoc, E. cbn. inversion_clear Hall as [|?? Ha _].
  unfold not_slash in Ha. apply negb_true_iff in Ha. by rewrite Ha.
Qed.

Lemma no_trailing_slash_join cs : Forall clean_name cs → no_trailing_slash (join_path cs).
Proof.
  destruct cs as [|c cs _] using rev_ind; [done|]. intros [_ Hc]%Forall_app.
  rewrite join_path_snoc. apply no_trailing_slash_snoc. by inversion Hc.
Qed.

Lemma join_path_nil_inv cs : join_path cs = "" → cs = [].
Proof. by destruct cs. Qed.

Lemma omap_ext_Forall {A B} (f g : A → option B) l :
  Forall (λ x, f x = g x) l → omap f l = omap g l.
Proof. induction 1 as [|x l Hx _ IH]; [done|]. cbn. by rewrite Hx, IH. Qed.

Lemma head_omap_Some {A B} (f : A → option B) l y :
  head (omap f l) = Some y → ∃ x, x ∈ l ∧ f x = Some y.
Proof.
  induction l as [|x l IH]; [done|]. cbn. destruct (f x) as [y'|] eqn:E.
  - intros [= ->]. exists x. split; [left|done].
  - intros (x' & ? & ?)%IH. exists x'. split; [by right|done].
Qed.

Lemma head_omap_is_Some {A B} (f : A → option B) l x :
  x ∈ l → is_Some (f x) → is_Some (head (omap f l)).
Proof.
  intros Hx [y Hy]. induction Hx as [x l|x x' l _ IH]; cbn.
  - rewrite Hy. by eexists.
  - destruct (f x'); [by eexists|by apply IH].
Qed.

(** A rendered path is read back as its components. *)
Lemma components_join cs : Forall clean_name cs → components (join_path cs) = cs.
Proof.
  induction cs as [|c cs IH] using rev_ind; [done|]. intros [Hcs Hc]%Forall_app.
  apply Forall_inv in Hc as [Hne Hs].
  by rewrite join_path_snoc, components_app_slash, IH, components_nomem.
Qed.

Lemma components_render cs : Forall clean_name cs → components (render_path cs) = cs.
Proof. destruct cs; [done|]. apply components_join. Qed.

Lemma str_mem_join a cs :
  a ≠ SLASH → Forall (λ c, str_mem a c = false) cs → str_mem a (join_path cs) = false.
Proof.
  intros Ha. induction 1 as [|c cs Hc _ IH]; [done|]. cbn.
  by rewrite str_mem_app, Hc, IH, bool_decide_eq_false_2.
Qed.

Lemma c_str_render cs :
  Forall (λ c, str_mem NUL c = false) cs → c_str (render_path cs) = render_path cs.
Proof. intros H. apply c_str_id. destruct cs; [done|]. by apply str_mem_join. Qed.

Lemma is_absolute_render cs : is_absolute (render_path cs) = true.
Proof. by destruct cs. Qed.

Lemma render_path_nonempty cs : render_path cs ≠ "".
Proof. by destruct cs. Qed.

Lemma render_path_inj cs1 cs2 :
  Forall clean_name cs1 → Forall clean_name cs2 →
  render_path cs1 = render_path cs2 → cs1 = cs2.
Proof. intros H1 H2 E%(f_equal components). by rewrite !components_render in E. Qed.

(** One step of a loop that appends components: no slash is added after the
    root, one is added after anything else. *)
Lemma render_path_step cs c :
  (if bool_decide (cs = []) then render_path cs else render_path cs +:+ "/") +:+ c
  = render_path (cs ++ [c]).
Proof.
  rewrite render_path_snoc. destruct cs as [|c' cs]; [done|].
  rewrite bool_decide_eq_false_2 by done. by rewrite str_app_assoc.
Qed.
