(* ===== verification/StdString.v ===== *)
(** * The [std::string] members the sources call

    [find], [substr], [reserve], [resize], [size] and [compare] on strings,
    and the decimal output of [std::ostringstream], with [size_t] results
    kept at their width: [npos] is [SIZE_MAX], and [offset + 1] on the
    result of a failed [find] wraps to zero.

    The sources hand the storage of a string or of a vector to a system
    call as a pointer to its element 0.  [poke] is the write of the call
    through that pointer: within the size of the object the elements are
    replaced; past it the behaviour is undefined, whatever the capacity.
    [c_read] is the read of a terminated string through a pointer into a
    buffer. *)

From Stdlib Require Import ZArith Lia Ascii.
From stdpp Require Import strings list pretty.
From S2P Require Import Prelude.

#[local] Set Warnings "-clear-no-such-hyp".

Open Scope Z_scope.

Definition npos : Z := SIZE_MAX.

(** The index of the first [c] in [s]. *)
Fixpoint index_of (c : ascii) (s : string) : option nat :=
  match s with
  | "" => None
  | String a s' => if decide (a = c) then Some O else S <$> index_of c s'
  end.

(** [s.find (c)]. *)
Definition find (c : ascii) (s : string) : Z :=
  match index_of c s with
  | Some i => Z.of_nat i
  | None => npos
  end.

(** [s.substr (pos, n)]: throws when [pos] is past the end; takes
    [min (n, size - pos)] characters. *)
Definition substr (s : string) (pos n : Z) : outcome string :=
  let size := Z.of_nat (String.length s) in
  if decide (size < pos) then Fault OutOfRange
  else Done (str_take (Z.to_nat (n `min` (size - pos))) (str_drop (Z.to_nat pos) s)).

(** [s.reserve (n)]: the capacity grows, the contents and the size stay;
    throws above [max_size]. *)
Definition reserve (s : string) (n : Z) : outcome string :=
  if decide (LONG_MAX < n) then Fault LengthError else Done s.

(** [s.resize (n)]: cut to [n] characters, or filled up to [n] with
    zeros. *)
Definition resize (s : string) (n : Z) : outcome string :=
  if decide (LONG_MAX < n) then Fault LengthError
  else Done (str_take (Z.to_nat n) s
             +:+ str (replicate (Z.to_nat n - String.length s) Ascii.zero)).

(** [memcpy] of [data] to [&buffer[0]]: within the size of the object the
    elements are replaced; past it the behaviour is undefined. *)
Definition poke {A} (buffer : list A) (data : option (list A)) : outcome (list A) :=
  match data with
  | None => Done buffer
  | Some d =>
    if decide (length d ≤ length buffer)%nat then Done (d ++ drop (length d) buffer)
    else Fault Undefined
  end.

(** The same for a [std::basic_string], which has the element after its
    last: the terminator may be written there, and nothing else. *)
Definition poke_terminated {A} `{EqDecision A} (zero : A) (buffer : list A)
    (data : option (list A)) : outcome (list A) :=
  match data with
  | None => Done buffer
  | Some d =>
    if decide (length d ≤ length buffer)%nat then Done (d ++ drop (length d) buffer)
    else if decide (d = take (length buffer) d ++ [zero]) then Done (take (length buffer) d)
    else Fault Undefined
  end.

Definition poke_string (buffer : string) (data : option string) : outcome string :=
  str <$> poke_terminated Ascii.zero (chars buffer) (chars <$> data).

(** The string that a pointer to the elements of [buffer] names: the
    elements before the first zero; reading past the last element is
    undefined. *)
Fixpoint c_read {A} `{EqDecision A} (zero : A) (buffer : list A) : outcome (list A) :=
  match buffer with
  | [] => Fault Undefined
  | c :: rest => if decide (c = zero) then Done [] else cons c <$> c_read zero rest
  end.

(** A string that memory can hold: its size is at most [max_size]. *)
Definition fits (s : string) : Prop := Z.of_nat (String.length s) ≤ LONG_MAX.

#[global] Instance fits_dec s : Decision (fits s).
Proof. unfold fits. apply _. Defined.

(** [s.size ()]. *)
Definition size (s : string) : Z := Z.of_nat (String.length s).

(** [s.compare (0, prefix.size (), prefix) == 0]. *)
Definition starts_with (prefix s : string) : bool :=
  bool_decide (str_take (String.length prefix) s = prefix).

(** [os << n] for an unsigned integer. *)
Definition to_decimal (n : Z) : string := pretty (Z.to_N n).

(** ** Lemmas *)

Section std_string.
Implicit Types (c : ascii) (s t : string).

Lemma index_of_None c s : index_of c s = None ↔ str_mem c s = false.
Proof.
  induction s as [|a s IH]; [done|]. cbn. case_decide as Ha.
  - by rewrite bool_decide_eq_true_2.
  - rewrite bool_decide_eq_false_2 by done. cbn. rewrite <-IH.
    by destruct (index_of c s).
Qed.

Lemma index_of_Some c s i :
  index_of c s = Some i ↔
  ∃ s1 s2, s = s1 +:+ String c s2 ∧ str_mem c s1 = false ∧ String.length s1 = i.
Proof.
  revert i. induction s as [|a s IH]; intros i; cbn.
  { split; [done|]. intros ([|??] & ? & ? & _); by str_simpl. }
  case_decide as Ha.
  - subst a. split.
    + intros [= <-]. by exists "", s.
    + intros ([|b s1] & s2 & E & Hm & <-); [done|]. revert E Hm. str_simpl.
      intros [= <- _]. by rewrite bool_decide_eq_true_2.
  - destruct (index_of c s) as [j|] eqn:E; cbn; split.
    + intros [= <-]. destruct (proj1 (IH j) eq_refl) as (s1 & s2 & -> & Hm & <-).
      exists (String a s1), s2. str_simpl. by rewrite Hm, bool_decide_eq_false_2.
    + intros ([|b s1] & s2 & E' & Hm & <-); revert E' Hm; str_simpl; intros [= -> E'] Hm.
      { done. }
      apply orb_false_elim in Hm as [_ Hm]. f_equal.
      assert (Some j = Some (String.length s1)) as [= ->]; [|done].
      apply IH. eauto.
    + done.
    + intros ([|b s1] & s2 & E' & Hm & <-); revert E' Hm; str_simpl; intros [= -> E'] Hm.
      { done. }
      apply orb_false_elim in Hm as [_ Hm]. exfalso.
      assert (None = Some (String.length s1)) as [=]. apply IH. eauto.
Qed.

Lemma str_drop_0 s : str_drop 0 s = s.
Proof. by destruct s. Qed.

Lemma find_absent c s : str_mem c s = false → find c s = npos.
Proof. intros H%index_of_None. unfold find. by rewrite H. Qed.

Lemma find_first c s1 s2 :
  str_mem c s1 = false → find c (s1 +:+ String c s2) = Z.of_nat (String.length s1).
Proof.
  intros Hm. unfold find.
  by rewrite (proj2 (index_of_Some c _ (String.length s1))) by eauto.
Qed.

Lemma find_range c s : find c s = npos ∨ 0 ≤ find c s < Z.of_nat (String.length s).
Proof.
  unfold find. destruct (index_of c s) as [i|] eqn:E; [right|by left].
  apply index_of_Some in E as (s1 & s2 & -> & _ & <-).
  rewrite str_app_length. cbn [String.length]. lia.
Qed.

Lemma substr_whole s n : Z.of_nat (String.length s) ≤ n → substr s 0 n = Done s.
Proof.
  intros Hn. unfold substr. rewrite decide_False by lia.
  change (Z.to_nat 0) with 0%nat. rewrite str_drop_0, str_take_ge; [done|lia].
Qed.

Lemma substr_prefix s1 s2 :
  substr (s1 +:+ s2) 0 (Z.of_nat (String.length s1)) = Done s1.
Proof.
  unfold substr. rewrite decide_False by lia. change (Z.to_nat 0) with 0%nat.
  rewrite str_app_length, str_drop_0, str_take_app; [done|lia].
Qed.

Lemma substr_suffix s1 s2 n :
  Z.of_nat (String.length s2) ≤ n →
  substr (s1 +:+ s2) (Z.of_nat (String.length s1)) n = Done s2.
Proof.
  intros Hn. unfold substr. rewrite str_app_length, decide_False by lia.
  rewrite Nat2Z.id, str_drop_app by done. rewrite str_take_ge; [done|lia].
Qed.

Lemma starts_with_spec prefix s : starts_with prefix s = true ↔ ∃ rest, s = prefix +:+ rest.
Proof.
  unfold starts_with. rewrite bool_decide_eq_true. split.
  - intros H. exists (str_drop (String.length prefix) s).
    rewrite <-H at 1. by rewrite str_take_drop.
  - intros [rest ->]. by rewrite str_take_app.
Qed.

Lemma starts_with_app prefix rest : starts_with prefix (prefix +:+ rest) = true.
Proof. apply starts_with_spec. eauto. Qed.

Lemma fits_app_l s t : fits (s +:+ t) → fits s.
Proof. unfold fits. rewrite str_app_length. lia. Qed.

Lemma fits_npos s : fits s → Z.of_nat (String.length s) < npos.
Proof. unfold fits, npos, SIZE_MAX, LONG_MAX, size_bits. cbn. lia. Qed.

Lemma substr_from s1 s2 :
  fits (s1 +:+ s2) → substr (s1 +:+ s2) (Z.of_nat (String.length s1)) npos = Done s2.
Proof.
  intros H%fits_npos. apply substr_suffix. rewrite str_app_length in H. lia.
Qed.

Lemma npos_succ_wraps : size_add npos 1 = 0.
Proof. done. Qed.

Lemma to_decimal_inj n m : 0 ≤ n → 0 ≤ m → to_decimal n = to_decimal m → n = m.
Proof. unfold to_decimal. intros ?? H%(inj pretty). lia. Qed.

End std_string.

(** ** Buffers *)

Section buffers.
Context {A : Type} `{EqDecision A}.
Implicit Types (buffer d w rest : list A) (zero : A).

Lemma poke_nothing buffer : poke buffer None = Done buffer.
Proof. done. Qed.

Lemma poke_empty d : poke [] (Some d) = if decide (d = []) then Done [] else Fault Undefined.
Proof.
  unfold poke. destruct d; cbn; [done|]. by rewrite decide_False by lia.
Qed.

(** Into an empty string only a terminator can be written. *)
Lemma poke_terminated_empty zero d :
  poke_terminated zero [] (Some d)
  = if decide (d = [] ∨ d = [zero]) then Done [] else Fault Undefined.
Proof.
  unfold poke_terminated. destruct d as [|c d]; cbn; [by rewrite decide_True by auto|].
  rewrite decide_False by lia. repeat case_decide; try done; naive_solver.
Qed.

(** A buffer that the data fills to its end. *)
Lemma poke_terminated_full zero buffer d :
  length d = length buffer → poke_terminated zero buffer (Some d) = Done d.
Proof.
  intros Hl. unfold poke_terminated. rewrite decide_True by lia.
  by rewrite drop_ge, app_nil_r by lia.
Qed.

Lemma c_read_terminated zero w rest : zero ∉ w → c_read zero (w ++ zero :: rest) = Done w.
Proof.
  induction w as [|c w IH]; intros Hw; cbn; [by rewrite decide_True|].
  apply not_elem_of_cons in Hw as [? Hw]. rewrite decide_False by done. by rewrite IH.
Qed.

Lemma c_read_unterminated zero w : zero ∉ w → c_read zero w = Fault Undefined.
Proof.
  induction w as [|c w IH]; intros Hw; cbn; [done|].
  apply not_elem_of_cons in Hw as [? Hw]. rewrite decide_False by done. by rewrite IH.
Qed.

End buffers.

Lemma poke_string_empty (d : string) :
  poke_string "" (Some d)
  = if decide (d = "" ∨ d = String Ascii.zero "") then Done "" else Fault Undefined.
Proof.
  change (poke_string "" (Some d))
    with (str <$> poke_terminated Ascii.zero [] (Some (chars d))).
  rewrite poke_terminated_empty.
  rewrite (decide_ext _ (d = "" ∨ d = String Ascii.zero "")); [by case_decide|].
  split; (intros [E|E]; [left|right]); try (by subst); by apply chars_inj.
Qed.

Lemma poke_string_full (buffer d : string) :
  String.length d = String.length buffer → poke_string buffer (Some d) = Done d.
Proof.
  intros Hl. unfold poke_string. cbn [fmap option_fmap option_map].
  rewrite poke_terminated_full by (by rewrite !chars_length).
  cbn. by rewrite str_chars.
Qed.
