(* ===== verification/Posix.v ===== *)
(** * The system below the sources: files, directories, links and streams

    [DefaultFilesystem.cpp] is a layer over [access], [stat], [lstat],
    [mkdir], [unlink], [symlink], [readlink], [realpath], [opendir] /
    [readdir] and the stdio calls [fopen], [fseek], [ftell], [fread],
    [fwrite].  This file is the model of those calls that the
    development's theorems are stated in.  It translates no line of the
    repository.

    The file tree is a finite map from resolved paths (the list of
    component names from the root) to nodes.  What the model assumes:

    - a [char*] argument is read up to its first NUL;
    - permissions are the three bits that apply to the calling process;
      search permission on the directories of a path is not checked;
    - a symbolic link is followed only as the last component of a path, at
      most [SYMLOOP_MAX] times; a link in the middle of a path gives
      [ENOTDIR];
    - a regular file holds its bytes, and the device has [space] free
      bytes: a write beyond it stores what fits and fails ([ENOSPC]);
    - a new file has mode read/write and a new directory read/write/search
      for the caller (the [S_IRWXU] of the source, a umask that leaves
      the owner's bits);
    - [fopen] of a directory fails with [EISDIR];
    - seeking and telling on an open regular file do not fail. *)

From Stdlib Require Import ZArith Lia Ascii.
From stdpp Require Import gmap strings list.
From S2P Require Import Prelude.

Open Scope Z_scope.

(** ** Errors and results *)

Inductive errno : Type :=
| ENOENT | EEXIST | ENOTDIR | EISDIR | EACCES | EINVAL | ELOOP | ENOSPC
| ERANGE | ENAMETOOLONG.

#[global] Instance errno_eq_dec : EqDecision errno.
Proof. solve_decision. Defined.

Inductive result (A : Type) : Type :=
| Ok (a : A)
| Err (e : errno).

Arguments Ok {A} a.
Arguments Err {A} e.

#[global] Instance result_ret : MRet result := @Ok.

#[global] Instance result_bind : MBind result := λ A B f m,
  match m with
  | Ok a => f a
  | Err e => Err e
  end.

Definition is_ok {A} (r : result A) : bool :=
  match r with
  | Ok _ => true
  | Err _ => false
  end.

(** ** The file tree *)

Record perm : Type := Perm { p_read : bool; p_write : bool; p_exec : bool }.

Definition perm_rw : perm := Perm true true false.
Definition perm_rwx : perm := Perm true true true.

Inductive node : Type :=
| File (data : list byte) (pm : perm)
| Dir (pm : perm)
| Symlink (target : string).

Inductive ftype : Type := S_IFREG | S_IFDIR | S_IFLNK.

#[global] Instance ftype_eq_dec : EqDecision ftype.
Proof. solve_decision. Defined.

Definition node_type (n : node) : ftype :=
  match n with
  | File _ _ => S_IFREG
  | Dir _ => S_IFDIR
  | Symlink _ => S_IFLNK
  end.

Definition node_perm (n : node) : perm :=
  match n with
  | File _ pm | Dir pm => pm
  | Symlink _ => perm_rwx
  end.

Definition node_size (n : node) : nat :=
  match n with
  | File d _ => length d
  | _ => 0%nat
  end.

Record world : Type := World {
  nodes : gmap (list string) node;
  cwd : list string;
  space : nat;
}.

Definition with_nodes (w : world) (ns : gmap (list string) node) : world :=
  World ns (cwd w) (space w).

Definition with_space (w : world) (sp : nat) : world :=
  World (nodes w) (cwd w) sp.

Definition PATH_MAX : Z := 4096.
Definition SYMLOOP_MAX : nat := 40.

(** The directory that holds the entry [p]; the root is its own parent. *)
Definition parent (p : list string) : list string := take (length p - 1) p.

Definition is_dir (ns : gmap (list string) node) (p : list string) : bool :=
  match ns !! p with
  | Some (Dir _) => true
  | _ => false
  end.

(** ** Path resolution *)

(** Walks the components [cs] from the directory [cur].  Every directory
    that a component is looked up in must exist; the last component need
    not. *)
Fixpoint walk (ns : gmap (list string) node) (cur : list string) (cs : list string)
  : result (list string) :=
  match cs with
  | [] => Ok cur
  | c :: cs' =>
    match ns !! cur with
    | Some (Dir _) =>
      if decide (c = ".") then walk ns cur cs'
      else if decide (c = "..") then walk ns (parent cur) cs'
      else walk ns (cur ++ [c]) cs'
    | Some _ => Err ENOTDIR
    | None => Err ENOENT
    end
  end.

Definition walk_from (ns : gmap (list string) node) (base : list string) (s : string)
  : result (list string) :=
  let s := c_str s in
  if decide (s = "") then Err ENOENT
  else walk ns (if is_absolute s then [] else base) (components s).

(** Follows the symbolic links at [p], at most [fuel] of them. *)
Fixpoint follow (fuel : nat) (ns : gmap (list string) node) (p : list string)
  : result (list string) :=
  match ns !! p with
  | Some (Symlink t) =>
    match fuel with
    | O => Err ELOOP
    | S fuel' => walk_from ns (parent p) t ≫= follow fuel' ns
    end
  | _ => Ok p
  end.

(** The resolved path a [char*] names, following a final link or not. *)
Definition namei (w : world) (s : string) (flw : bool) : result (list string) :=
  p ← walk_from (nodes w) (cwd w) s;
  if flw then follow SYMLOOP_MAX (nodes w) p else Ok p.

Definition lookup_node (w : world) (s : string) (flw : bool) : result (list string * node) :=
  p ← namei w s flw;
  match nodes w !! p with
  | Some n => Ok (p, n)
  | None => Err ENOENT
  end.

(** ** Well-formed trees *)

Definition valid_name (c : string) : Prop :=
  c ≠ "" ∧ c ≠ "." ∧ c ≠ ".." ∧ str_mem SLASH c = false ∧ str_mem NUL c = false.

#[global] Instance valid_name_dec c : Decision (valid_name c).
Proof. unfold valid_name. apply _. Defined.

Record fs_wf (w : world) : Prop := {
  wf_root : is_dir (nodes w) [] = true;
  wf_parent : ∀ p c, is_Some (nodes w !! (p ++ [c])) → is_dir (nodes w) p = true;
  wf_names : ∀ p c, is_Some (nodes w !! (p ++ [c])) → valid_name c;
  wf_cwd : Forall valid_name (cwd w);
}.

(** ** System calls *)

Inductive amode : Type := F_OK | R_OK | W_OK | X_OK.

Definition perm_allows (pm : perm) (m : amode) : bool :=
  match m with
  | F_OK => true
  | R_OK => p_read pm
  | W_OK => p_write pm
  | X_OK => p_exec pm
  end.

Definition sys_access (w : world) (s : string) (m : amode) : result unit :=
  '(_, n) ← lookup_node w s true;
  if perm_allows (node_perm n) m then Ok () else Err EACCES.

Definition sys_stat (w : world) (s : string) : result ftype :=
  '(_, n) ← lookup_node w s true; Ok (node_type n).

Definition sys_lstat (w : world) (s : string) : result ftype :=
  '(_, n) ← lookup_node w s false; Ok (node_type n).

(** Whether an entry can be made at the free path [p]. *)
Definition can_create (w : world) (p : list string) : result unit :=
  match p with
  | [] => Err EEXIST
  | _ =>
    match nodes w !! parent p with
    | Some (Dir pm) => if p_write pm then Ok () else Err EACCES
    | Some _ => Err ENOTDIR
    | None => Err ENOENT
    end
  end.

Definition sys_mkdir (w : world) (s : string) : result world :=
  p ← namei w s false;
  match nodes w !! p with
  | Some _ => Err EEXIST
  | None => _ ← can_create w p; Ok (with_nodes w (<[p := Dir perm_rwx]> (nodes w)))
  end.

Definition sys_unlink (w : world) (s : string) : result world :=
  '(p, n) ← lookup_node w s false;
  match n with
  | Dir _ => Err EISDIR
  | _ =>
    match nodes w !! parent p with
    | Some (Dir pm) =>
      if p_write pm
      then Ok (World (delete p (nodes w)) (cwd w) (space w + node_size n))
      else Err EACCES
    | _ => Err ENOENT
    end
  end.

Definition sys_symlink (w : world) (target s : string) : result world :=
  if decide (c_str target = "") then Err ENOENT
  else
    p ← namei w s false;
    match nodes w !! p with
    | Some _ => Err EEXIST
    | None =>
      _ ← can_create w p;
      Ok (with_nodes w (<[p := Symlink (c_str target)]> (nodes w)))
    end.

(** [readlink (path, buf, bufsiz)]: the bytes stored in [buf].  A target
    longer than [bufsiz] is cut without an error. *)
Definition sys_readlink (w : world) (s : string) (bufsiz : Z) : result string :=
  '(_, n) ← lookup_node w s false;
  match n with
  | Symlink t => Ok (str_take (Z.to_nat bufsiz) t)
  | _ => Err EINVAL
  end.

Definition sys_realpath (w : world) (s : string) : result string :=
  '(p, _) ← lookup_node w s true;
  let r := render_path p in
  if decide (Z.of_nat (String.length r) < PATH_MAX) then Ok r else Err ENAMETOOLONG.

(** The name under which [q] is an entry of the directory [p], if it is. *)
Definition child_of (p q : list string) : option string :=
  match last q with
  | Some c => if decide (q = p ++ [c]) then Some c else None
  | None => None
  end.

Definition children (ns : gmap (list string) node) (p : list string) : list string :=
  omap (child_of p) (map_to_list ns).*1.

(** [opendir] and the sequence of names [readdir] then returns. *)
Definition sys_opendir (w : world) (s : string) : result (list string) :=
  '(p, n) ← lookup_node w s true;
  match n with
  | Dir pm =>
    if p_read pm then Ok ("." :: ".." :: children (nodes w) p) else Err EACCES
  | _ => Err ENOTDIR
  end.

(** ** stdio streams *)

Record stream : Type := Stream { s_data : list byte; s_pos : Z }.

Inductive whence : Type := SEEK_SET | SEEK_END.

(** [fopen (path, "rb")]. *)
Definition fopen_r (w : world) (s : string) : result stream :=
  '(_, n) ← lookup_node w s true;
  match n with
  | File d pm => if p_read pm then Ok (Stream d 0) else Err EACCES
  | Dir _ => Err EISDIR
  | Symlink _ => Err ELOOP
  end.

(** [fseek]: the stream after a successful call, [None] for a non-zero
    return. *)
Definition fseek (fp : stream) (off : Z) (wh : whence) : option stream :=
  let pos :=
    match wh with
    | SEEK_SET => off
    | SEEK_END => Z.of_nat (length (s_data fp)) + off
    end in
  if decide (pos < 0) then None else Some (Stream (s_data fp) pos).

Definition ftell (fp : stream) : Z := s_pos fp.

(** [fread (ptr, size, 1, fp)]: the number of items read (0 or 1) and the
    bytes stored at [ptr].  An item of size zero is never read. *)
Definition fread1 (fp : stream) (size : Z) : Z * list byte :=
  let got := take (Z.to_nat size) (drop (Z.to_nat (s_pos fp)) (s_data fp)) in
  (if decide (0 < size ∧ Z.of_nat (length got) = size) then 1 else 0, got).

(** [fopen (path, "w")] and ["wb"]: the file is created or cut to length
    zero; the handle is the resolved path. *)
Definition fopen_w (w : world) (s : string) : result (list string * world) :=
  p ← namei w s true;
  match nodes w !! p with
  | Some (File d pm) =>
    if p_write pm
    then Ok (p, World (<[p := File [] pm]> (nodes w)) (cwd w) (space w + length d))
    else Err EACCES
  | Some (Dir _) => Err EISDIR
  | Some (Symlink _) => Err ELOOP
  | None =>
    _ ← can_create w p;
    Ok (p, with_nodes w (<[p := File [] perm_rw]> (nodes w)))
  end.

(** [fwrite (ptr, size, 1, fp)] at the end of the file open at [p]: the
    number of items written (0 or 1).  What does not fit the device is
    lost; an item of size zero is never written. *)
Definition fwrite1 (w : world) (p : list string) (data : list byte) : Z * world :=
  match nodes w !! p with
  | Some (File d pm) =>
    let put := take (space w) data in
    (if decide (0 < length data ≤ space w)%nat then 1 else 0,
     World (<[p := File (d ++ put) pm]> (nodes w)) (cwd w) (space w - length put))
  | _ => (0, w)
  end.

(** ** [dirname] and [basename] of libgen

    [FSUtil::GetDirectoryName] and [FSUtil::GetBaseName], which
    [createDirectory] calls, are not among the sources.  These two
    functions are the POSIX ones; the theorems on [createDirectory] take
    the two operations as parameters and are instantiated with them. *)

Definition dirname (p : string) : string :=
  match drop_while is_slash (reverse (chars p)) with
  | [] => if decide (p = "") then "." else "/"
  | r =>
    match drop_while not_slash r with
    | [] => "."
    | r1 =>
      match drop_while is_slash r1 with
      | [] => "/"
      | r2 => str (reverse r2)
      end
    end
  end.

Definition basename (p : string) : string :=
  match drop_while is_slash (reverse (chars p)) with
  | [] => if decide (p = "") then "." else "/"
  | r => str (reverse (take_while not_slash r))
  end.

(** ** Lemmas on results *)

Lemma result_bind_Ok {A B} (f : A → result B) (m : result A) (b : B) :
  m ≫= f = Ok b ↔ ∃ a, m = Ok a ∧ f a = Ok b.
Proof.
  destruct m as [a|e]; cbn; split.
  - intros ?. by exists a.
  - intros (a' & ? & ?). by simplify_eq.
  - done.
  - intros (a' & ? & ?). by simplify_eq.
Qed.

Lemma result_bind_Ok_l {A B} (f : A → result B) (m : result A) (a : A) :
  m = Ok a → m ≫= f = f a.
Proof. by intros ->. Qed.

Lemma result_bind_Err_l {A B} (f : A → result B) (m : result A) (e : errno) :
  m = Err e → m ≫= f = Err e.
Proof. by intros ->. Qed.

(** Turns hypotheses [m ≫= f = Ok b] into their two halves. *)
Ltac inv_result :=
  repeat match goal with
  | H : _ ≫= _ = Ok _ |- _ => apply result_bind_Ok in H as (? & ? & H)
  | H : Ok _ = Ok _ |- _ => injection H as H; try subst
  | H : Err _ = Ok _ |- _ => discriminate H
  | H : Ok _ = Err _ |- _ => discriminate H
  | H : (if ?b then _ else _) = Ok _ |- _ => destruct b eqn:?
  end.

(** ** Lemmas on the tree *)

Section tree.
Implicit Types (ns : gmap (list string) node) (p q cur : list string).
Implicit Types (w : world) (n : node) (c : string).

Lemma parent_snoc p c : parent (p ++ [c]) = p.
Proof.
  unfold parent. rewrite length_app. cbn.
  replace (length p + 1 - 1)%nat with (length p) by lia. by rewrite take_app_length.
Qed.

Lemma parent_valid p : Forall valid_name p → Forall valid_name (parent p).
Proof. apply Forall_take. Qed.

Lemma snoc_parent p : p ≠ [] → ∃ c, p = parent p ++ [c].
Proof.
  destruct p as [|x p] using rev_ind; [done|]. intros _. exists x. by rewrite parent_snoc.
Qed.

Lemma is_dir_true ns p : is_dir ns p = true ↔ ∃ pm, ns !! p = Some (Dir pm).
Proof.
  unfold is_dir. destruct (ns !! p) as [[]|]; split; try done; eauto.
  all: by intros [? ?].
Qed.

Lemma is_dir_is_Some ns p : is_dir ns p = true → is_Some (ns !! p).
Proof. intros [pm ->]%is_dir_true. eauto. Qed.

Lemma is_dir_insert_ne ns p q n : p ≠ q → is_dir (<[p := n]> ns) q = is_dir ns q.
Proof. intros. unfold is_dir. by rewrite lookup_insert_ne. Qed.

Lemma is_dir_insert_nondir ns p q n :
  is_dir ns p = false → node_type n ≠ S_IFDIR → is_dir (<[p := n]> ns) q = is_dir ns q.
Proof.
  intros Hp Hn. destruct (decide (p = q)) as [->|]; [|by apply is_dir_insert_ne].
  rewrite Hp. unfold is_dir. rewrite lookup_insert_eq. by destruct n.
Qed.

Lemma is_dir_delete_nondir ns p q :
  is_dir ns p = false → is_dir (delete p ns) q = is_dir ns q.
Proof.
  intros Hp. unfold is_dir in *. destruct (decide (p = q)) as [->|].
  - rewrite lookup_delete_eq. by destruct (ns !! q) as [[]|].
  - by rewrite lookup_delete_ne.
Qed.

(** ** The tree stays well formed *)

Lemma wf_path_valid w p : fs_wf w → is_Some (nodes w !! p) → Forall valid_name p.
Proof.
  intros Hwf. induction p as [|c p IH] using rev_ind; [constructor|].
  intros Hs. apply Forall_app. split.
  - apply IH, is_dir_is_Some. by eapply wf_parent.
  - constructor; [by eapply wf_names|constructor].
Qed.

Lemma fs_wf_insert_new w p n sp :
  fs_wf w → nodes w !! p = None → can_create w p = Ok () → Forall valid_name p →
  fs_wf (World (<[p := n]> (nodes w)) (cwd w) sp).
Proof.
  intros [Hr Hp Hn Hc] Hfree Hcan Hval.
  assert (p ≠ []) as Hne by (by intros ->).
  assert (is_dir (nodes w) (parent p) = true) as Hpar.
  { unfold can_create, is_dir in *. destruct p; [done|].
    by destruct (nodes w !! parent _) as [[]|]. }
  assert (∀ q, is_dir (nodes w) q = true → is_dir (<[p := n]> (nodes w)) q = true) as Hkeep.
  { intros q Hq. rewrite is_dir_insert_ne; [done|].
    intros ->. apply is_dir_is_Some in Hq. rewrite Hfree in Hq. by destruct Hq. }
  split; cbn; [by apply Hkeep| | |done].
  - intros q c. destruct (decide (p = q ++ [c])) as [->|].
    + intros _. rewrite parent_snoc in Hpar. by apply Hkeep.
    + rewrite lookup_insert_ne by done. intros. by apply Hkeep, (Hp q c).
  - intros q c. destruct (decide (p = q ++ [c])) as [->|].
    + intros _. apply Forall_app in Hval as [_ Hv]. by inversion Hv.
    + rewrite lookup_insert_ne by done. apply Hn.
Qed.

Lemma fs_wf_update_file w p d pm d' pm' sp :
  fs_wf w → nodes w !! p = Some (File d pm) →
  fs_wf (World (<[p := File d' pm']> (nodes w)) (cwd w) sp).
Proof.
  intros [Hr Hp Hn Hc] Hfile.
  assert (is_dir (nodes w) p = false) as Hnd by (unfold is_dir; by rewrite Hfile).
  assert (∀ q, is_Some (<[p := File d' pm']> (nodes w) !! q) → is_Some (nodes w !! q)) as Hs.
  { intros q. destruct (decide (p = q)) as [->|]; [by rewrite Hfile|].
    by rewrite lookup_insert_ne. }
  split; cbn; [by rewrite is_dir_insert_nondir| | |done].
  - intros q c ?%Hs. rewrite is_dir_insert_nondir by done. eauto.
  - intros q c ?%Hs. eauto.
Qed.

Lemma fs_wf_delete w p n sp :
  fs_wf w → nodes w !! p = Some n → node_type n ≠ S_IFDIR →
  fs_wf (World (delete p (nodes w)) (cwd w) sp).
Proof.
  intros [Hr Hp Hn Hc] Hnode Hty.
  assert (is_dir (nodes w) p = false) as Hnd.
  { unfold is_dir. rewrite Hnode. by destruct n. }
  assert (∀ q, is_Some (delete p (nodes w) !! q) → is_Some (nodes w !! q)) as Hs.
  { intros q. destruct (decide (p = q)) as [->|].
    - rewrite lookup_delete_eq. by intros [? ?].
    - by rewrite lookup_delete_ne. }
  split; cbn; [by rewrite is_dir_delete_nondir| | |done].
  - intros q c ?%Hs. rewrite is_dir_delete_nondir by done. eauto.
  - intros q c ?%Hs. eauto.
Qed.

End tree.

(** ** Lemmas on path resolution *)

(** [ns'] has every directory of [ns]. *)
Definition dirs_kept (ns ns' : gmap (list string) node) : Prop :=
  ∀ q, is_dir ns q = true → is_dir ns' q = true.

(** The two trees have the same symbolic links. *)
Definition links_same (ns ns' : gmap (list string) node) : Prop :=
  ∀ q t, ns !! q = Some (Symlink t) ↔ ns' !! q = Some (Symlink t).

Section resolution.
Implicit Types (ns : gmap (list string) node) (p q cur : list string).
Implicit Types (w : world) (n : node) (c s : string) (cs : list string).

Lemma walk_dir_step ns cur c cs pm :
  ns !! cur = Some (Dir pm) →
  walk ns cur (c :: cs) =
    if decide (c = ".") then walk ns cur cs
    else if decide (c = "..") then walk ns (parent cur) cs
    else walk ns (cur ++ [c]) cs.
Proof. intros H. cbn. by rewrite H. Qed.

Lemma walk_Ok_dir ns cur c cs p : walk ns cur (c :: cs) = Ok p → is_dir ns cur = true.
Proof. cbn. unfold is_dir. by destruct (ns !! cur) as [[]|]. Qed.

Lemma walk_kept ns ns' cur cs p :
  dirs_kept ns ns' → walk ns cur cs = Ok p → walk ns' cur cs = Ok p.
Proof.
  intros Hk. revert cur. induction cs as [|c cs IH]; intros cur Hw; [done|].
  pose proof (walk_Ok_dir _ _ _ _ _ Hw) as Hd.
  pose proof (Hk _ Hd) as [pm' Hd']%is_dir_true. apply is_dir_true in Hd as [pm Hd].
  rewrite (walk_dir_step _ _ _ _ _ Hd) in Hw. rewrite (walk_dir_step _ _ _ _ _ Hd').
  repeat case_decide; by apply IH.
Qed.

Lemma walk_from_kept ns ns' base s p :
  dirs_kept ns ns' → walk_from ns base s = Ok p → walk_from ns' base s = Ok p.
Proof. unfold walk_from. intros Hk. case_decide; [done|]. by apply walk_kept. Qed.

Lemma follow_kept fuel ns ns' p q :
  dirs_kept ns ns' → links_same ns ns' →
  follow fuel ns p = Ok q → follow fuel ns' p = Ok q.
Proof.
  intros Hk Hl. revert p. induction fuel as [|fuel IH]; intros p; cbn.
  - destruct (ns !! p) as [[| |t]|] eqn:E; [| |done|];
      intros [= <-]; destruct (ns' !! p) as [[| |t']|] eqn:E'; try done;
      apply Hl in E'; congruence.
  - destruct (ns !! p) as [[| |t]|] eqn:E.
    1,2,4: intros [= <-]; destruct (ns' !! p) as [[| |t']|] eqn:E'; try done;
      apply Hl in E'; congruence.
    apply Hl in E as ->. intros (p1 & Hw & Hf)%result_bind_Ok.
    rewrite (walk_from_kept _ _ _ _ _ Hk Hw). cbn. by apply IH.
Qed.

Lemma namei_kept w w' s flw p :
  dirs_kept (nodes w) (nodes w') →
  (flw = true → links_same (nodes w) (nodes w')) →
  cwd w = cwd w' →
  namei w s flw = Ok p → namei w' s flw = Ok p.
Proof.
  intros Hk Hl Hc. unfold namei. intros (p1 & Hw & Hf)%result_bind_Ok.
  rewrite <-Hc. erewrite result_bind_Ok_l by (by eapply walk_from_kept).
  destruct flw; [|done]. eapply follow_kept; eauto.
Qed.

Lemma walk_valid ns cur cs p :
  Forall valid_name cur →
  Forall (λ c, c ≠ "" ∧ str_mem SLASH c = false ∧ str_mem NUL c = false) cs →
  walk ns cur cs = Ok p → Forall valid_name p.
Proof.
  intros Hcur Hcs. revert cur Hcur.
  induction Hcs as [|c cs (? & ? & ?) _ IH]; intros cur Hcur; cbn; [by intros [= <-]|].
  destruct (ns !! cur) as [[]|]; try done. repeat case_decide; intros Hw.
  - by eapply IH.
  - eapply IH; [|done]. by apply parent_valid.
  - eapply IH; [|done]. apply Forall_app. split; [done|]. by repeat constructor.
Qed.

Lemma walk_from_valid ns base s p :
  Forall valid_name base → walk_from ns base s = Ok p → Forall valid_name p.
Proof.
  unfold walk_from. intros Hb. case_decide; [done|].
  apply walk_valid; [by destruct (is_absolute _)|apply components_clean].
Qed.

Lemma follow_valid fuel ns p q :
  Forall valid_name p → follow fuel ns p = Ok q → Forall valid_name q.
Proof.
  revert p. induction fuel as [|fuel IH]; intros p Hp; cbn;
    destruct (ns !! p) as [[| |t]|]; try done; try by intros [= <-].
  intros (p1 & Hw & Hf)%result_bind_Ok. eapply IH; [|done].
  eapply walk_from_valid; [|done]. by apply parent_valid.
Qed.

Lemma namei_valid w s flw p : fs_wf w → namei w s flw = Ok p → Forall valid_name p.
Proof.
  intros Hwf. unfold namei. intros (p1 & Hw & Hf)%result_bind_Ok.
  apply walk_from_valid in Hw; [|by apply wf_cwd].
  destruct flw; [by eapply follow_valid|by simplify_eq].
Qed.

(** After following, the path is not a symbolic link. *)
Lemma follow_not_link fuel ns p q t : follow fuel ns p = Ok q → ns !! q ≠ Some (Symlink t).
Proof.
  revert p. induction fuel as [|fuel IH]; intros p; cbn;
    destruct (ns !! p) as [[| |t']|] eqn:E; try done; try (intros [= <-]; congruence).
  intros (p1 & Hw & Hf)%result_bind_Ok. by eapply IH.
Qed.

End resolution.

#[global] Arguments follow : simpl never.
#[global] Opaque SYMLOOP_MAX.

(** ** Lemmas on the calls *)

Section calls.
Implicit Types (w : world) (s : string) (p : list string) (d : list byte).

Lemma walk_from_c_str ns base s : walk_from ns base (c_str s) = walk_from ns base s.
Proof. unfold walk_from. by rewrite c_str_idemp. Qed.

Lemma namei_c_str w s flw : namei w (c_str s) flw = namei w s flw.
Proof. unfold namei. by rewrite walk_from_c_str. Qed.

Lemma lookup_node_c_str w s flw : lookup_node w (c_str s) flw = lookup_node w s flw.
Proof. unfold lookup_node. by rewrite namei_c_str. Qed.

Lemma lookup_node_Ok w s flw p n :
  lookup_node w s flw = Ok (p, n) ↔ namei w s flw = Ok p ∧ nodes w !! p = Some n.
Proof.
  unfold lookup_node. split.
  - intros (p' & Hn & H)%result_bind_Ok. destruct (nodes w !! p') eqn:E; by simplify_eq.
  - intros [Hn Hl]. rewrite Hn. cbn. by rewrite Hl.
Qed.

Lemma fopen_r_file w s p d pm :
  lookup_node w s true = Ok (p, File d pm) → p_read pm = true →
  fopen_r w s = Ok (Stream d 0).
Proof. unfold fopen_r. intros -> Hr. cbn. by rewrite Hr. Qed.

Lemma fopen_r_Ok w s fp :
  fopen_r w s = Ok fp →
  ∃ p pm, lookup_node w s true = Ok (p, File (s_data fp) pm) ∧ p_read pm = true ∧ s_pos fp = 0.
Proof.
  unfold fopen_r. intros ([p [d pm| |]] & Hl & H)%result_bind_Ok; try done.
  destruct (p_read pm) eqn:?; [|done]. injection H as <-. eauto.
Qed.

Lemma fseek_end fp : fseek fp 0 SEEK_END = Some (Stream (s_data fp) (Z.of_nat (length (s_data fp)))).
Proof. unfold fseek. rewrite Z.add_0_r. by rewrite decide_False by lia. Qed.

Lemma fseek_set fp off : 0 ≤ off → fseek fp off SEEK_SET = Some (Stream (s_data fp) off).
Proof. intros. unfold fseek. by rewrite decide_False by lia. Qed.

Lemma fseek_set_negative fp off : off < 0 → fseek fp off SEEK_SET = None.
Proof. intros. unfold fseek. by rewrite decide_True by lia. Qed.

Lemma fread1_full d pos size :
  0 ≤ pos → 0 < size → pos + size ≤ Z.of_nat (length d) →
  fread1 (Stream d pos) size = (1, take (Z.to_nat size) (drop (Z.to_nat pos) d)).
Proof.
  intros. unfold fread1. cbn. rewrite decide_True; [done|].
  rewrite length_take, length_drop. lia.
Qed.

Lemma fread1_short d pos size :
  0 ≤ pos → 0 ≤ size → Z.of_nat (length d) < pos + size →
  fread1 (Stream d pos) size = (0, drop (Z.to_nat pos) d).
Proof.
  intros. unfold fread1. cbn. rewrite take_ge by (rewrite length_drop; lia).
  rewrite decide_False; [done|]. rewrite length_drop. lia.
Qed.

Lemma fread1_count fp size : (fread1 fp size).1 = 1 ∨ (fread1 fp size).1 = 0.
Proof. unfold fread1. cbn. case_decide; auto. Qed.

End calls.

#[global] Arguments fread1 : simpl never.
#[global] Arguments fseek : simpl never.
#[global] Arguments fwrite1 : simpl never.

(** ** A small tree for examples

    [/] holds the directory [a], the file [a/f] with the bytes [ABC], a
    read-only file [a/ro], a link [l] to [a/f] and a dangling link [d]. *)

Definition demo_world : world :=
  World (list_to_map
           [([], Dir perm_rwx);
            (["a"], Dir perm_rwx);
            (["a"; "f"], File [Byte.x41; Byte.x42; Byte.x43] perm_rw);
            (["a"; "ro"], File [Byte.x58] (Perm true false false));
            (["l"], Symlink "a/f");
            (["d"], Symlink "/nowhere")])
        [] 8.

(** ** Lemmas on the calls that change the tree *)

Section updates.
Implicit Types (w : world) (s : string) (p q : list string) (d : list byte) (n : node).

Lemma follow_nonlink fuel ns p :
  (∀ t, ns !! p ≠ Some (Symlink t)) → follow fuel ns p = Ok p.
Proof.
  intros H. unfold follow. destruct fuel; destruct (ns !! p) as [[| |t]|] eqn:E; try done.
  all: by destruct (H t).
Qed.

(** Putting a node that is no directory and no link at a path that held
    neither keeps every resolution. *)
Lemma insert_plain_kept ns p n :
  is_dir ns p = false → (∀ t, ns !! p ≠ Some (Symlink t)) →
  node_type n = S_IFREG →
  dirs_kept ns (<[p := n]> ns) ∧ links_same ns (<[p := n]> ns).
Proof.
  intros Hd Hl Hn. split.
  - intros q Hq. rewrite is_dir_insert_ne; [done|]. intros ->. congruence.
  - intros q t. destruct (decide (p = q)) as [->|].
    + rewrite lookup_insert_eq. split; [by intros ?%Hl|]. intros [= ->]. done.
    + by rewrite lookup_insert_ne.
Qed.

Lemma delete_kept ns p : is_dir ns p = false → dirs_kept ns (delete p ns).
Proof. intros Hd q Hq. by rewrite is_dir_delete_nondir. Qed.

Lemma insert_new_kept ns p n : ns !! p = None → dirs_kept ns (<[p := n]> ns).
Proof.
  intros Hp q Hq. rewrite is_dir_insert_ne; [done|].
  intros ->. unfold is_dir in Hq. by rewrite Hp in Hq.
Qed.

Lemma can_create_Ok w p : can_create w p = Ok () → p ≠ [] ∧ is_dir (nodes w) (parent p) = true.
Proof.
  unfold can_create, is_dir. destruct p; [done|].
  by destruct (nodes w !! parent _) as [[]|].
Qed.

(** The number of bytes the node at [p] holds. *)
Definition size_at (ns : gmap (list string) node) (p : list string) : nat :=
  from_option node_size 0%nat (ns !! p).

(** [s] can be opened for writing: it resolves to [p], which is free in a
    writable directory (the new file then has mode [pm = perm_rw]) or holds
    a writable file of mode [pm]. *)
Definition opens_for_write (w : world) (s : string) (p : list string) (pm : perm) : Prop :=
  namei w s true = Ok p ∧ p_write pm = true ∧
  ((nodes w !! p = None ∧ can_create w p = Ok () ∧ pm = perm_rw)
   ∨ ∃ d, nodes w !! p = Some (File d pm)).

Lemma fopen_w_Ok w s p w1 :
  fopen_w w s = Ok (p, w1) ↔
  ∃ pm, opens_for_write w s p pm ∧
        w1 = World (<[p := File [] pm]> (nodes w)) (cwd w) (space w + size_at (nodes w) p).
Proof.
  unfold fopen_w, size_at, opens_for_write. split.
  - intros (p' & Hn & H)%result_bind_Ok.
    destruct (nodes w !! p') as [[d pm| |]|] eqn:E; try done.
    + destruct (p_write pm) eqn:Hw; [|done]. injection H as <- <-.
      exists pm. rewrite E. eauto 10.
    + apply result_bind_Ok in H as ([] & Hc & [= <- <-]).
      exists perm_rw. rewrite E. cbn. rewrite Nat.add_0_r. destruct w. eauto 10.
  - intros (pm & (Hn & Hw & [(E & Hc & ->)|[d E]]) & ->); rewrite Hn; cbn; rewrite E.
    + rewrite Hc. cbn. rewrite Nat.add_0_r. by destruct w.
    + by rewrite Hw.
Qed.

Lemma opens_for_write_plain w s p pm :
  opens_for_write w s p pm →
  is_dir (nodes w) p = false ∧ ∀ t, nodes w !! p ≠ Some (Symlink t).
Proof. unfold is_dir. intros (_ & _ & [(-> & _)|[d ->]]); by split. Qed.

(** After the file at [p] has been given new contents, the path names it. *)
Lemma lookup_node_written w s p pm d sp :
  opens_for_write w s p pm →
  lookup_node (World (<[p := File d pm]> (nodes w)) (cwd w) sp) s true = Ok (p, File d pm).
Proof.
  intros Ho. pose proof (opens_for_write_plain _ _ _ _ Ho) as [Hd Hl].
  destruct Ho as (Hn & _). apply lookup_node_Ok. cbn. split; [|by rewrite lookup_insert_eq].
  destruct (insert_plain_kept (nodes w) p (File d pm) Hd Hl eq_refl).
  by eapply namei_kept; [..|done].
Qed.

(** [fwrite1] on the file that [fopen_w] has just cut. *)
Lemma fwrite1_fresh ns cw sp p pm data :
  fwrite1 (World (<[p := File [] pm]> ns) cw sp) p data =
    (if decide (0 < length data ≤ sp)%nat then 1 else 0,
     World (<[p := File (take sp data) pm]> ns) cw (sp - length (take sp data))).
Proof. unfold fwrite1. cbn. by rewrite lookup_insert_eq, insert_insert_eq. Qed.

End updates.

(** ** Deciding well-formedness *)

(** What [fs_wf] asks of one entry. *)
Definition node_ok (ns : gmap (list string) node) (q : list string) : Prop :=
  q = [] ∨ (is_dir ns (parent q) = true ∧ from_option valid_name False (last q)).

#[global] Instance node_ok_dec ns q : Decision (node_ok ns q).
Proof. unfold node_ok. destruct (last q); apply _. Defined.

Lemma fs_wf_alt w :
  fs_wf w ↔
  is_dir (nodes w) [] = true ∧
  map_Forall (λ q _, node_ok (nodes w) q) (nodes w) ∧
  Forall valid_name (cwd w).
Proof.
  split.
  - intros [Hr Hp Hn Hc]. split_and!; [done| |done].
    intros q n Hq. destruct q as [|c q _] using rev_ind; [by left|right].
    rewrite parent_snoc, last_snoc. cbn. split; [eapply Hp|eapply Hn]; eauto.
  - intros (Hr & Hall & Hc). split; [done| | |done].
    + intros p c [n Hq]. destruct (Hall _ _ Hq) as [?|[Hd _]]; [by destruct p|].
      by rewrite parent_snoc in Hd.
    + intros p c [n Hq]. destruct (Hall _ _ Hq) as [?|[_ Hv]]; [by destruct p|].
      by rewrite last_snoc in Hv.
Qed.

#[global] Instance fs_wf_dec w : Decision (fs_wf w).
Proof.
  refine (cast_if (decide (is_dir (nodes w) [] = true ∧
                           map_Forall (λ q _, node_ok (nodes w) q) (nodes w) ∧
                           Forall valid_name (cwd w))));
    by rewrite fs_wf_alt.
Defined.

Lemma demo_world_wf : fs_wf demo_world.
Proof. apply (bool_decide_unpack _). by vm_compute. Qed.

(** ** Lemmas on [access], [unlink], [symlink] and [opendir] *)

Section more_calls.
Implicit Types (w : world) (s : string) (p q : list string) (n : node) (c : string).

Lemma sys_access_ok w s m :
  is_ok (sys_access w s m) = true ↔
  ∃ p n, lookup_node w s true = Ok (p, n) ∧ perm_allows (node_perm n) m = true.
Proof.
  unfold sys_access. destruct (lookup_node w s true) as [[p n]|e]; cbn.
  - destruct (perm_allows (node_perm n) m) eqn:E; split; try done; eauto.
    intros (? & ? & [= <- <-] & ?). congruence.
  - split; [done|]. by intros (? & ? & ? & ?).
Qed.

Lemma sys_access_F_OK w s m :
  is_ok (sys_access w s m) = true → is_ok (sys_access w s F_OK) = true.
Proof. rewrite !sys_access_ok. intros (p & n & ? & ?). eauto. Qed.

Lemma sys_unlink_Ok w s w' :
  sys_unlink w s = Ok w' ↔
  ∃ p n pm, lookup_node w s false = Ok (p, n) ∧ node_type n ≠ S_IFDIR ∧
            nodes w !! parent p = Some (Dir pm) ∧ p_write pm = true ∧
            w' = World (delete p (nodes w)) (cwd w) (space w + node_size n).
Proof.
  unfold sys_unlink. split.
  - intros ([p n] & Hl & H)%result_bind_Ok. exists p, n.
    assert (node_type n ≠ S_IFDIR) as Hn by (by destruct n).
    destruct (nodes w !! parent p) as [[|pm'|]|]; try by destruct n.
    exists pm'. destruct (p_write pm') eqn:?; [|by destruct n].
    split_and!; try done. by destruct n; simplify_eq.
  - intros (p & n & pm & -> & Hn & Hp & Hw & ->). cbn. rewrite Hp, Hw. by destruct n.
Qed.

Lemma sys_symlink_Ok w target s w' :
  sys_symlink w target s = Ok w' ↔
  c_str target ≠ "" ∧
  ∃ p, namei w s false = Ok p ∧ nodes w !! p = None ∧ can_create w p = Ok () ∧
       w' = with_nodes w (<[p := Symlink (c_str target)]> (nodes w)).
Proof.
  unfold sys_symlink. case_decide as Ht; [by split; [|intros []]|]. split.
  - intros (p & Hn & H)%result_bind_Ok. split; [done|]. exists p.
    destruct (nodes w !! p); [done|].
    apply result_bind_Ok in H as ([] & Hc & [= <-]). eauto.
  - intros (_ & p & -> & Hp & Hc & ->). cbn. rewrite Hp, Hc. done.
Qed.

Lemma child_of_Some p q c : child_of p q = Some c ↔ q = p ++ [c].
Proof.
  unfold child_of. split.
  - destruct (last q); [|done]. case_decide; [|done]. by intros [= <-].
  - intros ->. rewrite last_snoc. by rewrite decide_True.
Qed.

Lemma elem_of_children ns p c : c ∈ children ns p ↔ is_Some (ns !! (p ++ [c])).
Proof.
  unfold children. rewrite list_elem_of_omap. split.
  - intros (q & Hq & ->%child_of_Some).
    apply list_elem_of_fmap in Hq as ([q' n] & -> & Hin). apply elem_of_map_to_list in Hin. eauto.
  - intros [n Hn]. exists (p ++ [c]). split; [|by apply child_of_Some].
    apply list_elem_of_fmap. exists (p ++ [c], n). split; [done|]. by apply elem_of_map_to_list.
Qed.

Lemma children_NoDup ns p : NoDup (children ns p).
Proof.
  unfold children. apply NoDup_omap; [|apply NoDup_fst_map_to_list].
  intros q1 q2 c H1%child_of_Some H2%child_of_Some. congruence.
Qed.

Lemma sys_opendir_dir w s p pm :
  lookup_node w s true = Ok (p, Dir pm) → p_read pm = true →
  sys_opendir w s = Ok ("." :: ".." :: children (nodes w) p).
Proof. unfold sys_opendir. intros -> Hr. cbn. by rewrite Hr. Qed.

End more_calls.

Lemma sys_mkdir_Ok w s w' :
  sys_mkdir w s = Ok w' ↔
  ∃ p, namei w s false = Ok p ∧ nodes w !! p = None ∧ can_create w p = Ok () ∧
       w' = with_nodes w (<[p := Dir perm_rwx]> (nodes w)).
Proof.
  unfold sys_mkdir. split.
  - intros (p & Hn & H)%result_bind_Ok. exists p. destruct (nodes w !! p); [done|].
    apply result_bind_Ok in H as ([] & Hc & [= <-]). eauto.
  - intros (p & -> & Hp & Hc & ->). cbn. rewrite Hp, Hc. done.
Qed.

Lemma walk_Err ns cur cs e : walk ns cur cs = Err e → e ≠ EEXIST.
Proof.
  revert cur. induction cs as [|c cs IH]; intros cur; cbn; [done|].
  destruct (ns !! cur) as [[]|]; try (by intros [= <-]). repeat case_decide; apply IH.
Qed.

Lemma namei_nofollow_Err w s e : namei w s false = Err e → e ≠ EEXIST.
Proof.
  unfold namei, walk_from. case_decide; [by intros [= <-]|].
  destruct (walk _ _ _) eqn:E; [done|]. intros [= <-]. by eapply walk_Err.
Qed.

Lemma sys_mkdir_EEXIST w s :
  sys_mkdir w s = Err EEXIST →
  ∃ p, namei w s false = Ok p ∧ (is_Some (nodes w !! p) ∨ p = []).
Proof.
  unfold sys_mkdir, can_create. destruct (namei w s false) as [p|e] eqn:Hn; cbn.
  2:{ intros [= ->]. by apply namei_nofollow_Err in Hn. }
  intros H. exists p. split; [done|]. destruct (nodes w !! p); [by eauto|].
  destruct p; [by right|]. exfalso. revert H.
  destruct (nodes w !! parent _) as [[|pm|]|]; try done. by destruct (p_write pm).
Qed.

Lemma sys_mkdir_wf w s w' : fs_wf w → sys_mkdir w s = Ok w' → fs_wf w'.
Proof.
  intros Hwf (p & Hn & Hp & Hc & ->)%sys_mkdir_Ok.
  apply fs_wf_insert_new; [done..|by eapply namei_valid].
Qed.

Lemma sys_mkdir_grows w s w' : sys_mkdir w s = Ok w' → nodes w ⊆ nodes w'.
Proof. intros (p & _ & Hp & _ & ->)%sys_mkdir_Ok. by apply insert_subseteq. Qed.

(** ** Lemmas on [dirname] and [basename] *)

Section libgen.
Implicit Types (p pre c : string) (cs : list string).

Lemma valid_name_clean c : valid_name c → clean_name c.
Proof. by intros (? & _ & _ & ? & _). Qed.

Lemma dirname_snoc pre c :
  clean_name c → no_trailing_slash pre →
  dirname (pre +:+ String SLASH c) = if decide (pre = "") then "/" else pre.
Proof.
  intros Hc Hpre. pose proof (no_trailing_slash_snoc pre c Hc) as Hp.
  destruct (clean_name_chars c Hc) as (a & l & E & Hall).
  unfold dirname, no_trailing_slash in *. rewrite Hp, reverse_chars_snoc, E.
  assert (is_slash SLASH = true) as Hs by done.
  assert (not_slash SLASH = false) as Hns by done.
  cbn [app]. cbv iota. rewrite app_comm_cons.
  rewrite (drop_while_app_stop not_slash (a :: l)) by done. cbn. rewrite Hs, Hpre.
  destruct (reverse (chars pre)) as [|b r] eqn:Er.
  - rewrite decide_True; [done|]. apply chars_inj. apply (f_equal reverse) in Er.
    by rewrite reverse_involutive in Er.
  - rewrite decide_False by (by intros ->). apply (f_equal reverse) in Er.
    rewrite reverse_involutive in Er. by rewrite <-(str_chars pre), Er.
Qed.

Lemma basename_snoc pre c : clean_name c → basename (pre +:+ String SLASH c) = c.
Proof.
  intros Hc. pose proof (no_trailing_slash_snoc pre c Hc) as Hp.
  destruct (clean_name_chars c Hc) as (a & l & E & Hall).
  unfold basename, no_trailing_slash in *. rewrite Hp, reverse_chars_snoc, E.
  cbn [app]. cbv iota. rewrite app_comm_cons.
  rewrite (take_while_app_stop not_slash (a :: l)) by done.
  by rewrite <-E, reverse_involutive, str_chars.
Qed.

Lemma dirname_render cs c :
  Forall clean_name (cs ++ [c]) → dirname (render_path (cs ++ [c])) = render_path cs.
Proof.
  intros [Hcs Hc]%Forall_app. rewrite render_path_snoc.
  rewrite dirname_snoc; [|by inversion Hc|by apply no_trailing_slash_join].
  destruct cs; [done|]. by rewrite decide_False.
Qed.

Lemma basename_render cs c : clean_name c → basename (render_path (cs ++ [c])) = c.
Proof. intros Hc. rewrite render_path_snoc. by apply basename_snoc. Qed.

(** A name without a slash lies in the directory [.]. *)
Lemma clean_name_rev c :
  clean_name c →
  ∃ a l, reverse (chars c) = a :: l ∧ drop_while is_slash (a :: l) = a :: l ∧
         drop_while not_slash (a :: l) = [] ∧ take_while not_slash (a :: l) = a :: l.
Proof.
  intros (a & l & E & Hall)%clean_name_chars. exists a, l.
  pose proof (Forall_inv Hall) as Ha. unfold not_slash in Ha. apply negb_true_iff in Ha.
  split_and!; [done| |by apply drop_while_all|by apply take_while_all].
  cbn. by rewrite Ha.
Qed.

Lemma dirname_name c : clean_name c → dirname c = ".".
Proof.
  intros (a & l & E & E1 & E2 & _)%clean_name_rev. unfold dirname.
  rewrite E, E1. cbv iota. by rewrite E2.
Qed.

Lemma basename_name c : clean_name c → basename c = c.
Proof.
  intros (a & l & E & E1 & _ & E3)%clean_name_rev. unfold basename.
  rewrite E, E1. cbv iota. by rewrite E3, <-E, reverse_involutive, str_chars.
Qed.

(** The measure that [dirname] decreases: twice the length of the path,
    and one more unless the path is [.] or [/]. *)
Definition path_measure (p : string) : nat :=
  2 * (1 `max` String.length p) + (if decide (p = "." ∨ p = "/") then 0 else 1).

Lemma path_measure_bound p : (path_measure p ≤ 2 * (1 `max` String.length p) + 1)%nat.
Proof. unfold path_measure. case_decide; lia. Qed.

Lemma path_measure_proper p :
  p ≠ "." → p ≠ "/" → path_measure p = (2 * (1 `max` String.length p) + 1)%nat.
Proof. intros ??. unfold path_measure. by rewrite decide_False by (by intros [?|?]). Qed.

Lemma dirname_measure p : p ≠ dirname p → (path_measure (dirname p) < path_measure p)%nat.
Proof.
  intros Hne.
  destruct (decide (p = ".")) as [->|Hdot]; [done|].
  destruct (decide (p = "/")) as [->|Hsl]; [done|].
  rewrite (path_measure_proper p) by done.
  pose proof (path_measure_bound (dirname p)) as Hb. revert Hb.
  unfold dirname in *. clear Hne.
  destruct (drop_while is_slash (reverse (chars p))) as [|a r] eqn:Er.
  { intros _. case_decide; change (path_measure _) with 2%nat; lia. }
  destruct (drop_while not_slash (a :: r)) as [|b r1] eqn:Er1.
  { intros _. change (path_measure _) with 2%nat. lia. }
  destruct (drop_while is_slash (b :: r1)) as [|c r2] eqn:Er2.
  { intros _. change (path_measure _) with 2%nat. lia. }
  pose proof (drop_while_length is_slash (reverse (chars p))) as L0.
  pose proof (drop_while_length not_slash (a :: r)) as L1.
  pose proof (drop_while_length is_slash r1) as L2.
  assert (is_slash b = true) as Hb.
  { apply drop_while_head in Er1. unfold not_slash in Er1. by apply negb_false_iff. }
  cbn [drop_while] in Er2. rewrite Hb in Er2.
  rewrite Er, Er1, Er2, ?length_reverse, chars_length in *.
  rewrite str_length, length_reverse. cbn [length] in *. lia.
Qed.

End libgen.

(** ** Resolution of rendered paths *)

Section rendered.
Implicit Types (w : world) (ns : gmap (list string) node) (p pre cs : list string).

Lemma walk_app ns cur cs1 cs2 :
  walk ns cur (cs1 ++ cs2) = walk ns cur cs1 ≫= λ p, walk ns p cs2.
Proof.
  revert cur. induction cs1 as [|c cs1 IH]; intros cur; [done|]. cbn.
  destruct (ns !! cur) as [[]|]; try done. by repeat case_decide.
Qed.

Lemma walk_name ns cur c :
  valid_name c →
  walk ns cur [c] = match ns !! cur with
                    | Some (Dir _) => Ok (cur ++ [c])
                    | Some _ => Err ENOTDIR
                    | None => Err ENOENT
                    end.
Proof.
  intros (_ & ? & ? & _). cbn. destruct (ns !! cur) as [[]|]; try done.
  by rewrite !decide_False.
Qed.

Lemma walk_names ns cur cs p : Forall valid_name cs → walk ns cur cs = Ok p → p = cur ++ cs.
Proof.
  intros Hcs. revert cur. induction Hcs as [|c cs (_ & ? & ? & _) _ IH]; intros cur; cbn.
  - intros [= <-]. by rewrite app_nil_r.
  - destruct (ns !! cur) as [[]|]; try done. rewrite !decide_False by done.
    intros ->%IH. by rewrite <-app_assoc.
Qed.

(** In a well-formed tree everything above an entry is a directory. *)
Lemma wf_above_dir w p q :
  fs_wf w → is_Some (nodes w !! (p ++ q)) → q ≠ [] → is_dir (nodes w) p = true.
Proof.
  intros Hwf. induction q as [|c q IH] using rev_ind; [done|]. intros Hs _.
  rewrite app_assoc in Hs. apply (wf_parent _ Hwf) in Hs.
  destruct q as [|c' q]; [by rewrite app_nil_r in Hs|].
  apply IH; [by apply is_dir_is_Some|done].
Qed.

Lemma wf_above_Some w p q : fs_wf w → is_Some (nodes w !! (p ++ q)) → is_Some (nodes w !! p).
Proof.
  intros Hwf Hs. destruct q as [|c q]; [by rewrite app_nil_r in Hs|].
  eapply is_dir_is_Some, wf_above_dir; done.
Qed.

Lemma wf_below_None w p q : fs_wf w → nodes w !! p = None → nodes w !! (p ++ q) = None.
Proof.
  intros Hwf Hp. apply eq_None_not_Some. intros Hs%wf_above_Some; [|done].
  rewrite Hp in Hs. by apply is_Some_None in Hs.
Qed.

Lemma walk_exists w cur cs :
  fs_wf w → is_Some (nodes w !! (cur ++ cs)) → walk (nodes w) cur cs = Ok (cur ++ cs).
Proof.
  intros Hwf Hs. pose proof (wf_path_valid w _ Hwf Hs) as [_ Hcs]%Forall_app.
  revert cur Hs. induction Hcs as [|c cs Hc _ IH]; intros cur Hs.
  { by rewrite app_nil_r. }
  destruct Hc as (_ & ? & ? & _).
  assert (is_dir (nodes w) cur = true) as [pm Hcur]%is_dir_true.
  { by eapply wf_above_dir. }
  rewrite (walk_dir_step _ _ _ _ _ Hcur), !decide_False by done.
  rewrite cons_middle, app_assoc in Hs. rewrite IH by done. by rewrite <-app_assoc.
Qed.

Lemma namei_render w cs :
  Forall valid_name cs → namei w (render_path cs) false = walk (nodes w) [] cs.
Proof.
  intros Hcs. unfold namei, walk_from.
  assert (Forall clean_name cs) by (eapply Forall_impl; [exact Hcs|apply valid_name_clean]).
  rewrite c_str_render.
  2:{ eapply Forall_impl; [exact Hcs|]. by intros c (_ & _ & _ & _ & ?). }
  rewrite decide_False by apply render_path_nonempty.
  rewrite is_absolute_render, components_render by done. by destruct (walk _ _ _).
Qed.

(** [mkdir] of a rendered path whose parent is a directory. *)
Lemma sys_mkdir_render w pre c pm :
  fs_wf w → Forall valid_name (pre ++ [c]) → nodes w !! pre = Some (Dir pm) →
  sys_mkdir w (render_path (pre ++ [c])) =
    match nodes w !! (pre ++ [c]) with
    | Some _ => Err EEXIST
    | None =>
      if p_write pm then Ok (with_nodes w (<[pre ++ [c] := Dir perm_rwx]> (nodes w)))
      else Err EACCES
    end.
Proof.
  intros Hwf Hv Hpre. pose proof Hv as [Hvp Hvc%Forall_inv]%Forall_app.
  unfold sys_mkdir. rewrite namei_render, walk_app by done.
  rewrite (walk_exists w [] pre) by (by rewrite ?Hpre). cbn [mbind result_bind].
  change ([] ++ pre) with pre.
  rewrite walk_name, Hpre by done. cbn. destruct (nodes w !! (pre ++ [c])); [done|].
  unfold can_create. rewrite parent_snoc, Hpre.
  destruct (pre ++ [c]) eqn:E; [by destruct pre|]. by destruct (p_write pm).
Qed.

(** ... and of one whose parent is not: the call fails, and not with
    [EEXIST]. *)
Lemma sys_mkdir_render_nodir w pre c :
  Forall valid_name (pre ++ [c]) → is_dir (nodes w) pre = false →
  ∃ e, sys_mkdir w (render_path (pre ++ [c])) = Err e ∧ e ≠ EEXIST.
Proof.
  intros Hv Hpre. pose proof Hv as [Hvp Hvc%Forall_inv]%Forall_app.
  unfold sys_mkdir. rewrite namei_render, walk_app by done.
  destruct (walk (nodes w) [] pre) as [p|e] eqn:Hw; cbn [mbind result_bind].
  - apply walk_names in Hw as ->; [|done]. change ([] ++ pre) with pre.
    rewrite walk_name by done.
    unfold is_dir in Hpre. destruct (nodes w !! pre) as [[]|]; try done; cbn; eauto.
  - exists e. split; [done|]. by eapply walk_Err.
Qed.

(** A canonical path names the entry it was computed from, with no link
    left to follow. *)
Lemma lookup_node_canonical w p n flw :
  fs_wf w → nodes w !! p = Some n → (∀ t, n ≠ Symlink t) →
  lookup_node w (render_path p) flw = Ok (p, n).
Proof.
  intros Hwf Hn Hl. apply lookup_node_Ok. split; [|done]. unfold namei.
  pose proof (namei_render w p (wf_path_valid w p Hwf (mk_is_Some _ _ Hn))) as E.
  unfold namei in E. rewrite (walk_exists w [] p) in E by (by rewrite ?Hn).
  destruct (walk_from _ _ _) as [q|]; [|done]. cbn in *. injection E as ->.
  destruct flw; [|done]. apply follow_nonlink. intros t. rewrite Hn. intros [= ->]. by eapply Hl.
Qed.

Lemma lookup_node_follow_nonlink w path p n t :
  lookup_node w path true = Ok (p, n) → n ≠ Symlink t.
Proof.
  intros [(q & Hw & Hf)%result_bind_Ok Hn]%lookup_node_Ok ->.
  by eapply follow_not_link.
Qed.

End rendered.
