(* ===== verification/PosixProcess.v ===== *)
(** * The process environment

    What the process-context calls of the sources rely on, beside the file
    tree of [Posix]: the working directory as [getcwd] reports it, the
    array [environ] and [getenv], the argument vector, the user and group
    identities with the password and group databases, and the auxiliary
    vector entry [AT_EXECFN].  No line of the sources is translated here.

    Assumptions: [getcwd] fails with [EINVAL] for a size of zero and with
    [ERANGE] for a buffer that cannot hold the path and its terminator;
    [getenv] returns the value of the first entry of [environ] that
    consists of the name, an equals sign and the value, and nothing for an
    empty name; [uid_t] and [gid_t] are unsigned 32-bit integers; an
    entry of [environ] has no NUL inside and is no longer than a
    [std::string] can be ([process_wf]). *)

From Stdlib Require Import ZArith Lia Ascii.
From stdpp Require Import gmap strings list.
From S2P Require Import Prelude StdString Posix.

Open Scope Z_scope.

Definition EQUALS : ascii := "="%char.

(** [struct passwd] and [struct group]: the members the sources read, each
    a pointer that may be null. *)
Record passwd : Type := Passwd { pw_name : option string; pw_dir : option string }.
Record group : Type := Group { gr_name : option string }.

Record process : Type := Process {
  proc_cwd : string;
  proc_environ : list string;
  proc_argv : list string;
  proc_uid : Z;
  proc_gid : Z;
  proc_passwd : gmap Z passwd;
  proc_group : gmap Z group;
  proc_execfn : option string;
}.

Definition with_environ (p : process) (env : list string) : process :=
  Process (proc_cwd p) env (proc_argv p) (proc_uid p) (proc_gid p)
    (proc_passwd p) (proc_group p) (proc_execfn p).

Definition with_passwd (p : process) (db : gmap Z passwd) : process :=
  Process (proc_cwd p) (proc_environ p) (proc_argv p) (proc_uid p) (proc_gid p)
    db (proc_group p) (proc_execfn p).

(** An entry of [environ] of the form [name=value]. *)
Definition env_entry (entry : string) : bool := str_mem EQUALS entry.

Definition process_wf (p : process) : Prop :=
  0 ≤ proc_uid p < 2 ^ 32 ∧ 0 ≤ proc_gid p < 2 ^ 32 ∧
  Forall (λ e, str_mem NUL e = false ∧ fits e) (proc_environ p).

#[global] Instance process_wf_dec p : Decision (process_wf p).
Proof. unfold process_wf. apply _. Defined.

(** ** Calls *)

Definition sys_getcwd (p : process) (size : Z) : result string :=
  if decide (size = 0) then Err EINVAL
  else if decide (size < Z.of_nat (String.length (proc_cwd p)) + 1) then Err ERANGE
  else Ok (proc_cwd p).

(** The value of [entry] when it is an entry for [name]. *)
Definition env_value (name entry : string) : option string :=
  if starts_with (name +:+ "=") entry
  then Some (str_drop (String.length name + 1) entry)
  else None.

Definition getenv (p : process) (name : string) : option string :=
  let name := c_str name in
  if decide (name = "") then None
  else head (omap (env_value name) (proc_environ p)).

Definition getuid (p : process) : Z := proc_uid p.
Definition getgid (p : process) : Z := proc_gid p.
Definition getpwuid (p : process) (uid : Z) : option passwd := proc_passwd p !! uid.
Definition getgrgid (p : process) (gid : Z) : option group := proc_group p !! gid.

(** [getauxval (AT_EXECFN)]. *)
Definition getauxval_execfn (p : process) : option string := proc_execfn p.

(** ** Lemmas *)

Section process.
Implicit Types (p : process) (name value entry : string).

Lemma sys_getcwd_zero p : sys_getcwd p 0 = Err EINVAL.
Proof. done. Qed.

Lemma sys_getcwd_Ok p size s :
  sys_getcwd p size = Ok s ↔ s = proc_cwd p ∧ Z.of_nat (String.length s) < size.
Proof.
  unfold sys_getcwd. repeat case_decide; split; try done.
  - intros [-> ?]. lia.
  - intros [-> ?]. lia.
  - intros [= <-]. split; [done|lia].
  - by intros [-> _].
Qed.

Lemma env_prefix_app name rest : (name +:+ "=") +:+ rest = name +:+ String EQUALS rest.
Proof. by rewrite str_app_assoc. Qed.

Lemma env_value_entry name value : env_value name (name +:+ String EQUALS value) = Some value.
Proof.
  unfold env_value. rewrite <-(env_prefix_app name value), starts_with_app.
  rewrite str_drop_app; [done|]. rewrite str_app_length. cbn. lia.
Qed.

(** An entry for another name has no value for [name]. *)
Lemma env_value_other name name' value :
  str_mem EQUALS name = false → str_mem EQUALS name' = false → name ≠ name' →
  env_value name (name' +:+ String EQUALS value) = None.
Proof.
  intros Hn Hn' Hne. unfold env_value.
  destruct (starts_with _ _) eqn:E; [|done]. exfalso. apply Hne.
  apply starts_with_spec in E as [rest E]. rewrite env_prefix_app in E.
  pose proof (f_equal (find EQUALS) E) as Hlen. rewrite !find_first in Hlen by done.
  apply (f_equal (str_take (String.length name))) in E.
  rewrite (str_take_app _ name) in E by done.
  rewrite str_take_app in E by lia. done.
Qed.

(** An entry without an equals sign has no value for any name. *)
Lemma env_value_malformed name entry : env_entry entry = false → env_value name entry = None.
Proof.
  intros He. unfold env_value. destruct (starts_with _ _) eqn:E; [|done].
  apply starts_with_spec in E as [rest ->]. rewrite env_prefix_app in He.
  unfold env_entry in He. rewrite str_mem_app in He. cbn in He.
  rewrite bool_decide_eq_true_2 in He by done. by rewrite orb_true_r in He.
Qed.

End process.
