(* ===== verification/PosixRename.v ===== *)
(** * [rename] and [chmod]

    The two calls that writing a file in one step needs beside those of
    [Posix]: the file is written under another name, given its mode and
    moved to its place.  [DefaultFilesystem.cpp] has neither call; this
    file translates no line of the repository.

    What the model assumes, beside the assumptions of [Posix]:

    - [rename] moves an entry that is no directory; an entry at the new
      name, unless it is a directory, is replaced in the same step, so
      that the new name never names nothing; renaming an entry to itself
      does nothing; a directory is refused ([EINVAL]);
    - [rename] needs write permission on the directories of both names;
    - [chmod] sets the three bits of the caller on a file or directory
      that it names, following links; the caller owns every entry. *)

From Stdlib Require Import ZArith Lia.
From stdpp Require Import gmap strings list.
From S2P Require Import Prelude Posix.

(** ** The calls *)

Definition sys_rename (w : world) (old new : string) : result world :=
  '(po, n) ← lookup_node w old false;
  pn ← namei w new false;
  if decide (po = pn) then Ok w
  else
    match n with
    | Dir _ => Err EINVAL
    | _ =>
      _ ← can_create w po;
      match nodes w !! pn with
      | Some (Dir _) => Err EISDIR
      | _ =>
        _ ← can_create w pn;
        Ok (World (<[pn := n]> (delete po (nodes w))) (cwd w)
                  (space w + size_at (nodes w) pn))
      end
    end.

Definition with_perm (n : node) (pm : perm) : node :=
  match n with
  | File d _ => File d pm
  | Dir _ => Dir pm
  | Symlink t => Symlink t
  end.

Definition sys_chmod (w : world) (s : string) (pm : perm) : result world :=
  '(p, n) ← lookup_node w s true;
  match n with
  | Symlink _ => Err ELOOP
  | _ => Ok (with_nodes w (<[p := with_perm n pm]> (nodes w)))
  end.

(** * Lemmas *)

Section replace.
Implicit Types (w : world) (s : string) (p q : list string) (n : node).

(** Putting a node of the same type where a node is keeps the tree well
    formed. *)
Lemma fs_wf_same_type w p n0 n sp :
  fs_wf w → nodes w !! p = Some n0 → node_type n = node_type n0 →
  fs_wf (World (<[p := n]> (nodes w)) (cwd w) sp).
Proof.
  intros [Hr Hp Hn Hc] H0 Hty.
  assert (∀ q, is_dir (<[p := n]> (nodes w)) q = is_dir (nodes w) q) as Hd.
  { intros q. unfold is_dir. destruct (decide (p = q)) as [<-|];
      [rewrite lookup_insert_eq, H0; by destruct n, n0|by rewrite lookup_insert_ne]. }
  assert (∀ q, is_Some (<[p := n]> (nodes w) !! q) → is_Some (nodes w !! q)) as Hs.
  { intros q. destruct (decide (p = q)) as [<-|]; [by rewrite H0|by rewrite lookup_insert_ne]. }
  split; cbn; [by rewrite Hd| | |done].
  - intros q c ?%Hs. rewrite Hd. eauto.
  - intros q c ?%Hs. eauto.
Qed.

(** Putting a node that is no directory where no directory is keeps the
    tree well formed, when the place is taken or can be. *)
Lemma fs_wf_insert_nondir w p n sp :
  fs_wf w → is_dir (nodes w) p = false → node_type n ≠ S_IFDIR →
  can_create w p = Ok () → Forall valid_name p →
  fs_wf (World (<[p := n]> (nodes w)) (cwd w) sp).
Proof.
  intros Hwf Hd Hn Hc Hv. destruct Hwf as [Hr Hp Hnm Hcw].
  apply can_create_Ok in Hc as [Hne Hpar].
  assert (∀ q, is_dir (<[p := n]> (nodes w)) q = is_dir (nodes w) q) as Hdq.
  { intros q. unfold is_dir in *. destruct (decide (p = q)) as [<-|];
      [rewrite lookup_insert_eq, Hd; by destruct n|by rewrite lookup_insert_ne]. }
  split; cbn; [by rewrite Hdq| | |done].
  - intros q c. rewrite Hdq. destruct (decide (p = q ++ [c])) as [->|].
    + intros _. by rewrite parent_snoc in Hpar.
    + rewrite lookup_insert_ne by done. apply Hp.
  - intros q c. destruct (decide (p = q ++ [c])) as [->|].
    + intros _. apply Forall_app in Hv as [_ Hv]. by inversion Hv.
    + rewrite lookup_insert_ne by done. apply Hnm.
Qed.

End replace.

Section calls.
Implicit Types (w : world) (s old new : string) (p q po pn : list string) (n : node).

(** What [rename] does when it succeeds. *)
Lemma sys_rename_Ok w old new w' :
  sys_rename w old new = Ok w' ↔
  ∃ po pn n, lookup_node w old false = Ok (po, n) ∧ namei w new false = Ok pn ∧
    ((po = pn ∧ w' = w) ∨
     (po ≠ pn ∧ node_type n ≠ S_IFDIR ∧ is_dir (nodes w) pn = false
      ∧ can_create w po = Ok () ∧ can_create w pn = Ok ()
      ∧ w' = World (<[pn := n]> (delete po (nodes w))) (cwd w)
                   (space w + size_at (nodes w) pn))).
Proof.
  unfold sys_rename. split.
  - intros ([po n] & Hl & (pn & Hn & H)%result_bind_Ok)%result_bind_Ok.
    exists po, pn, n. split_and!; [done..|]. case_decide; [left; by simplify_eq|right].
    destruct n; try done; apply result_bind_Ok in H as ([] & Hc & H);
      unfold is_dir; destruct (nodes w !! pn) as [[]|] eqn:E; try done;
      apply result_bind_Ok in H as ([] & Hc' & [= <-]); by rewrite ?E.
  - intros (po & pn & n & -> & Hn & H). cbn. rewrite Hn. cbn.
    destruct H as [[-> ->]|(Hne & Hty & Hd & Hc & Hc' & ->)]; [by rewrite decide_True|].
    rewrite decide_False by done. unfold is_dir in Hd.
    destruct n; try done; rewrite Hc; cbn;
      destruct (nodes w !! pn) as [[]|]; try done; by rewrite Hc'.
Qed.

(** [rename] keeps the tree well formed. *)
Lemma sys_rename_wf w old new w' : fs_wf w → sys_rename w old new = Ok w' → fs_wf w'.
Proof.
  intros Hwf (po & pn & n & [Hpo Hn]%lookup_node_Ok & Hpn & H)%sys_rename_Ok.
  destruct H as [[_ ->]|(Hne & Hty & Hd & Hc & Hc' & ->)]; [done|].
  pose proof (fs_wf_delete w po n (space w) Hwf Hn Hty) as Hwf1.
  assert (is_dir (nodes w) po = false) as Hdo by (unfold is_dir; rewrite Hn; by destruct n).
  set (w1 := World (delete po (nodes w)) (cwd w) (space w)) in *.
  change (fs_wf (World (<[pn := n]> (nodes w1)) (cwd w1) (space w + size_at (nodes w) pn))).
  apply fs_wf_insert_nondir;
    [done|by cbn; rewrite is_dir_delete_nondir|done| |exact (namei_valid _ _ _ _ Hwf Hpn)].
  unfold can_create in *. cbn. destruct pn as [|c pn]; [done|].
  rewrite lookup_delete_ne; [done|]. intros E. rewrite <-E, Hn in Hc'. by destruct n.
Qed.

(** [chmod] of a regular file. *)
Lemma sys_chmod_file w s p d pm0 pm :
  lookup_node w s true = Ok (p, File d pm0) →
  sys_chmod w s pm = Ok (with_nodes w (<[p := File d pm]> (nodes w))).
Proof. unfold sys_chmod. by intros ->. Qed.

Lemma sys_chmod_wf w s pm w' : fs_wf w → sys_chmod w s pm = Ok w' → fs_wf w'.
Proof.
  unfold sys_chmod. intros Hwf ([p n] & [_ Hn]%lookup_node_Ok & H)%result_bind_Ok.
  destruct n; simplify_eq; by eapply fs_wf_same_type.
Qed.

End calls.
