(* ===== verification/DefaultFilesystem.v ===== *)
(** * [libutil::DefaultFilesystem]

    One definition per method of
    [src/Libraries/libutil/Sources/DefaultFilesystem.cpp] (the branches
    that are not [_WIN32]), over the system calls of [Posix].  A method
    that changes the file system returns the new [world] beside its
    result; [read] can throw and returns an [outcome]. *)

From Stdlib Require Import ZArith Lia Ascii.
From stdpp Require Import gmap strings list.
From S2P Require Import Prelude Posix.

Open Scope Z_scope.

(** ** Queries *)

Definition exists_ (w : world) (path : string) : bool :=
  is_ok (sys_access w (c_str path) F_OK).

Definition isDirectory (w : world) (path : string) : bool :=
  match sys_stat w (c_str path) with
  | Err _ => false
  | Ok st => bool_decide (st = S_IFDIR)
  end.

Definition isSymbolicLink (w : world) (path : string) : bool :=
  match sys_lstat w (c_str path) with
  | Err _ => false
  | Ok st => bool_decide (st = S_IFLNK)
  end.

Definition isReadable (w : world) (path : string) : bool :=
  is_ok (sys_access w (c_str path) R_OK).

Definition isWritable (w : world) (path : string) : bool :=
  is_ok (sys_access w (c_str path) W_OK).

Definition isExecutable (w : world) (path : string) : bool :=
  is_ok (sys_access w (c_str path) X_OK).

(** ** Files *)

Definition createFile (w : world) (path : string) : bool * world :=
  if isWritable w path then (true, w)
  else
    match fopen_w w (c_str path) with
    | Err _ => (false, w)
    | Ok (_, w') => (true, w')
    end.

(** [contents] is the vector the caller passes by pointer: the second
    component of the result is what it holds afterwards. *)
Definition read (w : world) (contents : list byte) (path : string)
    (offset : Z) (length : option Z) : outcome (bool * list byte) :=
  match fopen_r w (c_str path) with
  | Err _ => Done (false, contents)
  | Ok fp =>
    match fseek fp 0 SEEK_END with
    | None => Done (false, contents)
    | Some fp =>
      let size := ftell fp in
      if decide (size = -1) then Done (false, contents)
      else
        let checked :=
          match length with
          | Some len =>
            if decide (size_add offset len > to_size_t size) then None
            else Some (to_long len)
          | None => Some size
          end in
        match checked with
        | None => Done (false, contents)
        | Some size =>
          match fseek fp (to_long offset) SEEK_SET with
          | None => Done (false, contents)
          | Some fp =>
            buf ← vector_alloc size;
            if decide (size > 0) then
              let '(n, got) := fread1 fp (to_size_t size) in
              let filled := got ++ drop (List.length got) buf in
              if decide (n = 1) then Done (true, filled) else Done (false, filled)
            else Done (true, buf)
          end
        end
    end
  end.

Definition write (w : world) (contents : list byte) (path : string) : bool * world :=
  match fopen_w w (c_str path) with
  | Err _ => (false, w)
  | Ok (fp, w1) =>
    let size := Z.of_nat (List.length contents) in
    if decide (size > 0) then
      let '(n, w2) := fwrite1 w1 fp contents in
      if decide (n = 1) then (true, w2) else (false, w2)
    else (true, w1)
  end.

Definition removeFile (w : world) (path : string) : bool * world :=
  match sys_unlink w (c_str path) with
  | Ok w' => (true, w')
  | Err _ =>
    match sys_unlink w (c_str path) with
    | Ok w' => (true, w')
    | Err _ => (false, w)
    end
  end.

(** ** Symbolic links and canonical paths *)

Definition readSymbolicLink (w : world) (path : string) : option string :=
  match sys_readlink w (c_str path) (PATH_MAX - 1) with
  | Err _ => None
  | Ok buffer => Some (c_str buffer)
  end.

Definition writeSymbolicLink (w : world) (target path : string) : bool * world :=
  match sys_symlink w (c_str target) (c_str path) with
  | Err _ => (false, w)
  | Ok w' => (true, w')
  end.

Definition resolvePath (w : world) (path : string) : string :=
  match sys_realpath w (c_str path) with
  | Err _ => ""
  | Ok realPath => c_str realPath
  end.

(** ** Directories *)

(** The callback is a function on the state its closure captures. *)
Definition enumerateDirectory {S : Type} (w : world) (path : string)
    (cb : string → S → S) (st : S) : bool * S :=
  match sys_opendir w (c_str path) with
  | Err _ => (false, st)
  | Ok entries =>
    (true,
     foldl (λ st name,
              if bool_decide (name ≠ ".") && bool_decide (name ≠ "..")
              then cb name st else st)
           st entries)
  end.

Section directories.
Context (GetDirectoryName GetBaseName : string → string).

(** The first loop: the base names from the leaf up, and the path the
    walk stops at.  [None] when the fuel runs out. *)
Fixpoint split_components (fuel : nat) (current : string) (components : list string)
  : option (list string * string) :=
  if decide (current = GetDirectoryName current) then Some (components, current)
  else
    match fuel with
    | O => None
    | S fuel' =>
      split_components fuel' (GetDirectoryName current)
        (components ++ [GetBaseName current])
    end.

(** The second loop, over the components from the last pushed to the
    first: [first] tells the first iteration, which adds no slash. *)
Fixpoint make_directories (w : world) (current : string) (first : bool)
    (rcomponents : list string) : bool * world :=
  match rcomponents with
  | [] => (true, w)
  | component :: rest =>
    let current := if first then current else current +:+ "/" in
    let current := current +:+ component in
    match sys_mkdir w (c_str current) with
    | Ok w' => make_directories w' current false rest
    | Err e =>
      if decide (e ≠ EEXIST) then (false, w)
      else make_directories w current false rest
    end
  end.

Definition createDirectory (fuel : nat) (w : world) (path : string)
  : option (bool * world) :=
  '(components, current) ← split_components fuel path [];
  Some (make_directories w current true (reverse components)).

End directories.

(** * Specifications *)

(** What [createDirectory] promises on an absolute path, on the components
    of the path: [mkdir -p] below the directory [pre].  An entry that is
    already there is passed over, whatever it is; the call gives up where
    the directory to create in is missing, is not a directory or is not
    writable. *)
Fixpoint mkdir_p (w : world) (pre cs : list string) : bool * world :=
  match cs with
  | [] => (true, w)
  | c :: cs' =>
    match nodes w !! pre with
    | Some (Dir pm) =>
      match nodes w !! (pre ++ [c]) with
      | Some _ => mkdir_p w (pre ++ [c]) cs'
      | None =>
        if p_write pm
        then mkdir_p (with_nodes w (<[pre ++ [c] := Dir perm_rwx]> (nodes w))) (pre ++ [c]) cs'
        else (false, w)
      end
    | _ => (false, w)
    end
  end.

(** The tree with the chain of directories [cs] added below [pre]. *)
Fixpoint add_dirs (ns : gmap (list string) node) (pre cs : list string)
  : gmap (list string) node :=
  match cs with
  | [] => ns
  | c :: cs' => add_dirs (<[pre ++ [c] := Dir perm_rwx]> ns) (pre ++ [c]) cs'
  end.

(** * Theorems *)

(** The file [/a/f] of the tree the statements are run on. *)
Definition demo_ABC : list byte := [Byte.x41; Byte.x42; Byte.x43].

Lemma demo_file : lookup_node demo_world "/a/f" true = Ok (["a"; "f"], File demo_ABC perm_rw).
Proof. by vm_compute. Qed.

(** ** Queries and canonical paths *)

Section queries.
Implicit Types (w : world) (path : string) (p : list string).

Lemma isDirectory_spec w path :
  isDirectory w path = true ↔ ∃ p pm, lookup_node w path true = Ok (p, Dir pm).
Proof.
  unfold isDirectory, sys_stat. rewrite lookup_node_c_str.
  destruct (lookup_node w path true) as [[p n]|e]; cbn.
  - destruct n; split; try done; eauto; by intros (? & ? & [= ? ?]).
  - split; [done|]. by intros (? & ? & ?).
Qed.

Lemma exists_spec w path :
  exists_ w path = true ↔ ∃ p n, lookup_node w path true = Ok (p, n).
Proof.
  unfold exists_. rewrite sys_access_ok. setoid_rewrite lookup_node_c_str.
  split; [intros (p & n & ? & _)|intros (p & n & ?)]; eauto.
Qed.

(** What [isReadable], [isWritable], [isExecutable] or [isDirectory]
    accepts, [exists] accepts too. *)
Lemma queries_imply_exists w path :
  isReadable w path || isWritable w path || isExecutable w path || isDirectory w path = true →
  exists_ w path = true.
Proof.
  rewrite !orb_true_iff. intros [[[H|H]|H]|H].
  1-3: by eapply sys_access_F_OK.
  apply isDirectory_spec in H as (p & pm & H). apply exists_spec. eauto.
Qed.

Lemma resolvePath_Ok w path p n :
  lookup_node w path true = Ok (p, n) → Z.of_nat (String.length (render_path p)) < PATH_MAX →
  resolvePath w path = c_str (render_path p).
Proof.
  intros Hl Hlen. unfold resolvePath, sys_realpath. rewrite lookup_node_c_str, Hl. cbn.
  by rewrite decide_True.
Qed.

(** The path [resolvePath] returns names the entry that [path] leads
    to, and no symbolic link is left in it: looking it up without
    following links finds the same entry as looking [path] up following
    them. *)
Theorem resolvePath_same_entry w path p n :
  fs_wf w → lookup_node w path true = Ok (p, n) →
  Z.of_nat (String.length (render_path p)) < PATH_MAX →
  lookup_node w (resolvePath w path) false = Ok (p, n).
Proof.
  intros Hwf Hl Hlen. rewrite (resolvePath_Ok w path p n), lookup_node_c_str by done.
  apply lookup_node_canonical; [done|by apply lookup_node_Ok in Hl as [_ ?]|].
  intros t. by eapply lookup_node_follow_nonlink.
Qed.

(** [resolvePath] is idempotent on a well-formed tree: a resolved
    path resolves to itself, and the empty string that reports a failure
    is not resolved. *)
Theorem resolvePath_idempotent w path :
  fs_wf w → resolvePath w (resolvePath w path) = resolvePath w path.
Proof.
  intros Hwf. unfold resolvePath at 2 3. unfold sys_realpath. rewrite lookup_node_c_str.
  destruct (lookup_node w path true) as [[p n]|e] eqn:Hl; cbn; [|done].
  case_decide as Hlen; [|done].
  rewrite (resolvePath_Ok w _ p n); [done| |done].
  rewrite lookup_node_c_str.
  apply lookup_node_canonical; [done|by apply lookup_node_Ok in Hl as [_ ?]|].
  intros t. by eapply lookup_node_follow_nonlink.
Qed.

End queries.

Lemma resolvePath_same_entry_witness :
  lookup_node demo_world (resolvePath demo_world "/l") false
  = Ok (["a"; "f"], File demo_ABC perm_rw).
Proof.
  apply (resolvePath_same_entry demo_world "/l" ["a"; "f"] (File demo_ABC perm_rw) demo_world_wf);
    compute_done.
Defined.

Lemma resolvePath_idempotent_witness :
  resolvePath demo_world (resolvePath demo_world "l") = "/a/f".
Proof. rewrite (resolvePath_idempotent demo_world "l" demo_world_wf). compute_done. Defined.

(** ** Reading *)

Section read_file.
Context (w : world) (path : string) (p : list string) (d : list byte) (pm : perm).
Context (Hfile : lookup_node w path true = Ok (p, File d pm)).
Context (Hread : p_read pm = true).
Context (Hsize : Z.of_nat (length d) ≤ LONG_MAX).

Let size0 : Z := Z.of_nat (length d).

(** [read] once the stream is open and its size known. *)
Lemma read_opened c offset len :
  read w c path offset len =
    match
      match len with
      | Some len => if decide (size_add offset len > to_size_t size0) then None
                    else Some (to_long len)
      | None => Some size0
      end
    with
    | None => Done (false, c)
    | Some size =>
      match fseek (Stream d size0) (to_long offset) SEEK_SET with
      | None => Done (false, c)
      | Some fp =>
        buf ← vector_alloc size;
        if decide (size > 0) then
          let '(n, got) := fread1 fp (to_size_t size) in
          let filled := got ++ drop (length got) buf in
          if decide (n = 1) then Done (true, filled) else Done (false, filled)
        else Done (true, buf)
      end
    end.
Proof.
  unfold read. pose proof Hfile as Hf. rewrite <-lookup_node_c_str in Hf.
  rewrite (fopen_r_file _ _ _ _ _ Hf Hread), fseek_end. cbn.
  rewrite decide_False by lia. done.
Qed.

Lemma size0_size_t : to_size_t size0 = size0.
Proof.
  apply to_size_t_small. unfold is_size_t, size0, SIZE_MAX, LONG_MAX, size_bits in *. lia.
Qed.

(** C1.  Reading [len] bytes at [offset] of a readable regular file, when
    [offset + len] does not wrap: inside the file the call returns true
    with exactly those bytes; past its end it returns false and leaves the
    caller's vector as it was. *)
Theorem read_range c offset len :
  0 ≤ offset → 0 ≤ len → offset + len ≤ SIZE_MAX →
  read w c path offset (Some len) =
    Done (if decide (offset + len ≤ Z.of_nat (length d))
          then (true, take (Z.to_nat len) (drop (Z.to_nat offset) d))
          else (false, c)).
Proof.
  intros Ho Hl Hsum. rewrite read_opened, size0_size_t, size_add_no_overflow by done.
  fold size0. case_decide; [by rewrite decide_False by lia|].
  rewrite decide_True by lia. rewrite !to_long_small by lia.
  rewrite fseek_set by done. rewrite vector_alloc_small by lia. cbn.
  case_decide; [|by replace len with 0 by lia].
  rewrite to_size_t_small by (unfold is_size_t; lia).
  rewrite fread1_full by (unfold size0 in *; lia). cbn.
  rewrite decide_True, fill_exact; [done| |done].
  rewrite length_take, length_drop. unfold size0 in *. lia.
Qed.

(** Reading a whole readable file (offset zero, no length) returns
    true with its contents. *)
Lemma read_whole c : read w c path 0 None = Done (true, d).
Proof.
  rewrite read_opened. rewrite to_long_small by (unfold LONG_MAX, size_bits; lia).
  rewrite fseek_set by done. rewrite vector_alloc_small by (unfold size0; lia). cbn.
  case_decide as Hpos.
  - rewrite size0_size_t, fread1_full by (unfold size0 in *; lia). cbn.
    unfold size0. rewrite Nat2Z.id, drop_0, take_ge, decide_True by done.
    by rewrite fill_exact.
  - unfold size0 in *. by destruct d.
Qed.

(** C27.  A positive offset with no length never succeeds on a file that
    is not empty: the call asks [fread] for the whole size of the file from
    [offset] on, which the stream cannot supply.  It returns false, and
    the caller's vector holds the tail of the file padded with zeros. *)
Theorem read_offset_without_length c offset :
  0 < offset ≤ LONG_MAX → d ≠ [] →
  read w c path offset None =
    Done (false, drop (Z.to_nat offset) d ++
                 replicate (length d - length (drop (Z.to_nat offset) d)) Byte.x00).
Proof.
  intros Ho Hd. rewrite read_opened, to_long_small by lia.
  rewrite fseek_set by lia. rewrite vector_alloc_small by (unfold size0; lia). cbn.
  assert (0 < size0) by (unfold size0; destruct d; [done|cbn; lia]).
  rewrite decide_True by lia. rewrite size0_size_t.
  rewrite fread1_short by (unfold size0 in *; lia). cbn.
  unfold size0. by rewrite decide_False, Nat2Z.id, fill_short.
Qed.

(** C26.  When [offset + len] wraps around [2^64] the bound check compares
    the wrapped sum.  If the check passes and [offset] fits a [long], the
    length is read as a negative [long] and the allocation of the vector
    throws; otherwise the call returns false.  It never returns true. *)
Theorem read_length_overflow c offset len :
  is_size_t offset → is_size_t len → SIZE_MAX < offset + len →
  read w c path offset (Some len) =
    if decide (offset + len - 2 ^ size_bits ≤ Z.of_nat (length d) ∧ offset ≤ LONG_MAX)
    then Fault LengthError else Done (false, c).
Proof.
  intros Ho Hl Hsum. rewrite read_opened, size0_size_t, size_add_overflow by done.
  fold size0. unfold is_size_t in *.
  destruct (decide (offset + len - 2 ^ size_bits > size0)).
  { by rewrite decide_False by lia. }
  destruct (decide (offset ≤ LONG_MAX)).
  - rewrite decide_True by lia. rewrite (to_long_small offset), fseek_set by lia.
    assert (LONG_MAX < len ≤ SIZE_MAX) as Hlen.
    { unfold SIZE_MAX, LONG_MAX, size_bits in *. lia. }
    rewrite vector_alloc_negative; [done|]. rewrite to_long_high by done.
    unfold SIZE_MAX, LONG_MAX, size_bits in *. lia.
  - rewrite decide_False by lia.
    by rewrite fseek_set_negative by (apply to_long_high_neg; lia).
Qed.

End read_file.

Lemma read_range_witness :
  read demo_world [] "/a/f" 1 (Some 2) = Done (true, [Byte.x42; Byte.x43]).
Proof.
  refine (read_range demo_world "/a/f" ["a"; "f"] demo_ABC perm_rw demo_file _ _ [] 1 2 _ _ _);
    by vm_compute.
Defined.

Lemma read_offset_without_length_witness :
  read demo_world [] "/a/f" 1 None = Done (false, [Byte.x42; Byte.x43; Byte.x00]).
Proof.
  refine (read_offset_without_length demo_world "/a/f" ["a"; "f"] demo_ABC perm_rw
            demo_file _ _ [] 1 _ _); by vm_compute.
Defined.

Lemma read_length_overflow_witness :
  read demo_world [] "/a/f" 2 (Some (2 ^ 64 - 1)) = Fault LengthError.
Proof.
  refine (read_length_overflow demo_world "/a/f" ["a"; "f"] demo_ABC perm_rw
            demo_file _ _ [] 2 (2 ^ 64 - 1) _ _ _); by vm_compute.
Defined.

(** ** Writing *)

Section write_file.
Implicit Types (w : world) (path : string) (p : list string) (contents d : list byte).

Lemma write_closed w contents path e :
  fopen_w w (c_str path) = Err e → write w contents path = (false, w).
Proof. unfold write. by intros ->. Qed.

(** [write] on a path that opens: the result tells whether the contents
    fit the device, and the file holds what did fit. *)
Lemma write_opened w contents path p pm :
  opens_for_write w path p pm →
  let sp := (space w + size_at (nodes w) p)%nat in
  write w contents path =
    (bool_decide (length contents ≤ sp)%nat,
     World (<[p := File (take sp contents) pm]> (nodes w)) (cwd w)
           (sp - length (take sp contents))).
Proof.
  intros Ho sp. unfold opens_for_write in Ho. rewrite <-namei_c_str in Ho.
  unfold write. erewrite (proj2 (fopen_w_Ok _ _ _ _)) by eauto. cbn.
  case_decide as Hpos.
  - rewrite fwrite1_fresh. fold sp. cbn.
    destruct (decide (0 < length contents ≤ sp)%nat).
    + rewrite decide_True by done. by rewrite bool_decide_eq_true_2 by lia.
    + rewrite decide_False by done. by rewrite bool_decide_eq_false_2 by lia.
  - assert (contents = []) as -> by (apply nil_length_inv; lia). cbn.
    rewrite bool_decide_eq_true_2 by lia. by rewrite take_nil, Nat.sub_0_r.
Qed.

Lemma write_cases w contents path :
  (∃ e, fopen_w w (c_str path) = Err e) ∨ ∃ p pm, opens_for_write w path p pm.
Proof.
  destruct (fopen_w w (c_str path)) as [[p w1]|e] eqn:E; [right|by eauto].
  apply fopen_w_Ok in E as (pm & Ho & _). unfold opens_for_write in *.
  rewrite namei_c_str in Ho. eauto.
Qed.

Lemma write_then_read w w' contents path c :
  write w contents path = (true, w') →
  isReadable w' path = true →
  Z.of_nat (length contents) ≤ LONG_MAX →
  read w' c path 0 None = Done (true, contents).
Proof.
  intros Hw Hr Hlen.
  destruct (write_cases w contents path) as [[e He]|(p & pm & Ho)].
  { rewrite (write_closed _ _ _ _ He) in Hw. done. }
  rewrite (write_opened _ _ _ _ _ Ho) in Hw. injection Hw as Hfit <-.
  apply bool_decide_eq_true in Hfit. rewrite take_ge in * by done.
  pose proof (lookup_node_written w path p pm contents
                (space w + size_at (nodes w) p - length contents) Ho) as Hl.
  eapply read_whole; [done| |done].
  unfold isReadable, sys_access in Hr. rewrite lookup_node_c_str, Hl in Hr.
  cbn in Hr. by destruct (p_read pm).
Qed.

(** C2.  Round trip: what [write] has stored under a path, [read] returns
    from it, provided the file can be read and its size fits a [long]; and
    the path then exists. *)
Theorem write_read_back w w' contents path c :
  write w contents path = (true, w') →
  isReadable w' path = true →
  Z.of_nat (length contents) ≤ LONG_MAX →
  read w' c path 0 None = Done (true, contents) ∧ exists_ w' path = true.
Proof.
  intros Hw Hr Hlen. split; [by eapply write_then_read|].
  by eapply sys_access_F_OK.
Qed.

(** C28.  [write] is not atomic: when the new contents do not fit the
    device, the call returns false and the file that was there before holds
    a proper prefix of the new contents.  The old contents are lost. *)
Theorem write_failure_truncates w contents path p old pm :
  lookup_node w path true = Ok (p, File old pm) → p_write pm = true →
  (space w + length old < length contents)%nat →
  ∃ w', write w contents path = (false, w') ∧
        nodes w' !! p = Some (File (take (space w + length old) contents) pm).
Proof.
  intros [Hn Hp]%lookup_node_Ok Hw Hbig.
  assert (opens_for_write w path p pm) as Ho by (unfold opens_for_write; eauto 10).
  rewrite (write_opened _ _ _ _ _ Ho). unfold size_at. rewrite Hp. cbn.
  rewrite bool_decide_eq_false_2 by lia. eexists. split; [done|]. cbn.
  by rewrite lookup_insert_eq.
Qed.

(** [write] changes the one file it opens: every other path holds
    what it held. *)
Theorem write_frame w contents path p pm q :
  opens_for_write w path p pm → q ≠ p →
  nodes (write w contents path).2 !! q = nodes w !! q.
Proof.
  intros Ho Hq. rewrite (write_opened _ _ _ _ _ Ho). cbn. by rewrite lookup_insert_ne.
Qed.

(** [write] keeps the tree well formed. *)
Lemma write_wf w contents path : fs_wf w → fs_wf (write w contents path).2.
Proof.
  intros Hwf. destruct (write_cases w contents path) as [[e He]|(p & pm & Ho)].
  { by rewrite (write_closed _ _ _ _ He). }
  rewrite (write_opened _ _ _ _ _ Ho). cbn.
  destruct Ho as (Hn & _ & [(Hfree & Hc & ->)|[d Hd]]).
  - apply fs_wf_insert_new; [done..|by eapply namei_valid].
  - by eapply fs_wf_update_file.
Qed.

End write_file.

Lemma write_read_back_witness :
  read (write demo_world [Byte.x31; Byte.x32] "/a/g").2 [] "/a/g" 0 None
  = Done (true, [Byte.x31; Byte.x32]) ∧
  exists_ (write demo_world [Byte.x31; Byte.x32] "/a/g").2 "/a/g" = true.
Proof.
  refine (write_read_back demo_world _ [Byte.x31; Byte.x32] "/a/g" [] _ _ _);
    by vm_compute.
Defined.

Lemma write_failure_truncates_witness :
  ∃ w', write demo_world (replicate 12 Byte.x31) "/a/f" = (false, w') ∧
        nodes w' !! ["a"; "f"] = Some (File (replicate 11 Byte.x31) perm_rw).
Proof.
  refine (write_failure_truncates demo_world (replicate 12 Byte.x31) "/a/f"
            ["a"; "f"] demo_ABC perm_rw demo_file _ _); by vm_compute.
Defined.

Lemma write_frame_witness :
  nodes (write demo_world [Byte.x31] "/a/f").2 !! ["a"; "ro"] = nodes demo_world !! ["a"; "ro"].
Proof.
  refine (write_frame demo_world [Byte.x31] "/a/f" ["a"; "f"] perm_rw ["a"; "ro"] _ _).
  - unfold opens_for_write. split_and!; [by vm_compute..|].
    right. exists demo_ABC. by vm_compute.
  - by vm_compute.
Defined.

(** ** Creating files *)

Section create_file.
Implicit Types (w : world) (path : string) (p q : list string) (d : list byte).

Lemma isWritable_spec w path :
  isWritable w path = true ↔
  ∃ p n, lookup_node w path true = Ok (p, n) ∧ p_write (node_perm n) = true.
Proof. unfold isWritable. rewrite sys_access_ok. by setoid_rewrite lookup_node_c_str. Qed.

(** The three ways [createFile] returns: the path was writable already;
    it could not be opened; or it was free and is now an empty file. *)
Lemma createFile_cases w path :
  (isWritable w path = true ∧ createFile w path = (true, w))
  ∨ (isWritable w path = false ∧ createFile w path = (false, w))
  ∨ (∃ p, isWritable w path = false ∧ opens_for_write w path p perm_rw ∧
          nodes w !! p = None ∧
          createFile w path = (true, World (<[p := File [] perm_rw]> (nodes w)) (cwd w) (space w))).
Proof.
  unfold createFile. destruct (isWritable w path) eqn:Hw; [by left|right].
  destruct (fopen_w w (c_str path)) as [[p w1]|e] eqn:E; [right|by left].
  apply fopen_w_Ok in E as (pm & Ho & ->). unfold opens_for_write in Ho.
  rewrite namei_c_str in Ho. destruct Ho as (Hn & Hpw & [(Hfree & Hc & ->)|[d Hd]]).
  - exists p. unfold opens_for_write, size_at. rewrite Hfree. cbn.
    rewrite Nat.add_0_r. eauto 10.
  - assert (isWritable w path = true) as Hw'; [|congruence].
    apply isWritable_spec. exists p, (File d pm). split; [by apply lookup_node_Ok|done].
Qed.

(** [createFile] never cuts or changes a file: whatever it returns,
    every regular file of the tree holds afterwards what it held before. *)
Theorem createFile_keeps_files w path q d pm :
  nodes w !! q = Some (File d pm) →
  nodes (createFile w path).2 !! q = Some (File d pm).
Proof.
  intros Hq. destruct (createFile_cases w path) as [[_ ->]|[[_ ->]|(p & _ & _ & Hp & ->)]];
    try done.
  cbn. rewrite lookup_insert_ne; [done|]. congruence.
Qed.

(** After [createFile] has returned true the path exists, and a
    second call returns true without changing anything. *)
Theorem createFile_exists_idempotent w w' path :
  createFile w path = (true, w') →
  exists_ w' path = true ∧ createFile w' path = (true, w').
Proof.
  intros Hc. assert (isWritable w' path = true) as Hw.
  { destruct (createFile_cases w path) as [[? H]|[[_ H]|(p & _ & Ho & _ & H)]];
      rewrite H in Hc; simplify_eq; [done|].
    apply isWritable_spec. eexists p, _. split; [by apply lookup_node_written|done]. }
  split; [by eapply sys_access_F_OK|]. unfold createFile. by rewrite Hw.
Qed.

(** [createFile] keeps the tree well formed. *)
Lemma createFile_wf w path : fs_wf w → fs_wf (createFile w path).2.
Proof.
  intros Hwf. destruct (createFile_cases w path) as [[_ ->]|[[_ ->]|(p & _ & Ho & Hp & ->)]];
    try done.
  destruct Ho as (Hn & _ & [(_ & Hc & _)|[d Hd]]); [|congruence].
  apply fs_wf_insert_new; [done..|by eapply namei_valid].
Qed.

End create_file.

Lemma createFile_keeps_files_witness :
  nodes (createFile demo_world "/a/ro").2 !! ["a"; "ro"]
  = Some (File [Byte.x58] (Perm true false false)).
Proof. refine (createFile_keeps_files demo_world "/a/ro" _ _ _ _). by vm_compute. Defined.

Lemma createFile_exists_idempotent_witness :
  exists_ (createFile demo_world "/a/new").2 "/a/new" = true ∧
  createFile (createFile demo_world "/a/new").2 "/a/new"
  = (true, (createFile demo_world "/a/new").2).
Proof. refine (createFile_exists_idempotent demo_world _ "/a/new" _). by vm_compute. Defined.

(** ** Removing files *)

Section remove_file.
Implicit Types (w : world) (path : string) (p q : list string).

(** The second [unlink] of [removeFile] cannot succeed where the first has
    failed: the method is one [unlink]. *)
Lemma removeFile_single_unlink w path :
  removeFile w path =
    match sys_unlink w (c_str path) with
    | Ok w' => (true, w')
    | Err _ => (false, w)
    end.
Proof. unfold removeFile. by destruct (sys_unlink w (c_str path)). Qed.

Lemma removeFile_true w w' path :
  removeFile w path = (true, w') ↔
  ∃ p n pm, lookup_node w path false = Ok (p, n) ∧ node_type n ≠ S_IFDIR ∧
            nodes w !! parent p = Some (Dir pm) ∧ p_write pm = true ∧
            w' = World (delete p (nodes w)) (cwd w) (space w + node_size n).
Proof.
  rewrite removeFile_single_unlink. setoid_rewrite <-(lookup_node_c_str w path).
  rewrite <-sys_unlink_Ok. destruct (sys_unlink w (c_str path)); split; congruence.
Qed.

(** After [removeFile] has returned true the path names nothing:
    it does not exist and is no symbolic link. *)
Theorem removeFile_gone w w' path :
  removeFile w path = (true, w') →
  exists_ w' path = false ∧ isSymbolicLink w' path = false.
Proof.
  intros (p & n & pm & [Hn Hp]%lookup_node_Ok & Hty & _ & _ & ->)%removeFile_true.
  assert (is_dir (nodes w) p = false) as Hd by (unfold is_dir; rewrite Hp; by destruct n).
  set (w' := World (delete p (nodes w)) (cwd w) (space w + node_size n)).
  assert (namei w' path false = Ok p) as Hn'.
  { eapply namei_kept; [by apply delete_kept|done|done|done]. }
  assert (lookup_node w' path true = Err ENOENT) as Hl.
  { unfold lookup_node, namei in *. apply result_bind_Ok in Hn' as (p1 & -> & [= ->]). cbn.
    rewrite follow_nonlink by (intros t; by rewrite lookup_delete_eq). cbn.
    by rewrite lookup_delete_eq. }
  split.
  - unfold exists_, sys_access. by rewrite lookup_node_c_str, Hl.
  - unfold isSymbolicLink, sys_lstat, lookup_node. rewrite namei_c_str, Hn'. cbn.
    by rewrite lookup_delete_eq.
Qed.

(** [removeFile] refuses a directory and changes nothing. *)
Theorem removeFile_directory w path p pm :
  lookup_node w path false = Ok (p, Dir pm) → removeFile w path = (false, w).
Proof.
  intros Hl. rewrite removeFile_single_unlink. unfold sys_unlink.
  by rewrite lookup_node_c_str, Hl.
Qed.

(** [removeFile] keeps the tree well formed and touches no other
    path. *)
Lemma removeFile_wf_frame w path :
  fs_wf w →
  fs_wf (removeFile w path).2 ∧
  ∀ p q n, lookup_node w path false = Ok (p, n) → q ≠ p →
           nodes (removeFile w path).2 !! q = nodes w !! q.
Proof.
  intros Hwf. destruct (removeFile w path) as [[] w'] eqn:E.
  - apply removeFile_true in E as (p & n & pm & Hl & Hty & _ & _ & ->). split.
    + apply lookup_node_Ok in Hl as [_ Hp]. by eapply fs_wf_delete.
    + intros p' q n' Hl' Hq. cbn. rewrite lookup_delete_ne; [done|]. congruence.
  - rewrite removeFile_single_unlink in E. destruct (sys_unlink w (c_str path)); by simplify_eq.
Qed.

End remove_file.

Lemma removeFile_gone_witness :
  exists_ (removeFile demo_world "/l").2 "/l" = false ∧
  isSymbolicLink (removeFile demo_world "/l").2 "/l" = false.
Proof. refine (removeFile_gone demo_world _ "/l" _). by vm_compute. Defined.

Lemma removeFile_directory_witness : removeFile demo_world "/a" = (false, demo_world).
Proof. refine (removeFile_directory demo_world "/a" ["a"] perm_rwx _). by vm_compute. Defined.

(** ** Symbolic links *)

Section symbolic_links.
Implicit Types (w : world) (path target : string) (p : list string).

Definition LINK_BUFFER : nat := Z.to_nat (PATH_MAX - 1).

Lemma readSymbolicLink_link w path p t :
  lookup_node w path false = Ok (p, Symlink t) →
  readSymbolicLink w path = Some (c_str (str_take LINK_BUFFER t)).
Proof.
  intros Hl. unfold readSymbolicLink, sys_readlink. by rewrite lookup_node_c_str, Hl.
Qed.

(** Round trip: the target that [writeSymbolicLink] has stored is
    what [readSymbolicLink] returns, when it is shorter than [PATH_MAX]. *)
Theorem symbolic_link_round_trip w w' target path :
  writeSymbolicLink w target path = (true, w') →
  Z.of_nat (String.length (c_str target)) < PATH_MAX →
  readSymbolicLink w' path = Some (c_str target).
Proof.
  unfold writeSymbolicLink. intros Hw Hlen.
  destruct (sys_symlink w (c_str target) (c_str path)) as [w1|] eqn:E; [|done].
  injection Hw as <-. apply sys_symlink_Ok in E as (_ & p & Hn & Hp & _ & ->).
  rewrite c_str_idemp, namei_c_str in *.
  rewrite (readSymbolicLink_link _ path p (c_str target)).
  - rewrite str_take_ge by (unfold LINK_BUFFER, PATH_MAX in *; lia). by rewrite c_str_idemp.
  - apply lookup_node_Ok. cbn. split; [|by rewrite lookup_insert_eq].
    eapply namei_kept; [by apply insert_new_kept|done|done|done].
Qed.

(** [readSymbolicLink] never returns more than [PATH_MAX - 1]
    characters: a longer target is cut to that length and returned as if it
    were whole. *)
Theorem readSymbolicLink_bound w path p t :
  lookup_node w path false = Ok (p, Symlink t) → str_mem NUL t = false →
  readSymbolicLink w path = Some (str_take LINK_BUFFER t) ∧
  (String.length (str_take LINK_BUFFER t) ≤ LINK_BUFFER)%nat.
Proof.
  intros Hl Hnul. rewrite (readSymbolicLink_link _ _ _ _ Hl). split.
  - by rewrite c_str_id by (by apply str_mem_take).
  - rewrite str_take_length. lia.
Qed.

End symbolic_links.

Lemma symbolic_link_round_trip_witness :
  readSymbolicLink (writeSymbolicLink demo_world "a/f" "/k").2 "/k" = Some "a/f".
Proof. refine (symbolic_link_round_trip demo_world _ "a/f" "/k" _ _); by vm_compute. Defined.

Lemma readSymbolicLink_bound_witness :
  readSymbolicLink demo_world "/l" = Some (str_take LINK_BUFFER "a/f") ∧
  (String.length (str_take LINK_BUFFER "a/f") ≤ LINK_BUFFER)%nat.
Proof. refine (readSymbolicLink_bound demo_world "/l" ["l"] "a/f" _ _); by vm_compute. Defined.

(** ** Enumerating a directory *)

Section enumerate.
Context {S : Type}.
Implicit Types (w : world) (path : string) (p : list string) (cb : string → S → S) (st : S).

(** C36.  On a readable directory of a well-formed tree,
    [enumerateDirectory] returns true after calling the callback exactly
    once for each entry of the directory, and for nothing else: the
    entries [.] and [..] are skipped. *)
Theorem enumerateDirectory_entries w path p pm cb st :
  fs_wf w → lookup_node w path true = Ok (p, Dir pm) → p_read pm = true →
  ∃ names, NoDup names ∧
           (∀ c, c ∈ names ↔ is_Some (nodes w !! (p ++ [c]))) ∧
           enumerateDirectory w path cb st = (true, foldl (λ st name, cb name st) st names).
Proof.
  intros Hwf Hl Hr. exists (children (nodes w) p).
  split_and!; [apply children_NoDup|apply elem_of_children|].
  unfold enumerateDirectory.
  rewrite (sys_opendir_dir w (c_str path) p pm) by (by rewrite ?lookup_node_c_str).
  cbn. f_equal.
  apply (foldl_filter_all (λ st name, cb name st)
           (λ name, bool_decide (name ≠ ".") && bool_decide (name ≠ ".."))).
  apply Forall_forall. intros c Hc%elem_of_children.
  destruct (wf_names w Hwf p c Hc) as (_ & ? & ? & _).
  by rewrite !bool_decide_eq_true_2.
Qed.

(** On a path that [isDirectory] rejects, [enumerateDirectory]
    returns false and the callback is not called. *)
Theorem enumerateDirectory_needs_directory w path cb st :
  isDirectory w path = false → enumerateDirectory w path cb st = (false, st).
Proof.
  unfold isDirectory, enumerateDirectory, sys_stat, sys_opendir.
  destruct (lookup_node w (c_str path) true) as [[p n]|e]; [|done]. cbn.
  destruct n; [done| |done]. by rewrite bool_decide_eq_true_2.
Qed.

End enumerate.

Lemma enumerateDirectory_entries_witness :
  ∃ names, NoDup names ∧
           (∀ c, c ∈ names ↔ is_Some (nodes demo_world !! (["a"] ++ [c]))) ∧
           enumerateDirectory demo_world "/a" cons []
           = (true, foldl (λ st name, name :: st) [] names).
Proof.
  refine (enumerateDirectory_entries demo_world "/a" ["a"] perm_rwx cons [] demo_world_wf _ _);
    by vm_compute.
Defined.

Lemma enumerateDirectory_needs_directory_witness :
  enumerateDirectory demo_world "/a/f" cons [] = (false, []).
Proof. apply enumerateDirectory_needs_directory. compute_done. Defined.

(** ** Creating directories *)

Section create_directory.
Context (GetDirectoryName GetBaseName : string → string).

Lemma split_components_fuel fuel fuel' current acc r :
  split_components GetDirectoryName GetBaseName fuel current acc = Some r →
  (fuel ≤ fuel')%nat →
  split_components GetDirectoryName GetBaseName fuel' current acc = Some r.
Proof.
  revert fuel' current acc. induction fuel as [|fuel IH]; intros fuel' current acc.
  - cbn. case_decide; [|done]. intros [= <-] _. destruct fuel'; cbn; by rewrite decide_True.
  - destruct fuel' as [|fuel']; [lia|]. cbn. case_decide; [done|].
    intros Hs ?. apply IH; [done|lia].
Qed.

(** C35.  The loop of [createDirectory] that walks up the path ends, and
    so the method returns: for any [GetDirectoryName] that makes a measure
    of the path smaller each time it changes the path, fuel equal to the
    measure of the path is enough. *)
Theorem createDirectory_terminates (measure : string → nat) fuel w path :
  (∀ s, s ≠ GetDirectoryName s → (measure (GetDirectoryName s) < measure s)%nat) →
  (measure path ≤ fuel)%nat →
  is_Some (createDirectory GetDirectoryName GetBaseName fuel w path).
Proof.
  intros Hm Hfuel. unfold createDirectory.
  enough (∀ acc, is_Some (split_components GetDirectoryName GetBaseName fuel path acc)) as H.
  { destruct (H []) as [[cs cur] ->]. by eexists. }
  revert path Hfuel. induction fuel as [|fuel IH]; intros path Hfuel acc; cbn.
  - case_decide as Hfix; [by eexists|]. specialize (Hm _ Hfix). lia.
  - case_decide as Hfix; [by eexists|]. specialize (Hm _ Hfix). apply IH. lia.
Qed.

Lemma make_directories_grows w current first rcomponents b w' :
  make_directories w current first rcomponents = (b, w') →
  nodes w ⊆ nodes w' ∧ (fs_wf w → fs_wf w').
Proof.
  revert w current first. induction rcomponents as [|c rest IH];
    intros w current first; cbn; [by intros [= _ <-]|].
  destruct (sys_mkdir w _) as [w1|e] eqn:E.
  - intros [Hsub Hwf]%IH. split; [|by eauto using sys_mkdir_wf].
    etrans; [by eapply sys_mkdir_grows|done].
  - case_decide; [by intros [= _ <-]|]. apply IH.
Qed.

Lemma createDirectory_wf fuel w path b w' :
  createDirectory GetDirectoryName GetBaseName fuel w path = Some (b, w') → fs_wf w → fs_wf w'.
Proof.
  unfold createDirectory.
  destruct (split_components _ _ fuel path []) as [[cs cur]|]; [|done]. cbn.
  intros [= H]. by eapply make_directories_grows.
Qed.

(** [createDirectory] only adds: every entry of the tree is still
    there, unchanged, whatever the call returns, and the tree stays well
    formed. *)
Theorem createDirectory_grows fuel w path b w' :
  createDirectory GetDirectoryName GetBaseName fuel w path = Some (b, w') →
  nodes w ⊆ nodes w' ∧ (fs_wf w → fs_wf w').
Proof.
  unfold createDirectory.
  destruct (split_components _ _ fuel path []) as [[cs cur]|]; [|done]. cbn.
  intros [= H]. by eapply make_directories_grows.
Qed.

End create_directory.

(** ** [createDirectory] with the POSIX [dirname] and [basename] *)

Section create_directory_posix.
Implicit Types (w : world) (pre cs : list string).

Lemma split_components_render fuel cs acc :
  Forall clean_name cs → (length cs ≤ fuel)%nat →
  split_components dirname basename fuel (render_path cs) acc = Some (acc ++ reverse cs, "/").
Proof.
  revert fuel acc. induction cs as [|c cs IH] using rev_ind; intros fuel acc Hcs Hfuel.
  { destruct fuel; cbn; by rewrite ?decide_True, app_nil_r. }
  pose proof Hcs as [Hcs' Hc%Forall_inv]%Forall_app.
  rewrite length_app in Hfuel. destruct fuel as [|fuel]; [cbn in Hfuel; lia|].
  cbn [split_components]. rewrite dirname_render, basename_render by done.
  rewrite decide_False.
  2:{ intros E%render_path_inj%(f_equal length); [|done..].
      rewrite length_app in E. cbn in E. lia. }
  rewrite IH by (done || cbn in Hfuel; lia). by rewrite reverse_snoc, <-app_assoc.
Qed.

Lemma make_directories_render w pre cs :
  fs_wf w → Forall valid_name (pre ++ cs) →
  make_directories w (render_path pre) (bool_decide (pre = [])) cs = mkdir_p w pre cs.
Proof.
  revert w pre. induction cs as [|c cs IH]; intros w pre Hwf Hv; [done|].
  rewrite cons_middle, app_assoc in Hv. pose proof Hv as [Hv1 _]%Forall_app.
  assert (bool_decide (pre ++ [c] = []) = false) as Hnil.
  { apply bool_decide_eq_false_2. by destruct pre. }
  cbn [make_directories mkdir_p]. rewrite render_path_step, c_str_render.
  2:{ eapply Forall_impl; [exact Hv1|]. by intros ? (_ & _ & _ & _ & ?). }
  destruct (is_dir (nodes w) pre) eqn:Hd.
  - apply is_dir_true in Hd as [pm Hd]. rewrite (sys_mkdir_render w pre c pm), Hd by done.
    destruct (nodes w !! (pre ++ [c])) eqn:Hn.
    { rewrite decide_False by (by intros ?). rewrite <-Hnil. by apply IH. }
    destruct (p_write pm) eqn:Hpw; [|by rewrite decide_True].
    rewrite <-Hnil. apply IH; [|done]. eapply sys_mkdir_wf; [done|].
    by rewrite (sys_mkdir_render w pre c pm), Hn, Hpw.
  - destruct (sys_mkdir_render_nodir w pre c Hv1 Hd) as (e & -> & He).
    rewrite decide_True by done. unfold is_dir in Hd. by destruct (nodes w !! pre) as [[]|].
Qed.

Lemma mkdir_p_existing w pre cs :
  fs_wf w → is_Some (nodes w !! (pre ++ cs)) → mkdir_p w pre cs = (true, w).
Proof.
  intros Hwf. revert pre. induction cs as [|c cs IH]; intros pre Hs; [done|].
  rewrite cons_middle, app_assoc in Hs. cbn.
  assert (is_dir (nodes w) pre = true) as [pm ->]%is_dir_true.
  { eapply (wf_above_dir w pre (c :: cs)); [done| |done]. by rewrite cons_middle, app_assoc. }
  destruct (wf_above_Some w (pre ++ [c]) cs Hwf Hs) as [n ->]. by apply IH.
Qed.

Lemma mkdir_p_app w pre cs1 cs2 :
  fs_wf w → is_Some (nodes w !! (pre ++ cs1)) →
  mkdir_p w pre (cs1 ++ cs2) = mkdir_p w (pre ++ cs1) cs2.
Proof.
  intros Hwf. revert pre. induction cs1 as [|c cs1 IH]; intros pre Hs.
  { by rewrite app_nil_r. }
  rewrite cons_middle, app_assoc in Hs. cbn.
  assert (is_dir (nodes w) pre = true) as [pm ->]%is_dir_true.
  { eapply (wf_above_dir w pre ([c] ++ cs1)); [done|by rewrite app_assoc|done]. }
  destruct (wf_above_Some w (pre ++ [c]) cs1 Hwf Hs) as [n ->].
  rewrite IH by done. by rewrite <-app_assoc.
Qed.

Lemma mkdir_p_below w pre cs :
  fs_wf w → is_Some (nodes w !! pre) → mkdir_p w [] (pre ++ cs) = mkdir_p w pre cs.
Proof. apply (mkdir_p_app w [] pre cs). Qed.

Lemma mkdir_p_fresh w pre cs pm :
  fs_wf w → Forall valid_name (pre ++ cs) →
  nodes w !! pre = Some (Dir pm) → p_write pm = true →
  nodes w !! (pre ++ take 1 cs) = None ∨ cs = [] →
  mkdir_p w pre cs = (true, with_nodes w (add_dirs (nodes w) pre cs)).
Proof.
  revert w pre pm. induction cs as [|c cs IH]; intros w pre pm Hwf Hv Hpre Hpw Hfree.
  { by destruct w. }
  destruct Hfree as [Hfree|?]; [|done]. rewrite cons_middle, app_assoc in Hv.
  change (take 1 (c :: cs)) with [c] in Hfree. cbn [mkdir_p add_dirs].
  rewrite Hpre, Hfree, Hpw. pose proof Hv as [Hv1 _]%Forall_app.
  rewrite (IH _ (pre ++ [c]) perm_rwx); [done| |done| |done|].
  - eapply sys_mkdir_wf; [done|]. by rewrite (sys_mkdir_render w pre c pm), Hfree, Hpw.
  - cbn. by rewrite lookup_insert_eq.
  - destruct cs as [|c' cs]; [by right|left]. cbn.
    rewrite lookup_insert_ne by (intros E%(f_equal length); rewrite !length_app in E; cbn in E; lia).
    by apply wf_below_None.
Qed.

(** The entries of a tree after [add_dirs]: the new directories, and what
    was there. *)
Lemma add_dirs_old ns pre cs p :
  (∀ k, (1 ≤ k ≤ length cs)%nat → p ≠ pre ++ take k cs) → add_dirs ns pre cs !! p = ns !! p.
Proof.
  revert ns pre. induction cs as [|c cs IH]; intros ns pre Hp; [done|]. cbn.
  rewrite IH.
  - apply lookup_insert_ne. intros <-. by apply (Hp 1%nat); [cbn; lia|].
  - intros k ? ->. apply (Hp (S k)); [cbn; lia|]. by rewrite <-app_assoc.
Qed.

Lemma add_dirs_new ns pre cs k :
  (1 ≤ k ≤ length cs)%nat → add_dirs ns pre cs !! (pre ++ take k cs) = Some (Dir perm_rwx).
Proof.
  revert ns pre k. induction cs as [|c cs IH]; intros ns pre k Hk; cbn in *; [lia|].
  destruct k as [|[|k]]; [lia| |].
  - change (take 1 (c :: cs)) with [c]. rewrite add_dirs_old; [by rewrite lookup_insert_eq|].
    intros k ? E%(f_equal length). rewrite !length_app, length_take in E. lia.
  - rewrite <-(IH (<[pre ++ [c] := Dir perm_rwx]> ns) (pre ++ [c]) (S k)) by lia.
    by rewrite <-app_assoc.
Qed.

Lemma add_dirs_last ns pre cs :
  cs ≠ [] → add_dirs ns pre cs !! (pre ++ cs) = Some (Dir perm_rwx).
Proof.
  intros Hne. pose proof (add_dirs_new ns pre cs (length cs)) as H.
  rewrite firstn_all in H. apply H. destruct cs; [done|cbn; lia].
Qed.

End create_directory_posix.

Section create_directory_claims.
Implicit Types (w : world) (pre cs : list string).

Lemma createDirectory_render fuel w cs :
  fs_wf w → Forall valid_name cs → (length cs ≤ fuel)%nat →
  createDirectory dirname basename fuel w (render_path cs) = Some (mkdir_p w [] cs).
Proof.
  intros Hwf Hv Hfuel. unfold createDirectory.
  rewrite split_components_render; [|by eapply Forall_impl; [|apply valid_name_clean]|done].
  cbn -[reverse]. rewrite reverse_involutive. f_equal. by apply (make_directories_render w []).
Qed.

Lemma isDirectory_render w cs n :
  fs_wf w → nodes w !! cs = Some n → (∀ t, n ≠ Symlink t) →
  isDirectory w (render_path cs) = bool_decide (node_type n = S_IFDIR).
Proof.
  intros Hwf Hn Hl. unfold isDirectory, sys_stat.
  by rewrite lookup_node_c_str, (lookup_node_canonical w cs n).
Qed.

(** C3.  On an absolute path of proper names, [createDirectory] with the
    POSIX [dirname] and [basename] is [mkdir -p]: its two loops over
    strings compute what the specification [mkdir_p] does on the list of
    components, starting from the root, with as much fuel as the path has
    components. *)
Theorem createDirectory_refines_mkdir_p fuel w cs :
  fs_wf w → Forall valid_name cs → (length cs ≤ fuel)%nat →
  createDirectory dirname basename fuel w (render_path cs) = Some (mkdir_p w [] cs) ∧
  split_components dirname basename fuel (render_path cs) [] = Some (reverse cs, "/").
Proof.
  intros Hwf Hv Hfuel. split; [by apply createDirectory_render|].
  apply (split_components_render fuel cs []); [|done].
  eapply Forall_impl; [done|apply valid_name_clean].
Qed.

(** C4.  Below a writable directory [pre] in which the first new name is
    free, [createDirectory] returns true, every directory of the chain
    exists afterwards, [isDirectory] holds of the path, and no other entry
    of the tree has changed. *)
Theorem createDirectory_creates fuel w pre cs pm :
  fs_wf w → Forall valid_name (pre ++ cs) →
  nodes w !! pre = Some (Dir pm) → p_write pm = true →
  nodes w !! (pre ++ take 1 cs) = None →
  (length (pre ++ cs) ≤ fuel)%nat →
  ∃ w', createDirectory dirname basename fuel w (render_path (pre ++ cs)) = Some (true, w') ∧
        nodes w' = add_dirs (nodes w) pre cs ∧
        isDirectory w' (render_path (pre ++ cs)) = true.
Proof.
  intros Hwf Hv Hpre Hpw Hfree Hfuel.
  pose proof (createDirectory_render fuel w (pre ++ cs) Hwf Hv Hfuel) as E.
  rewrite mkdir_p_below, (mkdir_p_fresh w pre cs pm) in E by eauto.
  eexists. split_and!; [done..|].
  pose proof (createDirectory_wf dirname basename _ _ _ _ _ E Hwf) as Hwf'.
  destruct (decide (cs = [])) as [->|Hne].
  - rewrite app_nil_r. by rewrite (isDirectory_render _ pre (Dir pm)).
  - by rewrite (isDirectory_render _ _ (Dir perm_rwx)); [|done|apply add_dirs_last|].
Qed.

(** C37.  When the path already names an entry, [createDirectory] returns
    true and changes nothing, whatever the entry is: also when it is a
    regular file, so that true does not tell that a directory is there. *)
Theorem createDirectory_existing fuel w cs n :
  fs_wf w → nodes w !! cs = Some n → (∀ t, n ≠ Symlink t) → (length cs ≤ fuel)%nat →
  createDirectory dirname basename fuel w (render_path cs) = Some (true, w) ∧
  isDirectory w (render_path cs) = bool_decide (node_type n = S_IFDIR).
Proof.
  intros Hwf Hn Hl Hfuel. split; [|by apply isDirectory_render].
  rewrite createDirectory_render; [|done|by eapply wf_path_valid|done].
  by rewrite mkdir_p_existing.
Qed.

(** On a relative path of one name [c], [createDirectory] with the
    POSIX [dirname] makes the directory [.c] and not [c]: the walk up stops
    at [.], and the first name is appended to it with no slash between. *)
Theorem createDirectory_relative fuel w c :
  clean_name c → c ≠ "." → (1 ≤ fuel)%nat →
  createDirectory dirname basename fuel w c =
    Some (match sys_mkdir w (c_str ("." +:+ c)) with
          | Ok w' => (true, w')
          | Err e => (bool_decide (e = EEXIST), w)
          end).
Proof.
  intros Hc Hdot Hfuel. unfold createDirectory.
  destruct fuel as [|fuel]; [lia|]. cbn [split_components].
  rewrite dirname_name, basename_name, decide_False by done. change ([] ++ [c]) with [c].
  assert (split_components dirname basename fuel "." [c] = Some ([c], ".")) as ->.
  { by destruct fuel. }
  cbn. destruct (sys_mkdir w _) as [w'|e]; [done|].
  case_decide; case_bool_decide; by simplify_eq.
Qed.

End create_directory_claims.

Lemma createDirectory_terminates_witness :
  is_Some (createDirectory dirname basename 13 demo_world "/a/b/c").
Proof.
  apply (createDirectory_terminates dirname basename path_measure);
    [apply dirname_measure|compute_done].
Defined.

Lemma createDirectory_grows_witness :
  nodes demo_world ⊆ nodes (mkdir_p demo_world [] ["a"; "b"]).2 ∧
  (fs_wf demo_world → fs_wf (mkdir_p demo_world [] ["a"; "b"]).2).
Proof. apply (createDirectory_grows dirname basename 2 demo_world "/a/b" true). compute_done. Defined.

Lemma createDirectory_refines_mkdir_p_witness :
  createDirectory dirname basename 2 demo_world "/a/b" = Some (mkdir_p demo_world [] ["a"; "b"]) ∧
  split_components dirname basename 2 "/a/b" [] = Some (["b"; "a"], "/").
Proof.
  apply (createDirectory_refines_mkdir_p 2 demo_world ["a"; "b"] demo_world_wf); compute_done.
Defined.

Lemma createDirectory_creates_witness :
  ∃ w', createDirectory dirname basename 3 demo_world "/a/b/c" = Some (true, w') ∧
        nodes w' = add_dirs (nodes demo_world) ["a"] ["b"; "c"] ∧
        isDirectory w' "/a/b/c" = true.
Proof.
  apply (createDirectory_creates 3 demo_world ["a"] ["b"; "c"] perm_rwx demo_world_wf);
    compute_done.
Defined.

Lemma createDirectory_existing_witness :
  createDirectory dirname basename 2 demo_world "/a/f" = Some (true, demo_world) ∧
  isDirectory demo_world "/a/f" = false.
Proof.
  apply (createDirectory_existing 2 demo_world ["a"; "f"] (File demo_ABC perm_rw) demo_world_wf);
    [compute_done|done|compute_done].
Defined.

Lemma createDirectory_relative_witness :
  ∃ w', createDirectory dirname basename 1 demo_world "x" = Some (true, w') ∧
        nodes w' !! [".x"] = Some (Dir perm_rwx) ∧ nodes w' !! ["x"] = None.
Proof.
  rewrite (createDirectory_relative 1 demo_world "x") by compute_done.
  eexists. split_and!; [done|compute_done..].
Defined.

(** ** The invariant *)

Section invariant.
Context (GetDirectoryName GetBaseName : string → string).
Implicit Types (w : world) (path target : string) (contents : list byte).

Lemma writeSymbolicLink_wf w target path : fs_wf w → fs_wf (writeSymbolicLink w target path).2.
Proof.
  intros Hwf. unfold writeSymbolicLink.
  destruct (sys_symlink w _ _) as [w'|] eqn:E; [|done].
  apply sys_symlink_Ok in E as (_ & p & Hn & Hp & Hc & ->).
  apply fs_wf_insert_new; [done..|by eapply namei_valid].
Qed.

End invariant.

