(* ===== verification/Invocation.v ===== *)
(** * [pbxbuild::Tool::Invocation]: the data model

    The classes of
    [src/Libraries/pbxbuild/Headers/pbxbuild/Tool/Invocation.h] (lines
    19-257): [Invocation] and, nested in it, [AuxiliaryFile] with its
    [Chunk], [DependencyInfo] and [Executable].  A class is a module with
    a record [t]; a [const] accessor is the projection of the field; the
    accessor that returns a reference to a field is the pair of the
    projection and the function that stores a value in the field
    ([Invocation.get] and [Invocation.set], by [Invocation.Field]).

    The header declares the static factories and no body is among the
    sources: [Chunk.Data], [Chunk.File], [AuxiliaryFile.Data],
    [AuxiliaryFile.File], [Executable.External], [Executable.Builtin] and
    [Executable.Determine] follow the documentation in the header and the
    specification of the executable resolver.  The constructors of [Chunk]
    and [Executable] are private: the values a client can hold are the ones
    the factories return, which [Chunk.made] and [Executable.made]
    describe. *)

From Stdlib Require Import ZArith Lia Ascii.
From stdpp Require Import gmap strings list.
From S2P Require Import Prelude StdString.

(** ** [Invocation::AuxiliaryFile::Chunk] *)

Module Chunk.

Module Type_.
Inductive t : Type := Data | File.

#[global] Instance eq_dec : EqDecision t.
Proof. solve_decision. Defined.
End Type_.

Record t : Type := Build {
  type : Type_.t;
  data : option (list byte);
  file : option string;
}.

#[global] Instance eq_dec : EqDecision t.
Proof. solve_decision. Defined.

Definition Data (data : list byte) : t := Build Type_.Data (Some data) None.
Definition File (file : string) : t := Build Type_.File None (Some file).

(** The chunks a client can make. *)
Inductive made : t → Prop :=
  | made_Data d : made (Data d)
  | made_File f : made (File f).

(** The member that [type] announces is present and the other is not. *)
Definition wf (c : t) : bool :=
  match type c with
  | Type_.Data => bool_decide (is_Some (data c)) && bool_decide (file c = None)
  | Type_.File => bool_decide (data c = None) && bool_decide (is_Some (file c))
  end.

(** The chunk as a closed sum. *)
Inductive variant : Type :=
  | Literal (bytes : list byte)
  | Copy (path : string).

Definition to_variant (c : t) : option variant :=
  match type c with
  | Type_.Data => Literal <$> data c
  | Type_.File => Copy <$> file c
  end.

Definition of_variant (v : variant) : t :=
  match v with
  | Literal d => Data d
  | Copy f => File f
  end.

End Chunk.

(** ** [Invocation::AuxiliaryFile] *)

Module AuxiliaryFile.

Record t : Type := Build {
  path : string;
  chunks : list Chunk.t;
  executable : bool;
}.

#[global] Instance eq_dec : EqDecision t.
Proof. solve_decision. Defined.

Definition Data (path : string) (data : list byte) (executable : bool) : t :=
  Build path [Chunk.Data data] executable.

Definition File (path : string) (file : string) (executable : bool) : t :=
  Build path [Chunk.File file] executable.

Definition wf (a : t) : bool := forallb Chunk.wf (chunks a).

End AuxiliaryFile.

(** ** [Invocation::DependencyInfo] *)

Module DependencyInfo.

(** [dependency::DependencyInfoFormat]: the encodings the specification
    names. *)
Inductive DependencyInfoFormat : Type := Binary | Makefile.

#[global] Instance format_eq_dec : EqDecision DependencyInfoFormat.
Proof. solve_decision. Defined.

Record t : Type := Build {
  format : DependencyInfoFormat;
  path : string;
}.

#[global] Instance eq_dec : EqDecision t.
Proof. solve_decision. Defined.

End DependencyInfo.

(** ** [Invocation::Executable] *)

Module Executable.

Record t : Type := Build {
  external : option string;
  builtin : option string;
}.

#[global] Instance eq_dec : EqDecision t.
Proof. solve_decision. Defined.

Definition External (path : string) : t := Build (Some path) None.
Definition Builtin (name : string) : t := Build None (Some name).

Definition builtinPrefix : string := "builtin-".

Definition Determine (executable : string) : option t :=
  if bool_decide (executable = "") then None
  else if starts_with builtinPrefix executable then Some (Builtin executable)
  else Some (External executable).

Inductive made : t → Prop :=
  | made_External p : made (External p)
  | made_Builtin n : made (Builtin n).

(** Exactly one of the two members is present. *)
Definition wf (e : t) : bool :=
  match external e, builtin e with
  | Some _, None | None, Some _ => true
  | _, _ => false
  end.

End Executable.

(** ** [Invocation] *)

Module Invocation.
Record t : Type := Build {
  executable : option Executable.t;
  arguments : list string;
  environment : gmap string string;
  workingDirectory : string;
  inputs : list string;
  outputs : list string;
  phonyInputs : list string;
  inputDependencies : list string;
  orderDependencies : list string;
  dependencyInfo : list DependencyInfo.t;
  auxiliaryFiles : list AuxiliaryFile.t;
  logMessage : string;
  showEnvironmentInLog : bool;
  createsProductStructure : bool;
}.

(** The members that an accessor hands out by reference. *)
Inductive Field : Type :=
  | F_executable
  | F_arguments
  | F_environment
  | F_workingDirectory
  | F_inputs
  | F_outputs
  | F_phonyInputs
  | F_inputDependencies
  | F_orderDependencies
  | F_dependencyInfo
  | F_auxiliaryFiles
  | F_logMessage
  | F_showEnvironmentInLog
  | F_createsProductStructure.

#[global] Instance Field_eq_dec : EqDecision Field.
Proof. solve_decision. Defined.

Definition field_type (f : Field) : Type :=
  match f with
  | F_executable => option Executable.t
  | F_arguments => list string
  | F_environment => gmap string string
  | F_workingDirectory => string
  | F_inputs => list string
  | F_outputs => list string
  | F_phonyInputs => list string
  | F_inputDependencies => list string
  | F_orderDependencies => list string
  | F_dependencyInfo => list DependencyInfo.t
  | F_auxiliaryFiles => list AuxiliaryFile.t
  | F_logMessage => string
  | F_showEnvironmentInLog => bool
  | F_createsProductStructure => bool
  end.

(** Reading through the reference. *)
Definition get (f : Field) : t → field_type f :=
  match f with
  | F_executable => executable
  | F_arguments => arguments
  | F_environment => environment
  | F_workingDirectory => workingDirectory
  | F_inputs => inputs
  | F_outputs => outputs
  | F_phonyInputs => phonyInputs
  | F_inputDependencies => inputDependencies
  | F_orderDependencies => orderDependencies
  | F_dependencyInfo => dependencyInfo
  | F_auxiliaryFiles => auxiliaryFiles
  | F_logMessage => logMessage
  | F_showEnvironmentInLog => showEnvironmentInLog
  | F_createsProductStructure => createsProductStructure
  end.

(** Assigning through the reference. *)
Definition set (f : Field) : field_type f → t → t :=
  match f with
  | F_executable => λ v i,
    Build v (arguments i) (environment i) (workingDirectory i) (inputs i) (outputs i)
      (phonyInputs i) (inputDependencies i) (orderDependencies i) (dependencyInfo i)
      (auxiliaryFiles i) (logMessage i) (showEnvironmentInLog i)
      (createsProductStructure i)
  | F_arguments => λ v i,
    Build (executable i) v (environment i) (workingDirectory i) (inputs i) (outputs i)
      (phonyInputs i) (inputDependencies i) (orderDependencies i) (dependencyInfo i)
      (auxiliaryFiles i) (logMessage i) (showEnvironmentInLog i)
      (createsProductStructure i)
  | F_environment => λ v i,
    Build (executable i) (arguments i) v (workingDirectory i) (inputs i) (outputs i)
      (phonyInputs i) (inputDependencies i) (orderDependencies i) (dependencyInfo i)
      (auxiliaryFiles i) (logMessage i) (showEnvironmentInLog i)
      (createsProductStructure i)
  | F_workingDirectory => λ v i,
    Build (executable i) (arguments i) (environment i) v (inputs i) (outputs i)
      (phonyInputs i) (inputDependencies i) (orderDependencies i) (dependencyInfo i)
      (auxiliaryFiles i) (logMessage i) (showEnvironmentInLog i)
      (createsProductStructure i)
  | F_inputs => λ v i,
    Build (executable i) (arguments i) (environment i) (workingDirectory i) v (outputs
      i) (phonyInputs i) (inputDependencies i) (orderDependencies i) (dependencyInfo i)
      (auxiliaryFiles i) (logMessage i) (showEnvironmentInLog i)
      (createsProductStructure i)
  | F_outputs => λ v i,
    Build (executable i) (arguments i) (environment i) (workingDirectory i) (inputs i) v
      (phonyInputs i) (inputDependencies i) (orderDependencies i) (dependencyInfo i)
      (auxiliaryFiles i) (logMessage i) (showEnvironmentInLog i)
      (createsProductStructure i)
  | F_phonyInputs => λ v i,
    Build (executable i) (arguments i) (environment i) (workingDirectory i) (inputs i)
      (outputs i) v (inputDependencies i) (orderDependencies i) (dependencyInfo i)
      (auxiliaryFiles i) (logMessage i) (showEnvironmentInLog i)
      (createsProductStructure i)
  | F_inputDependencies => λ v i,
    Build (executable i) (arguments i) (environment i) (workingDirectory i) (inputs i)
      (outputs i) (phonyInputs i) v (orderDependencies i) (dependencyInfo i)
      (auxiliaryFiles i) (logMessage i) (showEnvironmentInLog i)
      (createsProductStructure i)
  | F_orderDependencies => λ v i,
    Build (executable i) (arguments i) (environment i) (workingDirectory i) (inputs i)
      (outputs i) (phonyInputs i) (inputDependencies i) v (dependencyInfo i)
      (auxiliaryFiles i) (logMessage i) (showEnvironmentInLog i)
      (createsProductStructure i)
  | F_dependencyInfo => λ v i,
    Build (executable i) (arguments i) (environment i) (workingDirectory i) (inputs i)
      (outputs i) (phonyInputs i) (inputDependencies i) (orderDependencies i) v
      (auxiliaryFiles i) (logMessage i) (showEnvironmentInLog i)
      (createsProductStructure i)
  | F_auxiliaryFiles => λ v i,
    Build (executable i) (arguments i) (environment i) (workingDirectory i) (inputs i)
      (outputs i) (phonyInputs i) (inputDependencies i) (orderDependencies i)
      (dependencyInfo i) v (logMessage i) (showEnvironmentInLog i)
      (createsProductStructure i)
  | F_logMessage => λ v i,
    Build (executable i) (arguments i) (environment i) (workingDirectory i) (inputs i)
      (outputs i) (phonyInputs i) (inputDependencies i) (orderDependencies i)
      (dependencyInfo i) (auxiliaryFiles i) v (showEnvironmentInLog i)
      (createsProductStructure i)
  | F_showEnvironmentInLog => λ v i,
    Build (executable i) (arguments i) (environment i) (workingDirectory i) (inputs i)
      (outputs i) (phonyInputs i) (inputDependencies i) (orderDependencies i)
      (dependencyInfo i) (auxiliaryFiles i) (logMessage i) v (createsProductStructure i)
  | F_createsProductStructure => λ v i,
    Build (executable i) (arguments i) (environment i) (workingDirectory i) (inputs i)
      (outputs i) (phonyInputs i) (inputDependencies i) (orderDependencies i)
      (dependencyInfo i) (auxiliaryFiles i) (logMessage i) (showEnvironmentInLog i) v
  end.

(** The invocation is well formed when its executable and its auxiliary
    files are. *)
Definition wf (i : t) : bool :=
  from_option Executable.wf true (executable i) && forallb AuxiliaryFile.wf (auxiliaryFiles i).

End Invocation.

(** * Theorems *)

(** ** Chunks *)

Section chunks.
Implicit Types (c : Chunk.t) (v : Chunk.variant) (a : AuxiliaryFile.t).

Lemma Chunk_wf_made c : Chunk.wf c = true ↔ Chunk.made c.
Proof.
  split; [|by intros []]. destruct c as [[] [d|] [f|]]; try done; intros _.
  - apply Chunk.made_Data.
  - apply Chunk.made_File.
Qed.

Lemma Chunk_of_variant_made v : Chunk.made (Chunk.of_variant v).
Proof. destruct v; constructor. Qed.

Lemma Chunk_to_of_variant v : Chunk.to_variant (Chunk.of_variant v) = Some v.
Proof. by destruct v. Qed.

Lemma AuxiliaryFile_Data_wf path d x : AuxiliaryFile.wf (AuxiliaryFile.Data path d x) = true.
Proof. done. Qed.

Lemma AuxiliaryFile_File_wf path f x : AuxiliaryFile.wf (AuxiliaryFile.File path f x) = true.
Proof. done. Qed.

Lemma AuxiliaryFile_wf_made a :
  AuxiliaryFile.wf a = true ↔ Forall Chunk.made (AuxiliaryFile.chunks a).
Proof.
  unfold AuxiliaryFile.wf. rewrite forallb_forall, Forall_forall.
  split; intros H c Hc; apply Chunk_wf_made, H; by apply list_elem_of_In.
Qed.

End chunks.

(** ** The executable resolver *)

Section resolver.
Implicit Types (s rest : string) (e : Executable.t).

Lemma Executable_wf_made e : Executable.wf e = true ↔ Executable.made e.
Proof.
  split; [|by intros []]. destruct e as [[p|] [n|]]; try done; intros _.
  - apply Executable.made_External.
  - apply Executable.made_Builtin.
Qed.

(** [Determine] gives no executable for the empty string and for
    nothing else. *)
Theorem Determine_absent_iff_empty s : Executable.Determine s = None ↔ s = "".
Proof.
  unfold Executable.Determine. case_bool_decide; [done|].
  by destruct (starts_with _ _).
Qed.

(** C32.  What [Determine] returns is one of the two variants, and the
    member that is present holds the whole string: [builtin] when the
    string begins with [builtin-] (the prefix is kept in the name),
    [external] when it does not. *)
Theorem Determine_classifies s e :
  Executable.Determine s = Some e →
  Executable.wf e = true ∧
  ((Executable.builtin e = Some s ∧ Executable.external e = None ∧
    ∃ rest, s = "builtin-" +:+ rest) ∨
   (Executable.external e = Some s ∧ Executable.builtin e = None ∧
    ∀ rest, s ≠ "builtin-" +:+ rest)).
Proof.
  unfold Executable.Determine. case_bool_decide; [done|].
  destruct (starts_with _ s) eqn:Hp; intros [= <-]; (split; [done|]).
  - left. split_and!; [done..|]. by apply starts_with_spec.
  - right. split_and!; [done..|]. intros rest Hs.
    assert (starts_with Executable.builtinPrefix s = true) as Hp'.
    { apply starts_with_spec. eauto. }
    congruence.
Qed.

(** Every non-empty string is classified, and the two factories
    account for every executable [Determine] returns. *)
Theorem Determine_total s :
  s ≠ "" →
  Executable.Determine s = Some (Executable.Builtin s) ∨
  Executable.Determine s = Some (Executable.External s).
Proof.
  intros Hs. unfold Executable.Determine. rewrite bool_decide_eq_false_2 by done.
  destruct (starts_with _ _); eauto.
Qed.

End resolver.

Lemma Determine_absent_iff_empty_witness : Executable.Determine "" = None.
Proof. by apply Determine_absent_iff_empty. Defined.

Lemma Determine_classifies_witness :
  Executable.wf (Executable.Builtin "builtin-copy") = true ∧
  ((Executable.builtin (Executable.Builtin "builtin-copy") = Some "builtin-copy" ∧
    Executable.external (Executable.Builtin "builtin-copy") = None ∧
    ∃ rest, "builtin-copy" = "builtin-" +:+ rest) ∨
   (Executable.external (Executable.Builtin "builtin-copy") = Some "builtin-copy" ∧
    Executable.builtin (Executable.Builtin "builtin-copy") = None ∧
    ∀ rest, "builtin-copy" ≠ "builtin-" +:+ rest)).
Proof. by apply (Determine_classifies "builtin-copy"). Defined.

Lemma Determine_total_witness :
  Executable.Determine "/usr/bin/cc" = Some (Executable.Builtin "/usr/bin/cc") ∨
  Executable.Determine "/usr/bin/cc" = Some (Executable.External "/usr/bin/cc").
Proof. by apply Determine_total. Defined.

(** ** References to the members of an invocation *)

Section members.
Implicit Types (i : Invocation.t) (f g : Invocation.Field).

Lemma Invocation_get_set f v i : Invocation.get f (Invocation.set f v i) = v.
Proof. by destruct f. Qed.

Lemma Invocation_set_get f i : Invocation.set f (Invocation.get f i) i = i.
Proof. by destruct f, i. Qed.

Lemma Invocation_set_set f v v' i :
  Invocation.set f v' (Invocation.set f v i) = Invocation.set f v' i.
Proof. by destruct f. Qed.

(** Assigning through the reference to one member changes that
    member and no other: reading any member afterwards gives the value
    assigned when it is the same member, and the old value when it is
    another. *)
Theorem Invocation_get_set_frame f g v i :
  f ≠ g → Invocation.get g (Invocation.set f v i) = Invocation.get g i ∧
          Invocation.get f (Invocation.set f v i) = v.
Proof. intros Hne. split; [|apply Invocation_get_set]. by destruct f, g. Qed.

End members.

(** The invocation of the compile scenario of the specification: [cc -c
    a.c -o a.o] with the input [a.h] and the output [a.o]. *)
Definition scenario_X : Invocation.t :=
  Invocation.Build (Executable.Determine "cc") ["-c"; "a.c"; "-o"; "a.o"] ∅ "/src"
    ["a.h"] ["a.o"] [] [] [] [] [] "Compile a.c" true false.

Lemma Invocation_get_set_frame_witness :
  Invocation.get Invocation.F_outputs (Invocation.set Invocation.F_inputs ["a.h"; "a.c"] scenario_X)
  = ["a.o"] ∧
  Invocation.get Invocation.F_inputs (Invocation.set Invocation.F_inputs ["a.h"; "a.c"] scenario_X)
  = ["a.h"; "a.c"].
Proof. by apply (Invocation_get_set_frame Invocation.F_inputs Invocation.F_outputs). Defined.
