(* ===== verification/DefaultContext.v ===== *)
(** * [process::DefaultContext]

    The methods of [DefaultContext.cpp] (lines 264-678 of
    [src/Libraries/pbxbuild/Headers/pbxbuild/Tool/Invocation.h], where the
    file follows the header), in the branches for Linux with glibc 2.16 or
    later, over the process model of [PosixProcess].

    A [static] pointer of a method is a member of [statics]; a method takes
    the statics and returns them beside its result.  [std::call_once] is
    [call_once] on a [once_flag]; the methods declare their flag as a
    local that is not [static], so each call starts from a fresh flag.
    [abort], a C++ exception and undefined behaviour are the faults of
    [outcome].  The loop of [currentDirectory] takes fuel and returns
    [None] when it runs out.

    [FSUtil::ResolveRelativePath], [FSUtil::NormalizePath] and the base
    class method [Context::userHomeDirectory] are not among the sources:
    they are parameters. *)

From Stdlib Require Import ZArith Lia Ascii.
From stdpp Require Import gmap strings list.
From S2P Require Import Prelude StdString Posix PosixProcess.

Open Scope Z_scope.

(** ** Statics *)

(** The [static] pointers of the methods, null until assigned. *)
Record statics : Type := Statics {
  st_directory : option string;
  st_executablePath : option string;
  st_arguments : option (list string);
  st_environment : option (gmap string string);
  st_userName : option string;
  st_groupName : option string;
}.

Definition no_statics : statics := Statics None None None None None None.

Definition set_directory (v : string) (st : statics) : statics :=
  Statics (Some v) (st_executablePath st) (st_arguments st) (st_environment st)
    (st_userName st) (st_groupName st).

Definition set_executablePath (v : string) (st : statics) : statics :=
  Statics (st_directory st) (Some v) (st_arguments st) (st_environment st)
    (st_userName st) (st_groupName st).

Definition set_arguments (v : list string) (st : statics) : statics :=
  Statics (st_directory st) (st_executablePath st) (Some v) (st_environment st)
    (st_userName st) (st_groupName st).

Definition set_environment (v : gmap string string) (st : statics) : statics :=
  Statics (st_directory st) (st_executablePath st) (st_arguments st) (Some v)
    (st_userName st) (st_groupName st).

Definition set_userName (v : string) (st : statics) : statics :=
  Statics (st_directory st) (st_executablePath st) (st_arguments st) (st_environment st)
    (Some v) (st_groupName st).

Definition set_groupName (v : string) (st : statics) : statics :=
  Statics (st_directory st) (st_executablePath st) (st_arguments st) (st_environment st)
    (st_userName st) (Some v).

(** What the initialisers that run before [main] have stored. *)
Record loaded : Type := Loaded {
  initialWorkingDirectory : string;
  commandLineArgumentValues : list string;
}.

(** ** [std::call_once] *)

Record once_flag : Type := OnceFlag { called : bool }.

(** A flag as its declaration leaves it. *)
Definition new_flag : once_flag := OnceFlag false.

Definition call_once {S : Type} (flag : once_flag) (f : S → outcome S) (s : S)
  : outcome (once_flag * S) :=
  if called flag then Done (flag, s)
  else s' ← f s; Done (OnceFlag true, s').

(** [*pointer] for the [return] of a method. *)
Definition deref {A : Type} (pointer : option A) : outcome A :=
  match pointer with
  | Some a => Done a
  | None => Fault Undefined
  end.

(** ** Initialisers *)

Definition InitializeInitialWorkingDirectory (p : process) : outcome string :=
  match sys_getcwd p PATH_MAX with
  | Ok s => Done s
  | Err _ => Fault Aborted
  end.

Definition CommandLineArgumentsInitialize (p : process) : list string := proc_argv p.

Definition load (p : process) : outcome loaded :=
  cwd ← InitializeInitialWorkingDirectory p;
  Done (Loaded cwd (CommandLineArgumentsInitialize p)).

(** ** Methods *)

(** The loop of [currentDirectory]: [size] doubles on [ERANGE]. *)
Fixpoint getcwd_loop (fuel : nat) (p : process) (size : Z) : option (outcome string) :=
  match reserve "" size with
  | Fault e => Some (Fault e)
  | Done current =>
    match sys_getcwd p (StdString.size current) with
    | Ok _ => Some (Done current)
    | Err e =>
      if decide (e = ERANGE) then
        match fuel with
        | O => None
        | S fuel' => getcwd_loop fuel' p (to_size_t (size * 2))
        end
      else Some (Fault Aborted)
    end
  end.

Definition currentDirectory (fuel : nat) (p : process) (st : statics)
  : option (outcome (string * statics)) :=
  r ← getcwd_loop fuel p PATH_MAX;
  Some ('(_, st') ← call_once new_flag (λ st, path ← r; Done (set_directory path st)) st;
        directory ← deref (st_directory st');
        Done (directory, st')).

Section executable_path.
Context (ResolveRelativePath : string → string → string) (NormalizePath : string → string).

Definition executablePath (p : process) (ld : loaded) (st : statics)
  : outcome (string * statics) :=
  '(_, st') ← call_once new_flag
      (λ st,
         match getauxval_execfn p with
         | None => Fault Aborted
         | Some path =>
           let absolutePath :=
             ResolveRelativePath (c_str path) (c_str (initialWorkingDirectory ld)) in
           Done (set_executablePath (NormalizePath absolutePath) st)
         end) st;
  executablePath ← deref (st_executablePath st');
  Done (executablePath, st').

End executable_path.

Definition commandLineArguments (ld : loaded) (st : statics)
  : outcome (list string * statics) :=
  '(_, st') ← call_once new_flag
      (λ st,
         match commandLineArgumentValues ld with
         | [] => Fault Undefined
         | _ :: rest => Done (set_arguments (c_str <$> rest) st)
         end) st;
  arguments ← deref (st_arguments st');
  Done (arguments, st').

Definition environmentVariable (p : process) (variable : string) : option string :=
  getenv p (c_str variable).

(** [values.insert ({ name, value })]: an existing key keeps its value. *)
Definition insert_new (name value : string) (values : gmap string string)
  : gmap string string :=
  match values !! name with
  | Some _ => values
  | None => <[name := value]> values
  end.

(** The body of the loop over [environ]. *)
Definition environ_entry (current : string) (values : gmap string string)
  : outcome (gmap string string) :=
  let variable := c_str current in
  let offset := find EQUALS variable in
  name ← substr variable 0 offset;
  value ← substr variable (size_add offset 1) npos;
  Done (insert_new name value values).

Fixpoint environ_loop (env : list string) (values : gmap string string)
  : outcome (gmap string string) :=
  match env with
  | [] => Done values
  | current :: env' => values' ← environ_entry current values; environ_loop env' values'
  end.

Definition environmentVariables (p : process) (st : statics)
  : outcome (gmap string string * statics) :=
  '(_, st') ← call_once new_flag
      (λ st, values ← environ_loop (proc_environ p) ∅; Done (set_environment values st)) st;
  environment ← deref (st_environment st');
  Done (environment, st').

Definition userName (p : process) (st : statics) : outcome (string * statics) :=
  '(_, st') ← call_once new_flag
      (λ st,
         let st :=
           match getpwuid p (getuid p) with
           | Some pw =>
             match pw_name pw with
             | Some name => set_userName (c_str name) st
             | None => st
             end
           | None => st
           end in
         Done (match st_userName st with
               | None => set_userName (to_decimal (getuid p)) st
               | Some _ => st
               end)) st;
  userName ← deref (st_userName st');
  Done (userName, st').

Definition groupName (p : process) (st : statics) : outcome (string * statics) :=
  '(_, st') ← call_once new_flag
      (λ st,
         let st :=
           match getgrgid p (getgid p) with
           | Some gr =>
             match gr_name gr with
             | Some name => set_groupName (c_str name) st
             | None => st
             end
           | None => st
           end in
         Done (match st_groupName st with
               | None => set_groupName (to_decimal (getgid p)) st
               | Some _ => st
               end)) st;
  groupName ← deref (st_groupName st');
  Done (groupName, st').

Definition userID (p : process) : Z := to_int32 (getuid p).
Definition groupID (p : process) : Z := to_int32 (getgid p).

Section home_directory.
Context (Context_userHomeDirectory : process → option string).

Definition userHomeDirectory (p : process) : outcome (option string) :=
  match Context_userHomeDirectory p with
  | Some value => Done (Some value)
  | None =>
    pw ← deref (getpwuid p (getuid p));
    home ← deref (pw_dir pw);
    Done (Some (c_str home))
  end.

End home_directory.

(** * Theorems *)

(** The process the statements are run on: user 1000 [dev] with a home,
    group 100 without an entry in the group database. *)
Definition demo_process : process :=
  Process "/src" ["HOME=/home/dev"; "PATH=/usr/bin:/bin"; "HOME=/tmp"; "EMPTY="]
    ["/usr/bin/xcbuild"; "-target"; "App"] 1000 100
    {[ 1000 := Passwd (Some "dev") (Some "/home/dev") ]} ∅ (Some "/usr/bin/xcbuild").

Lemma demo_process_wf : process_wf demo_process.
Proof. compute_done. Qed.

(** ** [call_once] *)

Section once.
Context {S : Type}.
Implicit Types (f : S → outcome S) (s : S).

Lemma call_once_new f s : call_once new_flag f s = s' ← f s; Done (OnceFlag true, s').
Proof. done. Qed.

Lemma call_once_called f s : call_once (OnceFlag true) f s = Done (OnceFlag true, s).
Proof. done. Qed.

End once.

(** ** The working directory *)

Section directory.
Implicit Types (p : process) (st : statics).

Lemma getcwd_loop_aborts fuel p : getcwd_loop fuel p PATH_MAX = Some (Fault Aborted).
Proof. by destruct fuel. Qed.

(** C13.  [currentDirectory] aborts the process, whatever the working
    directory is and whatever fuel the loop is given: the buffer is
    reserved, not resized, so [getcwd] is passed a size of zero and fails
    with [EINVAL], not [ERANGE]. *)
Theorem currentDirectory_aborts fuel p st :
  currentDirectory fuel p st = Some (Fault Aborted) ∧
  sys_getcwd p (StdString.size "") = Err EINVAL.
Proof. unfold currentDirectory. by rewrite getcwd_loop_aborts. Qed.

(** The initialiser that records the working directory at load
    time stores it when it fits [PATH_MAX] with its terminator and aborts
    otherwise. *)
Theorem load_initialWorkingDirectory p :
  load p = if decide (Z.of_nat (String.length (proc_cwd p)) < PATH_MAX)
           then Done (Loaded (proc_cwd p) (proc_argv p))
           else Fault Aborted.
Proof.
  unfold load, InitializeInitialWorkingDirectory, sys_getcwd.
  rewrite decide_False by done. by repeat case_decide; try lia.
Qed.

End directory.

(** ** The environment *)

(** The key and the value that the loop over [environ] takes from an
    entry: the parts before and after the first equals sign, and the whole
    entry twice when there is none. *)
Definition split_entry (entry : string) : string * string :=
  match index_of EQUALS entry with
  | Some i => (str_take i entry, str_drop (S i) entry)
  | None => (entry, entry)
  end.

(** The map the loop builds: the first entry of a key wins. *)
Definition environ_map (env : list string) (values : gmap string string)
  : gmap string string :=
  foldl (λ values entry, insert_new (split_entry entry).1 (split_entry entry).2 values) values env.

(** What an entry of [environ] means: [name=value], or a text without an
    equals sign, which the loop takes as its own name and value. *)
Definition binds (entry name value : string) : Prop :=
  entry = name +:+ String EQUALS value ∨ (entry = name ∧ value = name).

Section environment.
Implicit Types (p : process) (st : statics) (name value entry : string).
Implicit Types (values : gmap string string) (env : list string).

(** An entry with an equals sign splits at the first one. *)
Lemma env_entry_split entry :
  env_entry entry = true →
  ∃ name value, entry = name +:+ String EQUALS value ∧ str_mem EQUALS name = false.
Proof.
  unfold env_entry. intros He.
  destruct (index_of EQUALS entry) as [i|] eqn:E.
  - apply index_of_Some in E as (s1 & s2 & -> & ? & _). eauto.
  - apply index_of_None in E. congruence.
Qed.

Lemma split_entry_pair name value :
  str_mem EQUALS name = false → split_entry (name +:+ String EQUALS value) = (name, value).
Proof.
  intros Hn. unfold split_entry.
  rewrite (proj2 (index_of_Some EQUALS _ (String.length name))) by eauto.
  rewrite str_take_app by done. f_equal.
  rewrite <-env_prefix_app. apply str_drop_app. rewrite str_app_length. cbn. lia.
Qed.

Lemma split_entry_malformed entry : env_entry entry = false → split_entry entry = (entry, entry).
Proof. intros He%index_of_None. unfold split_entry. by rewrite He. Qed.

Lemma environ_entry_spec entry values :
  str_mem NUL entry = false → fits entry →
  environ_entry entry values
  = Done (insert_new (split_entry entry).1 (split_entry entry).2 values).
Proof.
  intros Hnul Hfit. unfold environ_entry. rewrite c_str_id by done.
  destruct (env_entry entry) eqn:He.
  - apply env_entry_split in He as (name & value & -> & Hn).
    rewrite split_entry_pair, find_first, substr_prefix by done. cbn [mbind outcome_bind].
    pose proof (fits_npos _ (fits_app_l _ _ Hfit)) as Hlen.
    rewrite size_add_no_overflow by (unfold npos in Hlen; lia).
    replace (Z.of_nat (String.length name) + 1)
      with (Z.of_nat (String.length (name +:+ "="))) by (rewrite str_app_length; cbn; lia).
    rewrite <-env_prefix_app in Hfit |- *. by rewrite substr_from.
  - rewrite split_entry_malformed, find_absent by done.
    pose proof (fits_npos _ Hfit). rewrite npos_succ_wraps.
    by rewrite !substr_whole by lia.
Qed.

Lemma environ_loop_spec env values :
  Forall (λ e, str_mem NUL e = false ∧ fits e) env →
  environ_loop env values = Done (environ_map env values).
Proof.
  intros Hall. revert values. induction Hall as [|e env [??] _ IH]; intros values; [done|].
  cbn. rewrite environ_entry_spec by done. apply IH.
Qed.

Lemma insert_new_lookup name value values name' :
  insert_new name value values !! name' =
    match values !! name' with
    | Some v => Some v
    | None => if decide (name = name') then Some value else None
    end.
Proof.
  unfold insert_new. destruct (values !! name) as [v|] eqn:E.
  - destruct (values !! name') eqn:E'; [done|]. case_decide; [congruence|done].
  - case_decide as Hn; [subst; by rewrite lookup_insert_eq, E|].
    rewrite lookup_insert_ne by done. by destruct (values !! name').
Qed.

(** The value of a key in the map: the one it had, or the one of the first
    entry with that key. *)
Lemma environ_map_lookup env values name :
  environ_map env values !! name =
    match values !! name with
    | Some v => Some v
    | None =>
      head (omap (λ e, if decide ((split_entry e).1 = name) then Some (split_entry e).2 else None) env)
    end.
Proof.
  revert values. induction env as [|e env IH]; intros values; cbn.
  { by destruct (values !! name). }
  unfold environ_map in *. cbn. rewrite IH, insert_new_lookup.
  destruct (values !! name); [done|]. by case_decide.
Qed.

(** On an entry with an equals sign [getenv] and the loop agree. *)
Lemma env_value_split_entry name entry :
  str_mem EQUALS name = false → env_entry entry = true →
  env_value name entry
  = if decide ((split_entry entry).1 = name) then Some (split_entry entry).2 else None.
Proof.
  intros Hn (name' & value & -> & Hn')%env_entry_split.
  rewrite split_entry_pair by done. cbn. case_decide as E.
  - subst. apply env_value_entry.
  - apply env_value_other; done.
Qed.

Lemma environmentVariables_run p st :
  process_wf p →
  environmentVariables p st
  = Done (environ_map (proc_environ p) ∅, set_environment (environ_map (proc_environ p) ∅) st).
Proof.
  intros (_ & _ & Henv). unfold environmentVariables.
  by rewrite call_once_new, environ_loop_spec.
Qed.

(** C12.  [environmentVariables] and [environmentVariable] agree: when
    every entry of [environ] has an equals sign, the map holds under a
    name what [environmentVariable] returns for it, the value of the first
    entry for the name. *)
Theorem environmentVariables_agree p st name :
  process_wf p → Forall (λ e, env_entry e = true) (proc_environ p) →
  name ≠ "" → str_mem EQUALS name = false → str_mem NUL name = false →
  ∃ m st', environmentVariables p st = Done (m, st') ∧ st_environment st' = Some m ∧
           m !! name = environmentVariable p name.
Proof.
  intros Hwf Hall Hne Heq Hnul. eexists _, _. rewrite environmentVariables_run by done.
  split_and!; [done..|]. rewrite environ_map_lookup, lookup_empty.
  unfold environmentVariable, getenv. cbv zeta.
  rewrite c_str_idemp, (c_str_id name), decide_False by done.
  f_equal. apply omap_ext_Forall. eapply Forall_impl; [exact Hall|].
  intros e He. symmetry. by apply env_value_split_entry.
Qed.

(** An entry of [environ] without an equals sign becomes a
    variable whose name and value are both the whole entry: [find] returns
    [npos], and [npos + 1] wraps to zero.  [environmentVariable] does not
    see such an entry. *)
Theorem environmentVariables_malformed p st entry rest :
  process_wf p → proc_environ p = entry :: rest → env_entry entry = false →
  ∃ m st', environmentVariables p st = Done (m, st') ∧ m !! entry = Some entry ∧
           environmentVariable p entry = environmentVariable (with_environ p rest) entry.
Proof.
  intros Hwf Henv He. eexists _, _. rewrite environmentVariables_run by done.
  split_and!; [done| |].
  - rewrite Henv, environ_map_lookup, lookup_empty. cbn.
    by rewrite split_entry_malformed, decide_True by done.
  - unfold environmentVariable, getenv. cbn. rewrite Henv. case_decide; [done|]. cbn.
    by rewrite env_value_malformed.
Qed.

(** The name and the value that the loop takes from an entry are those
    that the entry means, and the name has no equals sign. *)
Lemma split_entry_binds entry :
  str_mem EQUALS (split_entry entry).1 = false
  ∧ binds entry (split_entry entry).1 (split_entry entry).2.
Proof.
  destruct (env_entry entry) eqn:He.
  - apply env_entry_split in He as (name & value & -> & Hn).
    rewrite split_entry_pair by done. split; [done|by left].
  - rewrite split_entry_malformed by done. split; [done|by right].
Qed.

(** C33.  The map of [environmentVariables] is a well-formed environment:
    no name has an equals sign, every binding is what an entry of
    [environ] means, and the name of every entry is bound. *)
Theorem environmentVariables_well_formed p st :
  process_wf p →
  ∃ m st', environmentVariables p st = Done (m, st') ∧
    map_Forall (λ name value,
      str_mem EQUALS name = false
      ∧ ∃ entry, entry ∈ proc_environ p ∧ binds entry name value) m ∧
    ∀ entry, entry ∈ proc_environ p →
      ∃ name value, binds entry name value ∧ str_mem EQUALS name = false ∧
                    is_Some (m !! name).
Proof.
  intros Hwf. eexists _, _. rewrite environmentVariables_run by done.
  split_and!; [done| |].
  - intros name value Hl. rewrite environ_map_lookup, lookup_empty in Hl.
    apply head_omap_Some in Hl as (e & He & Hf). case_decide; simplify_eq.
    destruct (split_entry_binds e). eauto.
  - intros entry He. destruct (split_entry_binds entry).
    eexists _, _. split_and!; [done..|]. rewrite environ_map_lookup, lookup_empty.
    apply (head_omap_is_Some _ _ entry); [done|]. by rewrite decide_True.
Qed.

(** C39.  The local [once_flag] caches nothing: whatever earlier calls
    have stored, [environmentVariables] reads [environ] again and returns
    the map of the environment as it is now. *)
Theorem environmentVariables_recomputed p st st0 :
  process_wf p →
  fst <$> environmentVariables p st = Done (environ_map (proc_environ p) ∅) ∧
  fst <$> environmentVariables p st = fst <$> environmentVariables p st0.
Proof. intros Hwf. by rewrite !environmentVariables_run. Qed.

End environment.

Lemma environmentVariables_agree_witness :
  ∃ m st', environmentVariables demo_process no_statics = Done (m, st') ∧
           st_environment st' = Some m ∧ m !! "HOME" = environmentVariable demo_process "HOME".
Proof. apply environmentVariables_agree; compute_done. Defined.

Lemma environmentVariables_malformed_witness :
  ∃ m st', environmentVariables (with_environ demo_process ["DEBUG"; "HOME=/"]) no_statics
           = Done (m, st') ∧ m !! "DEBUG" = Some "DEBUG" ∧
           environmentVariable (with_environ demo_process ["DEBUG"; "HOME=/"]) "DEBUG"
           = environmentVariable (with_environ (with_environ demo_process ["DEBUG"; "HOME=/"])
                                    ["HOME=/"]) "DEBUG".
Proof. apply environmentVariables_malformed; compute_done. Defined.

Lemma environmentVariables_well_formed_witness :
  ∃ m st', environmentVariables demo_process no_statics = Done (m, st') ∧
    map_Forall (λ name value,
      str_mem EQUALS name = false
      ∧ ∃ entry, entry ∈ proc_environ demo_process ∧ binds entry name value) m ∧
    ∀ entry, entry ∈ proc_environ demo_process →
      ∃ name value, binds entry name value ∧ str_mem EQUALS name = false ∧
                    is_Some (m !! name).
Proof. apply environmentVariables_well_formed. compute_done. Defined.

Lemma environmentVariables_recomputed_witness :
  fst <$> environmentVariables demo_process no_statics
  = Done (environ_map (proc_environ demo_process) ∅) ∧
  fst <$> environmentVariables demo_process no_statics
  = fst <$> environmentVariables demo_process (set_environment ∅ no_statics).
Proof. apply environmentVariables_recomputed. compute_done. Defined.

(** ** Arguments and the executable *)

Section arguments.
Context (ResolveRelativePath : string → string → string) (NormalizePath : string → string).
Implicit Types (p : process) (ld : loaded) (st : statics).

(** [commandLineArguments] returns the argument vector without
    its first element, and has no defined behaviour on an empty vector,
    where the range it copies ends before it starts. *)
Theorem commandLineArguments_spec ld st :
  commandLineArguments ld st =
    match commandLineArgumentValues ld with
    | [] => Fault Undefined
    | _ :: rest => Done (c_str <$> rest, set_arguments (c_str <$> rest) st)
    end.
Proof.
  unfold commandLineArguments. rewrite call_once_new.
  by destruct (commandLineArgumentValues _).
Qed.

(** [executablePath] normalizes the path that the kernel recorded
    for the program, resolved against the working directory recorded at
    load time and not against the current one; without the record it
    aborts. *)
Theorem executablePath_spec p ld st :
  executablePath ResolveRelativePath NormalizePath p ld st =
    match proc_execfn p with
    | None => Fault Aborted
    | Some path =>
      let r := NormalizePath (ResolveRelativePath (c_str path) (c_str (initialWorkingDirectory ld))) in
      Done (r, set_executablePath r st)
    end.
Proof.
  unfold executablePath, getauxval_execfn. rewrite call_once_new.
  by destruct (proc_execfn p).
Qed.

End arguments.

(** ** User and group *)

Section user.
Implicit Types (p : process) (st : statics).

(** The name of the user in the password database. *)
Definition passwd_name (p : process) : option string :=
  pw ← getpwuid p (getuid p); c_str <$> pw_name pw.

Definition group_name (p : process) : option string :=
  gr ← getgrgid p (getgid p); c_str <$> gr_name gr.

(** [userName] returns the name the password database gives for
    the user; without one, the name an earlier call has stored, and the
    user id in decimal on a first call.  The name returned is stored. *)
Theorem userName_spec p st :
  userName p st =
    let name := default (default (to_decimal (getuid p)) (st_userName st)) (passwd_name p) in
    Done (name, set_userName name st).
Proof.
  unfold userName, passwd_name. rewrite call_once_new.
  destruct (getpwuid p (getuid p)) as [[[n|] d]|]; cbn; try done.
  all: by destruct st as [? ? ? ? [u|] ?].
Qed.

Theorem groupName_spec p st :
  groupName p st =
    let name := default (default (to_decimal (getgid p)) (st_groupName st)) (group_name p) in
    Done (name, set_groupName name st).
Proof.
  unfold groupName, group_name. rewrite call_once_new.
  destruct (getgrgid p (getgid p)) as [[[n|]]|]; cbn; try done.
  all: by destruct st as [? ? ? ? ? [g|]].
Qed.

(** [userID] returns the user id read as a signed 32-bit integer:
    the id itself below [2^31], and the id less [2^32], a negative number,
    from there on, where [userName] prints the id itself. *)
Theorem userID_wraps p :
  process_wf p →
  userID p = (if decide (proc_uid p < 2 ^ 31) then proc_uid p else proc_uid p - 2 ^ 32) ∧
  (2 ^ 31 ≤ proc_uid p → userID p < 0).
Proof.
  intros (Hu & _). unfold userID, getuid, to_int32. case_decide.
  - rewrite swrap_small by (cbn; lia). split; [done|lia].
  - rewrite swrap_high by (cbn; lia). split; [done|lia].
Qed.

End user.

Section home.
Context (Context_userHomeDirectory : process → option string).
Implicit Types (p : process).

(** [userHomeDirectory] returns what the base class finds, else
    the home the password database gives for the user; it has no defined
    behaviour when the database has no entry for the user or no home in
    the entry, and it never returns an empty optional. *)
Theorem userHomeDirectory_spec p :
  userHomeDirectory Context_userHomeDirectory p =
    match Context_userHomeDirectory p, getpwuid p (getuid p) ≫= pw_dir with
    | Some value, _ => Done (Some value)
    | None, Some home => Done (Some (c_str home))
    | None, None => Fault Undefined
    end ∧
  userHomeDirectory Context_userHomeDirectory p ≠ Done None.
Proof.
  unfold userHomeDirectory.
  destruct (Context_userHomeDirectory p); [done|].
  by destruct (getpwuid p (getuid p)) as [[? [h|]]|].
Qed.

End home.

Lemma userID_wraps_witness :
  userID (Process "/" [] [] 4294967294 100 ∅ ∅ None) = -2 ∧
  (2 ^ 31 ≤ 4294967294 → userID (Process "/" [] [] 4294967294 100 ∅ ∅ None) < 0).
Proof. apply (userID_wraps (Process "/" [] [] 4294967294 100 ∅ ∅ None)). compute_done. Defined.

Lemma userHomeDirectory_spec_witness :
  userHomeDirectory (λ p, environmentVariable p "HOME") (with_environ (with_passwd demo_process ∅) [])
  = Fault Undefined.
Proof.
  by destruct (userHomeDirectory_spec (λ p, environmentVariable p "HOME")
                 (with_environ (with_passwd demo_process ∅) [])) as [-> _].
Defined.
