(* ===== verification/DefaultContextUnix.v ===== *)
(** * [process::DefaultContext] on macOS and on Linux with an older glibc

    The branches of [DefaultContext.cpp] (lines 264-678 of
    [src/Libraries/pbxbuild/Headers/pbxbuild/Tool/Invocation.h]) for
    [__APPLE__] and for glibc before 2.16, where they differ from the
    ones of [DefaultContext]: on both systems only [executablePath] and
    what is loaded for it.

    On macOS the size that [_NSGetExecutablePath] asks for counts the
    terminator, and the string is resized to it: [Darwin.executablePath]
    passes the path with a zero character at its end on to
    [FSUtil::NormalizePath].  With the older glibc a constructor copies
    [argv[0]] with [strncpy] into an array of [PATH_MAX] characters, which
    leaves the array without a terminator when the argument fills it. *)

From Stdlib Require Import ZArith Lia Ascii.
From stdpp Require Import gmap strings list.
From S2P Require Import Prelude StdString Posix PosixProcess DefaultContext.

#[local] Set Warnings "-clear-no-such-hyp".

Open Scope Z_scope.

(** ** The calls *)

(** [_NSGetExecutablePath (buffer, &bufsize)] for the executable [exe]:
    zero and the path with its terminator when [bufsize] holds them; -1
    and the size that is needed when it does not.  The second component is
    [bufsize] after the call. *)
Definition NSGetExecutablePath (exe : string) (bufsize : Z) : Z * Z * option string :=
  let need := to_uint32 (Z.of_nat (String.length exe) + 1) in
  if bool_decide (need ≤ bufsize) then (0, bufsize, Some (exe +:+ String NUL ""))
  else (-1, need, None).

(** [strncpy (array, src, n)] into an array of [n] characters: the
    characters of [src] and zeros after them, cut at [n]. *)
Definition strncpy (n : nat) (src : string) : list ascii :=
  take n (chars src ++ replicate n NUL).

Module Darwin.

Section executable_path.
Context (NormalizePath : string → string).

Definition executablePath (exe : string) (st : statics) : outcome (string * statics) :=
  '(_, st') ← call_once new_flag
      (λ st,
         let '(ret, size, _) := NSGetExecutablePath exe 0 in
         if decide (ret ≠ -1) then Fault Aborted
         else
           absolutePath ← resize "" size;
           let '(ret, _, data) := NSGetExecutablePath exe size in
           absolutePath ← poke_string absolutePath data;
           if decide (ret ≠ 0) then Fault Aborted
           else Done (set_executablePath (NormalizePath absolutePath) st)) st;
  executablePath ← deref (st_executablePath st');
  Done (executablePath, st').

End executable_path.

End Darwin.

Module Glibc.

(** The constructor that keeps [argv[0]]: the array after the copy. *)
Definition InitialExecutablePathInitialize (p : process) : outcome (list ascii) :=
  match proc_argv p with
  | [] => Fault Undefined
  | argv0 :: _ => Done (strncpy (Z.to_nat PATH_MAX) (c_str argv0))
  end.

Section executable_path.
Context (ResolveRelativePath : string → string → string) (NormalizePath : string → string).

(** [std::string (path)] reads the array up to its terminator. *)
Definition executablePath (ld : loaded) (initialExecutablePath : list ascii)
    (st : statics) : outcome (string * statics) :=
  '(_, st') ← call_once new_flag
      (λ st,
         path ← c_read NUL initialExecutablePath;
         let absolutePath :=
           ResolveRelativePath (str path) (c_str (initialWorkingDirectory ld)) in
         Done (set_executablePath (NormalizePath absolutePath) st)) st;
  executablePath ← deref (st_executablePath st');
  Done (executablePath, st').

End executable_path.

End Glibc.

(** ** Scenario *)

(** A process whose first argument fills the array. *)
Definition long_argv : process :=
  Process "/" [] [str (replicate (Z.to_nat PATH_MAX) "a"%char)] 0 0 ∅ ∅ None.

(** * Theorems *)

Section unix_calls.
Implicit Types (exe src : string) (n : nat).

Lemma NSGetExecutablePath_measure exe :
  Z.of_nat (String.length exe) + 1 < 2 ^ 32 →
  NSGetExecutablePath exe 0 = (-1, Z.of_nat (String.length exe) + 1, None).
Proof.
  intros Hb. unfold NSGetExecutablePath, to_uint32, wrap.
  rewrite Z.mod_small by lia. by rewrite bool_decide_eq_false_2 by lia.
Qed.

Lemma NSGetExecutablePath_fill exe :
  Z.of_nat (String.length exe) + 1 < 2 ^ 32 →
  NSGetExecutablePath exe (Z.of_nat (String.length exe) + 1)
  = (0, Z.of_nat (String.length exe) + 1, Some (exe +:+ String NUL "")).
Proof.
  intros Hb. unfold NSGetExecutablePath, to_uint32, wrap.
  rewrite Z.mod_small by lia. by rewrite bool_decide_eq_true_2 by lia.
Qed.

Lemma resize_empty (k : Z) :
  0 ≤ k ≤ LONG_MAX → resize "" k = Done (str (replicate (Z.to_nat k) NUL)).
Proof.
  intros Hk. unfold resize. rewrite decide_False by lia.
  destruct (Z.to_nat k); cbn; by rewrite ?Nat.sub_0_r.
Qed.

Lemma nul_chars src : NUL ∉ chars (c_str src).
Proof.
  pose proof (c_str_no_nul src) as Hn. rewrite str_mem_chars in Hn.
  by apply bool_decide_eq_false in Hn.
Qed.

(** A source that is shorter than the array is copied with zeros after
    it. *)
Lemma strncpy_short n src :
  (String.length src < n)%nat →
  ∃ rest, strncpy n src = chars src ++ NUL :: rest.
Proof.
  intros Hl. unfold strncpy. rewrite take_app_ge by (rewrite chars_length; lia).
  rewrite chars_length. destruct (n - String.length src)%nat as [|k] eqn:E; [lia|].
  destruct n as [|n]; [lia|]. cbn [replicate]. rewrite firstn_cons. by eexists.
Qed.

(** A source that fills the array is copied without its terminator. *)
Lemma strncpy_long n src :
  (n ≤ String.length src)%nat → strncpy n src = take n (chars src).
Proof.
  intros Hl. unfold strncpy. by rewrite take_app_le by (rewrite chars_length; lia).
Qed.

End unix_calls.

Section unix_claims.
Context (ResolveRelativePath : string → string → string) (NormalizePath : string → string).
Implicit Types (p : process) (ld : loaded) (st : statics) (exe : string).

(** C25.  On macOS [executablePath] normalizes the path of the executable with
    a zero character at its end: the string is resized to the size that
    [_NSGetExecutablePath] asks for, which counts the terminator. *)
Theorem darwin_executablePath_keeps_terminator exe st :
  Z.of_nat (String.length exe) + 1 < 2 ^ 32 →
  Darwin.executablePath NormalizePath exe st
  = Done (NormalizePath (exe +:+ String NUL ""),
          set_executablePath (NormalizePath (exe +:+ String NUL "")) st).
Proof.
  intros Hb. unfold Darwin.executablePath, call_once, new_flag. cbn [called].
  rewrite NSGetExecutablePath_measure by done. rewrite decide_False by (intros ?; lia).
  rewrite resize_empty by (unfold LONG_MAX, size_bits; lia). cbn [mbind outcome_bind].
  rewrite NSGetExecutablePath_fill by done.
  rewrite poke_string_full by (rewrite str_length, length_replicate, str_app_length; cbn; lia).
  cbn [mbind outcome_bind]. by rewrite decide_False by (intros ?; lia).
Qed.

(** C40.  With glibc before 2.16, an [argv[0]] of [PATH_MAX] characters or
    more leaves the array without a terminator, and [executablePath] reads
    past its end; a shorter one is resolved against the working directory
    of the start. *)
Theorem glibc_executablePath_spec p ld st argv0 rest buffer :
  proc_argv p = argv0 :: rest →
  Glibc.InitialExecutablePathInitialize p = Done buffer →
  Glibc.executablePath ResolveRelativePath NormalizePath ld buffer st
  = if decide (Z.of_nat (String.length (c_str argv0)) < PATH_MAX) then
      let path :=
        NormalizePath (ResolveRelativePath (c_str argv0) (c_str (initialWorkingDirectory ld))) in
      Done (path, set_executablePath path st)
    else Fault Undefined.
Proof.
  unfold Glibc.InitialExecutablePathInitialize, Glibc.executablePath, call_once, new_flag.
  intros -> [= <-]. cbn [called]. case_decide as Hl.
  - destruct (strncpy_short (Z.to_nat PATH_MAX) (c_str argv0)) as [more ->]; [lia|].
    rewrite c_read_terminated by apply nul_chars. cbn. by rewrite str_chars.
  - rewrite strncpy_long by lia. rewrite c_read_unterminated; [done|].
    intros Hin%subseteq_take. by apply nul_chars in Hin.
Qed.

End unix_claims.

Section unix_scenarios.

Lemma darwin_executablePath_keeps_terminator_witness :
  Darwin.executablePath id "/bin/xcbuild" no_statics
  = Done ("/bin/xcbuild" +:+ String NUL "",
          set_executablePath ("/bin/xcbuild" +:+ String NUL "") no_statics).
Proof. by apply (darwin_executablePath_keeps_terminator id "/bin/xcbuild" no_statics). Defined.

Lemma glibc_executablePath_spec_witness :
  Glibc.executablePath (λ path _, path) id (Loaded "/" []) (replicate (Z.to_nat PATH_MAX) "a"%char)
    no_statics
  = Fault Undefined.
Proof.
  apply (glibc_executablePath_spec (λ path _, path) id long_argv (Loaded "/" []) no_statics
           (str (replicate (Z.to_nat PATH_MAX) "a"%char)) []); by vm_compute.
Defined.

End unix_scenarios.
