(* ===== verification/SimpleXML.v ===== *)
(** * [plist::Format::SimpleXML]

    The format descriptor of [src/unnamed/part_000] ([SimpleXML.cpp]):
    the constructor, [Type], [Create] and the three specialisations
    [Identify], [Deserialize] and [Serialize] of [Format<SimpleXML>].

    The encodings, the conversion between them, the object model and the
    parser are in other files of the library, which are not among the
    sources: the class [Plist] states what the descriptor uses of them.  A
    pointer that can be null is an [option]. *)

From Stdlib Require Import ZArith Lia Ascii.
From stdpp Require Import strings list.
From S2P Require Import Prelude.

(** ** What the descriptor uses of the library *)

(** [SimpleXMLParser] after [parse]: the root, null on failure, and what
    [error] then returns. *)
Record parsed (Object : Type) : Type := Parsed {
  parsed_root : option Object;
  parsed_error : string;
}.
Arguments Parsed {Object} _ _.
Arguments parsed_root {Object} _.
Arguments parsed_error {Object} _.

Class Plist : Type := {
  Encoding : Type;
  Object : Type;
  UTF8 : Encoding;
  (** [Encodings::Convert (contents, from, to)] *)
  Convert : list byte → Encoding → Encoding → list byte;
  (** [SimpleXMLParser::parse] followed by [SimpleXMLParser::error] *)
  parse : list byte → parsed Object;
  Convert_same : ∀ contents e, Convert contents e e = contents;
}.

(** The values of [plist::Format::Type]. *)
Inductive FormatType : Type :=
  | Type_Binary
  | Type_XML
  | Type_ASCII
  | Type_SimpleXML.

#[global] Instance FormatType_eq_dec : EqDecision FormatType.
Proof. solve_decision. Defined.

(** ** The descriptor *)

Section descriptor.
Context `{Plist}.

Record SimpleXML : Type := Build_SimpleXML { encoding : Encoding }.

Definition Type_ : FormatType := Type_SimpleXML.

Definition Identify (contents : list byte) : option SimpleXML := None.

Definition Deserialize (contents : list byte) (format : SimpleXML)
  : option Object * string :=
  let data := Convert contents (encoding format) UTF8 in
  let parser := parse data in
  match parsed_root parser with
  | None => (None, parsed_error parser)
  | Some root => (Some root, "")
  end.

Definition Serialize (object : option Object) (format : SimpleXML)
  : option (list byte) * string :=
  (None, "not yet implemented").

Definition Create (encoding : Encoding) : SimpleXML := Build_SimpleXML encoding.

(** * Theorems *)

(** [Deserialize] runs the parser on the contents in UTF-8: to read
    contents in an encoding is to read their conversion as UTF-8. *)
Theorem Deserialize_converted (contents : list byte) (format : SimpleXML) :
  Deserialize contents format
  = Deserialize (Convert contents (encoding format) UTF8) (Create UTF8).
Proof. unfold Deserialize, Create. cbn. by rewrite Convert_same. Qed.

(** A descriptor made for UTF-8 hands the contents to the parser
    unchanged. *)
Theorem Deserialize_UTF8 (contents : list byte) :
  (Deserialize contents (Create UTF8)).1 = parsed_root (parse contents).
Proof. unfold Deserialize, Create. cbn. rewrite Convert_same. by destruct (parsed_root _). Qed.

(** The format is read-only and never detected: [Serialize]
    returns no bytes and the text [not yet implemented] for every object,
    so that nothing [Deserialize] has read can be written back, and
    [Identify] recognises no contents. *)
Theorem Serialize_not_implemented (contents : list byte) (format : SimpleXML) :
  Serialize (Deserialize contents format).1 format = (None, "not yet implemented") ∧
  Identify contents = None ∧ Type_ = Type_SimpleXML.
Proof. done. Qed.

End descriptor.

(** A library for running the statements: one encoding, and a parser that
    accepts the two bytes [<>] as the object [tt]. *)
#[local] Instance demo_plist : Plist := {|
  Encoding := unit;
  Object := unit;
  UTF8 := tt;
  Convert := λ contents _ _, contents;
  parse := λ data,
    if decide (data = [Byte.x3c; Byte.x3e]) then Parsed (Some tt) "" else Parsed None "syntax error";
  Convert_same := λ _ _, eq_refl;
|}.

Definition demo_format : SimpleXML := @Create demo_plist tt.

(** An object without a text, or the text of the parser without an
    object. *)
Example Deserialize_demo :
  Deserialize [Byte.x3c; Byte.x3e] demo_format = (Some tt, "")
  ∧ Deserialize [Byte.x3c] demo_format = (None, "syntax error").
Proof. done. Qed.
