(* ===== verification/DependencyInfoReader.v ===== *)
(** * The dependency-info reader

    The reader of the files a tool writes to report the inputs it found
    while it ran (section 4.3 of the specification, with the wire formats
    of section 6).  No code of the reader is among the sources: the
    definitions follow the specification.  What comes from the sources is
    the pair of format and path, [Invocation::DependencyInfo], the file
    system the reader runs on, [DefaultFilesystem], and its [read] and
    [exists].

    The binary format is one version byte and then records to the end of
    the file, each a tag byte (0 input, 1 output, 2 missing), the length of
    the path as four bytes, least significant first, and the bytes of the
    path.  The text format is a list of Make rules.

    The scanner of records takes fuel; the number of bytes to scan is
    enough ([parse_entries_fuel]), and [parse_binary] supplies it. *)

From Stdlib Require Import ZArith Lia Ascii.
From stdpp Require Import gmap strings list.
From coqutil Require Import Byte LittleEndianList.
From S2P Require Import Prelude Posix DefaultFilesystem Invocation.

Open Scope Z_scope.

(** ** Results *)

Inductive ParseError : Type :=
  | Truncated          (* the file ends inside a record or before the version *)
  | UnknownTag (b : byte)
  | Unterminated       (* the last line of a text file has no newline *)
  | MissingColon       (* a line of a text file is no rule *)
  | Unreadable         (* the file exists and cannot be read *)
  | OutOfFuel.

#[global] Instance ParseError_eq_dec : EqDecision ParseError.
Proof. solve_decision. Defined.

Inductive parse (A : Type) : Type :=
  | Accept (a : A)
  | Reject (e : ParseError).
Arguments Accept {A} a.
Arguments Reject {A} e.

#[global] Instance parse_ret : MRet parse := @Accept.

#[global] Instance parse_bind : MBind parse := λ A B f m,
  match m with
  | Accept a => f a
  | Reject e => Reject e
  end.

#[global] Instance parse_fmap : FMap parse := λ A B f m,
  match m with
  | Accept a => Accept (f a)
  | Reject e => Reject e
  end.

(** ** The binary format *)

Inductive tag : Type := Input | Output | Missing.

#[global] Instance tag_eq_dec : EqDecision tag.
Proof. solve_decision. Defined.

Record entry : Type := Entry { entry_tag : tag; entry_path : list byte }.

#[global] Instance entry_eq_dec : EqDecision entry.
Proof. solve_decision. Defined.

Definition tag_byte (t : tag) : byte :=
  match t with
  | Input => Byte.x00
  | Output => Byte.x01
  | Missing => Byte.x02
  end.

Definition byte_tag (b : byte) : parse tag :=
  match b with
  | Byte.x00 => Accept Input
  | Byte.x01 => Accept Output
  | Byte.x02 => Accept Missing
  | _ => Reject (UnknownTag b)
  end.

(** The length field: four bytes, least significant first. *)
Definition LENGTH_BYTES : nat := 4.

Definition encode_entry (e : entry) : list byte :=
  tag_byte (entry_tag e)
  :: le_split LENGTH_BYTES (Z.of_nat (length (entry_path e))) ++ entry_path e.

Definition encode (version : byte) (es : list entry) : list byte :=
  version :: concat (encode_entry <$> es).

(** A path whose length the length field can hold. *)
Definition encodable (e : entry) : Prop := Z.of_nat (length (entry_path e)) < 2 ^ 32.

#[global] Instance encodable_dec e : Decision (encodable e).
Proof. unfold encodable. apply _. Defined.

Fixpoint parse_entries (fuel : nat) (bs : list byte) : parse (list entry) :=
  match bs with
  | [] => Accept []
  | t :: rest =>
    match fuel with
    | O => Reject OutOfFuel
    | S fuel' =>
      tg ← byte_tag t;
      if decide (length rest < LENGTH_BYTES)%nat then Reject Truncated
      else
        let n := Z.to_nat (le_combine (take LENGTH_BYTES rest)) in
        let rest := drop LENGTH_BYTES rest in
        if decide (length rest < n)%nat then Reject Truncated
        else
          es ← parse_entries fuel' (drop n rest);
          Accept (Entry tg (take n rest) :: es)
    end
  end.

Definition parse_binary (bs : list byte) : parse (byte * list entry) :=
  match bs with
  | [] => Reject Truncated
  | version :: rest => es ← parse_entries (length rest) rest; Accept (version, es)
  end.

(** The paths a file of either format reports as inputs. *)
Definition path_of (bs : list byte) : string := String.string_of_list_byte bs.
Definition bytes_of (s : string) : list byte := String.list_byte_of_string s.

Definition inputs_of (es : list entry) : gset string :=
  list_to_set (path_of ∘ entry_path <$> filter (λ e, entry_tag e = Input) es).

(** ** The text format *)

Definition NEWLINE : ascii := "010"%char.
Definition BACKSLASH : ascii := "\"%char.
Definition SPACE : ascii := " "%char.
Definition TAB : ascii := "009"%char.
Definition COLON : ascii := ":"%char.

(** A backslash before a newline continues the line: the pair reads as a
    space. *)
Fixpoint join_continuations (cs : list ascii) : list ascii :=
  match cs with
  | [] => []
  | c :: rest =>
    match rest with
    | c' :: rest' =>
      if decide (c = BACKSLASH ∧ c' = NEWLINE) then SPACE :: join_continuations rest'
      else c :: join_continuations rest
    | [] => [c]
    end
  end.

(** The lines of a text, each ended by a newline; what follows the last
    newline is an unterminated line. *)
Fixpoint lines_of (cs line : list ascii) : parse (list (list ascii)) :=
  match cs with
  | [] => if decide (line = []) then Accept [] else Reject Unterminated
  | c :: rest =>
    if decide (c = NEWLINE) then ls ← lines_of rest []; Accept (reverse line :: ls)
    else lines_of rest (c :: line)
  end.

Definition is_blank (c : ascii) : bool := bool_decide (c = SPACE ∨ c = TAB).

(** The words of a line: separated by blanks, a backslash before a space
    making the space part of the word.  [word] is the word being read,
    backwards. *)
Fixpoint words_of (cs : list ascii) (word : option (list ascii)) : list string :=
  let flush rest :=
    match word with
    | Some w => str (reverse w) :: rest
    | None => rest
    end in
  match cs with
  | [] => flush []
  | c :: rest =>
    if is_blank c then flush (words_of rest None)
    else
      match rest with
      | c' :: rest' =>
        if decide (c = BACKSLASH ∧ c' = SPACE)
        then words_of rest' (Some (SPACE :: default [] word))
        else words_of rest (Some (c :: default [] word))
      | [] => words_of rest (Some (c :: default [] word))
      end
  end.

(** A rule: the outputs before the first colon, the inputs after it.  A
    line of blanks is no rule and is passed over. *)
Definition rule_of (line : list ascii) : parse (option (list string * list string)) :=
  if forallb is_blank line then Accept None
  else
    let outputs := take_while (λ c, negb (bool_decide (c = COLON))) line in
    match drop_while (λ c, negb (bool_decide (c = COLON))) line with
    | [] => Reject MissingColon
    | _ :: inputs => Accept (Some (words_of outputs None, words_of inputs None))
    end.

Fixpoint rules_of (ls : list (list ascii)) : parse (list (list string * list string)) :=
  match ls with
  | [] => Accept []
  | l :: ls' =>
    r ← rule_of l;
    rs ← rules_of ls';
    Accept (match r with Some r => r :: rs | None => rs end)
  end.

Definition parse_makefile (bs : list byte) : parse (list (list string * list string)) :=
  ls ← lines_of (join_continuations (ascii_of_byte <$> bs)) [];
  rules_of ls.

(** The inputs the rules report: what stands after a colon and is no
    output of a rule. *)
Definition makefile_inputs (rules : list (list string * list string)) : gset string :=
  list_to_set (concat (snd <$> rules)) ∖ list_to_set (concat (fst <$> rules)).

(** Printing: a space in a word is escaped. *)
Fixpoint escape (cs : list ascii) : list ascii :=
  match cs with
  | [] => []
  | c :: rest => if decide (c = SPACE) then BACKSLASH :: SPACE :: escape rest else c :: escape rest
  end.

Definition print_words (ws : list string) : list ascii :=
  concat ((λ w, SPACE :: escape (chars w)) <$> ws).

Definition print_rule (r : list string * list string) : list ascii :=
  print_words r.1 ++ COLON :: print_words r.2 ++ [NEWLINE].

Definition print_makefile (rules : list (list string * list string)) : list byte :=
  byte_of_ascii <$> concat (print_rule <$> rules).

(** A word that can stand in a rule: not empty, and free of blanks other
    than spaces, of backslashes, colons and newlines. *)
Definition plain_char (c : ascii) : bool :=
  negb (bool_decide (c = TAB ∨ c = BACKSLASH ∨ c = COLON ∨ c = NEWLINE)).

Definition printable (w : string) : Prop := w ≠ "" ∧ forallb plain_char (chars w) = true.

#[global] Instance printable_dec w : Decision (printable w).
Proof. unfold printable. apply _. Defined.

(** ** Reading a dependency-info file *)

(** [Parse (format, path)]: a file that is absent reports nothing; a file
    that cannot be read, or is malformed, is an error. *)
Definition Parse (w : world) (info : DependencyInfo.t) : outcome (parse (gset string)) :=
  let path := DependencyInfo.path info in
  if negb (exists_ w path) then Done (Accept ∅)
  else
    '(ok, contents) ← read w [] path 0 None;
    if negb ok then Done (Reject Unreadable)
    else
      Done (match DependencyInfo.format info with
            | DependencyInfo.Binary => inputs_of ∘ snd <$> parse_binary contents
            | DependencyInfo.Makefile => makefile_inputs <$> parse_makefile contents
            end).

(** * Theorems *)

(** ** The binary format *)

Section binary.
Implicit Types (e : entry) (es : list entry) (bs : list byte) (t : tag) (b version : byte).

Lemma parse_bind_Accept {A B} (f : A → parse B) (m : parse A) (r : B) :
  m ≫= f = Accept r ↔ ∃ a, m = Accept a ∧ f a = Accept r.
Proof.
  destruct m as [a|e]; cbn; split; try done; eauto.
  - by intros (a' & [= <-] & ?).
  - by intros (? & ? & ?).
Qed.

Lemma byte_tag_byte t : byte_tag (tag_byte t) = Accept t.
Proof. by destruct t. Qed.

Lemma byte_tag_Accept b t : byte_tag b = Accept t → b = tag_byte t.
Proof. destruct b; try done; by intros [= <-]. Qed.

Lemma byte_tag_Reject b err : byte_tag b = Reject err → err = UnknownTag b.
Proof. destruct b; try done; by intros [= <-]. Qed.

Lemma length_field_round_trip e :
  encodable e →
  Z.to_nat (le_combine (le_split LENGTH_BYTES (Z.of_nat (length (entry_path e)))))
  = length (entry_path e).
Proof.
  unfold encodable. intros He. rewrite le_combine_split.
  rewrite Z.mod_small by (change (2 ^ (Z.of_nat LENGTH_BYTES * 8)) with (2 ^ 32); lia).
  apply Nat2Z.id.
Qed.

Lemma parse_entries_nil fuel : parse_entries fuel [] = Accept [].
Proof. by destruct fuel. Qed.

(** Fuel beyond the number of bytes changes nothing. *)
Lemma parse_entries_fuel fuel fuel' bs :
  (length bs ≤ fuel)%nat → (length bs ≤ fuel')%nat →
  parse_entries fuel bs = parse_entries fuel' bs.
Proof.
  revert fuel' bs. induction fuel as [|fuel IH]; intros fuel' [|t rest] H1 H2;
    rewrite ?parse_entries_nil; try done.
  { cbn in H1. lia. }
  destruct fuel' as [|fuel']; [cbn in H2; lia|]. cbn in *.
  destruct (byte_tag t); [|done]. cbn. repeat case_decide; try done.
  rewrite (IH fuel'); [done|rewrite ?length_drop; lia..].
Qed.

(** The scanner reads back one encoded entry and goes on after it. *)
Lemma parse_entries_entry fuel e bs :
  encodable e →
  parse_entries (S fuel) (encode_entry e ++ bs) = es ← parse_entries fuel bs; Accept (e :: es).
Proof.
  intros He. unfold encode_entry. cbn [app parse_entries]. rewrite byte_tag_byte. cbn.
  rewrite <-app_assoc.
  assert (length (le_split LENGTH_BYTES (Z.of_nat (length (entry_path e)))) = LENGTH_BYTES) as Hl
    by apply length_le_split.
  rewrite decide_False by (rewrite length_app, Hl; lia).
  rewrite take_app_length', drop_app_length' by done.
  rewrite length_field_round_trip by done.
  rewrite decide_False by (rewrite length_app; lia).
  rewrite take_app_length, drop_app_length. by destruct e.
Qed.

Lemma encode_length es : (length es ≤ length (concat (encode_entry <$> es)))%nat.
Proof. induction es as [|e es IH]; cbn; [done|]. rewrite length_app. lia. Qed.

Lemma parse_entries_encode fuel es :
  Forall encodable es → (length es ≤ fuel)%nat →
  parse_entries fuel (concat (encode_entry <$> es)) = Accept es.
Proof.
  intros Hall. revert fuel. induction Hall as [|e es He _ IH]; intros fuel Hf.
  { apply parse_entries_nil. }
  destruct fuel as [|fuel]; [cbn in Hf; lia|]. cbn [fmap list_fmap concat].
  rewrite parse_entries_entry by done. rewrite IH by (cbn in Hf; lia). done.
Qed.

(** What the scanner accepts is the encoding of what it returns. *)
Lemma parse_entries_Accept fuel bs es :
  parse_entries fuel bs = Accept es → concat (encode_entry <$> es) = bs ∧ Forall encodable es.
Proof.
  revert bs es. induction fuel as [|fuel IH]; intros [|t rest] es; cbn [parse_entries]; try done.
  1,2: by intros [= <-].
  intros (tg & Htg%byte_tag_Accept & H)%parse_bind_Accept. subst t.
  case_decide as H4; [done|]. case_decide as Hn; [done|].
  apply parse_bind_Accept in H as (es' & [Henc Hall]%IH & [= <-]).
  cbn [fmap list_fmap concat].
  set (n := Z.to_nat (le_combine (take LENGTH_BYTES rest))) in *.
  assert (length (take n (drop LENGTH_BYTES rest)) = n) as Hlen
    by (rewrite length_take; lia).
  pose proof (le_combine_bound (take LENGTH_BYTES rest)) as Hb.
  rewrite length_take, Nat.min_l in Hb by lia.
  split.
  - rewrite Henc. unfold encode_entry. cbn [entry_path entry_tag app]. rewrite Hlen. f_equal.
    unfold n.
    rewrite Z2Nat.id by lia.
    rewrite <-(length_take_le rest LENGTH_BYTES) at 1 by lia.
    rewrite split_le_combine. by rewrite <-app_assoc, !take_drop.
  - constructor; [|done]. unfold encodable. cbn [entry_path]. rewrite Hlen. unfold n.
    rewrite Z2Nat.id by lia. change (8 * Z.of_nat LENGTH_BYTES) with 32 in Hb. lia.
Qed.

Lemma parse_binary_encode version es :
  Forall encodable es → parse_binary (encode version es) = Accept (version, es).
Proof.
  intros Hall. unfold parse_binary, encode.
  by rewrite parse_entries_encode by (done || apply encode_length).
Qed.

Lemma parse_binary_Accept bs version es :
  parse_binary bs = Accept (version, es) → encode version es = bs ∧ Forall encodable es.
Proof.
  destruct bs as [|v rest]; [done|]. cbn.
  intros (es' & [<- ?]%parse_entries_Accept & [= <- <-])%parse_bind_Accept. done.
Qed.

(** The scanner never runs out of the fuel [parse_binary] gives it. *)
Lemma parse_entries_enough fuel bs :
  (length bs ≤ fuel)%nat → parse_entries fuel bs ≠ Reject OutOfFuel.
Proof.
  revert bs. induction fuel as [|fuel IH]; intros [|t rest] Hle; cbn [parse_entries length] in *;
    try done; [lia|].
  destruct (byte_tag t) as [tg|err] eqn:Et; [|by apply byte_tag_Reject in Et as ->].
  cbn [mbind parse_bind]. repeat case_decide; try done.
  specialize (IH (drop (Z.to_nat (le_combine (take LENGTH_BYTES rest))) (drop LENGTH_BYTES rest))).
  destruct (parse_entries fuel _); [done|]. apply IH. rewrite !length_drop. lia.
Qed.

(** A file cut inside a record is refused. *)
Lemma parse_entries_truncated fuel es e k :
  Forall encodable es → encodable e → (length es < fuel)%nat →
  (0 < k < length (encode_entry e))%nat →
  parse_entries fuel (concat (encode_entry <$> es) ++ take k (encode_entry e))
  = Reject Truncated.
Proof.
  intros Hall He. revert fuel. induction Hall as [|e' es He' _ IH]; intros fuel Hf Hk.
  - destruct fuel as [|fuel]; [lia|]. cbn [fmap list_fmap concat app].
    unfold encode_entry in *. destruct k as [|k]; [lia|]. cbn [take parse_entries].
    rewrite byte_tag_byte. cbn [mbind parse_bind]. cbn [length] in Hk.
    rewrite length_app, length_le_split in Hk.
    destruct (decide (k < LENGTH_BYTES)%nat).
    { rewrite decide_True; [done|]. rewrite length_take, length_app, length_le_split. lia. }
    rewrite decide_False by (rewrite length_take, length_app, length_le_split; lia).
    rewrite take_app_ge by (rewrite length_le_split; lia). rewrite length_le_split.
    rewrite take_app_length', drop_app_length' by (symmetry; apply length_le_split).
    rewrite length_field_round_trip by done.
    rewrite decide_True; [done|]. rewrite length_take. lia.
  - destruct fuel as [|fuel]; [cbn in Hf; lia|]. cbn [fmap list_fmap concat].
    rewrite <-app_assoc, parse_entries_entry by done.
    rewrite IH; [done|cbn in Hf; lia|done].
Qed.

End binary.

(** ** The text format *)

Section makefile.
Implicit Types (c : ascii) (cs rest line : list ascii) (w : string) (ws : list string).
Implicit Types (r : list string * list string).

Lemma plain_char_spec c :
  plain_char c = true ↔ c ≠ TAB ∧ c ≠ BACKSLASH ∧ c ≠ COLON ∧ c ≠ NEWLINE.
Proof.
  unfold plain_char. rewrite negb_true_iff, bool_decide_eq_false. split.
  - intros H. split_and!; intros ->; apply H; auto.
  - intros (? & ? & ? & ?) [?|[?|[?|?]]]; done.
Qed.

Lemma join_continuations_char c rest :
  c ≠ BACKSLASH → join_continuations (c :: rest) = c :: join_continuations rest.
Proof.
  intros Hc. destruct rest as [|c' rest]; [done|]. cbn.
  rewrite decide_False; [done|]. by intros [? _].
Qed.

Lemma join_continuations_escaped rest :
  join_continuations (BACKSLASH :: SPACE :: rest) = BACKSLASH :: SPACE :: join_continuations rest.
Proof.
  cbn [join_continuations]. rewrite decide_False by (by intros [_ ?]).
  f_equal. by apply join_continuations_char.
Qed.

Lemma join_continuations_escape cs rest :
  forallb plain_char cs = true →
  join_continuations (escape cs ++ rest) = escape cs ++ join_continuations rest.
Proof.
  induction cs as [|c cs IH]; [done|]. cbn [forallb escape].
  intros [(_ & Hb & _)%plain_char_spec Hcs]%andb_true_iff. case_decide.
  - cbn [app]. by rewrite join_continuations_escaped, IH.
  - cbn [app]. by rewrite join_continuations_char, IH.
Qed.

Lemma join_continuations_words ws rest :
  Forall printable ws →
  join_continuations (print_words ws ++ rest) = print_words ws ++ join_continuations rest.
Proof.
  unfold print_words. induction 1 as [|w ws [_ Hw] _ IH]; [done|]. cbn [fmap list_fmap concat].
  rewrite <-!app_assoc. cbn [app].
  by rewrite join_continuations_char, join_continuations_escape, IH.
Qed.

Definition printable_rule r : Prop := Forall printable r.1 ∧ Forall printable r.2.

Lemma join_continuations_print (rules : list (list string * list string)) :
  Forall printable_rule rules →
  join_continuations (concat (print_rule <$> rules)) = concat (print_rule <$> rules).
Proof.
  induction 1 as [|r rules [H1 H2] _ IH]; [done|]. cbn [fmap list_fmap concat].
  unfold print_rule at 1 3. rewrite <-!app_assoc. cbn [app].
  rewrite join_continuations_words by done. f_equal.
  rewrite join_continuations_char by done. f_equal. rewrite <-app_assoc.
  rewrite join_continuations_words by done. f_equal. cbn [app].
  by rewrite join_continuations_char, IH.
Qed.

(** What [escape] and [print_words] write holds no newline and no colon. *)
Lemma escape_chars cs c :
  forallb plain_char cs = true → c = NEWLINE ∨ c = COLON → c ∉ escape cs.
Proof.
  intros Hcs Hc. induction cs as [|c' cs IH]; [by intros ?%elem_of_nil|].
  cbn in Hcs |- *. apply andb_true_iff in Hcs as [(_ & _ & ? & ?)%plain_char_spec Hcs].
  case_decide; rewrite !elem_of_cons; intros H'; destruct_or!; subst; try done;
    try (by destruct Hc); by apply IH.
Qed.

Lemma print_words_chars ws c :
  Forall printable ws → c = NEWLINE ∨ c = COLON → c ∉ print_words ws.
Proof.
  intros Hall Hc. unfold print_words. induction Hall as [|w ws [_ Hw] _ IH].
  { by intros ?%elem_of_nil. }
  cbn. rewrite elem_of_cons, elem_of_app. intros [->|[H'|H']].
  - by destruct Hc.
  - by eapply escape_chars.
  - by apply IH.
Qed.

Lemma lines_of_line line rest acc :
  NEWLINE ∉ line →
  lines_of (line ++ NEWLINE :: rest) acc
  = ls ← lines_of rest []; Accept ((reverse acc ++ line) :: ls).
Proof.
  revert acc. induction line as [|c line IH]; intros acc Hn; cbn [app lines_of].
  - rewrite decide_True by done. by rewrite app_nil_r.
  - rewrite not_elem_of_cons in Hn. destruct Hn as [Hc Hn].
    rewrite decide_False by done. rewrite IH by done.
    by rewrite reverse_cons, <-app_assoc.
Qed.

(** A text whose last character is no newline is refused. *)
Lemma lines_of_unterminated cs c acc :
  c ≠ NEWLINE → lines_of (cs ++ [c]) acc = Reject Unterminated.
Proof.
  intros Hc. revert acc. induction cs as [|c' cs IH]; intros acc; cbn.
  - by rewrite decide_False, decide_False.
  - case_decide; by rewrite IH.
Qed.

(** One step of [words_of]. *)
Lemma words_of_char c rest word :
  is_blank c = false → c ≠ BACKSLASH →
  words_of (c :: rest) word = words_of rest (Some (c :: default [] word)).
Proof.
  intros Hb Hc. cbn [words_of]. rewrite Hb. destruct rest; [done|].
  by rewrite decide_False by (by intros [? _]).
Qed.

Lemma words_of_escaped rest word :
  words_of (BACKSLASH :: SPACE :: rest) word = words_of rest (Some (SPACE :: default [] word)).
Proof. done. Qed.

Lemma words_of_space rest word :
  words_of (SPACE :: rest) word
  = from_option (λ acc, [str (reverse acc)]) [] word ++ words_of rest None.
Proof. by destruct word. Qed.

Lemma plain_not_blank c : plain_char c = true → c ≠ SPACE → is_blank c = false.
Proof.
  intros (? & _)%plain_char_spec ?. unfold is_blank. apply bool_decide_eq_false_2.
  by intros [?|?].
Qed.

(** The words of an escaped word, up to the blank that ends it. *)
Lemma words_of_escape cs word rest :
  forallb plain_char cs = true → (rest = [] ∨ ∃ rest', rest = SPACE :: rest') →
  words_of (escape cs ++ rest) (Some word)
  = str (reverse word ++ cs) :: words_of (drop 1 rest) None.
Proof.
  revert word. induction cs as [|c cs IH]; intros word Hcs Hrest.
  - cbn [escape app]. rewrite app_nil_r. destruct Hrest as [->|[rest' ->]]; [done|].
    by rewrite words_of_space.
  - cbn [forallb escape] in *. apply andb_true_iff in Hcs as [Hc Hcs].
    pose proof (proj1 (plain_char_spec c) Hc) as (_ & Hb & _).
    case_decide as Hs; cbn [app].
    + rewrite words_of_escaped, IH by done. cbn [default]. subst c.
      by rewrite reverse_cons, <-app_assoc.
    + rewrite words_of_char, IH by (done || by apply plain_not_blank). cbn [default].
      by rewrite reverse_cons, <-app_assoc.
Qed.

Lemma words_of_start cs rest :
  cs ≠ [] → forallb plain_char cs = true →
  words_of (escape cs ++ rest) None = words_of (escape cs ++ rest) (Some []).
Proof.
  destruct cs as [|c cs]; [done|]. intros _ [Hc _]%andb_true_iff.
  cbn [escape]. case_decide; [done|].
  pose proof (proj1 (plain_char_spec c) Hc) as (_ & Hb & _).
  cbn [app]. by rewrite !words_of_char by (done || by apply plain_not_blank).
Qed.

Lemma words_of_print ws : Forall printable ws → words_of (print_words ws) None = ws.
Proof.
  unfold print_words. induction 1 as [|w ws [Hne Hw] Hall IH]; [done|].
  cbn [fmap list_fmap concat app]. rewrite words_of_space. cbn [from_option app].
  assert (chars w ≠ []) as Hc by (intros E; apply Hne, chars_inj; by rewrite E).
  rewrite words_of_start, words_of_escape by done || (destruct ws; cbn; eauto).
  rewrite app_nil_l, str_chars. f_equal.
  destruct ws as [|w' ws]; [done|]. cbn [fmap list_fmap concat app drop] in *.
  by rewrite words_of_space in IH.
Qed.

Lemma rule_of_print r :
  printable_rule r → rule_of (print_words r.1 ++ COLON :: print_words r.2) = Accept (Some r).
Proof.
  intros [H1 H2]. unfold rule_of.
  assert (forallb is_blank (print_words r.1 ++ COLON :: print_words r.2) = false) as ->.
  { apply not_true_iff_false. rewrite forallb_forall. intros H.
    specialize (H COLON). rewrite in_app_iff in H. cbn in H.
    by specialize (H (or_intror (or_introl eq_refl))). }
  assert (Forall (λ c, negb (bool_decide (c = COLON)) = true) (print_words r.1)) as Hall.
  { apply Forall_forall. intros c Hc. apply negb_true_iff, bool_decide_eq_false_2.
    intros ->. revert Hc. apply print_words_chars; auto. }
  rewrite take_while_app_stop, drop_while_app_stop by (done || by rewrite bool_decide_eq_true_2).
  rewrite !words_of_print by done. by destruct r.
Qed.

Lemma rules_of_print (rules : list (list string * list string)) :
  Forall printable_rule rules →
  rules_of ((λ r, print_words r.1 ++ COLON :: print_words r.2) <$> rules) = Accept rules.
Proof.
  induction 1 as [|r rules Hr _ IH]; [done|]. cbn. by rewrite rule_of_print, IH.
Qed.

Lemma print_rule_app r rest :
  print_rule r ++ rest = (print_words r.1 ++ COLON :: print_words r.2) ++ NEWLINE :: rest.
Proof.
  unfold print_rule. rewrite <-!app_assoc. f_equal. cbn [app]. f_equal.
  by rewrite <-app_assoc.
Qed.

Lemma lines_of_print (rules : list (list string * list string)) :
  Forall printable_rule rules →
  lines_of (concat (print_rule <$> rules)) []
  = Accept ((λ r, print_words r.1 ++ COLON :: print_words r.2) <$> rules).
Proof.
  induction 1 as [|r rules [H1 H2] _ IH]; [done|]. cbn [fmap list_fmap concat].
  rewrite print_rule_app, lines_of_line, IH; [done|].
  rewrite elem_of_app, elem_of_cons. intros [H'|[?|H']]; [|done|].
  all: revert H'; apply print_words_chars; auto.
Qed.

Lemma ascii_of_byte_fmap cs : ascii_of_byte <$> (byte_of_ascii <$> cs) = cs.
Proof.
  induction cs as [|c cs IH]; [done|]. cbn. by rewrite ascii_of_byte_of_ascii, IH.
Qed.

(** What is printed is read back. *)
Lemma parse_makefile_print (rules : list (list string * list string)) :
  Forall printable_rule rules → parse_makefile (print_makefile rules) = Accept rules.
Proof.
  intros Hall. unfold parse_makefile, print_makefile.
  rewrite ascii_of_byte_fmap, join_continuations_print, lines_of_print by done.
  by apply rules_of_print.
Qed.

End makefile.

(** ** Reading files *)

(** The encoding of a set of inputs, as a tool writes it. *)
Definition encode_inputs (version : byte) (paths : gset string) : list byte :=
  encode version (Entry Input ∘ bytes_of <$> elements paths).

Section reader.
Implicit Types (w : world) (info : DependencyInfo.t) (path : string) (es : list entry).

Lemma path_of_bytes_of s : path_of (bytes_of s) = s.
Proof. apply String.string_of_list_byte_of_string. Qed.

Lemma inputs_of_inputs (paths : list string) :
  inputs_of (Entry Input ∘ bytes_of <$> paths) = list_to_set paths.
Proof.
  unfold inputs_of. f_equal. induction paths as [|s paths IH]; [done|].
  rewrite fmap_cons, filter_cons_True, fmap_cons, IH by done.
  f_equal. apply path_of_bytes_of.
Qed.

Lemma exists_file w path p n : lookup_node w path true = Ok (p, n) → exists_ w path = true.
Proof. intros H. apply exists_spec. eauto. Qed.

(** [Parse] on a file that is there and can be read. *)
Lemma Parse_file w info p d pm :
  lookup_node w (DependencyInfo.path info) true = Ok (p, File d pm) → p_read pm = true →
  Z.of_nat (length d) ≤ LONG_MAX →
  Parse w info =
    Done (match DependencyInfo.format info with
          | DependencyInfo.Binary => inputs_of ∘ snd <$> parse_binary d
          | DependencyInfo.Makefile => makefile_inputs <$> parse_makefile d
          end).
Proof.
  intros Hl Hr Hlen. unfold Parse. rewrite (exists_file _ _ _ _ Hl). cbn [negb].
  by rewrite (read_whole w _ p d pm).
Qed.

(** [Parse] on what [write] has stored. *)
Lemma Parse_written w w' info contents :
  write w contents (DependencyInfo.path info) = (true, w') →
  isReadable w' (DependencyInfo.path info) = true →
  Z.of_nat (length contents) ≤ LONG_MAX →
  Parse w' info =
    Done (match DependencyInfo.format info with
          | DependencyInfo.Binary => inputs_of ∘ snd <$> parse_binary contents
          | DependencyInfo.Makefile => makefile_inputs <$> parse_makefile contents
          end).
Proof.
  intros Hw Hr Hlen. unfold Parse.
  rewrite (sys_access_F_OK _ _ _ Hr : exists_ w' _ = true). cbn [negb].
  by rewrite (write_then_read w w' contents).
Qed.

(** C11.  Round trip through a file in the binary format: when a set of
    paths has been encoded and written, [Parse] returns exactly that set,
    provided that each path fits the length field and the file can be read
    back. *)
Theorem Parse_binary_round_trip w w' version (paths : gset string) path :
  set_Forall (λ s, Z.of_nat (length (bytes_of s)) < 2 ^ 32) paths →
  write w (encode_inputs version paths) path = (true, w') →
  isReadable w' path = true →
  Z.of_nat (length (encode_inputs version paths)) ≤ LONG_MAX →
  Parse w' (DependencyInfo.Build DependencyInfo.Binary path) = Done (Accept paths).
Proof.
  intros Hfit Hw Hr Hlen.
  rewrite (Parse_written w w' _ (encode_inputs version paths)) by done.
  cbn [DependencyInfo.format]. unfold encode_inputs. rewrite parse_binary_encode.
  - cbn [fmap parse_fmap compose snd]. by rewrite inputs_of_inputs, list_to_set_elements_L.
  - apply Forall_fmap, Forall_forall. intros s Hs%elem_of_elements. by apply Hfit.
Qed.

(** C31.  A binary file that ends inside a record is a parse error: not
    an empty result, and not the records before the cut. *)
Theorem Parse_binary_truncated w path p pm version es e k :
  Forall encodable es → encodable e → (0 < k < length (encode_entry e))%nat →
  let d := encode version es ++ take k (encode_entry e) in
  lookup_node w path true = Ok (p, File d pm) → p_read pm = true →
  Z.of_nat (length d) ≤ LONG_MAX →
  Parse w (DependencyInfo.Build DependencyInfo.Binary path) = Done (Reject Truncated).
Proof.
  intros Hall He Hk d Hl Hr Hlen. rewrite (Parse_file w _ p d pm) by done.
  cbn [DependencyInfo.format]. unfold d, encode. cbn [app parse_binary].
  rewrite parse_entries_truncated; [done..| |done].
  rewrite length_app. pose proof (encode_length es).
  rewrite length_take. lia.
Qed.

(** A file that is absent reports no inputs, in either format; a
    file that is there and cannot be opened for reading is an error. *)
Theorem Parse_absent_or_unreadable w info :
  (exists_ w (DependencyInfo.path info) = false → Parse w info = Done (Accept ∅)) ∧
  (exists_ w (DependencyInfo.path info) = true →
   isReadable w (DependencyInfo.path info) = false → Parse w info = Done (Reject Unreadable)).
Proof.
  unfold Parse. split; [by intros ->|]. intros -> Hr. cbn [negb].
  unfold read. destruct (fopen_r w _) as [fp|] eqn:E; [|done].
  apply fopen_r_Ok in E as (p & pm & Hl & Hp & _).
  unfold isReadable in Hr. apply not_true_iff_false in Hr. destruct Hr.
  apply sys_access_ok. eauto.
Qed.

End reader.

Section reader_text.
Implicit Types (w : world) (path : string) (c : ascii) (cs : list ascii).

Lemma join_continuations_cons c1 c2 cs :
  join_continuations (c1 :: c2 :: cs) =
    if decide (c1 = BACKSLASH ∧ c2 = NEWLINE) then SPACE :: join_continuations cs
    else c1 :: join_continuations (c2 :: cs).
Proof. done. Qed.

(** Joining continuations keeps a last character that is no newline. *)
Lemma join_continuations_last cs c :
  c ≠ NEWLINE → ∃ cs', join_continuations (cs ++ [c]) = cs' ++ [c].
Proof.
  intros Hc. remember (length cs) as n eqn:Hn.
  assert (length cs ≤ n)%nat as Hle by lia. clear Hn. revert cs Hle.
  induction n as [|n IH]; intros [|c1 cs] Hle; cbn [length] in Hle; try lia.
  1,2: by exists [].
  destruct cs as [|c2 cs]; cbn [app]; rewrite join_continuations_cons.
  - case_decide as E; [by destruct E as [_ ?]|]. by exists [c1].
  - case_decide.
    + destruct (IH cs) as [cs' E]; [cbn in Hle; lia|]. exists (SPACE :: cs').
      by rewrite E.
    + destruct (IH (c2 :: cs)) as [cs' E]; [cbn in Hle |- *; lia|]. exists (c1 :: cs').
      cbn [app] in E. by rewrite E.
Qed.

Lemma parse_makefile_unterminated (bs : list byte) b :
  ascii_of_byte b ≠ NEWLINE → parse_makefile (bs ++ [b]) = Reject Unterminated.
Proof.
  intros Hb. unfold parse_makefile. rewrite fmap_app. cbn [fmap list_fmap].
  destruct (join_continuations_last (ascii_of_byte <$> bs) _ Hb) as [cs' ->].
  by rewrite lines_of_unterminated.
Qed.

(** Round trip through a file in the text format: when rules
    whose words are printable have been printed and written, [Parse]
    returns the words after the colons that are no output of a rule; a
    space in a path comes back as a space. *)
Theorem Parse_makefile_round_trip w w' (rules : list (list string * list string)) path :
  Forall printable_rule rules →
  write w (print_makefile rules) path = (true, w') →
  isReadable w' path = true →
  Z.of_nat (length (print_makefile rules)) ≤ LONG_MAX →
  Parse w' (DependencyInfo.Build DependencyInfo.Makefile path)
  = Done (Accept (makefile_inputs rules)).
Proof.
  intros Hall Hw Hr Hlen.
  rewrite (Parse_written w w' _ (print_makefile rules)) by done.
  cbn [DependencyInfo.format]. by rewrite parse_makefile_print.
Qed.

(** A text file whose last line has no newline is a parse error,
    whatever the lines before it hold. *)
Theorem Parse_makefile_unterminated w path p pm (bs : list byte) b :
  ascii_of_byte b ≠ NEWLINE →
  lookup_node w path true = Ok (p, File (bs ++ [b]) pm) → p_read pm = true →
  Z.of_nat (length (bs ++ [b])) ≤ LONG_MAX →
  Parse w (DependencyInfo.Build DependencyInfo.Makefile path) = Done (Reject Unterminated).
Proof.
  intros Hb Hl Hr Hlen. rewrite (Parse_file w _ p (bs ++ [b]) pm) by done.
  cbn [DependencyInfo.format]. by rewrite parse_makefile_unterminated.
Qed.

End reader_text.

(** ** The statements on concrete files *)

(** The tree of [Posix] on a device with room for the files. *)
Definition roomy_world : world := with_space demo_world 4096.

Definition demo_inputs : gset string := {[ "a.h"; "lib/b.h" ]}.

Definition demo_rules : list (list string * list string) :=
  [(["a.o"], ["a.c"; "my dir/a.h"; "a.o"]); (["b.o"], [])].

Lemma Parse_binary_round_trip_witness :
  Parse (write roomy_world (encode_inputs Byte.x01 demo_inputs) "/a/deps.d").2
        (DependencyInfo.Build DependencyInfo.Binary "/a/deps.d")
  = Done (Accept demo_inputs).
Proof.
  apply (Parse_binary_round_trip roomy_world _ Byte.x01 demo_inputs "/a/deps.d");
    [|compute_done..].
  intros s Hs. apply elem_of_elements in Hs. revert s Hs. apply Forall_forall. compute_done.
Defined.

Lemma Parse_binary_truncated_witness :
  Parse (write roomy_world [Byte.x01; Byte.x00; Byte.x03; Byte.x00; Byte.x00; Byte.x00; Byte.x61]
               "/a/deps.d").2
        (DependencyInfo.Build DependencyInfo.Binary "/a/deps.d")
  = Done (Reject Truncated).
Proof.
  apply (Parse_binary_truncated _ "/a/deps.d" ["a"; "deps.d"] perm_rw Byte.x01 []
           (Entry Input (bytes_of "a.h")) 6); compute_done.
Defined.

Lemma Parse_absent_or_unreadable_witness :
  Parse roomy_world (DependencyInfo.Build DependencyInfo.Makefile "/a/none.d") = Done (Accept ∅).
Proof. apply Parse_absent_or_unreadable. compute_done. Defined.

Lemma Parse_makefile_round_trip_witness :
  Parse (write roomy_world (print_makefile demo_rules) "/a/deps.d").2
        (DependencyInfo.Build DependencyInfo.Makefile "/a/deps.d")
  = Done (Accept {[ "a.c"; "my dir/a.h" ]}).
Proof.
  rewrite (Parse_makefile_round_trip roomy_world _ demo_rules "/a/deps.d") by compute_done.
  by vm_compute.
Defined.

Lemma Parse_makefile_unterminated_witness :
  Parse (write roomy_world (bytes_of "a.o: a.c") "/a/deps.d").2
        (DependencyInfo.Build DependencyInfo.Makefile "/a/deps.d")
  = Done (Reject Unterminated).
Proof.
  apply (Parse_makefile_unterminated _ "/a/deps.d" ["a"; "deps.d"] perm_rw
           (bytes_of "a.o: a.") Byte.x63); compute_done.
Defined.
