(* ===== verification/AuxiliaryFiles.v ===== *)
(** * The auxiliary-file materializer

    The writing of the files an invocation needs before it runs (section
    4.2 of the specification).  No code of the materializer is among the
    sources: the definitions follow the specification.  What comes from
    the sources is the description of the file, [Invocation::AuxiliaryFile]
    with its chunks, and the file system, [DefaultFilesystem] with its
    [read], [write] and [removeFile]; [rename] and [chmod], which
    [DefaultFilesystem] does not have, are those of [PosixRename].

    A file is materialized in four steps: the bytes of its chunks are
    gathered ([resolve]), written under a temporary name, given their
    mode, and moved to the path ([install]).  [install_states] lists the
    states the file system goes through, those inside the writing
    included: a crash leaves the file system in one of them.

    The files of an invocation are written one after the other
    ([materialize_all]).  [placed] says where a file goes and that it can
    be installed there, [apart] that two states of the file system differ
    in given entries only: a file that is installed leaves what is placed
    elsewhere placed, and so every file of a list whose entries differ
    holds its bytes at the end ([materialize_all_readable]). *)

From Stdlib Require Import ZArith Lia.
From stdpp Require Import gmap strings list.
From S2P Require Import Prelude Posix PosixRename DefaultFilesystem Invocation.

#[local] Set Warnings "-clear-no-such-hyp".

(** ** Errors *)

Inductive AuxiliaryFileError : Type :=
  | UnreadableChunk (file : string)   (* the file of a chunk cannot be read *)
  | MalformedChunk                    (* a chunk without the member its type announces *)
  | Unwritable (path : string).       (* the file cannot be written or moved *)

#[global] Instance AuxiliaryFileError_eq_dec : EqDecision AuxiliaryFileError.
Proof. solve_decision. Defined.

(** ** The bytes of a file *)

Definition chunk_bytes (w : world) (c : Chunk.t)
  : outcome (AuxiliaryFileError + list byte) :=
  match Chunk.to_variant c with
  | Some (Chunk.Literal d) => Done (inr d)
  | Some (Chunk.Copy f) =>
    '(ok, d) ← read w [] f 0 None;
    Done (if ok : bool then inr d else inl (UnreadableChunk f))
  | None => Done (inl MalformedChunk)
  end.

Fixpoint resolve (w : world) (chunks : list Chunk.t)
  : outcome (AuxiliaryFileError + list byte) :=
  match chunks with
  | [] => Done (inr [])
  | c :: chunks' =>
    r ← chunk_bytes w c;
    match r with
    | inl e => Done (inl e)
    | inr d =>
      rs ← resolve w chunks';
      Done (match rs with
            | inl e => inl e
            | inr ds => inr (d ++ ds)
            end)
    end
  end.

(** ** Writing in one step *)

Section materializer.
(** The temporary name for a path. *)
Context (temporary : string → string).

(** The mode of the file: [chmod] when it is to be executable. *)
Definition mark (executable : bool) (w : world) (tmp : string) : result world :=
  if executable then sys_chmod w (c_str tmp) perm_rwx else Ok w.

(** What a failure leaves behind is removed. *)
Definition discard (w : world) (tmp : string) : world := (removeFile w tmp).2.

Definition install (w : world) (path : string) (executable : bool) (contents : list byte)
  : option AuxiliaryFileError * world :=
  let tmp := temporary path in
  match write w contents tmp with
  | (false, w1) => (Some (Unwritable tmp), discard w1 tmp)
  | (true, w1) =>
    match mark executable w1 tmp with
    | Err _ => (Some (Unwritable tmp), discard w1 tmp)
    | Ok w2 =>
      match sys_rename w2 (c_str tmp) (c_str path) with
      | Err _ => (Some (Unwritable path), discard w2 tmp)
      | Ok w3 => (None, w3)
      end
    end
  end.

(** The states of the file system on the way: after each part of the
    contents has reached the temporary file, after the mode is set, and at
    the end. *)
Definition install_states (w : world) (path : string) (executable : bool)
    (contents : list byte) : list world :=
  let tmp := temporary path in
  ((λ k, (write w (take k contents) tmp).2) <$> seq 0 (S (length contents)))
  ++ match write w contents tmp with
     | (false, w1) => [discard w1 tmp]
     | (true, w1) =>
       match mark executable w1 tmp with
       | Err _ => [discard w1 tmp]
       | Ok w2 =>
         w2 :: match sys_rename w2 (c_str tmp) (c_str path) with
               | Err _ => [discard w2 tmp]
               | Ok w3 => [w3]
               end
       end
     end.

Definition materialize (w : world) (a : AuxiliaryFile.t)
  : outcome (option AuxiliaryFileError * world) :=
  r ← resolve w (AuxiliaryFile.chunks a);
  match r with
  | inl e => Done (Some e, w)
  | inr contents =>
    Done (install w (AuxiliaryFile.path a) (AuxiliaryFile.executable a) contents)
  end.

(** The files of an invocation, in their order, up to the first that
    fails. *)
Fixpoint materialize_all (w : world) (files : list AuxiliaryFile.t)
  : outcome (option AuxiliaryFileError * world) :=
  match files with
  | [] => Done (None, w)
  | a :: files' =>
    '(e, w') ← materialize w a;
    match e with
    | Some e => Done (Some e, w')
    | None => materialize_all w' files'
    end
  end.

End materializer.

(** ** What the theorems are stated with *)

(** [s] is [w] but for the entry [tp], which is no directory and no link
    in either. *)
Record aside (tp : list string) (w s : world) : Prop := {
  aside_cwd : cwd s = cwd w;
  aside_nodes : ∀ q, q ≠ tp → nodes s !! q = nodes w !! q;
  aside_dir : is_dir (nodes s) tp = false;
  aside_link : ∀ t, nodes s !! tp ≠ Some (Symlink t);
}.

(** The entry at [p] is no directory and no link. *)
Definition plain (w : world) (p : list string) : Prop :=
  is_dir (nodes w) p = false ∧ ∀ t, nodes w !! p ≠ Some (Symlink t).

(** At [p], [s] holds what [w] held or a file with [contents]. *)
Definition old_or_new (w : world) (p : list string) (contents : list byte) (s : world)
  : Prop :=
  nodes s !! p = nodes w !! p ∨ ∃ pm, nodes s !! p = Some (File contents pm).

(** The chunk [c] stands for the bytes [d]: they are its data, or the
    contents of its file, which can be read. *)
Definition chunk_holds (w : world) (c : Chunk.t) (d : list byte) : Prop :=
  c = Chunk.Data d ∨
  ∃ f p pm, c = Chunk.File f ∧ lookup_node w f true = Ok (p, File d pm)
    ∧ p_read pm = true ∧ (Z.of_nat (length d) ≤ LONG_MAX)%Z.

(** [s] is [w] but for the entries [qs], which are no directories and no
    links in either. *)
Record apart (qs : list (list string)) (w s : world) : Prop := {
  apart_cwd : cwd s = cwd w;
  apart_nodes : ∀ q, q ∉ qs → nodes s !! q = nodes w !! q;
  apart_plain : ∀ q, q ∈ qs → plain w q ∧ plain s q;
}.

(** The file that a chunk copies is none of the entries [qs]. *)
Definition chunk_apart (w : world) (qs : list (list string)) (c : Chunk.t) : Prop :=
  ∀ f q, c = Chunk.File f → namei w f true = Ok q → q ∉ qs.

(** Where an auxiliary file goes: the entry of its path, the entry of
    its temporary name, the mode of that entry, and the bytes of its
    chunks. *)
Record place : Type := Place {
  at_path : list string;
  at_tmp : list string;
  at_mode : perm;
  at_bytes : list (list byte);
}.

Definition places (pls : list place) : list (list string) :=
  flat_map (λ pl, [at_path pl; at_tmp pl]) pls.

(** The mode of the file once it is installed. *)
Definition installed_mode (a : AuxiliaryFile.t) (pl : place) : perm :=
  if AuxiliaryFile.executable a then perm_rwx else at_mode pl.

(** The auxiliary file [a] can be installed in [w] at [pl]: its path is
    no link and no directory, its temporary name can be opened for
    writing and is another entry, and its chunks can be read. *)
Record placed (temporary : string → string) (w : world) (a : AuxiliaryFile.t)
    (pl : place) : Prop := {
  placed_path : namei w (AuxiliaryFile.path a) false = Ok (at_path pl);
  placed_plain : plain w (at_path pl);
  placed_open :
    opens_for_write w (temporary (AuxiliaryFile.path a)) (at_tmp pl) (at_mode pl);
  placed_nolink : namei w (temporary (AuxiliaryFile.path a)) false = Ok (at_tmp pl);
  placed_ne : at_tmp pl ≠ at_path pl;
  placed_chunks : Forall2 (chunk_holds w) (AuxiliaryFile.chunks a) (at_bytes pl);
  placed_read : p_read (installed_mode a pl) = true;
  placed_len : (Z.of_nat (length (concat (at_bytes pl))) ≤ LONG_MAX)%Z;
}.

(** The path of [a] names the file with the bytes of its chunks. *)
Definition installed (w : world) (a : AuxiliaryFile.t) (pl : place) : Prop :=
  lookup_node w (AuxiliaryFile.path a) true
  = Ok (at_path pl, File (concat (at_bytes pl)) (installed_mode a pl)).

(** ** Scenario

    A file of two chunks, twelve bytes of data and a file of ten bytes to
    copy, in a directory [/a]; the temporary name is the path with [.tmp]
    appended. *)

Definition dot_tmp (path : string) : string := path +:+ ".tmp".

Definition scenario_define : list byte :=
  String.list_byte_of_string "#define X 1" ++ [Byte.x0a].

Definition scenario_ten : list byte := String.list_byte_of_string "0123456789".

Definition scenario_world : world :=
  World (list_to_map
           [([], Dir perm_rwx);
            (["a"], Dir perm_rwx);
            (["a"; "ten"], File scenario_ten perm_rw)])
        [] 4096.

Definition scenario_file : AuxiliaryFile.t :=
  AuxiliaryFile.Build "/a/x.h" [Chunk.Data scenario_define; Chunk.File "/a/ten"] false.

(** A second file, a script of one chunk that is to be executable. *)
Definition scenario_shebang : list byte :=
  String.list_byte_of_string "#!/bin/sh" ++ [Byte.x0a].

Definition scenario_script : AuxiliaryFile.t :=
  AuxiliaryFile.Build "/a/run.sh" [Chunk.Data scenario_shebang] true.

Definition scenario_places : list place :=
  [ Place ["a"; "x.h"] ["a"; "x.h.tmp"] perm_rw [scenario_define; scenario_ten];
    Place ["a"; "run.sh"] ["a"; "run.sh.tmp"] perm_rw [scenario_shebang] ].

(** * Theorems *)

Section beside.
Implicit Types (w s : world) (tp p q : list string) (d : list byte) (pm : perm).

Lemma aside_refl w tp : plain w tp → aside tp w w.
Proof. by intros [? ?]. Qed.

Lemma aside_trans tp w s s' : aside tp w s → aside tp s s' → aside tp w s'.
Proof.
  intros [Hc Hn _ _] [Hc' Hn' Hd Hl]. split; [congruence| |done..].
  intros q Hq. by rewrite Hn', Hn.
Qed.

Lemma aside_plain tp w s : aside tp w s → plain s tp.
Proof. by intros [_ _ ? ?]. Qed.

Lemma aside_kept tp w s :
  plain w tp → aside tp w s →
  dirs_kept (nodes w) (nodes s) ∧ links_same (nodes w) (nodes s).
Proof.
  intros [Hd Hl] [_ Hn Hd' Hl']. split.
  - intros q Hq. unfold is_dir. rewrite Hn; [done|]. intros ->. congruence.
  - intros q t. destruct (decide (q = tp)) as [->|]; [|by rewrite Hn].
    split; intros H; [by apply Hl in H|by apply Hl' in H].
Qed.

(** A path resolves beside [tp] as it did. *)
Lemma aside_namei tp w s x flw q :
  plain w tp → aside tp w s → namei w x flw = Ok q → namei s x flw = Ok q.
Proof.
  intros Hp Ha. destruct (aside_kept _ _ _ Hp Ha).
  apply namei_kept; [done|done|]. symmetry. apply Ha.
Qed.

Lemma aside_insert w tp d pm sp :
  plain w tp → aside tp w (World (<[tp := File d pm]> (nodes w)) (cwd w) sp).
Proof.
  intros _. split; cbn; [done| | |].
  - intros q Hq. by rewrite lookup_insert_ne.
  - unfold is_dir. by rewrite lookup_insert_eq.
  - intros t. by rewrite lookup_insert_eq.
Qed.

Lemma aside_delete w tp sp :
  plain w tp → aside tp w (World (delete tp (nodes w)) (cwd w) sp).
Proof.
  intros _. split; cbn; [done| | |].
  - intros q Hq. by rewrite lookup_delete_ne.
  - unfold is_dir. by rewrite lookup_delete_eq.
  - intros t. by rewrite lookup_delete_eq.
Qed.

Lemma write_aside w contents tmp tp pm :
  opens_for_write w tmp tp pm → aside tp w (write w contents tmp).2.
Proof.
  intros Ho. rewrite (write_opened _ _ _ _ _ Ho). cbn.
  apply aside_insert. split; by apply (opens_for_write_plain _ _ _ _ Ho).
Qed.

(** What [write] leaves at the temporary path. *)
Lemma write_temporary w contents tmp tp pm w1 :
  opens_for_write w tmp tp pm → write w contents tmp = (true, w1) →
  lookup_node w1 tmp true = Ok (tp, File contents pm).
Proof.
  intros Ho. rewrite (write_opened _ _ _ _ _ Ho).
  intros [= Hfit%bool_decide_eq_true <-]. rewrite take_ge by done.
  by apply lookup_node_written.
Qed.

Lemma discard_aside w tmp tp :
  plain w tp → namei w tmp false = Ok tp → aside tp w (discard w tmp).
Proof.
  intros Hp Hn. unfold discard. destruct (removeFile w tmp) as [[] w'] eqn:E; cbn.
  - apply removeFile_true in E as (p' & n & pm & [Hn' _]%lookup_node_Ok & _ & _ & _ & ->).
    assert (p' = tp) as -> by congruence. by apply aside_delete.
  - rewrite removeFile_single_unlink in E.
    destruct (sys_unlink w (c_str tmp)); simplify_eq. by apply aside_refl.
Qed.

Lemma mark_aside executable w tmp tp d pm w2 :
  lookup_node w tmp true = Ok (tp, File d pm) → mark executable w tmp = Ok w2 →
  aside tp w w2 ∧
  nodes w2 !! tp = Some (File d (if executable then perm_rwx else pm)).
Proof.
  intros Hl. pose proof Hl as [_ Hn]%lookup_node_Ok.
  assert (plain w tp) as Hp by (unfold plain, is_dir; rewrite Hn; by split).
  unfold mark. destruct executable; [|intros [= <-]; split; [by apply aside_refl|done]].
  rewrite <-lookup_node_c_str in Hl. rewrite (sys_chmod_file _ _ _ _ _ _ Hl).
  intros [= <-]. split; [by apply aside_insert|]. cbn. by rewrite lookup_insert_eq.
Qed.

End beside.

Section apartness.
Implicit Types (w s : world) (q : list string) (qs : list (list string)).
Implicit Types (c : Chunk.t) (a : AuxiliaryFile.t) (pl : place).

Lemma apart_sym qs w s : apart qs w s → apart qs s w.
Proof.
  intros [Hc Hn Hp]. split; [done|by intros q ?; rewrite Hn|]. intros q Hq.
  by destruct (Hp q Hq).
Qed.

Lemma apart_plain_other qs w s q : apart qs w s → plain w q → plain s q.
Proof.
  intros [_ Hn Hp] Hq. destruct (decide (q ∈ qs)) as [Hin|Hin]; [by destruct (Hp q Hin)|].
  unfold plain, is_dir in *. by rewrite (Hn q Hin).
Qed.

Lemma apart_kept qs w s :
  apart qs w s → dirs_kept (nodes w) (nodes s) ∧ links_same (nodes w) (nodes s).
Proof.
  intros [_ Hn Hp]. split.
  - intros q Hq. destruct (decide (q ∈ qs)) as [Hin|Hin].
    + destruct (Hp q Hin) as [[Hd _] _]. congruence.
    + unfold is_dir in *. by rewrite (Hn q Hin).
  - intros q t. destruct (decide (q ∈ qs)) as [Hin|Hin]; [|by rewrite (Hn q Hin)].
    destruct (Hp q Hin) as [[_ Hl] [_ Hl']]. split; intros H; [by apply Hl in H|by apply Hl' in H].
Qed.

Lemma apart_namei qs w s x flw q :
  apart qs w s → namei w x flw = Ok q → namei s x flw = Ok q.
Proof.
  intros Ha. destruct (apart_kept _ _ _ Ha). apply namei_kept; [done|done|].
  symmetry. apply Ha.
Qed.

Lemma apart_lookup_node qs w s x flw q n :
  apart qs w s → q ∉ qs → lookup_node w x flw = Ok (q, n) → lookup_node s x flw = Ok (q, n).
Proof.
  intros Ha Hq [Hn Hl]%lookup_node_Ok. apply lookup_node_Ok.
  split; [by eapply apart_namei|]. by rewrite (apart_nodes _ _ _ Ha q Hq).
Qed.

Lemma apart_trans qs qs' w s s' : apart qs w s → apart qs' s s' → apart (qs ++ qs') w s'.
Proof.
  intros H1 H2. split.
  - by rewrite (apart_cwd _ _ _ H2), (apart_cwd _ _ _ H1).
  - intros q [Hq Hq']%not_elem_of_app.
    by rewrite (apart_nodes _ _ _ H2 q Hq'), (apart_nodes _ _ _ H1 q Hq).
  - intros q [Hq|Hq]%elem_of_app.
    + destruct (apart_plain _ _ _ H1 q Hq). split; [done|]. by eapply apart_plain_other.
    + destruct (apart_plain _ _ _ H2 q Hq). split; [|done].
      by eapply apart_plain_other; [apply apart_sym|].
Qed.

Lemma apart_can_create qs w s q :
  apart qs w s → can_create w q = Ok () → can_create s q = Ok ().
Proof.
  intros Ha. unfold can_create. destruct q as [|c q]; [done|].
  destruct (nodes w !! parent (c :: q)) as [[| pm|]|] eqn:E; try done.
  assert (parent (c :: q) ∉ qs) as Hq.
  { intros Hin. destruct (apart_plain _ _ _ Ha _ Hin) as [[Hd _] _].
    unfold is_dir in Hd. by rewrite E in Hd. }
  by rewrite (apart_nodes _ _ _ Ha _ Hq), E.
Qed.

Lemma apart_opens qs w s x q pm :
  apart qs w s → q ∉ qs → opens_for_write w x q pm → opens_for_write s x q pm.
Proof.
  intros Ha Hq (Hn & Hw & H). split_and!; [by eapply apart_namei|done|].
  rewrite (apart_nodes _ _ _ Ha q Hq).
  destruct H as [(? & ? & ?)|?]; [left|by right]. split_and!; [done| |done].
  by eapply apart_can_create.
Qed.

Lemma apart_chunk_holds qs w s c d :
  apart qs w s → chunk_apart w qs c → chunk_holds w c d → chunk_holds s c d.
Proof.
  intros Ha Hc [->|(f & q & pm & -> & Hl & Hr & Hlen)]; [by left|]. right.
  exists f, q, pm. split_and!; try done. eapply apart_lookup_node; [done| |done].
  apply (Hc f q eq_refl). by apply lookup_node_Ok in Hl as [? _].
Qed.

Lemma apart_chunk_apart qs qs' w s c :
  apart qs w s → chunk_apart w qs' c → chunk_apart s qs' c.
Proof.
  intros Ha Hc f q -> Hn. apply (Hc f q eq_refl).
  by eapply apart_namei; [apply apart_sym|].
Qed.

Lemma placed_apart temporary qs w s a pl :
  apart qs w s → at_path pl ∉ qs → at_tmp pl ∉ qs →
  Forall (chunk_apart w qs) (AuxiliaryFile.chunks a) →
  placed temporary w a pl → placed temporary s a pl.
Proof.
  intros Ha Hp Htp Hc [H1 H2 H3 H4 H5 H6 H7 H8]. split; try done.
  - by eapply apart_namei.
  - by eapply apart_plain_other.
  - by eapply apart_opens.
  - by eapply apart_namei.
  - clear H7 H8. induction H6 as [|c d cs ds Hcd _ IH]; [constructor|].
    apply Forall_cons in Hc as [Hc Hcs]. constructor; [by eapply apart_chunk_holds|by apply IH].
Qed.

Lemma chunks_apart_mono qs qs' w (files : list AuxiliaryFile.t) :
  qs' ⊆ qs →
  Forall (λ a, Forall (chunk_apart w qs) (AuxiliaryFile.chunks a)) files →
  Forall (λ a, Forall (chunk_apart w qs') (AuxiliaryFile.chunks a)) files.
Proof.
  intros Hsub H. eapply Forall_impl; [exact H|]. intros a Ha.
  eapply Forall_impl; [exact Ha|]. intros c Hc f q -> Hn Hin.
  by apply (Hc f q eq_refl Hn), Hsub.
Qed.

Lemma chunks_apart_apart qs qs' w s (files : list AuxiliaryFile.t) :
  apart qs w s →
  Forall (λ a, Forall (chunk_apart w qs') (AuxiliaryFile.chunks a)) files →
  Forall (λ a, Forall (chunk_apart s qs') (AuxiliaryFile.chunks a)) files.
Proof.
  intros Ha H. eapply Forall_impl; [exact H|]. intros a Hc.
  eapply Forall_impl; [exact Hc|]. intros c. by apply (apart_chunk_apart qs).
Qed.

(** Files that go elsewhere can still be installed. *)
Lemma places_head pl pls : [at_path pl; at_tmp pl] ⊆ places (pl :: pls).
Proof. intros q Hq. apply elem_of_app. by left. Qed.

Lemma places_tail pl pls : places pls ⊆ places (pl :: pls).
Proof. intros q Hq. apply elem_of_app. by right. Qed.

Lemma places_NoDup pl pls :
  NoDup (places (pl :: pls)) →
  (at_path pl ∉ places pls) ∧ (at_tmp pl ∉ places pls) ∧ NoDup (places pls).
Proof.
  intros [Hp [Htp Hnd]%NoDup_cons]%NoDup_cons.
  by apply not_elem_of_cons in Hp as [_ Hp].
Qed.

Lemma placed_rest temporary qs w s files pls :
  apart qs w s → (∀ q, q ∈ qs → q ∉ places pls) →
  Forall (λ a, Forall (chunk_apart w qs) (AuxiliaryFile.chunks a)) files →
  Forall2 (placed temporary w) files pls → Forall2 (placed temporary s) files pls.
Proof.
  intros Ha Hqs Hc Hpl. induction Hpl as [|a pl files pls Hp _ IH]; [constructor|].
  apply Forall_cons in Hc as [Hc Hcs]. constructor.
  - eapply placed_apart; [done| | |done|done]; intros Hin; apply (Hqs _ Hin); set_solver.
  - apply IH; [|done]. intros q Hq. specialize (Hqs q Hq). set_solver.
Qed.

End apartness.

Section installing.
Context (temporary : string → string).
Context (w : world) (path : string) (p tp : list string) (pm : perm).
Context (executable : bool) (contents : list byte).

Local Abbreviation tmp := (temporary path).
Local Abbreviation mode := (if executable then perm_rwx else pm).

(** The path names an entry of a directory, taken or not; the temporary
    name is another entry, free or a file that can be written, and is no
    link. *)
Context (Hpath : namei w path false = Ok p).
Context (Hopen : opens_for_write w tmp tp pm).
Context (Hnolink : namei w tmp false = Ok tp).
Context (Hne : tp ≠ p).

Lemma temporary_plain : plain w tp.
Proof. split; by apply (opens_for_write_plain _ _ _ _ Hopen). Qed.

(** Beside the temporary entry the path names what it named. *)
Lemma aside_visible s :
  aside tp w s → namei s path false = Ok p ∧ nodes s !! p = nodes w !! p.
Proof.
  intros Ha. split; [by eapply aside_namei; [apply temporary_plain|..]|].
  by apply Ha.
Qed.

(** The move puts the file at the path and leaves nothing at the
    temporary name. *)
Lemma rename_installs w2 d pmf w3 :
  aside tp w w2 → nodes w2 !! tp = Some (File d pmf) →
  sys_rename w2 (c_str tmp) (c_str path) = Ok w3 →
  namei w3 path false = Ok p ∧ nodes w3 !! p = Some (File d pmf)
  ∧ nodes w3 !! tp = None
  ∧ ∀ q, q ≠ p → q ≠ tp → nodes w3 !! q = nodes w !! q.
Proof.
  intros Ha Hd (po & pn & n & [Hpo Hn]%lookup_node_Ok & Hpn & H)%sys_rename_Ok.
  rewrite namei_c_str in Hpo, Hpn. pose proof temporary_plain as Hpl.
  rewrite (aside_namei _ _ _ _ _ _ Hpl Ha Hnolink) in Hpo.
  rewrite (proj1 (aside_visible _ Ha)) in Hpn.
  injection Hpo as <-. injection Hpn as <-. rewrite Hd in Hn. injection Hn as <-.
  destruct H as [[? _]|(_ & _ & Hdp & _ & _ & ->)]; [done|]. cbn.
  rewrite lookup_insert_eq, lookup_insert_ne, lookup_delete_eq by done.
  split_and!; try done.
  - apply (namei_kept w2); [|done|done|exact (proj1 (aside_visible _ Ha))].
    intros q Hq. cbn. unfold is_dir.
    rewrite lookup_insert_ne, lookup_delete_ne; [done|..]; intros ->.
    + rewrite (aside_dir _ _ _ Ha) in Hq. done.
    + congruence.
  - intros q Hq Hq'. rewrite lookup_insert_ne, lookup_delete_ne by done. by apply Ha.
Qed.

(** Removing the temporary file leaves the rest as it is. *)
Lemma discard_beside s : aside tp w s → aside tp w (discard s tmp).
Proof.
  intros Ha. eapply aside_trans; [done|]. apply discard_aside; [by eapply aside_plain|].
  by eapply aside_namei; [apply temporary_plain|..].
Qed.

Lemma aside_old s :
  aside tp w s → namei s path false = Ok p ∧ old_or_new w p contents s.
Proof. intros [? ?]%aside_visible. split; [done|by left]. Qed.

(** The end of [install], from the state the writing leaves. *)
Lemma install_marked w1 :
  write w contents tmp = (true, w1) →
  aside tp w w1 ∧
  ∀ w2, mark executable w1 tmp = Ok w2 →
    aside tp w w2 ∧ nodes w2 !! tp = Some (File contents mode).
Proof.
  intros Ew. assert (aside tp w w1) as Ha.
  { pose proof (write_aside w contents tmp tp pm Hopen) as Ha. by rewrite Ew in Ha. }
  split; [done|]. intros w2 Em.
  destruct (mark_aside _ _ _ _ _ _ _ (write_temporary _ _ _ _ _ _ Hopen Ew) Em) as [Ha2 Hn].
  split; [by eapply aside_trans|done].
Qed.

(** The path names the file when [install] succeeds, and the temporary
    entry is gone. *)
Lemma install_done w3 :
  install temporary w path executable contents = (None, w3) →
  namei w3 path false = Ok p ∧ nodes w3 !! p = Some (File contents mode)
  ∧ nodes w3 !! tp = None
  ∧ ∀ q, q ≠ p → q ≠ tp → nodes w3 !! q = nodes w !! q.
Proof.
  unfold install. destruct (write w contents tmp) as [[] w1] eqn:Ew; [|done].
  destruct (install_marked _ Ew) as [_ Hm].
  destruct (mark executable w1 tmp) as [w2|] eqn:Em; [|done].
  destruct (Hm _ eq_refl) as [Ha2 Hn2].
  destruct (sys_rename w2 _ _) as [w3'|] eqn:Er; [|done]. intros [= <-].
  by eapply rename_installs.
Qed.

(** [install] leaves the working directory. *)
Lemma install_cwd w3 :
  install temporary w path executable contents = (None, w3) → cwd w3 = cwd w.
Proof.
  unfold install. destruct (write w contents tmp) as [[] w1] eqn:Ew; [|done].
  destruct (install_marked _ Ew) as [_ Hm].
  destruct (mark executable w1 tmp) as [w2|] eqn:Em; [|done].
  destruct (Hm _ eq_refl) as [Ha2 _].
  destruct (sys_rename w2 _ _) as [w3'|] eqn:Er; [|done]. intros [= <-].
  apply sys_rename_Ok in Er as (? & ? & ? & _ & _ & [[_ ->]|(_ & _ & _ & _ & _ & ->)]);
    apply Ha2.
Qed.

End installing.


Section resolving.
Implicit Types (w : world) (c : Chunk.t) (d : list byte) (ds : list (list byte)).

Lemma chunk_bytes_holds w c d : chunk_holds w c d → chunk_bytes w c = Done (inr d).
Proof.
  intros [->|(f & p & pm & -> & Hl & Hr & Hlen)]; [done|].
  unfold chunk_bytes. cbn. by rewrite (read_whole w f p d pm Hl Hr Hlen).
Qed.

Lemma resolve_holds w chunks ds :
  Forall2 (chunk_holds w) chunks ds → resolve w chunks = Done (inr (concat ds)).
Proof.
  induction 1 as [|c d chunks ds Hc _ IH]; [done|].
  cbn [resolve]. by rewrite (chunk_bytes_holds _ _ _ Hc), IH.
Qed.

(** A file that [isReadable] refuses cannot be opened for reading. *)
Lemma read_unreadable w f d : isReadable w f = false → read w d f 0 None = Done (false, d).
Proof.
  unfold isReadable, sys_access, read, fopen_r. intros H.
  destruct (lookup_node w (c_str f) true) as [[p [d' pm| |]]|]; cbn in *; try done.
  by destruct (p_read pm).
Qed.

Lemma chunk_bytes_unreadable w f :
  isReadable w f = false →
  chunk_bytes w (Chunk.File f) = Done (inl (UnreadableChunk f)).
Proof. intros H. unfold chunk_bytes. cbn. by rewrite read_unreadable. Qed.

Lemma resolve_unreadable w pre ds f post :
  Forall2 (chunk_holds w) pre ds → isReadable w f = false →
  resolve w (pre ++ Chunk.File f :: post) = Done (inl (UnreadableChunk f)).
Proof.
  intros Hpre Hf. induction Hpre as [|c d pre ds Hc _ IH]; cbn [app resolve].
  - by rewrite chunk_bytes_unreadable.
  - by rewrite (chunk_bytes_holds _ _ _ Hc), IH.
Qed.

End resolving.

Section materializer_claims.
Context (temporary : string → string).
Context (w : world) (a : AuxiliaryFile.t) (p tp : list string) (pm : perm).

Local Abbreviation path := (AuxiliaryFile.path a).
Local Abbreviation tmp := (temporary (AuxiliaryFile.path a)).
Local Abbreviation mode := (if AuxiliaryFile.executable a then perm_rwx else pm).

Context (Hpath : namei w path false = Ok p).
Context (Hopen : opens_for_write w tmp tp pm).
Context (Hnolink : namei w tmp false = Ok tp).
Context (Hne : tp ≠ p).

(** C14.  Writing an auxiliary file is atomic at its path: in every state
    the file system goes through while the file is installed, the states
    inside the writing and those of a failure included, the path names the
    entry it named, and the entry holds what it held before or a file
    with the whole contents. *)
Theorem install_atomic contents :
  Forall (λ s, namei s path false = Ok p ∧ old_or_new w p contents s)
         (install_states temporary w path (AuxiliaryFile.executable a) contents).
Proof.
  pose proof (aside_old temporary w path p tp pm contents Hpath Hopen Hne) as Hold.
  pose proof (discard_beside temporary w path tp pm Hopen Hnolink) as Hdis.
  pose proof (write_aside w contents tmp tp pm Hopen) as Ha1.
  unfold install_states. apply Forall_app. split.
  { apply Forall_fmap, Forall_forall. intros k _. by eapply Hold, write_aside. }
  destruct (write w contents tmp) as [[] w1] eqn:Ew; cbn in Ha1;
    [|by apply Forall_singleton, Hold, Hdis].
  destruct (install_marked temporary w path tp pm (AuxiliaryFile.executable a) contents
              Hopen w1 Ew) as [_ Hm].
  destruct (mark _ w1 tmp) as [w2|] eqn:Em; [|by apply Forall_singleton, Hold, Hdis].
  destruct (Hm _ eq_refl) as [Ha2 Hn2]. constructor; [by apply Hold|].
  destruct (sys_rename w2 _ _) as [w3|] eqn:Er; [|by apply Forall_singleton, Hold, Hdis].
  destruct (rename_installs temporary w path p tp pm Hpath Hopen Hnolink Hne
              _ _ _ _ Ha2 Hn2 Er) as (? & Hp3 & _).
  apply Forall_singleton. split; [done|]. right. eauto.
Qed.

(** What a materialization without error leaves: the file at the path,
    no temporary entry, and every other entry as it was. *)
Lemma materialize_node chunks_bytes w' :
  Forall2 (chunk_holds w) (AuxiliaryFile.chunks a) chunks_bytes →
  materialize temporary w a = Done (None, w') →
  lookup_node w' path true = Ok (p, File (concat chunks_bytes) mode)
  ∧ nodes w' !! tp = None
  ∧ ∀ q, q ≠ p → q ≠ tp → nodes w' !! q = nodes w !! q.
Proof.
  intros Hc. unfold materialize. rewrite (resolve_holds _ _ _ Hc). cbn.
  intros [= Hi].
  destruct (install_done temporary w path p tp pm _ _ Hpath Hopen Hnolink Hne _ Hi)
    as (Hn & Hp & Htp & Hframe).
  split_and!; [|done..]. apply lookup_node_Ok. split; [|done]. unfold namei in *.
  apply result_bind_Ok in Hn as (q & -> & [= ->]). cbn.
  apply follow_nonlink. intros t. by rewrite Hp.
Qed.

(** A materialization without error changes the entry of the path and
    the temporary entry, and nothing else. *)
Lemma materialize_apart chunks_bytes w' :
  plain w p → Forall2 (chunk_holds w) (AuxiliaryFile.chunks a) chunks_bytes →
  materialize temporary w a = Done (None, w') → apart [p; tp] w w'.
Proof.
  intros Hp Hc Hm. destruct (materialize_node _ _ Hc Hm) as (Hl & Htp & Hframe).
  apply lookup_node_Ok in Hl as [_ Hl].
  assert (cwd w' = cwd w) as Hcwd.
  { revert Hm. unfold materialize. rewrite (resolve_holds _ _ _ Hc). cbn. intros [= Hi].
    by eapply install_cwd. }
  split; [done| |].
  - intros q [Hq [Hq' _]%not_elem_of_cons]%not_elem_of_cons. by apply Hframe.
  - pose proof (temporary_plain temporary w path tp pm Hopen) as Htmp.
    intros q [->|[->|[]%elem_of_nil]%elem_of_cons]%elem_of_cons; (split; [done|]);
      unfold plain, is_dir; by rewrite ?Hl, ?Htp.
Qed.

(** A file that can be read is read whole, and is executable when its
    mode says so. *)
Lemma node_readable w' d :
  lookup_node w' path true = Ok (p, File d mode) →
  p_read mode = true → (Z.of_nat (length d) ≤ LONG_MAX)%Z →
  read w' [] path 0 None = Done (true, d)
  ∧ (AuxiliaryFile.executable a = true → isExecutable w' path = true).
Proof.
  intros Hl Hr Hlen. split; [by eapply read_whole|].
  intros He. unfold isExecutable. apply sys_access_ok. rewrite lookup_node_c_str, Hl.
  eexists _, _. split; [done|]. cbn. by rewrite He.
Qed.

(** C20.  A materialized file holds the bytes of its chunks in their
    order, the data of a chunk as they are and the whole contents of the
    file a chunk names: after a materialization that reports no error,
    reading the path returns the concatenation, the file is executable
    when the description says so, the temporary entry is gone and no other
    entry has changed. *)
Theorem materialize_contents chunks_bytes w' :
  Forall2 (chunk_holds w) (AuxiliaryFile.chunks a) chunks_bytes →
  p_read mode = true → (Z.of_nat (length (concat chunks_bytes)) ≤ LONG_MAX)%Z →
  materialize temporary w a = Done (None, w') →
  read w' [] path 0 None = Done (true, concat chunks_bytes)
  ∧ (AuxiliaryFile.executable a = true → isExecutable w' path = true)
  ∧ nodes w' !! tp = None
  ∧ ∀ q, q ≠ p → q ≠ tp → nodes w' !! q = nodes w !! q.
Proof.
  intros Hc Hr Hlen Hm.
  destruct (materialize_node _ _ Hc Hm) as (Hl & Htp & Hframe).
  destruct (node_readable _ _ Hl Hr Hlen) as [Hread Hx]. done.
Qed.

End materializer_claims.

Section materializer_errors.
Context (temporary : string → string).

(** A chunk whose file cannot be read is fatal: the materialization
    reports the chunk and leaves the file system as it was; nothing is
    written at the path or beside it. *)
Theorem materialize_unreadable_chunk w a pre pre_bytes f post :
  AuxiliaryFile.chunks a = pre ++ Chunk.File f :: post →
  Forall2 (chunk_holds w) pre pre_bytes →
  isReadable w f = false →
  materialize temporary w a = Done (Some (UnreadableChunk f), w).
Proof.
  intros Hch Hpre Hf. unfold materialize.
  by rewrite Hch, (resolve_unreadable _ _ _ _ _ Hpre Hf).
Qed.

(** The files of a list are installed one after the other: what a
    later file changes is apart from the earlier ones. *)
Lemma materialize_all_installed files pls w w' :
  Forall2 (placed temporary w) files pls → NoDup (places pls) →
  Forall (λ a, Forall (chunk_apart w (places pls)) (AuxiliaryFile.chunks a)) files →
  materialize_all temporary w files = Done (None, w') →
  Forall2 (installed w') files pls ∧ apart (places pls) w w'.
Proof.
  revert pls w w'. induction files as [|a files IH]; intros pls w w' Hpl Hnd Hc; cbn.
  { apply Forall2_nil_inv_l in Hpl as ->. intros [= <-]. split; [constructor|].
    split; [done|done|]. by intros q ?%elem_of_nil. }
  apply Forall2_cons_inv_l in Hpl as (pl & pls' & Ha & Hpl & ->).
  destruct (materialize temporary w a) as [[[err|] w1]|] eqn:Em; cbn; [done| |done].
  intros Hm. apply places_NoDup in Hnd as (Hp & Htp & Hnd).
  apply Forall_cons in Hc as [_ Hc].
  destruct Ha as [H1 H2 H3 H4 H5 H6 H7 H8].
  pose proof (materialize_apart temporary w a _ _ _ H1 H3 H4 H5 _ _ H2 H6 Em) as Hap.
  destruct (materialize_node temporary w a _ _ _ H1 H3 H4 H5 _ _ H6 Em) as (Hl & _).
  pose proof (chunks_apart_mono _ _ _ _ (places_head pl pls') Hc) as Hhead.
  pose proof (chunks_apart_mono _ _ _ _ (places_tail pl pls') Hc) as Htail.
  destruct (IH pls' w1 w') as [Hin Hap']; [|done| |done|].
  - eapply placed_rest; [done| |done|done].
    by intros q [->|[->|[]%elem_of_nil]%elem_of_cons]%elem_of_cons.
  - by eapply chunks_apart_apart; [exact Hap|].
  - split; [|exact (apart_trans _ _ _ _ _ Hap Hap')]. constructor; [|done].
    exact (apart_lookup_node _ _ _ _ _ _ _ Hap' Hp Hl).
Qed.

(** Every file of a list that is materialized without an error can be
    read, and holds the bytes of its chunks; what is no entry of a file
    of the list is as it was. *)
Lemma materialize_all_readable files pls w w' :
  Forall2 (placed temporary w) files pls → NoDup (places pls) →
  Forall (λ a, Forall (chunk_apart w (places pls)) (AuxiliaryFile.chunks a)) files →
  materialize_all temporary w files = Done (None, w') →
  Forall2 (λ a pl,
    read w' [] (AuxiliaryFile.path a) 0 None = Done (true, concat (at_bytes pl))
    ∧ (AuxiliaryFile.executable a = true
       → isExecutable w' (AuxiliaryFile.path a) = true)) files pls
  ∧ ∀ q, q ∉ places pls → nodes w' !! q = nodes w !! q.
Proof.
  intros Hpl Hnd Hc Hm.
  destruct (materialize_all_installed _ _ _ _ Hpl Hnd Hc Hm) as [Hin Hap].
  split; [|exact (apart_nodes _ _ _ Hap)].
  apply Forall2_same_length_lookup. split; [by eapply Forall2_length|].
  intros j a pl Ha Hp.
  destruct (Forall2_lookup_lr _ _ _ _ _ _ Hpl Ha Hp) as [_ _ _ _ _ _ Hr Hlen].
  exact (node_readable a _ _ _ _ (Forall2_lookup_lr _ _ _ _ _ _ Hin Ha Hp) Hr Hlen).
Qed.

(** The last state of [install_states] is the one [install] returns. *)
Lemma install_states_last w path executable contents :
  last (install_states temporary w path executable contents)
  = Some (install temporary w path executable contents).2.
Proof.
  unfold install_states, install. rewrite last_app.
  destruct (write w contents _) as [[] w1]; [|done].
  destruct (mark executable w1 _) as [w2|]; [|done].
  by destruct (sys_rename w2 _ _).
Qed.

(** Materializing keeps the tree well formed. *)
Lemma install_wf w path executable contents :
  fs_wf w → fs_wf (install temporary w path executable contents).2.
Proof.
  intros Hwf. unfold install, discard, mark.
  pose proof (write_wf w contents (temporary path) Hwf) as H1.
  destruct (write w contents _) as [[] w1]; cbn in *;
    [|by apply removeFile_wf_frame].
  destruct executable.
  - destruct (sys_chmod w1 _ _) as [w2|] eqn:Em; cbn; [|by apply removeFile_wf_frame].
    pose proof (sys_chmod_wf _ _ _ _ H1 Em) as H2.
    destruct (sys_rename w2 _ _) as [w3|] eqn:Er; cbn; [by eapply sys_rename_wf|].
    by apply removeFile_wf_frame.
  - destruct (sys_rename w1 _ _) as [w3|] eqn:Er; cbn; [by eapply sys_rename_wf|].
    by apply removeFile_wf_frame.
Qed.

End materializer_errors.

Section materializer_scenario.

Lemma scenario_path : namei scenario_world "/a/x.h" false = Ok ["a"; "x.h"].
Proof. vm_compute. reflexivity. Defined.

Lemma scenario_opens :
  opens_for_write scenario_world (dot_tmp "/a/x.h") ["a"; "x.h.tmp"] perm_rw.
Proof. split_and!; [vm_compute; reflexivity|reflexivity|]. left. by vm_compute. Defined.

Lemma scenario_chunks :
  Forall2 (chunk_holds scenario_world) (AuxiliaryFile.chunks scenario_file)
          [scenario_define; scenario_ten].
Proof.
  constructor; [by left|]. constructor; [right|constructor].
  exists "/a/ten", ["a"; "ten"], perm_rw. split_and!; [done|by vm_compute|done|by vm_compute].
Defined.

Lemma scenario_placed :
  Forall2 (placed dot_tmp scenario_world) [scenario_file; scenario_script] scenario_places.
Proof.
  constructor; [|constructor; [|constructor]].
  - split; [by vm_compute|split; [by vm_compute|intros t; by vm_compute]
           |exact scenario_opens|by vm_compute|done|exact scenario_chunks|done
           |by vm_compute].
  - split; [by vm_compute|split; [by vm_compute|intros t; by vm_compute]|..].
    + split_and!; [vm_compute; reflexivity|reflexivity|]. left. by vm_compute.
    + by vm_compute.
    + done.
    + constructor; [by left|constructor].
    + done.
    + by vm_compute.
Defined.

Lemma scenario_apart :
  Forall (λ a, Forall (chunk_apart scenario_world (places scenario_places))
                 (AuxiliaryFile.chunks a)) [scenario_file; scenario_script].
Proof.
  repeat constructor; intros f q [= <-] Hn.
  assert (Ok q = namei scenario_world "/a/ten" true) as Hq by done.
  vm_compute in Hq. injection Hq as ->.
  apply (bool_decide_unpack _). by vm_compute.
Defined.

(** Two files of one path: the second replaces what the first wrote, so
    the entries of the files of a list have to differ. *)
Example materialize_all_overwrites :
  match materialize_all dot_tmp scenario_world
          [scenario_file; AuxiliaryFile.Build "/a/x.h" [Chunk.Data scenario_shebang] false]
  with
  | Done (None, w') => read w' [] "/a/x.h" 0 None = Done (true, scenario_shebang)
  | _ => False
  end.
Proof. vm_compute. reflexivity. Qed.

Lemma install_atomic_witness :
  Forall (λ s, namei s "/a/x.h" false = Ok ["a"; "x.h"]
               ∧ old_or_new scenario_world ["a"; "x.h"] (scenario_define ++ scenario_ten) s)
         (install_states dot_tmp scenario_world "/a/x.h" false
            (scenario_define ++ scenario_ten)).
Proof.
  apply (install_atomic dot_tmp scenario_world scenario_file ["a"; "x.h"] ["a"; "x.h.tmp"]
           perm_rw scenario_path scenario_opens); [by vm_compute|done].
Defined.

Lemma materialize_contents_witness :
  ∃ w', materialize dot_tmp scenario_world scenario_file = Done (None, w')
    ∧ length (concat [scenario_define; scenario_ten]) = 22%nat
    ∧ read w' [] "/a/x.h" 0 None = Done (true, concat [scenario_define; scenario_ten]).
Proof.
  eexists. split; [vm_compute; reflexivity|]. split; [reflexivity|].
  eapply (materialize_contents dot_tmp scenario_world scenario_file ["a"; "x.h"]
            ["a"; "x.h.tmp"] perm_rw scenario_path scenario_opens);
    [by vm_compute|done|exact scenario_chunks|done|by vm_compute|by vm_compute].
Defined.

Lemma materialize_unreadable_chunk_witness :
  materialize dot_tmp scenario_world
    (AuxiliaryFile.Build "/a/x.h" [Chunk.Data scenario_define; Chunk.File "/a/none"] false)
  = Done (Some (UnreadableChunk "/a/none"), scenario_world).
Proof.
  apply (materialize_unreadable_chunk dot_tmp scenario_world _ [Chunk.Data scenario_define]
           [scenario_define] "/a/none" []); [done|by constructor; [left|constructor]|by vm_compute].
Defined.

End materializer_scenario.
