(* ===== verification/InvocationGraph.v ===== *)
(** * The graph of invocations

    The graph the scheduler orders its work by (sections 3, 4.5 and 7 of
    the specification).  No code of the scheduler is among the sources:
    the definitions follow the specification.  What comes from the sources
    is the invocation, [Invocation.t] with its accessors, which the graph
    is built from.

    An invocation is named by its position in the list the graph is built
    from.  An edge runs to an invocation from the producer of each path
    among its [inputs], [inputDependencies] and [orderDependencies].

    Construction ([build]) refuses a path that two invocations declare as
    output and a graph with a cycle.  Cycles are found by peeling: in each
    round the invocations whose predecessors are all peeled are peeled; as
    many rounds as there are invocations are run, which is enough: when
    they leave an invocation, peeling has stopped and what is left holds
    a cycle ([peel_rounds_stuck]). *)

From Stdlib Require Import ZArith Lia.
From stdpp Require Import gmap strings list.
From S2P Require Import Prelude StdString Invocation.

#[local] Set Warnings "-clear-no-such-hyp".

(** ** The graph *)

Inductive GraphError : Type :=
  | DuplicateOutput (path : string)
  | Cycle.

#[global] Instance GraphError_eq_dec : EqDecision GraphError.
Proof. solve_decision. Defined.

(** The paths that order an invocation after their producers. *)
Definition needs (inv : Invocation.t) : list string :=
  Invocation.inputs inv ++ Invocation.inputDependencies inv ++ Invocation.orderDependencies inv.

(** The producer of each output, or the first path that has two. *)
Fixpoint register_outputs (outputs : list string) (i : nat) (producers : gmap string nat)
  : GraphError + gmap string nat :=
  match outputs with
  | [] => inr producers
  | o :: outputs' =>
    match producers !! o with
    | Some j => if decide (j = i) then register_outputs outputs' i producers
                else inl (DuplicateOutput o)
    | None => register_outputs outputs' i (<[o := i]> producers)
    end
  end.

Fixpoint register (invs : list Invocation.t) (i : nat) (producers : gmap string nat)
  : GraphError + gmap string nat :=
  match invs with
  | [] => inr producers
  | inv :: invs' =>
    match register_outputs (Invocation.outputs inv) i producers with
    | inl e => inl e
    | inr producers' => register invs' (S i) producers'
    end
  end.

(** The predecessors of an invocation: the producers of what it needs. *)
Definition predecessors (producers : gmap string nat) (inv : Invocation.t) : list nat :=
  omap (λ path, producers !! path) (needs inv).

(** One round of peeling: the invocations not yet peeled whose
    predecessors all are, in the order of the list. *)
Definition peelable (preds : list (list nat)) (peeled : list nat) (i : nat) : bool :=
  bool_decide (i ∉ peeled) && forallb (λ j, bool_decide (j ∈ peeled)) (preds !!! i).

Definition peel (preds : list (list nat)) (peeled : list nat) : list nat :=
  peeled ++ filter (λ i, peelable preds peeled i) (seq 0 (length preds)).

Fixpoint peel_rounds (rounds : nat) (preds : list (list nat)) (peeled : list nat) : list nat :=
  match rounds with
  | O => peeled
  | S rounds' => peel_rounds rounds' preds (peel preds peeled)
  end.

Record graph : Type := Graph {
  invocations : list Invocation.t;
  preds : list (list nat);
  order : list nat;
}.

Definition build (invs : list Invocation.t) : GraphError + graph :=
  match register invs 0 ∅ with
  | inl e => inl e
  | inr producers =>
    let preds := predecessors producers <$> invs in
    let order := peel_rounds (length invs) preds [] in
    if decide (length order = length invs) then inr (Graph invs preds order)
    else inl Cycle
  end.

(** ** What the theorems are stated with *)

(** [j] produces a path that [i] needs. *)
Definition depends (invs : list Invocation.t) (j i : nat) : Prop :=
  ∃ a b path, invs !! i = Some a ∧ invs !! j = Some b
    ∧ path ∈ needs a ∧ path ∈ Invocation.outputs b.

Definition edge (preds : list (list nat)) (j i : nat) : Prop := j ∈ preds !!! i.

(** Every invocation of [order] comes after its predecessors. *)
Definition topological (preds : list (list nat)) (order : list nat) : Prop :=
  NoDup order ∧
  ∀ k i, order !! k = Some i →
    (i < length preds)%nat ∧
    ∀ j, edge preds j i → ∃ k', (k' < k)%nat ∧ order !! k' = Some j.

(** [o] is declared by the invocation at [k + n] of a list that starts
    at [k]. *)
Definition declared_from (invs : list Invocation.t) (k : nat) (o : string) (j : nat)
  : Prop :=
  ∃ n inv, j = (k + n)%nat ∧ invs !! n = Some inv ∧ o ∈ Invocation.outputs inv.

(** The first predecessor of [i] that is not yet peeled, or [i] itself. *)
Definition back (preds : list (list nat)) (peeled : list nat) (i : nat) : nat :=
  default i (head (filter (λ j, j ∉ peeled) (preds !!! i))).

(** [i], the predecessor [back] gives for it, and so on, [k] times. *)
Fixpoint chain (preds : list (list nat)) (peeled : list nat) (k i : nat) : list nat :=
  match k with
  | O => [i]
  | S k' => i :: chain preds peeled k' (back preds peeled i)
  end.

(** No path is an output of two invocations. *)
Definition unique_outputs (invs : list Invocation.t) : Prop :=
  ∀ i j a b o, invs !! i = Some a → invs !! j = Some b →
    o ∈ Invocation.outputs a → o ∈ Invocation.outputs b → i = j.

(** ** Scenarios *)

Definition demo_invocation (inputs inputDependencies orderDependencies outputs : list string)
  : Invocation.t :=
  Invocation.Build (Executable.Determine "cc") [] ∅ "/src" inputs outputs []
    inputDependencies orderDependencies [] [] "" false false.

(** compile, link, document, strip: link needs what compile makes, strip
    is ordered after link, document stands alone. *)
Definition demo_invocations : list Invocation.t :=
  [ demo_invocation ["a.h"; "a.c"] [] [] ["a.o"];
    demo_invocation ["a.o"] [] [] ["app"];
    demo_invocation ["manual.txt"] [] [] ["manual.html"];
    demo_invocation [] [] ["app"] ["app.stripped"] ].

(** A and B each need what the other makes. *)
Definition demo_cycle : list Invocation.t :=
  [ demo_invocation [] ["b.out"] [] ["a.out"];
    demo_invocation [] ["a.out"] [] ["b.out"] ].

(** Two invocations that both declare [a.o]. *)
Definition demo_duplicate : list Invocation.t :=
  [ demo_invocation ["a.c"] [] [] ["a.o"];
    demo_invocation ["b.c"] [] [] ["b.o"; "a.o"] ].

Definition demo_graph : graph :=
  Graph demo_invocations [[]; [0]; []; [1]]%nat [0; 2; 1; 3]%nat.

(** * Theorems *)

Section registration.
Implicit Types (m : gmap string nat) (invs : list Invocation.t).

Lemma register_outputs_lookup os i m m' :
  register_outputs os i m = inr m' →
  ∀ o j, m' !! o = Some j ↔ m !! o = Some j ∨ (o ∈ os ∧ j = i).
Proof.
  revert m. induction os as [|o0 os IH]; intros m H o j; cbn in H.
  { simplify_eq. set_solver. }
  destruct (m !! o0) as [j0|] eqn:E.
  - destruct (decide (j0 = i)) as [->|]; [|done].
    rewrite (IH _ H), elem_of_cons. naive_solver.
  - rewrite (IH _ H), elem_of_cons.
    destruct (decide (o = o0)) as [->|];
      [rewrite lookup_insert_eq|rewrite lookup_insert_ne by done]; naive_solver.
Qed.

Lemma register_outputs_error os i m e :
  register_outputs os i m = inl e →
  ∃ o j, e = DuplicateOutput o ∧ o ∈ os ∧ j ≠ i ∧ m !! o = Some j.
Proof.
  revert m. induction os as [|o0 os IH]; intros m H; cbn in H; [done|].
  destruct (m !! o0) as [j0|] eqn:E.
  - destruct (decide (j0 = i)) as [->|].
    + destruct (IH _ H) as (o & j & ?); exists o, j. set_solver.
    + exists o0, j0. simplify_eq. set_solver.
  - destruct (IH _ H) as (o & j & -> & ? & ? & Hj). exists o, j.
    destruct (decide (o = o0)) as [->|];
      [rewrite lookup_insert_eq in Hj|rewrite lookup_insert_ne in Hj by done];
      set_solver.
Qed.

Lemma declared_from_cons inv invs k o j :
  declared_from (inv :: invs) k o j ↔
  (o ∈ Invocation.outputs inv ∧ j = k) ∨ declared_from invs (S k) o j.
Proof.
  split.
  - intros ([|n] & a & -> & Ha & Ho); cbn in Ha; simplify_eq.
    + left. split; [done|lia].
    + right. exists n, a. split; [lia|done].
  - intros [[Ho ->]|(n & a & -> & Ha & Ho)].
    + exists 0%nat, inv. split; [lia|done].
    + exists (S n), a. split; [lia|done].
Qed.

Lemma register_lookup invs k m m' :
  register invs k m = inr m' →
  ∀ o j, m' !! o = Some j ↔ m !! o = Some j ∨ declared_from invs k o j.
Proof.
  revert k m. induction invs as [|inv invs IH]; intros k m H o j; cbn in H.
  { simplify_eq. split; [auto|]. by intros [?|(n & a & _ & ? & _)]. }
  destruct (register_outputs _ k m) as [|m1] eqn:E; [done|].
  rewrite (IH _ _ H), (register_outputs_lookup _ _ _ _ E), declared_from_cons.
  tauto.
Qed.

Lemma register_error invs k m e :
  register invs k m = inl e →
  ∃ o i j, e = DuplicateOutput o ∧ i ≠ j ∧ declared_from invs k o i
    ∧ (m !! o = Some j ∨ declared_from invs k o j).
Proof.
  revert k m. induction invs as [|inv invs IH]; intros k m H; cbn in H; [done|].
  destruct (register_outputs _ k m) as [e'|m1] eqn:E.
  - simplify_eq. destruct (register_outputs_error _ _ _ _ E) as (o & j & -> & ? & ? & ?).
    exists o, k, j. rewrite declared_from_cons. naive_solver.
  - destruct (IH _ _ H) as (o & i & j & -> & ? & Hi & Hj). exists o, i, j.
    rewrite !declared_from_cons, (register_outputs_lookup _ _ _ _ E) in *.
    naive_solver.
Qed.

Lemma declared_from_0 invs o j :
  declared_from invs 0 o j ↔ ∃ inv, invs !! j = Some inv ∧ o ∈ Invocation.outputs inv.
Proof. unfold declared_from. naive_solver. Qed.

(** The producers of a list that is accepted: the one invocation that
    declares each output. *)
Lemma register_producers invs m :
  register invs 0 ∅ = inr m →
  ∀ o j, m !! o = Some j ↔ ∃ inv, invs !! j = Some inv ∧ o ∈ Invocation.outputs inv.
Proof.
  intros H o j. rewrite (register_lookup _ _ _ _ H), lookup_empty, declared_from_0.
  naive_solver.
Qed.

Lemma register_duplicate invs e :
  register invs 0 ∅ = inl e →
  ∃ o i j a b, e = DuplicateOutput o ∧ i ≠ j ∧ invs !! i = Some a ∧ invs !! j = Some b
    ∧ o ∈ Invocation.outputs a ∧ o ∈ Invocation.outputs b.
Proof.
  intros (o & i & j & -> & ? & Hi & Hj)%register_error.
  rewrite lookup_empty, !declared_from_0 in *. naive_solver.
Qed.

(** The edges of the graph are the dependencies of the invocations. *)
Lemma predecessors_depends invs m j i :
  register invs 0 ∅ = inr m →
  (i < length invs)%nat →
  edge (predecessors m <$> invs) j i ↔ depends invs j i.
Proof.
  intros H Hi. destruct (lookup_lt_is_Some_2 invs i Hi) as [a Ha].
  unfold edge, depends.
  rewrite (list_lookup_total_correct (_ <$> invs) i (predecessors m a))
    by (by rewrite list_lookup_fmap, Ha).
  unfold predecessors. rewrite list_elem_of_omap.
  setoid_rewrite (register_producers _ _ H). naive_solver.
Qed.

Lemma edge_in_range invs m j i :
  register invs 0 ∅ = inr m →
  (i < length invs)%nat →
  edge (predecessors m <$> invs) j i → (j < length invs)%nat.
Proof.
  intros H Hi He.
  apply (predecessors_depends _ _ _ _ H Hi) in He as (a & b & p & _ & Hb & _).
  by eapply lookup_lt_Some.
Qed.

End registration.

Section peeling.
Context (preds : list (list nat)).
Implicit Types (peeled order : list nat).

Lemma peelable_spec peeled i :
  peelable preds peeled i = true ↔ (i ∉ peeled) ∧ ∀ j, edge preds j i → j ∈ peeled.
Proof.
  unfold peelable, edge.
  rewrite andb_true_iff, bool_decide_eq_true, forallb_forall.
  setoid_rewrite bool_decide_eq_true. by setoid_rewrite <-list_elem_of_In.
Qed.

Lemma elem_of_peel peeled i :
  i ∈ peel preds peeled ↔
  i ∈ peeled ∨ ((i < length preds)%nat ∧ peelable preds peeled i = true).
Proof.
  unfold peel. rewrite elem_of_app, list_elem_of_filter, elem_of_seq, Is_true_true.
  intuition lia.
Qed.

Lemma peel_topological peeled :
  topological preds peeled → topological preds (peel preds peeled).
Proof.
  intros [Hnd Hord]. split.
  - apply NoDup_app. split_and!; [done| |apply NoDup_filter, NoDup_seq].
    intros i Hi [[Hn _]%Is_true_true%peelable_spec _]%list_elem_of_filter. done.
  - intros k i Hk. destruct (decide (k < length peeled)%nat) as [Hlt|Hge].
    + unfold peel in *. rewrite lookup_app_l in Hk by done.
      destruct (Hord k i Hk) as [? Hpre]. split; [done|].
      intros j (k' & ? & ?)%Hpre. exists k'. by rewrite lookup_app_l by lia.
    + assert (i ∈ peel preds peeled) as Hi by by eapply list_elem_of_lookup_2.
      apply elem_of_peel in Hi as [Hi|[? [_ Hpre]%peelable_spec]].
      * apply list_elem_of_lookup_1 in Hi as [k0 Hk0].
        assert ((peel preds peeled) !! k0 = Some i) as Hk0'
          by by (unfold peel; rewrite lookup_app_l by by eapply lookup_lt_Some).
        assert (NoDup (peel preds peeled)) as Hnd'.
        { apply NoDup_app. split_and!; [done| |apply NoDup_filter, NoDup_seq].
          by intros ? ? [[? _]%Is_true_true%peelable_spec _]%list_elem_of_filter. }
        pose proof (NoDup_lookup _ _ _ _ Hnd' Hk Hk0'). subst.
        apply lookup_lt_Some in Hk0. lia.
      * split; [done|]. intros j (k' & Hk')%Hpre%list_elem_of_lookup_1.
        exists k'. pose proof (lookup_lt_Some _ _ _ Hk').
        unfold peel. rewrite lookup_app_l by done. split; [lia|done].
Qed.

Lemma peel_rounds_topological rounds peeled :
  topological preds peeled → topological preds (peel_rounds rounds preds peeled).
Proof.
  revert peeled. induction rounds as [|r IH]; intros peeled H; cbn; [done|].
  by apply IH, peel_topological.
Qed.

Lemma topological_nil : topological preds [].
Proof. split; [constructor|]. by intros k i ?. Qed.

(** In a topological order every invocation comes after all that it
    depends on, directly or not. *)
Lemma topological_tc order j i :
  topological preds order → tc (edge preds) j i →
  ∀ k, order !! k = Some i → ∃ k', (k' < k)%nat ∧ order !! k' = Some j.
Proof.
  intros [_ Hord] Hji. induction Hji as [j i Hji|j y i Hjy _ IH]; intros k Hk.
  - by apply (Hord k i Hk).
  - destruct (IH k Hk) as (k1 & ? & Hk1).
    destruct (Hord k1 y Hk1) as [_ Hpre].
    destruct (Hpre j Hjy) as (k' & ? & ?). exists k'. split; [lia|done].
Qed.

(** An invocation on a cycle is in no topological order. *)
Lemma topological_no_cycle order i :
  topological preds order → tc (edge preds) i i → i ∉ order.
Proof.
  intros Hord Hii (k & Hk)%list_elem_of_lookup_1.
  destruct (topological_tc _ _ _ Hord Hii k Hk) as (k' & ? & Hk').
  pose proof (NoDup_lookup _ _ _ _ (proj1 Hord) Hk Hk'). lia.
Qed.

(** A topological order as long as the graph holds every invocation. *)
Lemma topological_full order i :
  topological preds order → length order = length preds →
  (i < length preds)%nat → i ∈ order.
Proof.
  intros [Hnd Hord] Hlen Hi.
  assert (order ⊆+ seq 0 (length preds)) as Hsub.
  { apply NoDup_submseteq; [done|]. intros x (k & Hk)%list_elem_of_lookup_1.
    apply elem_of_seq. destruct (Hord k x Hk). lia. }
  apply submseteq_length_Permutation in Hsub; [|rewrite length_seq; lia].
  rewrite Hsub. apply elem_of_seq. lia.
Qed.

(** Peeling reaches, in [r] rounds, every invocation of rank below [r]. *)
Lemma peel_rounds_mono rounds peeled i :
  i ∈ peeled → i ∈ peel_rounds rounds preds peeled.
Proof.
  revert peeled. induction rounds as [|r IH]; intros peeled H; cbn; [done|].
  apply IH, elem_of_peel. by left.
Qed.

Section ranked.
Context (rank : nat → nat).
Context (Hrange : ∀ j i, (i < length preds)%nat → edge preds j i → (j < length preds)%nat).
Context (Hrank : ∀ j i, (i < length preds)%nat → edge preds j i → (rank j < rank i)%nat).

Lemma peel_rank r peeled :
  (∀ i, (i < length preds)%nat → (rank i < r)%nat → i ∈ peeled) →
  ∀ i, (i < length preds)%nat → (rank i < S r)%nat → i ∈ peel preds peeled.
Proof.
  intros H i Hi Hr. apply elem_of_peel.
  destruct (decide (i ∈ peeled)); [by left|right]. split; [done|].
  apply peelable_spec. split; [done|]. intros j Hj.
  apply H; [by eapply Hrange|]. pose proof (Hrank j i Hi Hj). lia.
Qed.

Lemma peel_rounds_rank rounds r peeled :
  (∀ i, (i < length preds)%nat → (rank i < r)%nat → i ∈ peeled) →
  ∀ i, (i < length preds)%nat → (rank i < r + rounds)%nat →
    i ∈ peel_rounds rounds preds peeled.
Proof.
  revert r peeled. induction rounds as [|n IH]; intros r peeled H i Hi Hr; cbn.
  - apply H; [done|lia].
  - apply (IH (S r)); [by apply peel_rank|done|lia].
Qed.

Lemma peel_rounds_complete :
  (∀ i, (i < length preds)%nat → (rank i < length preds)%nat) →
  length (peel_rounds (length preds) preds []) = length preds.
Proof.
  intros Hb.
  pose proof (peel_rounds_topological (length preds) [] topological_nil) as [Hnd Hord].
  transitivity (length (seq 0 (length preds))); [|apply length_seq].
  apply Permutation_length.
  apply NoDup_Permutation; [done|apply NoDup_seq|]. intros i. rewrite elem_of_seq. split.
  - intros (k & Hk)%list_elem_of_lookup_1. destruct (Hord k i Hk). lia.
  - intros [_ Hi]. apply (peel_rounds_rank _ 0); [lia|done|].
    specialize (Hb i Hi). lia.
Qed.

End ranked.
End peeling.

Section exactness.
Context (preds : list (list nat)).
Implicit Types (peeled : list nat) (i j k : nat).

Lemma peel_fix_or_grow peeled :
  peel preds peeled = peeled ∨ (length peeled < length (peel preds peeled))%nat.
Proof.
  unfold peel. destruct (filter _ _) as [|x l]; [left; apply app_nil_r|right].
  rewrite length_app. cbn. lia.
Qed.

Lemma peel_rounds_fix k peeled :
  peel preds peeled = peeled → peel_rounds k preds peeled = peeled.
Proof. intros H. induction k as [|k IH]; cbn; [done|]. by rewrite H. Qed.

(** Each round peels an invocation, or no later round does. *)
Lemma peel_rounds_grow k peeled :
  (length peeled + k ≤ length (peel_rounds k preds peeled))%nat
  ∨ peel preds (peel_rounds k preds peeled) = peel_rounds k preds peeled.
Proof.
  revert peeled. induction k as [|k IH]; intros peeled; cbn; [left; lia|].
  destruct (peel_fix_or_grow peeled) as [Hfix|Hgrow].
  - right. by rewrite Hfix, peel_rounds_fix.
  - destruct (IH (peel preds peeled)) as [H|H]; [left; lia|by right].
Qed.

(** As many numbers below [n] as one likes, without repetition, are at
    most [n]. *)
Lemma below_length (l : list nat) n :
  NoDup l → Forall (λ j, (j < n)%nat) l → (length l ≤ n)%nat.
Proof.
  intros Hnd Hl. trans (length (seq 0 n)); [|by rewrite length_seq].
  apply submseteq_length, NoDup_submseteq; [done|]. intros x Hx. apply elem_of_seq.
  pose proof (proj1 (Forall_forall _ _) Hl x Hx) as H. cbn in H. lia.
Qed.

Lemma topological_length order : topological preds order → (length order ≤ length preds)%nat.
Proof.
  intros [Hnd Hord]. apply below_length; [done|]. apply Forall_forall.
  intros x (k & Hk)%list_elem_of_lookup_1. by destruct (Hord k x Hk).
Qed.

Section stuck.
Context (peeled : list nat).
Context (Hfix : peel preds peeled = peeled).
Context (Hrange : ∀ j i, (i < length preds)%nat → edge preds j i → (j < length preds)%nat).

(** Where peeling has stopped, an invocation that is left has a
    predecessor that is left. *)
Lemma back_left i :
  (i < length preds)%nat → i ∉ peeled →
  edge preds (back preds peeled i) i ∧ (back preds peeled i ∉ peeled)
  ∧ (back preds peeled i < length preds)%nat.
Proof.
  intros Hi Hn. unfold back.
  destruct (filter (λ j, j ∉ peeled) (preds !!! i)) as [|j l] eqn:E.
  - exfalso. apply Hn. rewrite <-Hfix. apply elem_of_peel. right. split; [done|].
    apply peelable_spec. split; [done|]. intros j Hj.
    destruct (decide (j ∈ peeled)) as [|Hj']; [done|].
    by destruct (filter_nil_not_elem_of _ _ j E Hj').
  - assert (j ∈ filter (λ j, j ∉ peeled) (preds !!! i)) as [? ?]%list_elem_of_filter
      by (rewrite E; left).
    cbn. split_and!; [done..|by eapply Hrange].
Qed.

Lemma chain_left k i :
  (i < length preds)%nat → i ∉ peeled →
  Forall (λ j, (j < length preds)%nat) (chain preds peeled k i).
Proof.
  revert i. induction k as [|k IH]; intros i Hi Hn; cbn; [by repeat constructor|].
  constructor; [done|]. destruct (back_left i Hi Hn) as (_ & ? & ?). by apply IH.
Qed.

Lemma chain_length k i : length (chain preds peeled k i) = S k.
Proof. revert i. induction k as [|k IH]; intros i; cbn; [done|]. by rewrite IH. Qed.

Lemma chain_rtc k i b y :
  (i < length preds)%nat → i ∉ peeled →
  chain preds peeled k i !! b = Some y → rtc (edge preds) y i.
Proof.
  revert i b. induction k as [|k IH]; intros i [|b] Hi Hn; cbn; try by intros [= <-].
  intros Hb. destruct (back_left i Hi Hn) as (He & ? & ?).
  eapply rtc_r; [by eapply IH|done].
Qed.

Lemma chain_tc k i a b x y :
  (i < length preds)%nat → i ∉ peeled → (a < b)%nat →
  chain preds peeled k i !! a = Some x → chain preds peeled k i !! b = Some y →
  tc (edge preds) y x.
Proof.
  revert i a b. induction k as [|k IH]; intros i a b Hi Hn Hab; cbn.
  { destruct b as [|b]; [lia|]. intros _ Hb. cbn in Hb. by destruct b. }
  destruct (back_left i Hi Hn) as (He & ? & ?).
  destruct b as [|b]; [lia|]. destruct a as [|a]; cbn.
  - intros [= <-] Hb. eapply tc_rtc_l; [by eapply chain_rtc|by apply tc_once].
  - apply IH; (done || lia).
Qed.

End stuck.

(** A list with a repeated element has it at two places. *)
Lemma repeated_lookup (l : list nat) :
  ¬ NoDup l → ∃ a b x, (a < b)%nat ∧ l !! a = Some x ∧ l !! b = Some x.
Proof.
  induction l as [|x l IH]; intros H; [destruct H; constructor|].
  destruct (decide (x ∈ l)) as [[b Hb]%list_elem_of_lookup_1|Hx].
  - exists 0%nat, (S b), x. split; [lia|done].
  - destruct IH as (a & b & y & ? & ? & ?); [by intros ?; apply H; constructor|].
    exists (S a), (S b), y. split; [lia|done].
Qed.

(** Peeling that leaves an invocation leaves a cycle. *)
Lemma peel_rounds_stuck :
  (∀ j i, (i < length preds)%nat → edge preds j i → (j < length preds)%nat) →
  length (peel_rounds (length preds) preds []) ≠ length preds →
  ∃ i, (i < length preds)%nat ∧ tc (edge preds) i i.
Proof.
  intros Hrange Hlen. set (order := peel_rounds (length preds) preds []) in *.
  pose proof (peel_rounds_topological preds (length preds) [] (topological_nil _)) as Ht.
  pose proof (topological_length _ Ht) as Hle. fold order in Ht, Hle.
  destruct (peel_rounds_grow (length preds) []) as [Hg|Hfix]; [cbn in Hg; fold order in Hg; lia|].
  fold order in Hfix.
  assert (∃ i, (i < length preds)%nat ∧ i ∉ order) as (i & Hi & Hn).
  { destruct (decide (Forall (λ i, i ∈ order) (seq 0 (length preds)))) as [Hall|Hex].
    - destruct Hlen. apply Nat.le_antisymm; [done|].
      trans (length (seq 0 (length preds))); [by rewrite length_seq|].
      apply submseteq_length, NoDup_submseteq; [apply NoDup_seq|].
      by apply Forall_forall.
    - apply not_Forall_Exists in Hex; [|apply _].
      apply Exists_exists in Hex as (i & Hi%elem_of_seq & Hn). exists i. split; [lia|done]. }
  pose proof (chain_left order Hfix Hrange (length preds) i Hi Hn) as Hch.
  destruct (decide (NoDup (chain preds order (length preds) i))) as [Hnd|Hdup].
  - pose proof (below_length _ _ Hnd Hch) as Hl. rewrite chain_length in Hl. lia.
  - apply repeated_lookup in Hdup as (a & b & x & Hab & Ha & Hb). exists x. split.
    + by apply (proj1 (Forall_forall _ _) Hch), (list_elem_of_lookup_2 _ a).
    + by eapply (chain_tc order Hfix Hrange).
Qed.

End exactness.

Section construction.
Implicit Types (invs : list Invocation.t) (g : graph).

Lemma depends_lt invs j i : depends invs j i → (i < length invs)%nat.
Proof. intros (a & _ & _ & Ha & _). by eapply lookup_lt_Some. Qed.

Lemma depends_tc_edge invs m j i :
  register invs 0 ∅ = inr m →
  tc (depends invs) j i → tc (edge (predecessors m <$> invs)) j i.
Proof.
  intros H. induction 1 as [j i Hji|j y i Hjy _ IH].
  - apply tc_once, (predecessors_depends _ _ _ _ H); [by eapply depends_lt|done].
  - eapply tc_l; [|exact IH].
    apply (predecessors_depends _ _ _ _ H); [by eapply depends_lt|done].
Qed.

Lemma tc_depends_lt invs j i : tc (depends invs) j i → (i < length invs)%nat.
Proof. induction 1; [by eapply depends_lt|done]. Qed.

(** What construction gives when the outputs are registered. *)
Lemma build_registered invs m :
  register invs 0 ∅ = inr m →
  build invs =
    let preds := predecessors m <$> invs in
    let order := peel_rounds (length invs) preds [] in
    if decide (length order = length invs) then inr (Graph invs preds order)
    else inl Cycle.
Proof. unfold build. by intros ->. Qed.

Lemma build_Some invs g :
  build invs = inr g →
  ∃ m, register invs 0 ∅ = inr m ∧ invocations g = invs
    ∧ preds g = predecessors m <$> invs
    ∧ length (preds g) = length invs
    ∧ length (order g) = length invs
    ∧ topological (preds g) (order g).
Proof.
  unfold build. destruct (register invs 0 ∅) as [|m] eqn:E; [done|].
  cbv zeta. case_decide as Hlen; [|done]. intros [= <-]. exists m. cbn.
  pose proof (length_fmap (predecessors m) invs) as Hl.
  split_and!; try done.
  rewrite <-Hl at 1. apply peel_rounds_topological, topological_nil.
Qed.

Lemma register_unique invs m : register invs 0 ∅ = inr m → unique_outputs invs.
Proof.
  intros E i j a b o Ha Hb Hoa Hob.
  pose proof (proj2 (register_producers _ _ E o i) (ex_intro _ a (conj Ha Hoa))).
  pose proof (proj2 (register_producers _ _ E o j) (ex_intro _ b (conj Hb Hob))).
  congruence.
Qed.

Lemma register_not_unique invs e : register invs 0 ∅ = inl e → ¬ unique_outputs invs.
Proof.
  intros (o & i & j & a & b & _ & Hij & ? & ? & ? & ?)%register_duplicate Hu.
  destruct Hij. by eapply Hu.
Qed.

Lemma tc_edge_lt invs m j i :
  register invs 0 ∅ = inr m → (i < length invs)%nat →
  tc (edge (predecessors m <$> invs)) j i → (j < length invs)%nat.
Proof.
  intros E Hi H. induction H as [j i Hji|j y i Hjy _ IH]; [by eapply edge_in_range|].
  eapply edge_in_range; [done|by apply IH|done].
Qed.

Lemma tc_edge_depends invs m j i :
  register invs 0 ∅ = inr m → (i < length invs)%nat →
  tc (edge (predecessors m <$> invs)) j i → tc (depends invs) j i.
Proof.
  intros E Hi H. induction H as [j i Hji|j y i Hjy Hyi IH].
  - by apply tc_once, (predecessors_depends _ m).
  - eapply tc_l; [|by apply IH].
    apply (predecessors_depends _ m); [done|by eapply tc_edge_lt|done].
Qed.

(** An order as long as the list leaves no room for a cycle. *)
Lemma full_order_no_cycle invs m i :
  register invs 0 ∅ = inr m →
  length (peel_rounds (length invs) (predecessors m <$> invs) []) = length invs →
  ¬ tc (depends invs) i i.
Proof.
  intros E Hlen Hc. pose proof (length_fmap (predecessors m) invs) as Hl.
  rewrite <-Hl in Hlen.
  pose proof (peel_rounds_topological (predecessors m <$> invs)
                (length (predecessors m <$> invs)) [] (topological_nil _)) as Ht.
  apply (topological_no_cycle _ _ i Ht); [by apply depends_tc_edge|].
  apply (topological_full _ _ i Ht Hlen). rewrite Hl. by eapply tc_depends_lt.
Qed.

(** An order that is not as long as the list leaves a cycle. *)
Lemma short_order_cycle invs m :
  register invs 0 ∅ = inr m →
  length (peel_rounds (length invs) (predecessors m <$> invs) []) ≠ length invs →
  ∃ i, tc (depends invs) i i.
Proof.
  intros E Hlen. pose proof (length_fmap (predecessors m) invs) as Hl.
  rewrite <-Hl in Hlen.
  destruct (peel_rounds_stuck (predecessors m <$> invs)) as (i & Hi & Hc); [|done|].
  - intros j i. rewrite Hl. by apply edge_in_range.
  - exists i. apply (tc_edge_depends _ m); [done|by rewrite <-Hl|done].
Qed.

End construction.

Section construction_claims.
Implicit Types (invs : list Invocation.t) (g : graph).

(** C18.  Two invocations that declare the same output path are refused by
    graph construction, with the error that names a duplicated output. *)
Theorem build_rejects_duplicate_output invs i j a b o :
  invs !! i = Some a → invs !! j = Some b → i ≠ j →
  o ∈ Invocation.outputs a → o ∈ Invocation.outputs b →
  ∃ o', build invs = inl (DuplicateOutput o').
Proof.
  intros Ha Hb Hij Hoa Hob. unfold build.
  destruct (register invs 0 ∅) as [e|m] eqn:E.
  - destruct (register_duplicate _ _ E) as (o' & ? & ? & ? & ? & -> & _). by exists o'.
  - destruct Hij. by eapply (register_unique _ _ E).
Qed.

(** Construction reports a duplicated output only when two different
    invocations declare that path. *)
Theorem build_duplicate_output_justified invs o :
  build invs = inl (DuplicateOutput o) →
  ∃ i j a b, i ≠ j ∧ invs !! i = Some a ∧ invs !! j = Some b
    ∧ o ∈ Invocation.outputs a ∧ o ∈ Invocation.outputs b.
Proof.
  unfold build. destruct (register invs 0 ∅) as [e|m] eqn:E.
  - intros [= ->]. destruct (register_duplicate _ _ E) as (o' & i & j & a & b & ? & H).
    simplify_eq. by exists i, j, a, b.
  - cbv zeta. by case_decide.
Qed.

(** C10.  A graph with a cycle through inputs, inputDependencies or
    orderDependencies is refused by construction: the result is an error,
    so no invocation is ever given a status. *)
Theorem build_rejects_cycle invs i :
  tc (depends invs) i i →
  build invs = inl Cycle ∨ ∃ o, build invs = inl (DuplicateOutput o).
Proof.
  intros Hc. destruct (register invs 0 ∅) as [e|m] eqn:E.
  - right. unfold build. rewrite E.
    destruct (register_duplicate _ _ E) as (o & ? & ? & ? & ? & -> & _). by exists o.
  - left. rewrite (build_registered _ _ E). cbv zeta. case_decide as Hlen; [|done].
    by destruct (full_order_no_cycle _ _ i E Hlen).
Qed.

(** The graph that construction accepts: its edges are the
    dependencies of the invocations, each output has one producer, and its
    order lists every invocation once, after all its predecessors. *)
Theorem build_accepts_topological invs g :
  build invs = inr g →
  invocations g = invs
  ∧ topological (preds g) (order g)
  ∧ (∀ i, (i < length invs)%nat → i ∈ order g)
  ∧ (∀ j i, (i < length invs)%nat → edge (preds g) j i ↔ depends invs j i).
Proof.
  intros (m & E & Hi & Hp & Hlp & Hlo & Ht)%build_Some. split_and!; [done..| |].
  - intros i Hlt. apply (topological_full (preds g)); [done|congruence|lia].
  - intros j i Hlt. rewrite Hp. by apply predecessors_depends.
Qed.

(** Construction accepts every list of invocations in which no output
    is declared twice and the dependencies go down along a rank below the
    number of invocations; a list in which every invocation comes after
    the producers of what it needs is one. *)
Theorem build_accepts_ranked invs (rank : nat → nat) :
  unique_outputs invs →
  (∀ j i, depends invs j i → (rank j < rank i)%nat) →
  (∀ i, (i < length invs)%nat → (rank i < length invs)%nat) →
  ∃ g, build invs = inr g.
Proof.
  intros Hu Hr Hb. destruct (register invs 0 ∅) as [e|m] eqn:E.
  { destruct (register_duplicate _ _ E) as (o & i & j & a & b & _ & Hij & ? & ? & ? & ?).
    destruct Hij. by eapply Hu. }
  rewrite (build_registered _ _ E). cbv zeta.
  pose proof (length_fmap (predecessors m) invs) as Hl.
  rewrite decide_True; [by eexists|].
  rewrite <-Hl. apply (peel_rounds_complete _ rank); rewrite ?Hl.
  - intros j i Hi. by apply edge_in_range.
  - intros j i Hi He. by apply Hr, (predecessors_depends _ m).
  - done.
Qed.

(** C34.  Construction is exact: it returns a graph for a list of
    invocations if and only if no path is an output of two invocations
    and no invocation depends on itself, directly or through others. *)
Theorem build_accepts_iff invs :
  (∃ g, build invs = inr g)
  ↔ unique_outputs invs ∧ ∀ i, ¬ tc (depends invs) i i.
Proof.
  unfold build. destruct (register invs 0 ∅) as [e|m] eqn:E; cbv zeta.
  { split; [by intros [? ?]|]. intros [Hu _]. by destruct (register_not_unique _ _ E). }
  case_decide as Hlen; split.
  - intros _. split; [by eapply register_unique|]. intros i. by eapply full_order_no_cycle.
  - intros _. by eexists.
  - by intros [? ?].
  - intros [_ Hnc]. destruct (short_order_cycle _ _ E Hlen) as [i Hi]. by destruct (Hnc i).
Qed.

End construction_claims.

Section graph_scenarios.

Ltac in_list :=
  cbn; by repeat first [apply list_elem_of_here | apply list_elem_of_further].

Lemma demo_build : build demo_invocations = inr demo_graph.
Proof. vm_compute. reflexivity. Defined.

(** Each of the pairs compile-link and link-strip is a dependency. *)
Lemma demo_depends_link : depends demo_invocations 0 1.
Proof.
  eexists _, _, "a.o". split_and!; [reflexivity..| |]; in_list.
Defined.

Lemma demo_depends_strip : depends demo_invocations 1 3.
Proof.
  eexists _, _, "app". split_and!; [reflexivity..| |]; in_list.
Defined.

Lemma build_rejects_cycle_witness :
  build demo_cycle = inl Cycle ∨ ∃ o, build demo_cycle = inl (DuplicateOutput o).
Proof.
  apply (build_rejects_cycle demo_cycle 0).
  apply (tc_l _ 0 1 0)%nat; [|apply tc_once].
  - eexists _, _, "a.out". split_and!; [reflexivity..| |]; in_list.
  - eexists _, _, "b.out". split_and!; [reflexivity..| |]; in_list.
Defined.

Lemma build_rejects_duplicate_output_witness :
  ∃ o, build demo_duplicate = inl (DuplicateOutput o).
Proof.
  eapply (build_rejects_duplicate_output demo_duplicate 0 1 _ _ "a.o");
    [reflexivity|reflexivity|lia| |]; in_list.
Defined.

Lemma build_accepts_topological_witness :
  invocations demo_graph = demo_invocations
  ∧ topological (preds demo_graph) (order demo_graph)
  ∧ (∀ i, (i < length demo_invocations)%nat → i ∈ order demo_graph)
  ∧ (∀ j i, (i < length demo_invocations)%nat →
       edge (preds demo_graph) j i ↔ depends demo_invocations j i).
Proof. apply (build_accepts_topological demo_invocations demo_graph demo_build). Defined.

Lemma build_accepts_ranked_witness : ∃ g, build demo_invocations = inr g.
Proof.
  apply (build_accepts_ranked demo_invocations (λ i, i)).
  - intros i j a b o Ha Hb Hoa Hob.
    destruct i as [|[|[|[|?]]]], j as [|[|[|[|?]]]]; simplify_eq/=; try done; set_solver.
  - intros j i (a & b & p & Ha & Hb & Hp & Ho).
    destruct i as [|[|[|[|?]]]], j as [|[|[|[|?]]]]; simplify_eq/=; try lia; set_solver.
  - done.
Defined.

Lemma build_accepts_iff_witness :
  (∃ g, build demo_invocations = inr g)
  ↔ unique_outputs demo_invocations ∧ ∀ i, ¬ tc (depends demo_invocations) i i.
Proof. apply (build_accepts_iff demo_invocations). Defined.

End graph_scenarios.
