(* ===== verification/Scheduler.v ===== *)
(** * The scheduler

    The state machine that runs the invocations of a graph (sections 4.5,
    5 and 7 of the specification).  No code of the scheduler is among the
    sources: the definitions follow the specification.  The graph is the
    one [InvocationGraph.build] makes of a list of [Invocation.t].

    Each invocation has a status.  An [event] moves one invocation from
    one status to the next; [enabled] says when it may happen.  What the
    scheduler asks of the rest of the system is the class [Oracle]: in a
    state of the world, whether an invocation is stale, whether its
    auxiliary files can be written and how its process exits, and what an
    event does to the world.  A [config] is the statuses with a state of
    the world, and [step] is the machine.  Every interleaving of the
    workers is a run of [steps]: the exit of a process is an event like
    any other.

    [choose] is the executor, a function that picks one enabled event
    (bookkeeping first, then dispatch, then exits), [run] iterates it with
    fuel, and [schedule] is the whole: build the graph, then run.  The
    fuel is [budget], three events for each invocation, which is all a run
    can have ([events_at_most_once]), so the executor never stops for lack
    of fuel ([schedule_completes]).

    [fixed] is the world in which the three answers are fixed functions
    and nothing changes; [Build] is the world of files with their
    modification times and of the recorded state. *)

From Stdlib Require Import ZArith Lia.
From stdpp Require Import gmap strings list.
From S2P Require Import Prelude StdString Invocation InvocationGraph.

#[local] Set Warnings "-clear-no-such-hyp".

(** ** The state machine *)

Inductive status : Type := Pending | Ready | Running | Succeeded | Failed | Skipped.

#[global] Instance status_eq_dec : EqDecision status.
Proof. solve_decision. Defined.

Definition finished (s : status) : bool :=
  match s with
  | Succeeded | Skipped => true
  | _ => false
  end.

Definition terminal (s : status) : bool :=
  match s with
  | Succeeded | Failed | Skipped => true
  | _ => false
  end.

Inductive event : Type :=
  | EReady (i : nat)       (* Pending -> Ready *)
  | ESkip (i : nat)        (* Ready -> Skipped: not stale *)
  | EStart (i : nat)       (* Ready -> Running: materialized and spawned *)
  | EAuxFail (i : nat)     (* Ready -> Failed: an auxiliary file could not be written *)
  | ESucceed (i : nat)     (* Running -> Succeeded *)
  | EFail (i : nat)        (* Running -> Failed *)
  | ECascade (i : nat).    (* Pending -> Failed: a predecessor has failed *)

#[global] Instance event_eq_dec : EqDecision event.
Proof. solve_decision. Defined.

Definition subject (e : event) : nat :=
  match e with
  | EReady i | ESkip i | EStart i | EAuxFail i | ESucceed i | EFail i | ECascade i => i
  end.

(** The status an event finds its subject in, and the one it leaves it in. *)
Definition source_of (e : event) : status :=
  match e with
  | EReady _ | ECascade _ => Pending
  | ESkip _ | EStart _ | EAuxFail _ => Ready
  | ESucceed _ | EFail _ => Running
  end.

Definition outcome_of (e : event) : status :=
  match e with
  | EReady _ => Ready
  | ESkip _ => Skipped
  | EStart _ => Running
  | EAuxFail _ | EFail _ | ECascade _ => Failed
  | ESucceed _ => Succeeded
  end.

Definition apply_event (e : event) (st : list status) : list status :=
  <[subject e := outcome_of e]> st.

Definition has_status (st : list status) (s : status) (i : nat) : bool :=
  bool_decide (st !! i = Some s).

Definition is_finished (st : list status) (i : nat) : bool :=
  from_option finished false (st !! i).

Definition running (st : list status) : nat := length (filter (λ s, s = Running) st).

Definition any_failed (st : list status) : bool := bool_decide (Failed ∈ st).

Section machine.
Context (preds : list (list nat)).
(** The staleness detector, the materializer and the exit of the process. *)
Context (stale aux_ok exit_ok : nat → bool).
(** The number of workers, and whether a failure stops new work. *)
Context (slots : nat) (fail_fast : bool).

(** Whether the executor may dispatch: a worker is free, and no failure
    has stopped new work. *)
Definition may_dispatch (st : list status) : bool :=
  bool_decide (running st < slots)%nat && negb (fail_fast && any_failed st).

(** Whether [i] is the one to dispatch: of the invocations that are
    ready, the first of the list. *)
Definition dispatchable (st : list status) (i : nat) : bool :=
  may_dispatch st && forallb (λ j, negb (has_status st Ready j)) (seq 0 i).

(** What an event needs besides the status of its subject. *)
Definition guard (st : list status) (e : event) : bool :=
  match e with
  | EReady i => forallb (is_finished st) (preds !!! i)
  | ECascade i => existsb (has_status st Failed) (preds !!! i)
  | ESkip i => dispatchable st i && negb (stale i)
  | EStart i => dispatchable st i && stale i && aux_ok i
  | EAuxFail i => dispatchable st i && stale i && negb (aux_ok i)
  | ESucceed i => exit_ok i
  | EFail i => negb (exit_ok i)
  end.

Definition enabled (st : list status) (e : event) : bool :=
  has_status st (source_of e) (subject e) && guard st e.

(** ** The executor *)

(** The events in the order the executor tries them: the bookkeeping
    first, then dispatch, then the exits of the processes; for each kind
    the invocations in the order of the list. *)
Definition kinds : list (nat → event) :=
  [ECascade; EReady; ESkip; EStart; EAuxFail; ESucceed; EFail].

Definition agenda (n : nat) : list event :=
  flat_map (λ kind, kind <$> seq 0 n) kinds.

(** The first enabled event. *)
Definition next (st : list status) : option event :=
  head (filter (λ e, enabled st e = true) (agenda (length st))).

End machine.

(** The statuses a build starts from. *)
Definition initial (n : nat) : list status := replicate n Pending.

(** How far a status is along the life of an invocation. *)
Definition progress (s : status) : nat :=
  match s with
  | Pending => 0
  | Ready => 1
  | Running => 2
  | Succeeded | Failed | Skipped => 3
  end.

(** The events a build can see before it is over: three for each
    invocation. *)
Definition budget (n : nat) : nat := 3 * n.

(** ** The system *)

(** An event that runs nothing. *)
Definition idle (e : event) : bool :=
  match e with
  | EReady _ | ESkip _ | ECascade _ => true
  | EStart _ | EAuxFail _ | ESucceed _ | EFail _ => false
  end.

(** What the scheduler asks of the rest of the system, in a state [E] of
    it: the staleness detector, the materializer, the exit of a process,
    and what an event changes.  An event that runs nothing changes
    nothing. *)
Class Oracle (E : Type) : Type := {
  is_stale : E → nat → bool;
  materializes : E → nat → bool;
  exits_ok : E → nat → bool;
  effect : event → E → E;
  effect_idle e w : idle e = true → effect e w = w;
}.

Record config (E : Type) : Type := Config {
  statuses : list status;
  env : E;
}.
Arguments Config {E} statuses env.
Arguments statuses {E} c.
Arguments env {E} c.

Section system.
Context `{Oracle E} (preds : list (list nat)) (slots : nat) (fail_fast : bool).

Definition guard_in (c : config E) (e : event) : bool :=
  guard preds (is_stale (env c)) (materializes (env c)) (exits_ok (env c))
    slots fail_fast (statuses c) e.

Definition enabled_in (c : config E) (e : event) : bool :=
  enabled preds (is_stale (env c)) (materializes (env c)) (exits_ok (env c))
    slots fail_fast (statuses c) e.

(** The graph-state transition function. *)
Definition fire (e : event) (c : config E) : config E :=
  Config (apply_event e (statuses c)) (effect e (env c)).

Inductive step : config E → event → config E → Prop :=
  | step_event c e : enabled_in c e = true → step c e (fire e c).

(** A run: the events in the order they happen. *)
Inductive steps : config E → list event → config E → Prop :=
  | steps_nil c : steps c [] c
  | steps_cons c e c' es c'' : step c e c' → steps c' es c'' → steps c (e :: es) c''.

(** The executor: the first enabled event of the agenda, again and
    again. *)
Definition choose (c : config E) : option event :=
  next preds (is_stale (env c)) (materializes (env c)) (exits_ok (env c))
    slots fail_fast (statuses c).

Fixpoint run (fuel : nat) (c : config E) : list event * config E :=
  match fuel with
  | O => ([], c)
  | S fuel' =>
    match choose c with
    | None => ([], c)
    | Some e => let '(es, c') := run fuel' (fire e c) in (e :: es, c')
    end
  end.

End system.

(** The scheduler: the graph is built, then run to the end from the
    state [w] of the world. *)
Definition schedule `{Oracle E} (slots : nat) (fail_fast : bool)
    (invs : list Invocation.t) (w : E) : GraphError + (list event * config E) :=
  match build invs with
  | inl e => inl e
  | inr g =>
    inr (run (preds g) slots fail_fast (budget (length invs))
           (Config (initial (length invs)) w))
  end.

(** The world of fixed answers, in which nothing changes. *)
Definition fixed (stale aux_ok exit_ok : nat → bool) : Oracle unit :=
  {| is_stale _ := stale; materializes _ := aux_ok; exits_ok _ := exit_ok;
     effect _ w := w; effect_idle _ _ _ := eq_refl |}.

(** An invocation that has been made ready has all its predecessors
    finished. *)
Definition dispatched (s : status) : bool :=
  match s with
  | Ready | Running | Succeeded | Skipped => true
  | Pending | Failed => false
  end.

Definition ordered (preds : list (list nat)) (st : list status) : Prop :=
  ∀ i s j, st !! i = Some s → dispatched s = true → edge preds j i →
    is_finished st j = true.

(** A status that a build with nothing stale can reach. *)
Definition calm (s : status) : bool :=
  match s with
  | Pending | Ready | Skipped => true
  | Running | Succeeded | Failed => false
  end.

(** ** Scenarios *)

(** Everything is stale and can be materialized; the link fails. *)
Definition link_fails (i : nat) : bool := negb (i =? 1)%nat.

Definition demo_events : list event :=
  [EReady 0; EReady 2; EStart 0; EStart 2; ESucceed 0; EReady 1; EStart 1; ESucceed 2;
   EFail 1; ECascade 3]%nat.

Definition demo_statuses : list status := [Succeeded; Failed; Succeeded; Failed].

Definition always (i : nat) : bool := true.

Definition never (i : nat) : bool := false.

(** * Theorems *)

Section statuses.
Implicit Types (st : list status) (s : status) (e : event).

Lemma has_status_true st s i : has_status st s i = true ↔ st !! i = Some s.
Proof. apply bool_decide_eq_true. Qed.

Lemma has_status_false st s i : has_status st s i = false ↔ st !! i ≠ Some s.
Proof. apply bool_decide_eq_false. Qed.

Lemma is_finished_true st i :
  is_finished st i = true ↔ st !! i = Some Succeeded ∨ st !! i = Some Skipped.
Proof.
  unfold is_finished. destruct (st !! i) as [[]|]; cbn; split; try done; naive_solver.
Qed.

Lemma progress_event e : (progress (source_of e) < progress (outcome_of e))%nat.
Proof. destruct e; cbn; lia. Qed.

Lemma source_not_terminal e : terminal (source_of e) = false.
Proof. by destruct e. Qed.

Lemma terminal_progress s : terminal s = true ↔ progress s = 3%nat.
Proof. destruct s; cbn; split; (done || lia). Qed.

Lemma finished_terminal s : finished s = true → terminal s = true.
Proof. by destruct s. Qed.

(** The number of running invocations when one status changes. *)
Lemma running_insert st i old new :
  st !! i = Some old →
  (running (<[i := new]> st) + (if decide (old = Running) then 1 else 0) =
   running st + (if decide (new = Running) then 1 else 0))%nat.
Proof.
  unfold running. revert i. induction st as [|s st IH]; intros [|i] H; simplify_eq/=.
  - rewrite !filter_cons. repeat case_decide; cbn [length]; (lia || congruence).
  - specialize (IH i H). rewrite !filter_cons. repeat case_decide; cbn [length] in *; lia.
Qed.

Lemma running_none st : (∀ i, st !! i ≠ Some Running) → running st = 0%nat.
Proof.
  unfold running. induction st as [|s st IH]; intros H; [done|].
  rewrite filter_cons. destruct (decide (s = Running)) as [->|]; [by destruct (H 0%nat)|].
  apply IH. intros i. apply (H (S i)).
Qed.

Lemma progress_bound st : (sum_list (progress <$> st) ≤ budget (length st))%nat.
Proof.
  unfold budget. induction st as [|s st IH]; cbn; [lia|]. destruct s; cbn; lia.
Qed.

Lemma progress_insert st i old new :
  st !! i = Some old →
  (sum_list (progress <$> <[i := new]> st) + progress old =
   sum_list (progress <$> st) + progress new)%nat.
Proof.
  revert i. induction st as [|s st IH]; intros [|i] H; simplify_eq/=; [lia|].
  specialize (IH i H). lia.
Qed.

End statuses.

Section guards.
Context (preds : list (list nat)) (stale aux_ok exit_ok : nat → bool).
Context (slots : nat) (fail_fast : bool).
Implicit Types (st : list status) (s : status) (e : event).

Local Abbreviation enabled := (enabled preds stale aux_ok exit_ok slots fail_fast).
Local Abbreviation guard := (guard preds stale aux_ok exit_ok slots fail_fast).
Local Abbreviation next := (next preds stale aux_ok exit_ok slots fail_fast).

Lemma enabled_spec st e :
  enabled st e = true ↔ st !! subject e = Some (source_of e) ∧ guard st e = true.
Proof. unfold Scheduler.enabled. by rewrite andb_true_iff, has_status_true. Qed.

Lemma agenda_subject n e : (subject e < n)%nat → e ∈ agenda n.
Proof.
  intros H. apply list_elem_of_In, in_flat_map.
  destruct e as [i|i|i|i|i|i|i]; eexists; (split; [|apply list_elem_of_In, list_elem_of_fmap;
    exists i; split; [reflexivity|apply elem_of_seq; cbn in *; lia]]); cbn; tauto.
Qed.

Lemma next_Some st e : next st = Some e → enabled st e = true.
Proof.
  unfold Scheduler.next. intros H%head_Some_elem_of.
  by apply list_elem_of_filter in H as [? _].
Qed.

(** The executor stops only when no event is enabled. *)
Lemma next_None st e : next st = None → enabled st e = false.
Proof.
  unfold Scheduler.next. intros H%head_None.
  destruct (enabled st e) eqn:E; [exfalso|done].
  eapply (filter_nil_not_elem_of _ _ e H); [done|].
  apply enabled_spec in E as [Hs _]. by eapply agenda_subject, lookup_lt_Some.
Qed.

(** What a dispatch needs: no invocation before its subject is ready. *)
Lemma guard_first st e :
  source_of e = Ready → guard st e = true →
  forallb (λ j, negb (has_status st Ready j)) (seq 0 (subject e)) = true.
Proof.
  destruct e; cbn; try done; unfold dispatchable; rewrite !andb_true_iff; tauto.
Qed.

(** An invocation is skipped when it is not stale, and started when it
    is. *)
Lemma guard_skip st i : guard st (ESkip i) = true → stale i = false.
Proof. cbn. rewrite andb_true_iff, negb_true_iff. tauto. Qed.

Lemma guard_start st i : guard st (EStart i) = true → stale i = true ∧ aux_ok i = true.
Proof. cbn. rewrite !andb_true_iff. tauto. Qed.

(** A dispatch needs a free slot. *)
Lemma guard_slot st e :
  outcome_of e = Running → guard st e = true → (running st < slots)%nat.
Proof.
  destruct e; cbn; try done. unfold dispatchable, may_dispatch.
  rewrite !andb_true_iff, bool_decide_eq_true. tauto.
Qed.

End guards.

Section transitions.
Context `{Oracle E} (preds : list (list nat)) (slots : nat) (fail_fast : bool).
Implicit Types (c : config E) (s : status) (e : event) (es : list event).

Local Abbreviation guard_in := (guard_in preds slots fail_fast).
Local Abbreviation enabled_in := (enabled_in preds slots fail_fast).
Local Abbreviation step := (step preds slots fail_fast).
Local Abbreviation steps := (steps preds slots fail_fast).

Lemma enabled_in_spec c e :
  enabled_in c e = true ↔
  statuses c !! subject e = Some (source_of e) ∧ guard_in c e = true.
Proof. apply enabled_spec. Qed.

Lemma step_inv c e c' :
  step c e c' ↔
  statuses c !! subject e = Some (source_of e) ∧ guard_in c e = true ∧ c' = fire e c.
Proof.
  split.
  - intros [c0 e0 [? ?]%enabled_in_spec]. done.
  - intros (? & ? & ->). by apply step_event, enabled_in_spec.
Qed.

Lemma step_length c e c' : step c e c' → length (statuses c') = length (statuses c).
Proof. intros (_ & _ & ->)%step_inv. apply length_insert. Qed.

(** A step changes the status of its subject only, and moves it on. *)
Lemma step_progress c e c' j s :
  step c e c' → statuses c !! j = Some s →
  ∃ s', statuses c' !! j = Some s' ∧ (progress s ≤ progress s')%nat
    ∧ (j = subject e → (progress s < progress s')%nat ∧ s' = outcome_of e)
    ∧ (j ≠ subject e → s' = s).
Proof.
  intros (Hs & _ & ->)%step_inv Hj. cbn. unfold apply_event.
  destruct (decide (j = subject e)) as [->|Hne].
  - exists (outcome_of e). rewrite list_lookup_insert_eq by by eapply lookup_lt_Some.
    pose proof (progress_event e). simplify_eq. split_and!; (done || lia).
  - exists s. rewrite list_lookup_insert_ne by done. split_and!; (done || lia).
Qed.

Lemma step_terminal c e c' j s :
  step c e c' → statuses c !! j = Some s → terminal s = true →
  statuses c' !! j = Some s.
Proof.
  intros Hst Hj Ht. destruct (step_progress _ _ _ _ _ Hst Hj) as (s' & Hs' & _ & Heq & Hne).
  destruct (decide (j = subject e)) as [->|]; [|by rewrite Hs', Hne].
  apply step_inv in Hst as (Hsrc & _). pose proof (source_not_terminal e). congruence.
Qed.

Lemma step_finished c e c' j :
  step c e c' → is_finished (statuses c) j = true → is_finished (statuses c') j = true.
Proof.
  rewrite !is_finished_true.
  intros Hst [Hj|Hj]; [left|right]; by apply (step_terminal _ _ _ _ _ Hst Hj).
Qed.

(** The status an invocation has after a step is the outcome of the
    event, or the status it had. *)
Lemma step_status c e c' i s :
  step c e c' → statuses c' !! i = Some s →
  (i = subject e ∧ s = outcome_of e ∧ statuses c !! i = Some (source_of e))
  ∨ (i ≠ subject e ∧ statuses c !! i = Some s).
Proof.
  intros (Hsrc & _ & ->)%step_inv. cbn [fire statuses]. unfold apply_event.
  intros [(<- & <- & _)|[? ?]]%list_lookup_insert_Some; auto.
Qed.

(** An event that runs nothing leaves the world as it is. *)
Lemma step_idle c e c' : step c e c' → idle e = true → env c' = env c.
Proof. intros (_ & _ & ->)%step_inv Hi. by apply effect_idle. Qed.

Lemma steps_app es1 es2 c c'' :
  steps c (es1 ++ es2) c'' ↔ ∃ c', steps c es1 c' ∧ steps c' es2 c''.
Proof.
  revert c. induction es1 as [|e es1 IH]; intros c; cbn.
  - split; [intros; eexists; split; [constructor|done]|].
    by intros (c' & Hnil & ?); inversion Hnil.
  - split.
    + inversion 1 as [|? ? c1 ? ? Hs Hr]; subst.
      apply IH in Hr as (c' & ? & ?). exists c'. split; [by econstructor|done].
    + intros (c' & H1 & H2). inversion H1 as [|? ? c1 ? ? Hs Hr]; subst.
      econstructor; [done|]. apply IH. by exists c'.
Qed.

Lemma steps_length c es c' : steps c es c' → length (statuses c') = length (statuses c).
Proof.
  induction 1 as [|c e c1 es c' Hs _ IH]; [done|].
  by rewrite IH, (step_length _ _ _ Hs).
Qed.

Lemma steps_progress c es c' j s :
  steps c es c' → statuses c !! j = Some s →
  ∃ s', statuses c' !! j = Some s' ∧ (progress s ≤ progress s')%nat.
Proof.
  intros Hr. revert s. induction Hr as [|c e c1 es c' Hs _ IH]; intros s Hj.
  - exists s. split; [done|lia].
  - destruct (step_progress _ _ _ _ _ Hs Hj) as (s1 & Hs1 & ? & _).
    destruct (IH _ Hs1) as (s' & ? & ?). exists s'. split; [done|lia].
Qed.

Lemma steps_terminal c es c' j s :
  steps c es c' → statuses c !! j = Some s → terminal s = true →
  statuses c' !! j = Some s.
Proof.
  induction 1 as [|c e c1 es c' Hs _ IH]; intros Hj Ht; [done|].
  by apply IH; [eapply step_terminal|].
Qed.

Lemma steps_finished c es c' j :
  steps c es c' → is_finished (statuses c) j = true → is_finished (statuses c') j = true.
Proof. induction 1; [done|]. intros. eauto using step_finished. Qed.

(** A status that a run ends with was there at the start or is the
    outcome of one of its events. *)
Lemma steps_history c es c' j s :
  steps c es c' → statuses c' !! j = Some s →
  statuses c !! j = Some s ∨ ∃ e, e ∈ es ∧ subject e = j ∧ outcome_of e = s.
Proof.
  induction 1 as [|c e c1 es c' Hs _ IH]; intros Hj; [by left|].
  destruct (IH Hj) as [H1|(e' & ? & ? & ?)].
  - apply step_inv in Hs as (_ & _ & ->).
    apply list_lookup_insert_Some in H1 as [(<- & <- & _)|[_ ?]]; [right|by left].
    exists e. split; [left|done].
  - right. exists e'. split; [by right|done].
Qed.

(** An event of a run finds its subject no further than its source. *)
Lemma steps_event_source c es c' e :
  steps c es c' → e ∈ es →
  ∃ s, statuses c !! subject e = Some s ∧ (progress s ≤ progress (source_of e))%nat.
Proof.
  induction 1 as [|c e0 c1 es c' Hs _ IH]; intros He; [by apply elem_of_nil in He|].
  apply elem_of_cons in He as [->|He].
  - apply step_inv in Hs as (? & _). eexists. split; [done|lia].
  - destruct (IH He) as (s1 & Hs1 & ?).
    pose proof (step_length _ _ _ Hs) as Hl.
    destruct (lookup_lt_is_Some_2 (statuses c) (subject e)) as [s Hsub].
    { rewrite <-Hl. by eapply lookup_lt_Some. }
    destruct (step_progress _ _ _ _ _ Hs Hsub) as (s1' & ? & ? & _).
    exists s. split; [done|]. simplify_eq. lia.
Qed.

Lemma steps_NoDup c es c' : steps c es c' → NoDup es.
Proof.
  induction 1 as [|c e c1 es c' Hs Hr IH]; constructor; [|done].
  intros (s1 & Hs1 & Hle)%(steps_event_source _ _ _ _ Hr).
  apply step_inv in Hs as (Hsrc & _ & ->). cbn in Hs1. unfold apply_event in Hs1.
  rewrite list_lookup_insert_eq in Hs1 by by eapply lookup_lt_Some.
  pose proof (progress_event e). simplify_eq. lia.
Qed.

(** Of the events that take an invocation from one status, a run has at
    most one: an invocation is skipped or started, succeeds or fails. *)
Lemma steps_same_source c es c' e1 e2 :
  steps c es c' → e1 ∈ es → e2 ∈ es →
  subject e1 = subject e2 → source_of e1 = source_of e2 → e1 = e2.
Proof.
  assert (∀ c e c1 es c' e', step c e c1 → steps c1 es c' → e' ∈ es →
            subject e = subject e' → source_of e = source_of e' → False) as Hlater.
  { intros c0 e c1 es0 c0' e' (Hsrc & _ & ->)%step_inv Hr He' Hsub Hsame.
    destruct (steps_event_source _ _ _ _ Hr He') as (s1 & Hs1 & Hle).
    rewrite <-Hsub in Hs1. cbn in Hs1. unfold apply_event in Hs1.
    rewrite list_lookup_insert_eq in Hs1 by by eapply lookup_lt_Some.
    pose proof (progress_event e). rewrite <-Hsame in Hle. simplify_eq. lia. }
  induction 1 as [|c e c1 es c' Hs Hr IH]; intros H1 H2 Hsub Hsame;
    [by apply elem_of_nil in H1|].
  apply elem_of_cons in H1 as [->|H1], H2 as [->|H2]; [done| | |by apply IH].
  - by destruct (Hlater _ _ _ _ _ e2 Hs Hr).
  - by destruct (Hlater _ _ _ _ _ e1 Hs Hr).
Qed.

(** A run sees no more events than the progress that is left. *)
Lemma steps_budget c es c' :
  steps c es c' →
  (length es + sum_list (progress <$> statuses c)
   ≤ sum_list (progress <$> statuses c'))%nat.
Proof.
  induction 1 as [|c e c1 es c' Hs _ IH]; cbn; [lia|].
  apply step_inv in Hs as (Hsrc & _ & ->). cbn in IH. unfold apply_event in IH.
  pose proof (progress_insert _ _ _ (outcome_of e) Hsrc). pose proof (progress_event e). lia.
Qed.

Lemma steps_running c es c' :
  steps c es c' → (running (statuses c) ≤ slots)%nat → (running (statuses c') ≤ slots)%nat.
Proof.
  induction 1 as [|c e c1 es c' Hs _ IH]; intros Hr; [done|]. apply IH.
  apply step_inv in Hs as (Hsrc & Hg & ->). cbn [fire statuses]. unfold apply_event.
  pose proof (running_insert _ _ _ (outcome_of e) Hsrc) as Hi.
  repeat case_decide; try lia.
  match goal with Ho : outcome_of e = Running |- _ =>
    apply (guard_slot _ _ _ _ _ _ _ _ Ho) in Hg end. lia.
Qed.

End transitions.

Section ordering.
Context `{Oracle E} (preds : list (list nat)) (slots : nat) (fail_fast : bool).
Implicit Types (c : config E) (st : list status) (s : status) (e : event).

Local Abbreviation step := (step preds slots fail_fast).
Local Abbreviation steps := (steps preds slots fail_fast).

Lemma initial_lookup n i s : initial n !! i = Some s → s = Pending ∧ (i < n)%nat.
Proof. unfold initial. by intros [-> ?]%lookup_replicate. Qed.

Lemma length_initial n : length (initial n) = n.
Proof. apply length_replicate. Qed.

Lemma ordered_initial n : ordered preds (initial n).
Proof. by intros i s j [-> _]%initial_lookup. Qed.

Lemma step_ordered c e c' :
  ordered preds (statuses c) → step c e c' → ordered preds (statuses c').
Proof.
  intros Hord Hs i s j Hi Hd Hj. eapply step_finished; [exact Hs|].
  pose proof Hs as (Hsrc & Hg & ->)%step_inv. cbn in Hi. unfold apply_event in Hi.
  apply list_lookup_insert_Some in Hi as [(<- & <- & _)|[_ Hi]];
    [|exact (Hord _ _ _ Hi Hd Hj)].
  unfold guard_in in Hg.
  destruct e; cbn in *; try done; try exact (Hord _ _ _ Hsrc eq_refl Hj).
  rewrite forallb_forall in Hg. by apply Hg, list_elem_of_In.
Qed.

Lemma steps_ordered c es c' :
  ordered preds (statuses c) → steps c es c' → ordered preds (statuses c').
Proof. induction 2; eauto using step_ordered. Qed.

(** What an invocation that is dispatched depends on, however far, is
    finished. *)
Lemma ordered_tc st i s j :
  ordered preds st → st !! i = Some s → dispatched s = true →
  tc (edge preds) j i → is_finished st j = true.
Proof.
  intros Hord Hi Hd Hji. induction Hji as [j i Hji|j y i Hjy _ IH]; [by eapply Hord|].
  specialize (IH Hi). apply is_finished_true in IH as [Hy|Hy]; by apply (Hord y _ j Hy).
Qed.

(** Nothing leaves the running state that was not started. *)
Lemma steps_exit_started n w es c e :
  steps (Config (initial n) w) es c → e ∈ es → source_of e = Running →
  EStart (subject e) ∈ es.
Proof.
  intros Hr (es1 & es2 & ->)%list_elem_of_split Hsrc.
  apply steps_app in Hr as (c1 & H1 & H2).
  inversion H2 as [|? ? ? ? ? Hs _]; subst. apply step_inv in Hs as (Hi & _).
  rewrite Hsrc in Hi.
  destruct (steps_history _ _ _ _ _ _ _ _ H1 Hi) as [[? _]%initial_lookup|(e' & He' & Hsub & Ho)];
    [done|].
  apply elem_of_app. left. by destruct e'; simplify_eq/=.
Qed.

(** A status other than pending is the outcome of an event of the run. *)
Lemma steps_status_event n w es c i s :
  steps (Config (initial n) w) es c → statuses c !! i = Some s → s ≠ Pending →
  ∃ e, e ∈ es ∧ subject e = i ∧ outcome_of e = s.
Proof.
  intros Hr Hi Hs. by destruct (steps_history _ _ _ _ _ _ _ _ Hr Hi) as [[? _]%initial_lookup|?].
Qed.

End ordering.

Section executor.
Context `{Oracle E} (preds : list (list nat)) (slots : nat) (fail_fast : bool).
Implicit Types (c : config E) (s : status) (e : event) (es : list event).

Local Abbreviation enabled_in := (enabled_in preds slots fail_fast).
Local Abbreviation steps := (steps preds slots fail_fast).
Local Abbreviation choose := (choose preds slots fail_fast).
Local Abbreviation run := (run preds slots fail_fast).

Lemma choose_Some c e : choose c = Some e → enabled_in c e = true.
Proof. apply next_Some. Qed.

Lemma choose_None c e : choose c = None → enabled_in c e = false.
Proof. apply next_None. Qed.

Lemma run_steps fuel c es c' : run fuel c = (es, c') → steps c es c'.
Proof.
  revert c es c'. induction fuel as [|fuel IH]; intros c es c' Hr; cbn in Hr.
  { simplify_eq. constructor. }
  destruct (choose c) as [e|] eqn:Ec; [|simplify_eq; constructor].
  destruct (Scheduler.run _ _ _ fuel _) as [es1 c1] eqn:Er. simplify_eq.
  econstructor; [by apply step_event, choose_Some|by apply IH].
Qed.

(** With fuel for the progress that is left the executor runs until no
    event is enabled. *)
Lemma run_quiescent fuel c :
  (budget (length (statuses c)) ≤ fuel + sum_list (progress <$> statuses c))%nat →
  choose (run fuel c).2 = None.
Proof.
  revert c. induction fuel as [|fuel IH]; intros c Hf; cbn [Scheduler.run].
  - destruct (choose c) as [e|] eqn:Ec; [|done].
    apply choose_Some, enabled_in_spec in Ec as [Hsrc _].
    pose proof (progress_insert _ _ _ (outcome_of e) Hsrc).
    pose proof (progress_bound (<[subject e := outcome_of e]> (statuses c))).
    rewrite length_insert in *. pose proof (progress_event e). lia.
  - destruct (choose c) as [e|] eqn:Ec; [|done].
    destruct (Scheduler.run _ _ _ fuel _) as [es1 c1] eqn:Er.
    change c1 with (es1, c1).2. rewrite <-Er. apply IH.
    apply choose_Some, enabled_in_spec in Ec as [Hsrc _].
    cbn [fire statuses]. unfold apply_event.
    pose proof (progress_insert _ _ _ (outcome_of e) Hsrc).
    rewrite length_insert. pose proof (progress_event e). lia.
Qed.

End executor.

Section quiescence.
Context (preds : list (list nat)) (stale aux_ok exit_ok : nat → bool).
Context (slots : nat) (fail_fast : bool).
Implicit Types (st : list status) (s : status) (e : event) (es : list event).

Local Abbreviation enabled := (enabled preds stale aux_ok exit_ok slots fail_fast).
Local Abbreviation dispatchable := (dispatchable slots fail_fast).

Context (st : list status).
Context (Hquiet : ∀ e, enabled st e = false).

Lemma quiescent_no_running i : st !! i ≠ Some Running.
Proof.
  intros Hi%has_status_true.
  pose proof (Hquiet (ESucceed i)) as H1. pose proof (Hquiet (EFail i)) as H2.
  unfold Scheduler.enabled in *. cbn in *. rewrite Hi in *. by destruct (exit_ok i).
Qed.

Context (Hslots : (0 < slots)%nat).
Context (Hgo : fail_fast && any_failed st = false).

Lemma quiescent_no_ready i : st !! i ≠ Some Ready.
Proof.
  induction i as [i IH] using lt_wf_ind. intros Hi%has_status_true.
  assert (dispatchable st i = true) as Hd.
  { unfold Scheduler.dispatchable, may_dispatch.
    rewrite (running_none st quiescent_no_running), Hgo, bool_decide_true by done.
    apply forallb_forall. intros j [_ Hj]%in_seq.
    apply negb_true_iff, has_status_false, IH. lia. }
  pose proof (Hquiet (ESkip i)) as H1. pose proof (Hquiet (EStart i)) as H2.
  pose proof (Hquiet (EAuxFail i)) as H3.
  unfold Scheduler.enabled in *. cbn in *. rewrite Hi, Hd in *.
  by destruct (stale i), (aux_ok i).
Qed.

Context (order : list nat).
Context (Horder : topological preds order).
Context (Hlen : length st = length preds).

Lemma quiescent_no_pending k i : order !! k = Some i → st !! i ≠ Some Pending.
Proof.
  revert i. induction k as [k IH] using lt_wf_ind. intros i Hk Hi.
  destruct Horder as [_ Hord]. destruct (Hord k i Hk) as [_ Hpre].
  pose proof (Hquiet (EReady i)) as H1. pose proof (Hquiet (ECascade i)) as H2.
  unfold Scheduler.enabled in *. cbn in *.
  rewrite (proj2 (has_status_true _ _ _) Hi) in *. cbn in *.
  enough (forallb (is_finished st) (preds !!! i) = true) by congruence.
  apply forallb_forall. intros j Hj%list_elem_of_In.
  destruct (Hpre j Hj) as (k' & Hlt & Hk').
  pose proof (IH k' Hlt j Hk') as Hp.
  pose proof (quiescent_no_ready j) as Hr. pose proof (quiescent_no_running j) as Hn.
  assert (st !! j ≠ Some Failed) as Hf.
  { intros Hf%has_status_true.
    enough (existsb (has_status st Failed) (preds !!! i) = true) by congruence.
    apply existsb_exists. exists j. by split; [apply list_elem_of_In|]. }
  destruct (Hord k' j Hk') as [Hj' _].
  destruct (lookup_lt_is_Some_2 st j) as [s Hs]; [lia|].
  apply is_finished_true. rewrite Hs in *. destruct s; auto; done.
Qed.

(** When the executor stops with work left to dispatch allowed, every
    invocation of the order has reached its last status. *)
Lemma quiescent_terminal i s :
  i ∈ order → st !! i = Some s → terminal s = true.
Proof.
  intros [k Hk]%list_elem_of_lookup_1 Hs.
  pose proof (quiescent_no_pending k i Hk). pose proof (quiescent_no_ready i).
  pose proof (quiescent_no_running i). rewrite Hs in *. destruct s; auto; done.
Qed.

End quiescence.
Section runs.
Context `{Oracle E} (slots : nat) (fail_fast : bool).
Implicit Types (invs : list Invocation.t) (g : graph) (w : E).
Implicit Types (c : config E) (s : status) (e : event) (es : list event).

Local Abbreviation enabled_in g := (enabled_in (preds g) slots fail_fast).
Local Abbreviation step g := (step (preds g) slots fail_fast).
Local Abbreviation steps g := (steps (preds g) slots fail_fast).
Local Abbreviation schedule := (schedule slots fail_fast).

Lemma outcome_finished e :
  finished (outcome_of e) = true → e = ESucceed (subject e) ∨ e = ESkip (subject e).
Proof. destruct e; cbn; auto; done. Qed.

(** When an invocation starts, all that it depends on has finished:
    then, and at the end of the run. *)
Lemma start_finished g c0 es1 i es2 c j :
  ordered (preds g) (statuses c0) → steps g c0 (es1 ++ EStart i :: es2) c →
  tc (edge (preds g)) j i →
  ∃ c1, steps g c0 es1 c1 ∧ is_finished (statuses c1) j = true
    ∧ is_finished (statuses c) j = true.
Proof.
  intros Hord (c1 & H1 & H2)%steps_app Hji. exists c1. split; [done|].
  assert (is_finished (statuses c1) j = true) as Hf.
  { inversion H2 as [|? ? ? ? ? Hs _]; subst. apply step_inv in Hs as (Hi & _).
    eapply ordered_tc; [by eapply steps_ordered|exact Hi|done|done]. }
  split; [done|]. by eapply steps_finished.
Qed.

(** The executor's run of a list of invocations is a run of the machine
    on the graph of the list, from all pending to a state with no event
    enabled. *)
Lemma schedule_run invs w es c :
  schedule invs w = inr (es, c) →
  ∃ g, build invs = inr g
    ∧ steps g (Config (initial (length invs)) w) es c
    ∧ (∀ e, enabled_in g c e = false)
    ∧ length (statuses c) = length invs.
Proof.
  unfold Scheduler.schedule. destruct (build invs) as [|g] eqn:Eb; [done|].
  intros [= Hr]. exists g. pose proof (run_steps _ _ _ _ _ _ _ Hr) as Hs.
  split_and!; [done|done| |by rewrite (steps_length _ _ _ _ _ _ Hs); apply length_initial].
  intros e. apply choose_None. change c with (es, c).2. rewrite <-Hr.
  apply run_quiescent. cbn [statuses]. rewrite length_initial. lia.
Qed.

(** A state of a constructed graph in which no event is enabled, with a
    worker and without a fail-fast stop: every invocation has its last
    status. *)
Lemma quiescent_all_terminal invs g c :
  build invs = inr g → length (statuses c) = length invs →
  (∀ e, enabled_in g c e = false) →
  (0 < slots)%nat → fail_fast && any_failed (statuses c) = false →
  Forall (λ s, terminal s = true) (statuses c).
Proof.
  intros Hb Hlen Hq Hslots Hgo. apply Forall_lookup. intros i s Hi.
  destruct (build_Some _ _ Hb) as (m & _ & _ & _ & Hlp & Hlo & Ht).
  eapply (quiescent_terminal _ _ _ _ _ _ _ Hq Hslots Hgo _ Ht); [congruence| |done].
  apply (topological_full _ _ _ Ht); [congruence|]. apply lookup_lt_Some in Hi. lia.
Qed.

(** When the scheduler stops with a worker and without a fail-fast stop,
    every invocation has its last status. *)
Lemma schedule_terminal invs w es c :
  schedule invs w = inr (es, c) →
  (0 < slots)%nat → fail_fast && any_failed (statuses c) = false →
  Forall (λ s, terminal s = true) (statuses c).
Proof.
  intros (g & Hb & Hs & Hq & Hlen)%schedule_run. by eapply quiescent_all_terminal.
Qed.

(** The executor brings every state to one in which no event is
    enabled, by a run of the machine. *)
Lemma run_to_quiescence g c :
  ∃ es c', steps g c es c' ∧ (∀ e, enabled_in g c' e = false)
    ∧ length (statuses c') = length (statuses c).
Proof.
  destruct (run (preds g) slots fail_fast (budget (length (statuses c))) c)
    as [es c'] eqn:Hr.
  pose proof (run_steps _ _ _ _ _ _ _ Hr) as Hs. exists es, c'.
  split_and!; [done| |by eapply steps_length].
  intros e. apply choose_None. change c' with (es, c').2. rewrite <-Hr.
  apply run_quiescent. lia.
Qed.

(** While nothing is stale nothing runs, and the world stays as it is. *)
Lemma step_calm g c e c' :
  (∀ i, is_stale (env c) i = false) → Forall (λ s, calm s = true) (statuses c) →
  step g c e c' →
  Forall (λ s, calm s = true) (statuses c') ∧ env c' = env c
  ∧ (e = EReady (subject e) ∨ e = ESkip (subject e)).
Proof.
  intros Hst Hc Hs. pose proof Hs as (Hsrc & Hg & ->)%step_inv.
  pose proof (Forall_lookup_1 _ _ _ _ Hc Hsrc) as Hcs. unfold guard_in in Hg.
  destruct e; cbn in *; try done; rewrite ?Hst, ?andb_false_r in Hg; try done.
  1,2: split_and!; [by apply Forall_insert|by apply effect_idle|auto].
  apply existsb_exists in Hg as (j & _ & Hj%has_status_true).
  by pose proof (Forall_lookup_1 _ _ _ _ Hc Hj).
Qed.

Lemma steps_calm g c es c' :
  (∀ i, is_stale (env c) i = false) → Forall (λ s, calm s = true) (statuses c) →
  steps g c es c' →
  Forall (λ s, calm s = true) (statuses c') ∧ env c' = env c
  ∧ Forall (λ e, e = EReady (subject e) ∨ e = ESkip (subject e)) es.
Proof.
  intros Hst Hc Hr. induction Hr as [|c e c1 es c' Hs _ IH]; [by split_and!|].
  destruct (step_calm _ _ _ _ Hst Hc Hs) as (Hc1 & He1 & He).
  destruct IH as (? & ? & ?); [by rewrite He1|done|].
  split_and!; [done|congruence|by constructor].
Qed.

End runs.

Section scheduler_claims.
Context `{Oracle E} (slots : nat) (fail_fast : bool).
Implicit Types (invs : list Invocation.t) (g : graph) (w : E).
Implicit Types (c : config E) (s : status) (e : event) (es : list event).

Local Abbreviation enabled_in g := (enabled_in (preds g) slots fail_fast).
Local Abbreviation steps g := (steps (preds g) slots fail_fast).
Local Abbreviation schedule := (schedule slots fail_fast).
Local Abbreviation start invs w := (Config (initial (length invs)) w).

Lemma build_tc_edge invs g j i :
  build invs = inr g → tc (depends invs) j i → tc (edge (preds g)) j i.
Proof.
  intros (m & Eb & _ & -> & _)%build_Some. by apply depends_tc_edge.
Qed.

(** C5.  In every run of the machine on a constructed graph, when an
    invocation starts, each invocation it depends on, directly or through
    others, has succeeded or been skipped earlier in the run, and is still
    finished at the end. *)
Theorem start_after_predecessors invs g w es1 i es2 c j :
  build invs = inr g →
  steps g (start invs w) (es1 ++ EStart i :: es2) c →
  tc (depends invs) j i →
  (ESucceed j ∈ es1 ∨ ESkip j ∈ es1) ∧ is_finished (statuses c) j = true.
Proof.
  intros Hb Hs Hji%(build_tc_edge _ _ _ _ Hb).
  destruct (start_finished _ _ g (start invs w) _ _ _ _ _ (ordered_initial _ _) Hs Hji)
    as (c1 & H1 & Hf1 & Hf). split; [|done].
  apply is_finished_true in Hf1.
  assert (∃ s, statuses c1 !! j = Some s ∧ finished s = true) as (s & Hj & Hfin)
    by (destruct Hf1; eauto).
  destruct (steps_history _ _ _ _ _ _ _ _ H1 Hj) as [[-> _]%initial_lookup|He]; [done|].
  destruct He as (e & He & <- & <-). by destruct (outcome_finished e Hfin) as [<-|<-]; auto.
Qed.

(** C8.  In every run of the machine on a constructed graph no event
    happens twice: an invocation is made ready, started, skipped and
    finished at most once, and the run has at most three events for each
    invocation. *)
Theorem events_at_most_once invs g w es c :
  build invs = inr g →
  steps g (start invs w) es c →
  NoDup es ∧ (length es ≤ budget (length invs))%nat.
Proof.
  intros _ Hs. split; [by eapply steps_NoDup|].
  pose proof (steps_budget _ _ _ _ _ _ Hs).
  pose proof (progress_bound (statuses c)) as Hb.
  rewrite (steps_length _ _ _ _ _ _ Hs) in Hb. cbn [statuses] in *.
  rewrite length_initial in Hb. lia.
Qed.

(** In every run of the machine on a constructed graph the number of
    running invocations never exceeds the number of workers. *)
Theorem running_within_slots invs g w es c :
  build invs = inr g →
  steps g (start invs w) es c →
  (running (statuses c) ≤ slots)%nat.
Proof.
  intros _ Hs. eapply steps_running; [done|]. cbn [statuses].
  rewrite (running_none (initial _)); [lia|]. by intros i [? _]%initial_lookup.
Qed.

(** C19.  When an invocation has failed, an invocation that depends on it,
    directly or through others, never starts, and the only last status it
    can have is Failed. *)
Theorem failure_cascades invs g w es c j i :
  build invs = inr g →
  steps g (start invs w) es c →
  statuses c !! j = Some Failed → tc (depends invs) j i →
  (EStart i ∉ es) ∧ ∀ s, statuses c !! i = Some s → terminal s = true → s = Failed.
Proof.
  intros Hb Hs Hj Hji%(build_tc_edge _ _ _ _ Hb).
  assert (is_finished (statuses c) j = false) as Hnf by by (unfold is_finished; rewrite Hj).
  split.
  - intros (es1 & es2 & ->)%list_elem_of_split.
    destruct (start_finished _ _ g (start invs w) _ _ _ _ _ (ordered_initial _ _) Hs Hji)
      as (_ & _ & _ & Hf). congruence.
  - intros s Hi Ht. destruct (decide (s = Failed)) as [|Hne]; [done|].
    assert (is_finished (statuses c) j = true); [|congruence].
    eapply ordered_tc; [|done| |done]; [|by destruct s].
    eapply steps_ordered; [|done]. apply ordered_initial.
Qed.

(** C16.  The scheduler always comes to an end: its run is a run of the
    machine on the constructed graph, no invocation is left running, and
    when a worker exists and fail-fast has not stopped the build every
    invocation has succeeded, failed or been skipped. *)
Theorem schedule_completes invs w es c :
  schedule invs w = inr (es, c) →
  (∃ g, build invs = inr g ∧ steps g (start invs w) es c)
  ∧ running (statuses c) = 0%nat
  ∧ ((0 < slots)%nat → fail_fast && any_failed (statuses c) = false →
     Forall (λ s, terminal s = true) (statuses c)).
Proof.
  intros Hr. pose proof Hr as (g & Hb & Hs & Hq & Hlen)%schedule_run.
  split; [by exists g|]. split; [by eapply running_none, quiescent_no_running|].
  by eapply schedule_terminal.
Qed.

(** C15.  No run gets stuck: every run of the machine on a constructed graph,
    whatever the order of its events, can be continued to a state in
    which no invocation is running and, when a worker exists and
    fail-fast has not stopped the build, every invocation has succeeded,
    failed or been skipped. *)
Theorem every_run_completes invs g w es c :
  build invs = inr g → steps g (start invs w) es c →
  ∃ es' c', steps g c es' c'
    ∧ running (statuses c') = 0%nat
    ∧ ((0 < slots)%nat → fail_fast && any_failed (statuses c') = false →
       Forall (λ s, terminal s = true) (statuses c')).
Proof.
  intros Hb Hs. destruct (run_to_quiescence slots fail_fast g c) as (es' & c' & Hs' & Hq & Hlen).
  exists es', c'. split; [done|]. split; [by eapply running_none, quiescent_no_running|].
  intros Hslots Hgo. eapply quiescent_all_terminal; [done| |done..].
  rewrite Hlen, (steps_length _ _ _ _ _ _ Hs). apply length_initial.
Qed.

(** A build in which nothing is stale runs nothing: the scheduler
    skips every invocation, no invocation is started, and the world is
    left as it was. *)
Theorem schedule_up_to_date_skips invs w es c :
  (∀ i, is_stale w i = false) → (0 < slots)%nat →
  schedule invs w = inr (es, c) →
  c = Config (replicate (length invs) Skipped) w ∧ ∀ i, EStart i ∉ es.
Proof.
  intros Hst Hslots Hr. pose proof (schedule_terminal _ _ _ _ _ _ Hr Hslots) as Hterm.
  destruct (schedule_run _ _ _ _ _ _ Hr) as (g & Hb & Hs & _).
  destruct (steps_calm _ _ _ (start invs w) _ _ Hst (Forall_replicate _ _ Pending eq_refl) Hs)
    as (Hc & Hw & He).
  split; [|intros i Hi; by destruct (proj1 (Forall_forall _ _) He _ Hi)].
  destruct c as [st w']. cbn in Hw. subst w'. f_equal. cbn in *.
  symmetry. apply replicate_as_Forall_2.
  { apply steps_length in Hs. cbn in Hs. by rewrite length_initial in Hs. }
  assert (any_failed st = false) as Hnf.
  { apply bool_decide_eq_false. intros Hf. by apply (proj1 (Forall_forall _ _) Hc) in Hf. }
  rewrite Hnf, andb_false_r in Hterm. specialize (Hterm eq_refl).
  apply Forall_lookup. intros i s Hi.
  pose proof (Forall_lookup_1 _ _ _ _ Hc Hi). pose proof (Forall_lookup_1 _ _ _ _ Hterm Hi).
  by destruct s.
Qed.

(** At any moment at most one dispatch is possible: of the ready
    invocations only the first of the list can be skipped, started or
    failed for its auxiliary files, and which of the three is decided by
    its staleness and its auxiliary files. *)
Theorem dispatch_deterministic invs g c e1 e2 :
  build invs = inr g →
  enabled_in g c e1 = true → enabled_in g c e2 = true →
  source_of e1 = Ready → source_of e2 = Ready → e1 = e2.
Proof.
  intros _ [H1 G1]%enabled_in_spec [H2 G2]%enabled_in_spec S1 S2.
  assert (subject e1 = subject e2) as Hsub.
  { pose proof (proj1 (forallb_forall _ _) (guard_first _ _ _ _ _ _ _ _ S1 G1)) as L1.
    pose proof (proj1 (forallb_forall _ _) (guard_first _ _ _ _ _ _ _ _ S2 G2)) as L2.
    rewrite S1 in H1. rewrite S2 in H2. apply has_status_true in H1, H2.
    destruct (lt_eq_lt_dec (subject e1) (subject e2)) as [[Hlt| ->]|Hlt]; [|done|].
    - assert (negb (has_status (statuses c) Ready (subject e1)) = true) as L
        by (apply (L2 (subject e1)), in_seq; lia).
      by rewrite H1 in L.
    - assert (negb (has_status (statuses c) Ready (subject e2)) = true) as L
        by (apply (L1 (subject e2)), in_seq; lia).
      by rewrite H2 in L. }
  unfold guard_in in *.
  destruct e1, e2; cbn in *; try done; subst; try done;
    rewrite !andb_true_iff in *;
    destruct (is_stale _ _), (materializes _ _); cbn in *; intuition done.
Qed.

End scheduler_claims.

Section scheduler_scenarios.

Local Abbreviation demo_world := (fixed always always link_fails).
Local Abbreviation demo_start := (Config (initial (length demo_invocations)) tt).
Local Abbreviation demo_end := (Config demo_statuses tt).

Lemma demo_steps :
  @steps unit demo_world (preds demo_graph) 2 false demo_start demo_events demo_end.
Proof. apply (run_steps _ _ _ (budget 4)). vm_compute. reflexivity. Defined.

Lemma start_after_predecessors_witness :
  (ESucceed 0 ∈ [EReady 0; EReady 2; EStart 0; EStart 2; ESucceed 0; EReady 1]%nat
   ∨ ESkip 0 ∈ [EReady 0; EReady 2; EStart 0; EStart 2; ESucceed 0; EReady 1]%nat)
  ∧ is_finished demo_statuses 0 = true.
Proof.
  apply (@start_after_predecessors unit demo_world 2 false
           demo_invocations demo_graph tt _ 1 [ESucceed 2; EFail 1; ECascade 3]%nat demo_end);
    [exact demo_build|exact demo_steps|exact (tc_once _ _ _ demo_depends_link)].
Defined.

Lemma events_at_most_once_witness :
  NoDup demo_events ∧ (length demo_events ≤ budget (length demo_invocations))%nat.
Proof.
  apply (@events_at_most_once unit demo_world 2 false
           demo_invocations demo_graph tt demo_events demo_end demo_build demo_steps).
Defined.

Lemma running_within_slots_witness : (running demo_statuses ≤ 2)%nat.
Proof.
  apply (@running_within_slots unit demo_world 2 false
           demo_invocations demo_graph tt demo_events demo_end demo_build demo_steps).
Defined.

Lemma failure_cascades_witness :
  (EStart 3 ∉ demo_events)
  ∧ ∀ s, demo_statuses !! 3%nat = Some s → terminal s = true → s = Failed.
Proof.
  apply (@failure_cascades unit demo_world 2 false
           demo_invocations demo_graph tt demo_events demo_end 1 3
           demo_build demo_steps eq_refl (tc_once _ _ _ demo_depends_strip)).
Defined.

Lemma schedule_completes_witness :
  (∃ g, build demo_invocations = inr g
     ∧ @steps unit demo_world (preds g) 2 false demo_start demo_events demo_end)
  ∧ running demo_statuses = 0%nat
  ∧ ((0 < 2)%nat → false && any_failed demo_statuses = false →
     Forall (λ s, terminal s = true) demo_statuses).
Proof.
  apply (@schedule_completes unit demo_world 2 false demo_invocations tt demo_events demo_end).
  vm_compute. reflexivity.
Defined.

Lemma every_run_completes_witness :
  ∃ es' c', @steps unit demo_world (preds demo_graph) 2 false
              (Config [Ready; Pending; Ready; Pending] tt) es' c'
    ∧ running (statuses c') = 0%nat
    ∧ ((0 < 2)%nat → false && any_failed (statuses c') = false →
       Forall (λ s, terminal s = true) (statuses c')).
Proof.
  apply (@every_run_completes unit demo_world 2 false demo_invocations demo_graph tt
           [EReady 0; EReady 2]%nat _ demo_build).
  apply (run_steps _ _ _ 2). vm_compute. reflexivity.
Defined.

Lemma schedule_up_to_date_skips_witness :
  Config [Skipped; Skipped; Skipped; Skipped] tt
  = Config (replicate (length demo_invocations) Skipped) tt
  ∧ ∀ i, EStart i ∉
      [EReady 0; EReady 2; ESkip 0; EReady 1; ESkip 1; EReady 3; ESkip 2; ESkip 3]%nat.
Proof.
  apply (@schedule_up_to_date_skips unit (fixed never always link_fails) 2 false
           demo_invocations tt);
    [reflexivity|lia|vm_compute; reflexivity].
Defined.

Lemma dispatch_deterministic_witness : EStart 1 = EStart 1.
Proof.
  apply (@dispatch_deterministic unit demo_world 2 false demo_invocations
           demo_graph (Config [Succeeded; Ready; Ready; Pending] tt) (EStart 1) (EStart 1));
    (exact demo_build || reflexivity).
Defined.

End scheduler_scenarios.
