(* ===== verification/Staleness.v ===== *)
(** * The staleness detector

    The decision whether an invocation has to run again (section 4.4 of
    the specification).  No code of the detector is among the sources: the
    definitions follow the specification.  What comes from the sources is
    the invocation, [Invocation.t] with its accessors.

    [DefaultFilesystem] has no call that returns a modification time, so
    the file system is seen through a parameter [stat], which gives the
    modification time of a path that exists and nothing for one that does
    not.  The prior state maps the outputs of an invocation to what was
    recorded when it last ran: its description and the inputs it
    reported. *)

From Stdlib Require Import ZArith Lia.
From stdpp Require Import gmap strings list.
From S2P Require Import Prelude Invocation.

#[local] Set Warnings "-clear-no-such-hyp".

Open Scope Z_scope.

(** ** The prior state *)

(** What a change of makes an invocation stale though no file changed. *)
Record description : Type := Description {
  d_executable : option Executable.t;
  d_arguments : list string;
  d_environment : gmap string string;
  d_workingDirectory : string;
}.

#[global] Instance description_eq_dec : EqDecision description.
Proof. solve_decision. Defined.

Definition describe (inv : Invocation.t) : description :=
  Description (Invocation.executable inv) (Invocation.arguments inv)
    (Invocation.environment inv) (Invocation.workingDirectory inv).

Record recorded : Type := Recorded {
  r_description : description;
  r_inputs : gset string;       (* the inputs the tool reported *)
}.

(** The prior state: what was recorded, by the outputs of the invocation. *)
Abbreviation PriorState := (gmap (list string) recorded).

(** ** The decision *)

Section detector.
(** The modification time of a path, if the path exists. *)
Context (stat : string → option Z).

Definition missing (path : string) : bool := bool_decide (stat path = None).

(** The modification time of the oldest of the paths that exist. *)
Fixpoint oldest (paths : list string) : option Z :=
  match paths with
  | [] => None
  | path :: paths' =>
    match stat path, oldest paths' with
    | Some t, Some t' => Some (Z.min t t')
    | Some t, None => Some t
    | None, r => r
    end
  end.

(** [path] exists and was modified after [t]. *)
Definition newer (t : Z) (path : string) : bool :=
  match stat path with
  | Some t' => bool_decide (t < t')
  | None => false
  end.

(** The inputs the tool reported when the invocation last ran. *)
Definition discovered (inv : Invocation.t) (prior : PriorState) : list string :=
  match prior !! Invocation.outputs inv with
  | Some r => elements (r_inputs r)
  | None => []
  end.

(** The paths whose modification makes the invocation stale. *)
Definition watched (inv : Invocation.t) (prior : PriorState) : list string :=
  Invocation.inputs inv ++ Invocation.inputDependencies inv
  ++ Invocation.phonyInputs inv ++ discovered inv prior.

Definition IsStale (inv : Invocation.t) (prior : PriorState) : bool :=
  if existsb missing (Invocation.outputs inv) then true
  else if match oldest (Invocation.outputs inv) with
          | Some t => existsb (newer t) (watched inv prior)
          | None => false
          end then true
  else
    match prior !! Invocation.outputs inv with
    | Some r => negb (bool_decide (r_description r = describe inv))
    | None => true
    end.

(** The detector as the scheduler consults it. *)
Definition stale_of (invs : list Invocation.t) (prior : PriorState) (i : nat) : bool :=
  from_option (λ inv, IsStale inv prior) false (invs !! i).

End detector.

(** The modification times after the [paths] were written at [now]. *)
Definition touch (stat : string → option Z) (paths : list string) (now : Z)
  : string → option Z :=
  λ path, if bool_decide (path ∈ paths) then Some now else stat path.

(** Nothing has changed since the invocation ran: its description is the
    recorded one, its outputs exist, and no watched path is newer than an
    output. *)
Definition up_to_date (stat : string → option Z) (prior : PriorState) (inv : Invocation.t)
  : Prop :=
  ∃ r, prior !! Invocation.outputs inv = Some r ∧ r_description r = describe inv
    ∧ (∀ o, o ∈ Invocation.outputs inv → is_Some (stat o))
    ∧ (∀ x o tx to, x ∈ watched inv prior → o ∈ Invocation.outputs inv →
         stat x = Some tx → stat o = Some to → tx ≤ to).

(** ** Scenario

    One invocation that makes [a.o] of [a.c] and [a.h], at three moments:
    before it has run, after it has run, and after [a.h] was touched. *)

Definition scenario_before (path : string) : option Z :=
  if decide (path = "a.h") then Some 10
  else if decide (path = "a.c") then Some 10
  else None.

Definition scenario_after (path : string) : option Z :=
  if decide (path = "a.o") then Some 20 else scenario_before path.

Definition scenario_touched (path : string) : option Z :=
  if decide (path = "a.h") then Some 30 else scenario_after path.

Definition scenario_recorded : PriorState :=
  {[ ["a.o"] := Recorded (describe scenario_X) {["a.c"]} ]}.

(** * Theorems *)

Section decision.
Context (stat : string → option Z).
Implicit Types (inv : Invocation.t) (prior : PriorState) (path o x : string).

Lemma missing_true path : missing stat path = true ↔ stat path = None.
Proof. apply bool_decide_eq_true. Qed.

(** The oldest time is the time of one of the paths and not after the
    time of any. *)
Lemma oldest_le paths o t :
  o ∈ paths → stat o = Some t → ∃ t0, oldest stat paths = Some t0 ∧ t0 ≤ t.
Proof.
  induction paths as [|path paths IH]; intros Ho Ht; [by apply elem_of_nil in Ho|].
  apply elem_of_cons in Ho as [<-|Ho]; cbn.
  - rewrite Ht. destruct (oldest stat paths); eexists; (split; [done|lia]).
  - destruct (IH Ho Ht) as (t0 & -> & ?).
    destruct (stat path); eexists; (split; [done|lia]).
Qed.

Lemma oldest_attained paths t0 :
  oldest stat paths = Some t0 → ∃ o, o ∈ paths ∧ stat o = Some t0.
Proof.
  revert t0. induction paths as [|path paths IH]; intros t0; cbn; [done|].
  destruct (stat path) as [t|] eqn:E, (oldest stat paths) as [t'|]; intros [= <-].
  - destruct (Z.min_spec t t') as [[_ ->]|[_ ->]].
    + exists path. by split; [left|].
    + destruct (IH _ eq_refl) as (o & ? & ?). exists o. by split; [right|].
  - exists path. by split; [left|].
  - destruct (IH _ eq_refl) as (o & ? & ?). exists o. by split; [right|].
Qed.

Lemma existsb_missing paths :
  existsb (missing stat) paths = false ↔ ∀ o, o ∈ paths → is_Some (stat o).
Proof.
  rewrite <-not_true_iff_false, existsb_exists. split.
  - intros H o Ho. destruct (stat o) eqn:E; [done|]. destruct H. exists o.
    by rewrite <-list_elem_of_In, missing_true.
  - intros H (o & Ho%list_elem_of_In & Hm%missing_true). destruct (H o Ho). congruence.
Qed.

Lemma newer_true t path : newer stat t path = true ↔ ∃ t', stat path = Some t' ∧ t < t'.
Proof.
  unfold newer. destruct (stat path) as [t'|]; [|by split; [|intros (? & ? & ?)]].
  rewrite bool_decide_eq_true. split; [eauto|]. by intros (? & [= <-] & ?).
Qed.

Lemma newer_absent t path : stat path = None → newer stat t path = false.
Proof. unfold newer. by intros ->. Qed.

(** The three rules in the order the detector tries them. *)
Lemma IsStale_rules inv prior :
  IsStale stat inv prior =
    if existsb (missing stat) (Invocation.outputs inv) then true
    else if from_option (λ t, existsb (newer stat t) (watched inv prior)) false
              (oldest stat (Invocation.outputs inv)) then true
    else from_option (λ r, negb (bool_decide (r_description r = describe inv))) true
           (prior !! Invocation.outputs inv).
Proof.
  unfold IsStale. destruct (existsb _ _); [done|].
  destruct (oldest stat _); cbn; [destruct (existsb _ _); [done|]|];
    by destruct (prior !! _).
Qed.

(** An output that does not exist makes the invocation stale. *)
Theorem IsStale_missing_output inv prior o :
  o ∈ Invocation.outputs inv → stat o = None → IsStale stat inv prior = true.
Proof.
  intros Ho Hs. rewrite IsStale_rules.
  assert (existsb (missing stat) (Invocation.outputs inv) = true) as ->; [|done].
  apply existsb_exists. exists o. by rewrite <-list_elem_of_In, missing_true.
Qed.

(** A watched path that is newer than an output makes the invocation
    stale. *)
Theorem IsStale_newer_input inv prior x o tx to :
  x ∈ watched inv prior → o ∈ Invocation.outputs inv →
  stat x = Some tx → stat o = Some to → to < tx →
  IsStale stat inv prior = true.
Proof.
  intros Hx Ho Htx Hto Hlt. rewrite IsStale_rules.
  destruct (existsb (missing stat) _); [done|].
  destruct (oldest_le _ _ _ Ho Hto) as (t0 & -> & ?). cbn.
  assert (existsb (newer stat t0) (watched inv prior) = true) as ->; [|done].
  apply existsb_exists. exists x. rewrite <-list_elem_of_In, newer_true.
  split; [done|]. exists tx. split; [done|lia].
Qed.

(** A description that differs from the recorded one makes the
    invocation stale, and so does the lack of a record. *)
Theorem IsStale_description_changed inv prior :
  (∀ r, prior !! Invocation.outputs inv = Some r → r_description r ≠ describe inv) →
  IsStale stat inv prior = true.
Proof.
  intros H. rewrite IsStale_rules. destruct (existsb _ _); [done|].
  destruct (from_option _ _ (oldest _ _)); [done|].
  destruct (prior !! _) as [r|]; [|done]. cbn.
  by rewrite bool_decide_eq_false_2 by by apply H.
Qed.

(** A stale invocation is stale by one of the three rules. *)
Lemma IsStale_true_cases inv prior :
  IsStale stat inv prior = true →
  (∃ o, o ∈ Invocation.outputs inv ∧ stat o = None)
  ∨ (∃ x o tx to, x ∈ watched inv prior ∧ o ∈ Invocation.outputs inv
       ∧ stat x = Some tx ∧ stat o = Some to ∧ to < tx)
  ∨ (∀ r, prior !! Invocation.outputs inv = Some r → r_description r ≠ describe inv).
Proof.
  rewrite IsStale_rules. destruct (existsb (missing stat) _) eqn:Em.
  { apply existsb_exists in Em as (o & Ho%list_elem_of_In & Hm%missing_true). eauto. }
  destruct (oldest stat _) as [t0|] eqn:Eo; cbn;
    [destruct (existsb (newer stat t0) _) eqn:En|].
  - apply existsb_exists in En as (x & Hx%list_elem_of_In & (tx & ? & ?)%newer_true).
    destruct (oldest_attained _ _ Eo) as (o & ? & ?). right. left. by exists x, o, tx, t0.
  - destruct (prior !! _) as [r|]; cbn; [|by intros; right; right].
    intros Hd%negb_true_iff%bool_decide_eq_false. right. right. by intros ? [= <-].
  - destruct (prior !! _) as [r|]; cbn; [|by intros; right; right].
    intros Hd%negb_true_iff%bool_decide_eq_false. right. right. by intros ? [= <-].
Qed.

(** An invocation whose outputs all exist and are not older than any
    watched path, and whose description is the recorded one, is not
    stale. *)
Theorem IsStale_up_to_date inv prior :
  up_to_date stat prior inv → IsStale stat inv prior = false.
Proof.
  intros (r & Hr & Hd & Hout & Hold). rewrite IsStale_rules.
  rewrite (proj2 (existsb_missing _) Hout), Hr. cbn.
  rewrite bool_decide_eq_true_2 by done.
  destruct (oldest stat _) as [t0|] eqn:E; [cbn|done].
  destruct (oldest_attained _ _ E) as (o & Ho & Hto).
  enough (existsb (newer stat t0) (watched inv prior) = false) as -> by done.
  apply not_true_iff_false.
  intros (x & Hx%list_elem_of_In & (tx & Htx & ?)%newer_true)%existsb_exists.
  pose proof (Hold x o tx t0 Hx Ho Htx Hto). lia.
Qed.

(** An invocation that is not stale is up to date: the three rules
    leave nothing else. *)
Theorem IsStale_false_up_to_date inv prior :
  IsStale stat inv prior = false → up_to_date stat prior inv.
Proof.
  rewrite IsStale_rules.
  destruct (existsb (missing stat) _) eqn:Em; [done|].
  destruct (from_option _ false (oldest stat _)) eqn:En; [done|].
  destruct (prior !! Invocation.outputs inv) as [r|] eqn:Er; [cbn|done].
  intros Hd%negb_false_iff%bool_decide_eq_true. exists r. split_and!; [done|done| |].
  - by apply existsb_missing.
  - intros x o tx to Hx Ho Htx Hto. destruct (oldest_le _ _ _ Ho Hto) as (t0 & E0 & ?).
    rewrite E0 in En. cbn in En. destruct (decide (tx ≤ to)) as [|Hlt]; [done|].
    enough (existsb (newer stat t0) (watched inv prior) = true) by congruence.
    apply existsb_exists. exists x. rewrite <-list_elem_of_In, newer_true.
    split; [done|]. exists tx. split; [done|lia].
Qed.

(** Order dependencies have no part in staleness. *)
Theorem IsStale_order_dependencies inv prior v :
  IsStale stat (Invocation.set Invocation.F_orderDependencies v inv) prior
  = IsStale stat inv prior.
Proof. by destruct inv. Qed.

(** A phony input that does not exist has no part in staleness. *)
Theorem IsStale_phony_absent inv prior x :
  stat x = None →
  IsStale stat
    (Invocation.set Invocation.F_phonyInputs (x :: Invocation.phonyInputs inv) inv) prior
  = IsStale stat inv prior.
Proof.
  intros Hx. rewrite !IsStale_rules. destruct inv as [? ? ? ? ins outs ph deps ? ? ? ? ? ?].
  cbn. destruct (existsb _ outs); [done|]. destruct (oldest stat outs) as [t|]; [cbn|done].
  unfold watched, discovered, describe. cbn. rewrite !existsb_app. cbn [existsb].
  rewrite (newer_absent t x Hx). cbn [orb]. by rewrite existsb_app.
Qed.

End decision.

Section changes.
Context (stat : string → option Z).
Implicit Types (inv : Invocation.t) (prior : PriorState) (path o x : string).

(** A watched path written later than an output that is not written
    makes the invocation stale. *)
Lemma touch_newer inv prior touched now x o :
  (∀ path t, stat path = Some t → t < now) →
  x ∈ touched → x ∈ watched inv prior →
  o ∈ Invocation.outputs inv → o ∉ touched →
  IsStale (touch stat touched now) inv prior = true.
Proof.
  intros Hnow Hx Hw Ho Hout.
  assert (touch stat touched now o = stat o) as Hto
    by (unfold touch; by rewrite bool_decide_eq_false_2).
  destruct (stat o) as [t|] eqn:Es.
  - apply (IsStale_newer_input _ _ _ x o now t); try done.
    + unfold touch. by rewrite bool_decide_eq_true_2.
    + by eapply Hnow.
  - by apply (IsStale_missing_output _ _ _ o).
Qed.

(** A stale invocation stays stale when paths that are not its outputs
    are written. *)
Lemma touch_persists inv prior touched now :
  (∀ path t, stat path = Some t → t < now) →
  (∀ o, o ∈ Invocation.outputs inv → o ∉ touched) →
  IsStale stat inv prior = true → IsStale (touch stat touched now) inv prior = true.
Proof.
  intros Hnow Hout Hst. apply IsStale_true_cases in Hst
    as [(o & Ho & Hm)|[(x & o & tx & to & Hx & Ho & Htx & Hto & Hlt)|Hd]].
  - apply (IsStale_missing_output _ _ _ o); [done|].
    unfold touch. by rewrite bool_decide_eq_false_2 by by apply Hout.
  - destruct (decide (x ∈ touched)) as [Hin|Hin]; [apply (touch_newer _ _ _ _ x o); auto|].
    apply (IsStale_newer_input _ _ _ x o tx to); try done;
      unfold touch; by rewrite bool_decide_eq_false_2 by auto.
  - by apply IsStale_description_changed.
Qed.

(** C30.  After some paths were written, later than every time the file
    system holds, every invocation that watches one of them and has
    outputs, none of them among the written paths, is stale: the
    invocation whose input was touched, and each invocation that consumes
    an output of one that ran again. *)
Theorem IsStale_touched inv prior touched now x :
  (∀ path t, stat path = Some t → t < now) →
  x ∈ touched → x ∈ watched inv prior →
  Invocation.outputs inv ≠ [] →
  (∀ o, o ∈ Invocation.outputs inv → o ∉ touched) →
  IsStale (touch stat touched now) inv prior = true.
Proof.
  intros Hnow Hx Hw Hne Hout.
  destruct (Invocation.outputs inv) as [|o outs] eqn:E; [done|].
  assert (o ∈ Invocation.outputs inv) as Ho by (rewrite E; left).
  apply (touch_newer inv prior touched now x o); try done.
  apply Hout. by rewrite <-E.
Qed.

(** Writing paths that an up-to-date invocation does not watch, no
    earlier than any time the file system holds, leaves it up to date. *)
Lemma up_to_date_touch inv prior touched now :
  (∀ path t, stat path = Some t → t ≤ now) →
  (∀ x, x ∈ touched → x ∉ watched inv prior) →
  up_to_date stat prior inv → up_to_date (touch stat touched now) prior inv.
Proof.
  intros Hnow Hun (r & Hr & Hd & Hout & Hold). exists r. split_and!; [done..| |].
  - intros o Ho. unfold touch. case_bool_decide; [done|by apply Hout].
  - intros x o tx to Hx Ho. unfold touch.
    rewrite (bool_decide_eq_false_2 (x ∈ touched)) by (intros ?; by eapply Hun).
    case_bool_decide; intros Htx Hto; simplify_eq; [by eapply Hnow|by eapply Hold].
Qed.

(** An invocation whose outputs were all written last, and whose
    description is the recorded one, is up to date. *)
Lemma up_to_date_fresh inv prior now r :
  prior !! Invocation.outputs inv = Some r → r_description r = describe inv →
  (∀ path t, stat path = Some t → t ≤ now) →
  up_to_date (touch stat (Invocation.outputs inv) now) prior inv.
Proof.
  intros Hr Hd Hnow. exists r. split_and!; [done..| |].
  - intros o Ho. unfold touch. by rewrite bool_decide_eq_true_2.
  - intros x o tx to _ Ho. unfold touch.
    rewrite (bool_decide_eq_true_2 (o ∈ _)) by done.
    case_bool_decide; intros Htx [= <-]; simplify_eq; [done|by eapply Hnow].
Qed.

End changes.

Section extensionality.
Implicit Types (inv : Invocation.t) (prior : PriorState).

(** The detector sees the file system through [stat] and the prior
    state through the record of the invocation only. *)
Lemma watched_prior inv prior prior' :
  prior !! Invocation.outputs inv = prior' !! Invocation.outputs inv →
  watched inv prior = watched inv prior'.
Proof. unfold watched, discovered. by intros ->. Qed.

Lemma up_to_date_prior stat inv prior prior' :
  prior !! Invocation.outputs inv = prior' !! Invocation.outputs inv →
  up_to_date stat prior inv → up_to_date stat prior' inv.
Proof.
  intros H (r & Hr & ? & ? & Hold). exists r.
  rewrite <-(watched_prior _ _ _ H), <-H. by split_and!.
Qed.

Lemma IsStale_prior stat inv prior prior' :
  prior !! Invocation.outputs inv = prior' !! Invocation.outputs inv →
  IsStale stat inv prior = IsStale stat inv prior'.
Proof. intros H. unfold IsStale. by rewrite (watched_prior _ _ _ H), H. Qed.

#[global] Instance IsStale_proper :
  Proper (pointwise_relation string eq ==> eq ==> eq ==> eq) IsStale.
Proof.
  intros stat stat' H inv ? <- prior ? <-.
  destruct (IsStale stat' inv prior) eqn:E'.
  - apply IsStale_true_cases in E' as [(o & ? & ?)|[(x & o & tx & to & ? & ? & ? & ? & ?)|?]].
    + apply (IsStale_missing_output _ _ _ o); [done|]. by rewrite H.
    + apply (IsStale_newer_input _ _ _ x o tx to); try done; by rewrite H.
    + by apply IsStale_description_changed.
  - apply IsStale_up_to_date. apply IsStale_false_up_to_date in E'.
    destruct E' as (r & ? & ? & Hout & Hold). exists r. split_and!; [done..| |].
    + intros o Ho. rewrite H. by apply Hout.
    + intros x o tx to ??. rewrite !H. by apply Hold.
Qed.

#[global] Instance up_to_date_proper :
  Proper (pointwise_relation string eq ==> eq ==> eq ==> iff) up_to_date.
Proof.
  intros stat stat' H prior ? <- inv ? <-. unfold up_to_date.
  by setoid_rewrite (H _).
Qed.

Lemma stale_of_lookup stat invs prior i inv :
  invs !! i = Some inv → stale_of stat invs prior i = IsStale stat inv prior.
Proof. unfold stale_of. by intros ->. Qed.

Lemma stale_of_up_to_date stat invs prior i :
  (∀ inv, invs !! i = Some inv → up_to_date stat prior inv) →
  stale_of stat invs prior i = false.
Proof.
  intros H. unfold stale_of. destruct (invs !! i) as [inv|] eqn:E; [cbn|done].
  by apply IsStale_up_to_date, H.
Qed.

End extensionality.

Section staleness_scenario.

Lemma scenario_up_to_date : up_to_date scenario_after scenario_recorded scenario_X.
Proof.
  exists (Recorded (describe scenario_X) {["a.c"]}). split_and!; [done..| |].
  - intros o ->%list_elem_of_singleton. by eexists.
  - intros x o tx to Hx ->%list_elem_of_singleton. intros Htx [= <-].
    unfold watched, discovered in Hx. cbn in Hx.
    change (scenario_recorded !! ["a.o"]) with
      (Some (Recorded (describe scenario_X) {["a.c"]})) in Hx.
    cbn in Hx. rewrite elements_singleton in Hx.
    apply elem_of_cons in Hx as [->|Hx]; [|apply list_elem_of_singleton in Hx as ->];
      by injection Htx as <-.
Defined.

Lemma IsStale_touched_witness :
  IsStale (touch scenario_after ["a.h"] 30) scenario_X scenario_recorded = true.
Proof.
  apply (IsStale_touched scenario_after scenario_X scenario_recorded ["a.h"] 30 "a.h").
  - intros path t. unfold scenario_after, scenario_before.
    repeat case_decide; intros [= <-]; lia.
  - by left.
  - by left.
  - done.
  - intros o ->%list_elem_of_singleton. by intros ?%list_elem_of_singleton.
Defined.

End staleness_scenario.
