(* ===== verification/Build.v ===== *)
(** * The incremental build

    The scheduler of [Scheduler] run in the world it changes: the files
    with their modification times and the recorded state of the previous
    build (sections 2, 4.4, 4.5 and 6 of the specification).  No code of
    it is among the sources: the definitions follow the specification.

    A [store] holds the modification time of every path that exists, a
    clock that no time of the store is ahead of, and the prior state.  The
    staleness detector of [Staleness] reads it: [stat] is the lookup of a
    time.  What a tool does is placed at the events of the machine:
    starting an invocation writes its auxiliary files, its success writes
    its outputs and records its description with the inputs the tool
    reported, and a failure can leave some of the files behind.  Every
    write is later than all that is in the store.  What the tools do that
    the build cannot know is a record [tools].

    [build_world] is the instance of the scheduler's [Oracle], and [rebuild] is
    the scheduler run in it.  [settled] is the invariant of a build: every
    invocation that has succeeded or been skipped is up to date in the
    store as it is now. *)

From Stdlib Require Import ZArith Lia.
From stdpp Require Import gmap strings list.
From S2P Require Import Prelude Invocation InvocationGraph Scheduler Staleness.

#[local] Set Warnings "-clear-no-such-hyp".

Open Scope Z_scope.

(** ** The store *)

Record store : Type := Store {
  times : gmap string Z;       (* the modification time of each path that exists *)
  clock : Z;
  prior : PriorState;
}.

(** The modification time of a path, if the path exists. *)
Definition stat (s : store) (path : string) : option Z := times s !! path.

(** The [paths] are written, later than all that was written before. *)
Definition written (paths : list string) (s : store) : store :=
  Store (foldr (λ path, <[path := clock s + 1]>) (times s) paths) (clock s + 1) (prior s).

(** The invocation is recorded with the inputs its tool reported. *)
Definition recorded_as (inv : Invocation.t) (found : gset string) (s : store) : store :=
  Store (times s) (clock s)
    (<[Invocation.outputs inv := Recorded (describe inv) found]> (prior s)).

(** No time of the store is ahead of its clock. *)
Definition bounded (s : store) : Prop := map_Forall (λ _ t, t ≤ clock s) (times s).

#[global] Instance bounded_dec (s : store) : Decision (bounded s).
Proof. unfold bounded. apply _. Defined.

(** ** The tools *)

(** What the build cannot know before it runs the tools. *)
Record tools : Type := Tools {
  (* the inputs that the dependency info of an invocation reports *)
  reported : nat → gset string;
  (* the auxiliary files of an invocation can be written *)
  materializable : store → nat → bool;
  (* the process exits with zero and its dependency info can be parsed *)
  exits_zero : store → nat → bool;
  (* the auxiliary files written before one could not be *)
  installed : nat → nat;
  (* the outputs that a failing process has written *)
  leaves : nat → string → bool;
}.

Definition auxiliaries (inv : Invocation.t) : list string :=
  AuxiliaryFile.path <$> Invocation.auxiliaryFiles inv.

(** The paths that an event writes. *)
Definition touched (tl : tools) (e : event) (inv : Invocation.t) : list string :=
  match e with
  | EStart _ => auxiliaries inv
  | EAuxFail i => take (installed tl i) (auxiliaries inv)
  | ESucceed _ => Invocation.outputs inv
  | EFail i => filter (λ path, leaves tl i path = true) (Invocation.outputs inv)
  | EReady _ | ESkip _ | ECascade _ => []
  end.

(** What an event does to the store. *)
Definition change (tl : tools) (invs : list Invocation.t) (e : event) (s : store) : store :=
  if idle e then s
  else
    match invs !! subject e with
    | None => s
    | Some inv =>
      let s' := written (touched tl e inv) s in
      match e with
      | ESucceed i => recorded_as inv (reported tl i) s'
      | _ => s'
      end
    end.

Lemma change_idle tl invs e s : idle e = true → change tl invs e s = s.
Proof. unfold change. by intros ->. Qed.

(** The world of the scheduler. *)
Definition build_world (tl : tools) (invs : list Invocation.t) : Oracle store :=
  {| is_stale s := stale_of (stat s) invs (prior s);
     materializes := materializable tl;
     exits_ok := exits_zero tl;
     effect := change tl invs;
     effect_idle := change_idle tl invs |}.

(** One build: the scheduler run from the store [s]. *)
Definition rebuild (tl : tools) (slots : nat) (fail_fast : bool)
    (invs : list Invocation.t) (s : store) : GraphError + (list event * config store) :=
  @schedule store (build_world tl invs) slots fail_fast invs s.

(** ** What a build needs of its description *)

(** The paths whose modification can make the invocation at [i] stale
    during a build that starts with [prior0]. *)
Definition sources (tl : tools) (prior0 : PriorState) (i : nat) (inv : Invocation.t)
  : list string :=
  watched inv prior0 ++ elements (reported tl i).

(** Every invocation has an output; a path that one invocation watches
    and another produces is ordered by the graph; no invocation watches
    an auxiliary file of another; no auxiliary file is an output. *)
Record tidy (tl : tools) (invs : list Invocation.t) (prior0 : PriorState) : Prop := {
  tidy_outputs : ∀ i a, invs !! i = Some a → Invocation.outputs a ≠ [];
  tidy_produced : ∀ i j a b x,
    invs !! i = Some a → invs !! j = Some b → i ≠ j →
    x ∈ sources tl prior0 i a → x ∈ Invocation.outputs b → depends invs j i;
  tidy_auxiliaries : ∀ i j a b x,
    invs !! i = Some a → invs !! j = Some b → i ≠ j →
    x ∈ sources tl prior0 i a → x ∉ auxiliaries b;
  tidy_separate : ∀ i j a b x,
    invs !! i = Some a → invs !! j = Some b →
    x ∈ auxiliaries a → x ∉ Invocation.outputs b;
}.

(** The same as a check.  A path that another invocation produces has
    to be among the declared needs. *)
Definition tidy_pair (tl : tools) (prior0 : PriorState)
    (ia jb : nat * Invocation.t) : bool :=
  forallb (λ x, bool_decide (x ∉ Invocation.outputs jb.2)) (auxiliaries ia.2)
  && (bool_decide (ia.1 = jb.1)
      || forallb (λ x, bool_decide (x ∈ Invocation.outputs jb.2 → x ∈ needs ia.2)
                       && bool_decide (x ∉ auxiliaries jb.2))
           (sources tl prior0 ia.1 ia.2)).

Definition tidyb (tl : tools) (invs : list Invocation.t) (prior0 : PriorState) : bool :=
  forallb (λ a, bool_decide (Invocation.outputs a ≠ [])) invs
  && forallb (λ ia, forallb (tidy_pair tl prior0 ia) (imap pair invs)) (imap pair invs).

(** The invariant of a build that started with [prior0]. *)
Record settled (tl : tools) (invs : list Invocation.t) (prior0 : PriorState)
    (c : config store) : Prop := {
  settled_bounded : bounded (env c);
  settled_watched : ∀ i a x,
    invs !! i = Some a → x ∈ watched a (prior (env c)) → x ∈ sources tl prior0 i a;
  settled_finished : ∀ i a,
    invs !! i = Some a → is_finished (statuses c) i = true →
    up_to_date (stat (env c)) (prior (env c)) a;
}.

(** ** Scenarios *)

(** The store at the end of a build, or [s] when the graph is refused. *)
Definition built (r : GraphError + (list event * config store)) (s : store) : store :=
  match r with
  | inr (_, c) => env c
  | inl _ => s
  end.

(** The events and the statuses of a build. *)
Definition report (r : GraphError + (list event * config store))
  : option (list event * list status) :=
  match r with
  | inr (es, c) => Some (es, statuses c)
  | inl _ => None
  end.

(** The compile scenario of the specification: the compiler reports
    [a.c]; [a.h] and [a.c] are present. *)
Definition scenario_tools : tools :=
  Tools (λ _, {["a.c"]}) (λ _ _, true) (λ _ _, true) (λ _, 0%nat) (λ _ _, false).

Definition scenario_store : store := Store {["a.h" := 10; "a.c" := 10]} 10 ∅.

Definition scenario_built : store :=
  Store {["a.h" := 10; "a.c" := 10; "a.o" := 12]} 12
    {[ ["a.o"] := Recorded (describe scenario_X) {["a.c"]} ]}.

(** Compile, link, document and strip, all succeeding, with two workers;
    then [a.h] is edited. *)
Definition demo_tools : tools :=
  Tools (λ _, ∅) (λ _ _, true) (λ _ _, true) (λ _, 0%nat) (λ _ _, false).

Definition demo_store : store :=
  Store {["a.h" := 1; "a.c" := 1; "manual.txt" := 1]} 1 ∅.

Definition demo_built : store :=
  built (rebuild demo_tools 2 false demo_invocations demo_store) demo_store.

(** The events of the first build. *)
Definition demo_run : list event :=
  [EReady 0; EReady 2; EStart 0; EStart 2; ESucceed 0; EReady 1; EStart 1; ESucceed 1;
   EReady 3; EStart 3; ESucceed 2; ESucceed 3]%nat.

(** A compiler that fails after it has written its output. *)
Definition failing_tools : tools :=
  Tools (λ _, {["a.c"]}) (λ _ _, true) (λ _ _, false) (λ _, 0%nat) (λ _ _, true).

(** A header that is generated by an invocation listed after the one
    that includes it, and declared as a phony input only. *)
Definition phony_invocations : list Invocation.t :=
  [ Invocation.Build (Executable.Determine "cc") [] ∅ "/src" ["b.c"] ["b.o"] ["gen.h"]
      [] [] [] [] "" false false;
    demo_invocation ["gen.in"] [] [] ["gen.h"] ].

Definition phony_store : store := Store {["b.c" := 1; "gen.in" := 1]} 1 ∅.

(** * Theorems *)

Section store_facts.
Implicit Types (s : store) (inv : Invocation.t) (paths : list string).

Lemma written_lookup paths s path :
  times (written paths s) !! path
  = if bool_decide (path ∈ paths) then Some (clock s + 1) else times s !! path.
Proof.
  cbn. induction paths as [|p paths IH]; cbn; [done|].
  destruct (decide (path = p)) as [->|Hne].
  - by rewrite lookup_insert_eq, bool_decide_eq_true_2 by left.
  - rewrite lookup_insert_ne, IH by done.
    rewrite (bool_decide_ext (path ∈ p :: paths) (path ∈ paths)); [done|].
    rewrite elem_of_cons. naive_solver.
Qed.

(** The detector after a write sees the paths touched at the new time. *)
Lemma stat_written paths s :
  pointwise_relation string eq (stat (written paths s)) (touch (stat s) paths (clock s + 1)).
Proof. intros path. apply written_lookup. Qed.

Lemma bounded_stat s path t : bounded s → stat s path = Some t → t ≤ clock s + 1.
Proof. intros H Hp. specialize (H _ _ Hp). cbn in H. lia. Qed.

Lemma bounded_before s path t : bounded s → stat s path = Some t → t < clock s + 1.
Proof. intros H Hp. specialize (H _ _ Hp). cbn in H. lia. Qed.

Lemma written_bounded paths s : bounded s → bounded (written paths s).
Proof.
  intros H path t. rewrite written_lookup. cbn.
  case_bool_decide; intros Hp; simplify_eq; [lia|]. specialize (H _ _ Hp). cbn in H. lia.
Qed.

(** Paths that an up-to-date invocation does not watch can be written. *)
Lemma written_up_to_date paths s inv :
  bounded s → (∀ x, x ∈ paths → x ∉ watched inv (prior s)) →
  up_to_date (stat s) (prior s) inv →
  up_to_date (stat (written paths s)) (prior s) inv.
Proof.
  intros Hb Hun Hup. rewrite stat_written.
  by apply up_to_date_touch; [intros ??; apply bounded_stat| |].
Qed.

(** An invocation that has just succeeded is up to date. *)
Lemma succeeded_up_to_date inv found s :
  bounded s →
  let s' := recorded_as inv found (written (Invocation.outputs inv) s) in
  up_to_date (stat s') (prior s') inv.
Proof.
  intros Hb. cbn zeta. change (stat (recorded_as _ _ ?s0)) with (stat s0).
  rewrite stat_written.
  eapply up_to_date_fresh; [apply lookup_insert_eq|done|]. intros ??. by apply bounded_stat.
Qed.

Lemma recorded_lookup inv found s :
  prior (recorded_as inv found s) !! Invocation.outputs inv
  = Some (Recorded (describe inv) found).
Proof. apply lookup_insert_eq. Qed.

(** After a record the inputs that were reported are watched. *)
Lemma recorded_watched inv found s x :
  x ∈ watched inv (prior (recorded_as inv found s)) →
  x ∈ watched inv ∅ ∨ x ∈ found.
Proof.
  unfold watched, discovered. rewrite recorded_lookup, lookup_empty. cbn [r_inputs].
  rewrite !elem_of_app, elem_of_elements. naive_solver.
Qed.

Lemma watched_empty inv prior x : x ∈ watched inv ∅ → x ∈ watched inv prior.
Proof.
  unfold watched, discovered. rewrite lookup_empty, !elem_of_app, elem_of_nil. tauto.
Qed.

End store_facts.

Section changes.
Context (tl : tools) (invs : list Invocation.t).
Implicit Types (s : store) (e : event) (a b : Invocation.t).

(** An event writes outputs of a running invocation or auxiliary files of
    a ready one. *)
Lemma touched_owner e b x :
  x ∈ touched tl e b →
  (x ∈ Invocation.outputs b ∧ source_of e = Running)
  ∨ (x ∈ auxiliaries b ∧ source_of e = Ready).
Proof.
  destruct e; cbn; try (by intros ?%elem_of_nil); auto.
  - intros ?%subseteq_take. auto.
  - intros [_ ?]%list_elem_of_filter. auto.
Qed.

Lemma change_bounded e s : bounded s → bounded (change tl invs e s).
Proof.
  intros H. unfold change. destruct (idle e); [done|].
  destruct (invs !! subject e) as [b|]; [|done].
  pose proof (written_bounded (touched tl e b) s H). by destruct e.
Qed.

(** What an event changes of the prior state is the record of its
    subject. *)
Lemma change_prior_other e s keys :
  (∀ b, invs !! subject e = Some b → Invocation.outputs b ≠ keys) →
  prior (change tl invs e s) !! keys = prior s !! keys.
Proof.
  intros H. unfold change. destruct (idle e); [done|].
  destruct (invs !! subject e) as [b|]; [|done].
  destruct e; try done. cbn [prior recorded_as written subject] in *.
  by rewrite lookup_insert_ne by by apply H.
Qed.

Lemma change_prior e s :
  prior (change tl invs e s) =
    match e with
    | ESucceed i =>
      from_option (λ b, <[Invocation.outputs b := Recorded (describe b) (reported tl i)]>
                          (prior s)) (prior s) (invs !! i)
    | _ => prior s
    end.
Proof.
  unfold change. destruct (idle e) eqn:Ei; [by destruct e|].
  destruct e; cbn; by destruct (invs !! _).
Qed.

Lemma change_succeeded i b s :
  invs !! i = Some b →
  change tl invs (ESucceed i) s
  = recorded_as b (reported tl i) (written (Invocation.outputs b) s).
Proof. unfold change. cbn. by intros ->. Qed.

(** Apart from the record, an event writes what it touches. *)
Lemma change_stat e s b :
  idle e = false → invs !! subject e = Some b →
  stat (change tl invs e s) = stat (written (touched tl e b) s)
  ∧ ∀ keys, Invocation.outputs b ≠ keys →
      prior (change tl invs e s) !! keys = prior s !! keys.
Proof.
  intros Hi Hb. split; [|intros keys Hk; apply change_prior_other; naive_solver].
  unfold change. rewrite Hi, Hb. by destruct e.
Qed.

End changes.

Section hygiene.
Context (tl : tools) (invs : list Invocation.t) (prior0 : PriorState).

Lemma elem_of_indexed i (a : Invocation.t) : invs !! i = Some a → (i, a) ∈ imap pair invs.
Proof. intros H. apply elem_of_lookup_imap. by exists i, a. Qed.

Lemma tidy_pair_spec i j a b :
  tidy_pair tl prior0 (i, a) (j, b) = true →
  (∀ x, x ∈ auxiliaries a → x ∉ Invocation.outputs b)
  ∧ (i ≠ j → ∀ x, x ∈ sources tl prior0 i a →
       (x ∈ Invocation.outputs b → x ∈ needs a) ∧ x ∉ auxiliaries b).
Proof.
  unfold tidy_pair. cbn [fst snd]. rewrite andb_true_iff, orb_true_iff, !forallb_forall.
  intros [Haux Hsrc]. split.
  - intros x Hx%list_elem_of_In%Haux. by apply bool_decide_eq_true in Hx.
  - intros Hij x Hx%list_elem_of_In. destruct Hsrc as [?%bool_decide_eq_true|Hsrc]; [done|].
    apply Hsrc, andb_true_iff in Hx as [??]. by split; eapply bool_decide_eq_true.
Qed.

(** A description that passes the check is tidy. *)
Lemma tidyb_tidy : tidyb tl invs prior0 = true → tidy tl invs prior0.
Proof.
  unfold tidyb. rewrite andb_true_iff, !forallb_forall. intros [Hout Hpairs].
  assert (∀ i j a b, invs !! i = Some a → invs !! j = Some b →
            tidy_pair tl prior0 (i, a) (j, b) = true) as Hp.
  { intros i j a b Ha%elem_of_indexed%list_elem_of_In Hb%elem_of_indexed%list_elem_of_In.
    specialize (Hpairs _ Ha). rewrite forallb_forall in Hpairs. by apply Hpairs. }
  split.
  - intros i a Ha%list_elem_of_lookup_2%list_elem_of_In%Hout. by apply bool_decide_eq_true in Ha.
  - intros i j a b x Ha Hb Hij Hx Ho.
    destruct (tidy_pair_spec _ _ _ _ (Hp i j a b Ha Hb)) as [_ H]. exists a, b, x.
    split_and!; try done. by apply (H Hij x Hx).
  - intros i j a b x Ha Hb Hij Hx.
    destruct (tidy_pair_spec _ _ _ _ (Hp i j a b Ha Hb)) as [_ H]. by apply (H Hij x Hx).
  - intros i j a b x Ha Hb. by apply (tidy_pair_spec _ _ _ _ (Hp i j a b Ha Hb)).
Qed.

End hygiene.

Section invariant.
Context (tl : tools) (invs : list Invocation.t) (prior0 : PriorState) (g : graph).
Context (slots : nat) (fail_fast : bool).
Context (Hbuild : build invs = inr g) (Htidy : tidy tl invs prior0).
Implicit Types (c : config store) (s : store) (e : event) (a b : Invocation.t).

Local Abbreviation step := (@step store (build_world tl invs) (preds g) slots fail_fast).
Local Abbreviation steps := (@steps store (build_world tl invs) (preds g) slots fail_fast).
Local Abbreviation settled := (settled tl invs prior0).

Lemma build_edge j i : depends invs j i → edge (preds g) j i.
Proof.
  intros Hd. destruct (build_Some _ _ Hbuild) as (m & Hm & _ & -> & _).
  apply (predecessors_depends _ _ _ _ Hm); [by eapply depends_lt|done].
Qed.

(** The records of two invocations have different keys. *)
Lemma distinct_keys i j a b :
  invs !! i = Some a → invs !! j = Some b → i ≠ j →
  Invocation.outputs a ≠ Invocation.outputs b.
Proof.
  intros Ha Hb Hij Heq. destruct (build_Some _ _ Hbuild) as (m & Hm & _).
  pose proof (tidy_outputs _ _ _ Htidy i a Ha) as Hne.
  destruct (Invocation.outputs a) as [|o os] eqn:Eo; [done|].
  apply Hij, (register_unique _ _ Hm i j a b o Ha Hb); [rewrite Eo|rewrite <-Heq]; left.
Qed.

(** What an event writes is watched by no invocation that has finished. *)
Lemma touched_unwatched c e b i a x :
  ordered (preds g) (statuses c) → settled c →
  statuses c !! subject e = Some (source_of e) → invs !! subject e = Some b →
  invs !! i = Some a → is_finished (statuses c) i = true →
  x ∈ touched tl e b → x ∉ watched a (prior (env c)).
Proof.
  intros Hord Hset Hsrc Hb Ha Hfin Hx Hw%(settled_watched _ _ _ _ Hset i a x Ha).
  pose proof (source_not_terminal e) as Hnt.
  assert (∃ st, statuses c !! i = Some st ∧ finished st = true) as (st & Hi & Hst)
    by (apply is_finished_true in Hfin as [?|?]; eauto).
  assert (i ≠ subject e) as Hne.
  { intros ->. apply finished_terminal in Hst. congruence. }
  destruct (touched_owner _ _ _ _ Hx) as [[Ho Hrun]|[Haux _]].
  - pose proof (tidy_produced _ _ _ Htidy i _ a b x Ha Hb Hne Hw Ho) as Hd%build_edge.
    assert (is_finished (statuses c) (subject e) = true) as Hf
      by (apply (Hord i st); [done|by destruct st|done]).
    apply is_finished_true in Hf. rewrite Hsrc, Hrun in Hf. naive_solver.
  - by apply (tidy_auxiliaries _ _ _ Htidy i _ a b x Ha Hb Hne Hw).
Qed.

(** After a step every invocation still watches sources only. *)
Lemma step_watched c e c' i a x :
  settled c → step c e c' → invs !! i = Some a →
  x ∈ watched a (prior (env c')) → x ∈ sources tl prior0 i a.
Proof.
  intros Hset (_ & _ & ->)%step_inv Ha. cbn [fire env].
  change (effect e (env c)) with (change tl invs e (env c)).
  destruct (decide (e = ESucceed i)) as [->|He].
  - rewrite (change_succeeded _ _ _ _ _ Ha). unfold sources.
    intros [?%(watched_empty _ prior0)|?]%recorded_watched; apply elem_of_app;
      [by left|right; by apply elem_of_elements].
  - rewrite (watched_prior a _ (prior (env c))); [by apply (settled_watched _ _ _ _ Hset)|].
    rewrite change_prior. destruct e as [| | | |k| |]; try done.
    destruct (invs !! k) as [b|] eqn:Hb; [cbn|done].
    apply lookup_insert_ne, (distinct_keys k i b a Hb Ha). congruence.
Qed.

(** An invocation that finishes by a step is up to date after it. *)
Lemma step_finishes c e c' a :
  settled c → step c e c' → invs !! subject e = Some a →
  finished (outcome_of e) = true →
  up_to_date (stat (env c')) (prior (env c')) a.
Proof.
  intros Hset (_ & Hg & ->)%step_inv Ha Hfin. cbn [fire env].
  change (effect e (env c)) with (change tl invs e (env c)).
  destruct e as [|i| | |i| |]; try done; cbn [subject] in *.
  - rewrite change_idle by done. unfold guard_in in Hg. apply guard_skip in Hg. cbn in Hg.
    rewrite (stale_of_lookup _ _ _ _ _ Ha) in Hg. by apply IsStale_false_up_to_date.
  - rewrite (change_succeeded _ _ _ _ _ Ha).
    apply succeeded_up_to_date, (settled_bounded _ _ _ _ Hset).
Qed.

(** An invocation that had finished before a step is up to date after
    it. *)
Lemma step_keeps c e c' i a :
  ordered (preds g) (statuses c) → settled c → step c e c' →
  invs !! i = Some a → i ≠ subject e → is_finished (statuses c) i = true →
  up_to_date (stat (env c')) (prior (env c')) a.
Proof.
  intros Hord Hset (Hsrc & _ & ->)%step_inv Ha Hne Hfin. cbn [fire env].
  change (effect e (env c)) with (change tl invs e (env c)).
  pose proof (settled_finished _ _ _ _ Hset i a Ha Hfin) as Hup.
  destruct (idle e) eqn:Ei; [by rewrite change_idle|].
  destruct (invs !! subject e) as [b|] eqn:Hb; [|unfold change; by rewrite Ei, Hb].
  destruct (change_stat tl invs e (env c) b Ei Hb) as [-> Hp].
  apply (up_to_date_prior _ _ (prior (env c))).
  { symmetry. by apply Hp, (distinct_keys _ _ _ _ Hb Ha). }
  apply written_up_to_date; [apply (settled_bounded _ _ _ _ Hset)| |done].
  intros x Hx. by eapply touched_unwatched.
Qed.

Lemma step_settled c e c' :
  ordered (preds g) (statuses c) → settled c → step c e c' → settled c'.
Proof.
  intros Hord Hset Hs. split.
  - pose proof Hs as (_ & _ & ->)%step_inv. apply change_bounded, Hset.
  - intros i a x. by apply (step_watched c e).
  - intros i a Ha Hfin. destruct (decide (i = subject e)) as [->|Hne].
    + apply (step_finishes c e); [done..|].
      pose proof Hs as (Hsrc & _ & ->)%step_inv. apply is_finished_true in Hfin.
      cbn in Hfin. unfold apply_event in Hfin.
      rewrite list_lookup_insert_eq in Hfin by by eapply lookup_lt_Some.
      destruct Hfin as [[= ->]|[= ->]]; done.
    + apply (step_keeps c e c' i); [done..|].
      pose proof Hs as (_ & _ & ->)%step_inv. cbn in Hfin. unfold apply_event in Hfin.
      unfold is_finished in *. by rewrite list_lookup_insert_ne in Hfin.
Qed.

(** The invariant holds in every state of a build. *)
Lemma steps_settled c es c' :
  ordered (preds g) (statuses c) → settled c → steps c es c' → settled c'.
Proof.
  intros Hord Hset Hr. induction Hr as [|c e c1 es c' Hs _ IH]; [done|].
  apply IH; [by eapply step_ordered|by eapply step_settled].
Qed.

Lemma initial_settled n s : bounded s → prior s = prior0 → settled (Config (initial n) s).
Proof.
  intros Hb Hp. split; [done| |].
  - intros i a x _ Hx. unfold sources. cbn in Hx. rewrite Hp in Hx.
    apply elem_of_app. by left.
  - intros i a _ Hfin. apply is_finished_true in Hfin as [[? _]%initial_lookup|[? _]%initial_lookup];
      done.
Qed.

End invariant.

Section builds.
Context (tl : tools) (invs : list Invocation.t).
Implicit Types (s : store) (c : config store) (es : list event) (a : Invocation.t).

Local Abbreviation rebuild := (rebuild tl).
Local Abbreviation up_to_date_in s := (λ a, up_to_date (stat s) (prior s) a).

(** A build of a graph that can be constructed gives a result. *)
Lemma rebuild_total slots fail_fast s g :
  build invs = inr g → ∃ es c, rebuild slots fail_fast invs s = inr (es, c).
Proof.
  intros Hb. unfold Build.rebuild, schedule. rewrite Hb.
  destruct (run _ _ _ _ _) as [es c]. by exists es, c.
Qed.

(** When every invocation is up to date the build skips them all and
    leaves the store as it is. *)
Lemma rebuild_fresh slots fail_fast s es c :
  Forall (up_to_date_in s) invs → (0 < slots)%nat →
  rebuild slots fail_fast invs s = inr (es, c) →
  c = Config (replicate (length invs) Skipped) s ∧ ∀ i, EStart i ∉ es.
Proof.
  intros Hup Hslots Hr. apply (@schedule_up_to_date_skips store (build_world tl invs)) in Hr; try done.
  intros i. apply stale_of_up_to_date. intros a Ha. by apply (Forall_lookup_1 _ _ _ _ Hup Ha).
Qed.

(** The invariant holds at the end of a build. *)
Lemma rebuild_settled slots fail_fast s es c :
  tidy tl invs (prior s) → bounded s →
  rebuild slots fail_fast invs s = inr (es, c) →
  settled tl invs (prior s) c ∧ length (statuses c) = length invs.
Proof.
  intros Htidy Hb (g & Hg & Hs & _ & Hlen)%schedule_run. split; [|done].
  apply (steps_settled tl invs (prior s) g _ _ Hg Htidy (Config (initial (length invs)) s)
           es c (ordered_initial _ _) (initial_settled _ _ _ _ s Hb eq_refl) Hs).
Qed.

(** What a build has finished is up to date when the build ends. *)
Lemma rebuild_finished slots fail_fast s es c :
  tidy tl invs (prior s) → bounded s →
  rebuild slots fail_fast invs s = inr (es, c) →
  Forall (λ st, finished st = true) (statuses c) →
  Forall (up_to_date_in (env c)) invs.
Proof.
  intros Htidy Hb [Hset Hlen]%rebuild_settled Hfin; [|done..].
  apply Forall_lookup. intros i a Ha.
  destruct (lookup_lt_is_Some_2 (statuses c) i) as [st Hst].
  { rewrite Hlen. by eapply lookup_lt_Some. }
  apply (settled_finished _ _ _ _ Hset i a Ha), is_finished_true.
  pose proof (Forall_lookup_1 _ _ _ _ Hfin Hst). destruct st; naive_solver.
Qed.

End builds.

Section build_claims.
Context (tl : tools) (invs : list Invocation.t).
Implicit Types (s : store) (c : config store) (es : list event) (g : graph).

Local Abbreviation rebuild := (rebuild tl).
Local Abbreviation steps g := (@steps store (build_world tl invs) (preds g)).
Local Abbreviation start s := (Config (initial (length invs)) s).
Local Abbreviation up_to_date_in s := (λ a, up_to_date (stat s) (prior s) a).

(** C21.  For a description that is [tidy] and a store that is [bounded]:
    in every run of a build, whatever the workers do, an invocation that
    has succeeded or been skipped is up to date in the store as the run
    has left it; no later step of the build has made it stale.  It does
    not hold of a description that is not [tidy]:
    [phony_input_built_twice]. *)
Theorem build_keeps_up_to_date g slots fail_fast s es c i a :
  build invs = inr g → tidy tl invs (prior s) → bounded s →
  steps g slots fail_fast (start s) es c →
  invs !! i = Some a → is_finished (statuses c) i = true →
  up_to_date (stat (env c)) (prior (env c)) a.
Proof.
  intros Hg Htidy Hb Hr Ha Hfin.
  pose proof (steps_settled tl invs (prior s) g _ _ Hg Htidy (start s) es c
                (ordered_initial _ _) (initial_settled _ _ _ _ s Hb eq_refl) Hr) as Hset.
  by apply (settled_finished _ _ _ _ Hset i a).
Qed.

(** Running the scheduler when nothing has changed executes nothing:
    when every invocation has its outputs, no watched path newer than
    them and its description recorded, the build skips every invocation,
    starts none and leaves the store as it is. *)
Theorem schedule_incremental slots fail_fast s es c :
  Forall (up_to_date_in s) invs → (0 < slots)%nat →
  rebuild slots fail_fast invs s = inr (es, c) →
  c = Config (replicate (length invs) Skipped) s ∧ ∀ i, EStart i ∉ es.
Proof.
  intros Hup Hslots Hr. split; [by eapply rebuild_fresh|].
  intros i. by eapply (proj2 (rebuild_fresh tl invs slots fail_fast s es c Hup Hslots Hr)).
Qed.

(** C7.  For a description that is [tidy] and a store that is [bounded],
    a build that has succeeded needs no second build: the scheduler run
    again on the store the first build has left, with any number of
    workers, skips every invocation and changes nothing.  Without
    [tidy] it fails: [phony_input_built_twice]. *)
Theorem rebuild_idempotent slots fail_fast s es c slots' fail_fast' :
  tidy tl invs (prior s) → bounded s →
  rebuild slots fail_fast invs s = inr (es, c) →
  Forall (λ st, finished st = true) (statuses c) → (0 < slots')%nat →
  ∃ es', rebuild slots' fail_fast' invs (env c)
         = inr (es', Config (replicate (length invs) Skipped) (env c))
    ∧ ∀ i, EStart i ∉ es'.
Proof.
  intros Htidy Hb Hr Hfin Hslots.
  pose proof (rebuild_finished tl invs _ _ _ _ _ Htidy Hb Hr Hfin) as Hup.
  destruct (schedule_run _ _ _ _ _ _ Hr) as (g & Hg & _).
  destruct (rebuild_total tl invs slots' fail_fast' (env c) g Hg) as (es' & c' & Hr').
  destruct (rebuild_fresh tl invs _ _ _ _ _ Hup Hslots Hr') as [-> ?]. by exists es'.
Qed.

End build_claims.

Section build_scenarios.

Local Abbreviation demo_world := (build_world demo_tools demo_invocations).
Local Abbreviation all_succeeded := [Succeeded; Succeeded; Succeeded; Succeeded].
Local Abbreviation link := (demo_invocation ["a.o"] [] [] ["app"]).

(** The compile scenario of the specification: the invocation runs and
    [a.o] is created and recorded; nothing changes and it is skipped;
    [a.h] is touched and it runs again. *)
Example scenario_three_runs :
  rebuild scenario_tools 1 false [scenario_X] scenario_store
    = inr ([EReady 0; EStart 0; ESucceed 0]%nat, Config [Succeeded] scenario_built)
  ∧ rebuild scenario_tools 1 false [scenario_X] scenario_built
    = inr ([EReady 0; ESkip 0]%nat, Config [Skipped] scenario_built)
  ∧ report (rebuild scenario_tools 1 false [scenario_X] (written ["a.h"] scenario_built))
    = Some ([EReady 0; EStart 0; ESucceed 0]%nat, [Succeeded]).
Proof. split_and!; vm_compute; reflexivity. Qed.

Lemma demo_first_build :
  rebuild demo_tools 2 false demo_invocations demo_store
  = inr (demo_run, Config all_succeeded demo_built).
Proof. vm_compute. reflexivity. Defined.

Lemma demo_first_steps :
  @steps store demo_world (preds demo_graph) 2 false
    (Config (initial (length demo_invocations)) demo_store) demo_run
    (Config all_succeeded demo_built).
Proof. apply (run_steps _ _ _ (budget 4)). vm_compute. reflexivity. Defined.

Lemma demo_tidy prior0 :
  tidyb demo_tools demo_invocations prior0 = true → tidy demo_tools demo_invocations prior0.
Proof. apply tidyb_tidy. Defined.

Lemma demo_bounded : bounded demo_store.
Proof. by apply (bool_decide_unpack _); vm_compute. Defined.

Lemma build_keeps_up_to_date_witness :
  up_to_date (stat demo_built) (prior demo_built) link.
Proof.
  apply (build_keeps_up_to_date demo_tools demo_invocations demo_graph 2 false demo_store
           demo_run (Config all_succeeded demo_built) 1 link);
    [exact demo_build|by apply demo_tidy|apply demo_bounded|exact demo_first_steps|done..].
Defined.

Lemma schedule_incremental_witness :
  Config [Skipped] scenario_built = Config (replicate (length [scenario_X]) Skipped) scenario_built
  ∧ ∀ i, EStart i ∉ [EReady 0; ESkip 0]%nat.
Proof.
  apply (schedule_incremental scenario_tools [scenario_X] 1 false scenario_built);
    [|lia|by vm_compute].
  apply Forall_singleton, IsStale_false_up_to_date. by vm_compute.
Defined.

Lemma rebuild_idempotent_witness :
  ∃ es', rebuild demo_tools 1 true demo_invocations demo_built
         = inr (es', Config (replicate (length demo_invocations) Skipped) demo_built)
    ∧ ∀ i, EStart i ∉ es'.
Proof.
  apply (rebuild_idempotent demo_tools demo_invocations 2 false demo_store demo_run
           (Config all_succeeded demo_built) 1 true);
    [by apply demo_tidy|apply demo_bounded|exact demo_first_build| |lia].
  by repeat constructor.
Defined.

(** A header that an invocation lists as a phony input and that a later
    invocation of the list generates: after a first build in which both
    have succeeded, the second build compiles again, and only the third
    build runs nothing. *)
Example phony_input_built_twice :
  let first := rebuild demo_tools 1 false phony_invocations phony_store in
  let second := rebuild demo_tools 1 false phony_invocations (built first phony_store) in
  report first
    = Some ([EReady 0; EReady 1; EStart 0; ESucceed 0; EStart 1; ESucceed 1]%nat,
            [Succeeded; Succeeded])
  ∧ report second
    = Some ([EReady 0; EReady 1; EStart 0; ESucceed 0; ESkip 1]%nat, [Succeeded; Skipped])
  ∧ tidyb demo_tools phony_invocations ∅ = false.
Proof. split_and!; vm_compute; reflexivity. Qed.

(** A compiler that fails after it has written its output: the build
    after the failure finds the output newer than the inputs and the
    description as recorded, and skips the invocation. *)
Example failed_run_skipped :
  let first := rebuild failing_tools 1 false [scenario_X] (written ["a.h"] scenario_built) in
  report first = Some ([EReady 0; EStart 0; EFail 0]%nat, [Failed])
  ∧ report (rebuild scenario_tools 1 false [scenario_X] (built first scenario_built))
    = Some ([EReady 0; ESkip 0]%nat, [Skipped]).
Proof. split_and!; vm_compute; reflexivity. Qed.

End build_scenarios.
