(* ===== verification/Rebuild.v ===== *)
(** * What a build runs

    Which invocations a build of [Build] runs when it starts from a store
    in which some are stale (sections 4.4 and 8 of the specification).
    No code of it is among the sources: the definitions follow the
    specification.

    [consumes] is the relation between an invocation and one that watches
    what it produces, and [affected] its closure from the invocations that
    are stale when the build begins.  Two invariants of the machine carry
    the two halves of the result.  [contained]: what is not affected stays
    up to date, so nothing else is started.  [driven]: what is affected
    and waits is stale as soon as a producer has succeeded, so it is never
    skipped. *)

From Stdlib Require Import ZArith Lia.
From stdpp Require Import gmap strings list.
From S2P Require Import Prelude Invocation InvocationGraph Scheduler Staleness Build.

#[local] Set Warnings "-clear-no-such-hyp".

Open Scope Z_scope.

(** ** What a build has to run *)

(** [j] produces a path that [i] watches. *)
Definition consumes (invs : list Invocation.t) (prior0 : PriorState) (j i : nat) : Prop :=
  ∃ a b x, invs !! i = Some a ∧ invs !! j = Some b
    ∧ x ∈ Invocation.outputs b ∧ x ∈ watched a prior0.

(** The invocations that a build from [s] has to run: those that are
    stale in [s], and those that watch what one of these produces. *)
Inductive affected (invs : list Invocation.t) (s : store) : nat → Prop :=
  | affected_stale i :
      stale_of (stat s) invs (prior s) i = true → affected invs s i
  | affected_consumes j i :
      affected invs s j → consumes invs (prior s) j i → affected invs s i.

(** A build from [s0] leaves alone what is not affected: an invocation
    that is running is affected, and one that is not affected is up to
    date with its record as it was. *)
Record contained (invs : list Invocation.t) (s0 : store) (c : config store) : Prop := {
  contained_bounded : bounded (env c);
  contained_running : ∀ i, statuses c !! i = Some Running → affected invs s0 i;
  contained_rest : ∀ i a, invs !! i = Some a →
    affected invs s0 i
    ∨ (up_to_date (stat (env c)) (prior (env c)) a
       ∧ prior (env c) !! Invocation.outputs a = prior s0 !! Invocation.outputs a);
}.

(** An invocation that has not been dispatched. *)
Definition waiting (st : status) : bool :=
  match st with
  | Pending | Ready => true
  | _ => false
  end.

(** The invocation at [i] has a reason to run: it was stale in [s0], or
    an invocation that produces what it watches has succeeded. *)
Definition pushed (invs : list Invocation.t) (s0 : store) (c : config store) (i : nat)
  : Prop :=
  stale_of (stat s0) invs (prior s0) i = true
  ∨ ∃ j, consumes invs (prior s0) j i ∧ statuses c !! j = Some Succeeded.

(** A build from [s0] runs what is affected: the record of an invocation
    that has not succeeded is as it was, an invocation that waits and has
    a reason to run is stale, and no affected invocation is skipped. *)
Record driven (invs : list Invocation.t) (s0 : store) (c : config store) : Prop := {
  driven_bounded : bounded (env c);
  driven_record : ∀ i a st,
    invs !! i = Some a → statuses c !! i = Some st → st ≠ Succeeded →
    prior (env c) !! Invocation.outputs a = prior s0 !! Invocation.outputs a;
  driven_stale : ∀ i a st,
    invs !! i = Some a → statuses c !! i = Some st → waiting st = true →
    pushed invs s0 c i → IsStale (stat (env c)) a (prior (env c)) = true;
  driven_skipped : ∀ i, affected invs s0 i → statuses c !! i ≠ Some Skipped;
}.

(** ** Scenarios *)

(** The four invocations of [demo_invocations] after a first build, with
    [a.h] edited. *)
Definition demo_edited : store := written ["a.h"] demo_built.

(** The events of the build after the edit. *)
Definition demo_rerun : list event :=
  [EReady 0; EReady 2; EStart 0; ESkip 2; ESucceed 0; EReady 1; EStart 1; ESucceed 1;
   EReady 3; ESkip 3]%nat.

(** * Theorems *)

Section minimality.
Context (tl : tools) (invs : list Invocation.t) (s0 : store) (g : graph).
Context (slots : nat) (fail_fast : bool).
Context (Hbuild : build invs = inr g) (Htidy : tidy tl invs (prior s0)).
Implicit Types (c : config store) (s : store) (e : event) (a b : Invocation.t).

Local Abbreviation step := (@step store (build_world tl invs) (preds g) slots fail_fast).
Local Abbreviation steps := (@steps store (build_world tl invs) (preds g) slots fail_fast).
Local Abbreviation contained := (contained invs s0).
Local Abbreviation affected := (affected invs s0).

(** What is stale during the build is affected. *)
Lemma contained_stale c i :
  contained c → stale_of (stat (env c)) invs (prior (env c)) i = true → affected i.
Proof.
  intros Hc Hst. destruct (invs !! i) as [a|] eqn:Ha; [|unfold stale_of in Hst; by rewrite Ha in Hst].
  destruct (contained_rest _ _ _ Hc i a Ha) as [|[Hup _]]; [done|].
  rewrite (stale_of_lookup _ _ _ _ _ Ha), (IsStale_up_to_date _ _ _ Hup) in Hst. done.
Qed.

(** The subject of an event that writes is affected. *)
Lemma contained_subject c e c' :
  contained c → step c e c' → idle e = false → affected (subject e).
Proof.
  intros Hc (Hsrc & Hg & _)%step_inv Hi. unfold guard_in in Hg.
  destruct e as [| |i|i|i|i|]; try done; cbn [subject source_of] in *.
  - apply guard_start in Hg as [Hst _]. by apply (contained_stale c).
  - cbn in Hg. apply andb_true_iff in Hg as [[_ Hst]%andb_true_iff _].
    by apply (contained_stale c).
  - by apply (contained_running _ _ _ Hc).
  - by apply (contained_running _ _ _ Hc).
Qed.

(** An invocation that is not affected is left as it is by a step. *)
Lemma step_contained_rest c e c' i a :
  contained c → step c e c' → invs !! i = Some a →
  affected i
  ∨ (up_to_date (stat (env c')) (prior (env c')) a
     ∧ prior (env c') !! Invocation.outputs a = prior s0 !! Invocation.outputs a).
Proof.
  intros Hc Hs Ha. destruct (contained_rest _ _ _ Hc i a Ha) as [|[Hup Hrec]]; [by left|].
  destruct (idle e) eqn:Ei; [right; by rewrite (step_idle _ _ _ _ _ _ Hs Ei)|].
  pose proof (contained_subject c e c' Hc Hs Ei) as Hk.
  destruct (decide (i = subject e)) as [->|Hne]; [by left|].
  pose proof Hs as (_ & _ & ->)%step_inv. cbn [fire env].
  change (effect e (env c)) with (change tl invs e (env c)).
  destruct (invs !! subject e) as [b|] eqn:Hb; [|right; unfold change; by rewrite Ei, Hb].
  destruct (change_stat tl invs e (env c) b Ei Hb) as [-> Hp].
  pose proof (distinct_keys tl invs _ g Hbuild Htidy _ _ _ _ Hb Ha (not_eq_sym Hne)) as Hkey.
  destruct (decide (Exists (λ x, x ∈ watched a (prior (env c))) (touched tl e b)))
    as [(x & Hx & Hw)%Exists_exists|Hno].
  - left. rewrite (watched_prior a _ (prior s0) Hrec) in Hw.
    destruct (touched_owner _ _ _ _ Hx) as [[Ho _]|[Haux _]].
    + apply (affected_consumes _ _ (subject e)); [done|]. by exists a, b, x.
    + destruct (tidy_auxiliaries _ _ _ Htidy i _ a b x Ha Hb Hne); [|done].
      apply elem_of_app. by left.
  - right. rewrite (Hp _ Hkey). split; [|done].
    apply (up_to_date_prior _ _ (prior (env c))); [symmetry; by apply Hp|].
    apply written_up_to_date; [apply Hc| |done].
    intros x Hx Hw. apply Hno, Exists_exists. eauto.
Qed.

Lemma step_contained c e c' : contained c → step c e c' → contained c'.
Proof.
  intros Hc Hs. split.
  - pose proof Hs as (_ & _ & ->)%step_inv. apply change_bounded, Hc.
  - intros i Hi. pose proof Hs as (_ & _ & Hc')%step_inv. rewrite Hc' in Hi.
    cbn in Hi. unfold apply_event in Hi.
    apply list_lookup_insert_Some in Hi as [(<- & Ho & _)|[_ Hi]];
      [|by apply (contained_running _ _ _ Hc)].
    destruct (idle e) eqn:Ei; [by destruct e|]. by apply (contained_subject c e c').
  - intros i a. by apply (step_contained_rest c e).
Qed.

Lemma steps_contained c es c' : contained c → steps c es c' → contained c'.
Proof. induction 2; eauto using step_contained. Qed.

(** At the start what is not stale is up to date. *)
Lemma initial_contained n : bounded s0 → contained (Config (initial n) s0).
Proof.
  intros Hb. split; [done| |].
  - by intros i [? _]%initial_lookup.
  - intros i a Ha. cbn. destruct (IsStale (stat s0) a (prior s0)) eqn:Est.
    + left. apply affected_stale. by rewrite (stale_of_lookup _ _ _ _ _ Ha).
    + right. split; [by apply IsStale_false_up_to_date|done].
Qed.

(** What starts in a run of the build is affected. *)
Lemma steps_start_affected n es c i :
  bounded s0 → steps (Config (initial n) s0) es c → EStart i ∈ es → affected i.
Proof.
  intros Hb Hr (es1 & es2 & ->)%list_elem_of_split.
  apply steps_app in Hr as (c1 & H1 & H2).
  inversion H2 as [|? ? c2 ? ? Hs _]; subst.
  apply (contained_subject c1 (EStart i) c2); [|done..].
  by eapply steps_contained; [apply initial_contained|].
Qed.

End minimality.

Section exactness.
Context (tl : tools) (invs : list Invocation.t) (s0 : store) (g : graph).
Context (slots : nat) (fail_fast : bool).
Context (Hbuild : build invs = inr g) (Htidy : tidy tl invs (prior s0)).
Implicit Types (c : config store) (s : store) (e : event) (a b : Invocation.t).

Local Abbreviation step := (@step store (build_world tl invs) (preds g) slots fail_fast).
Local Abbreviation steps := (@steps store (build_world tl invs) (preds g) slots fail_fast).
Local Abbreviation driven := (driven invs s0).
Local Abbreviation affected := (affected invs s0).
Local Abbreviation pushed := (pushed invs s0).
Local Abbreviation stale_in s a := (IsStale (stat s) a (prior s)).

Lemma unique_disjoint i j a b o :
  invs !! i = Some a → invs !! j = Some b → i ≠ j →
  o ∈ Invocation.outputs a → o ∉ Invocation.outputs b.
Proof.
  intros Ha Hb Hij Ho Ho'. destruct (build_Some _ _ Hbuild) as (m & Hm & _).
  by apply Hij, (register_unique _ _ Hm i j a b o).
Qed.

Lemma affected_lookup i : affected i → is_Some (invs !! i).
Proof.
  intros [i' Hst|j i' _ (a & _ & _ & -> & _)]; [|done].
  unfold stale_of in Hst. by destruct (invs !! i').
Qed.

(** No event writes an output of another invocation. *)
Lemma touched_outputs e b i a o :
  invs !! subject e = Some b → invs !! i = Some a → i ≠ subject e →
  o ∈ Invocation.outputs a → o ∉ touched tl e b.
Proof.
  intros Hb Ha Hne Ho [[Ho' _]|[Haux _]]%touched_owner.
  - by apply (unique_disjoint i (subject e) a b o).
  - by apply (tidy_separate _ _ _ Htidy _ _ b a o Hb Ha).
Qed.

(** An invocation that is stale stays stale while others run. *)
Lemma step_stale_persists c e c' i a :
  bounded (env c) → step c e c' → invs !! i = Some a → i ≠ subject e →
  stale_in (env c) a = true → stale_in (env c') a = true.
Proof.
  intros Hbd Hs Ha Hne Hst.
  destruct (idle e) eqn:Ei; [by rewrite (step_idle _ _ _ _ _ _ Hs Ei)|].
  pose proof Hs as (_ & _ & ->)%step_inv. cbn [fire env].
  change (effect e (env c)) with (change tl invs e (env c)).
  destruct (invs !! subject e) as [b|] eqn:Hb; [|unfold change; by rewrite Ei, Hb].
  destruct (change_stat tl invs e (env c) b Ei Hb) as [-> Hp].
  pose proof (distinct_keys tl invs _ g Hbuild Htidy _ _ _ _ Hb Ha (not_eq_sym Hne)) as Hkey.
  rewrite (IsStale_prior _ _ _ (prior (env c))) by by apply Hp.
  rewrite stat_written. apply touch_persists; [|by eauto using touched_outputs|done].
  intros ??. by apply bounded_before.
Qed.

(** When an invocation has succeeded, a waiting invocation that watches
    what it produces is stale. *)
Lemma step_succeeded_stale c k c' i a st :
  driven c → step c (ESucceed k) c' → consumes invs (prior s0) k i →
  invs !! i = Some a → statuses c !! i = Some st → waiting st = true →
  stale_in (env c') a = true.
Proof.
  intros Hd Hs (a' & b & x & Ha' & Hb & Hx & Hw) Ha Hi Hwait. simplify_eq.
  pose proof Hs as (Hsrc & _ & ->)%step_inv. cbn [fire env subject source_of] in *.
  change (effect (ESucceed k) (env c)) with (change tl invs (ESucceed k) (env c)).
  assert (i ≠ k) as Hne by (intros ->; rewrite Hsrc in Hi; by simplify_eq).
  assert (st ≠ Succeeded) as Hns by (by destruct st).
  rewrite (change_succeeded _ _ _ _ _ Hb).
  rewrite (IsStale_prior _ _ _ (prior (env c)));
    [|by apply lookup_insert_ne, (distinct_keys tl invs _ g Hbuild Htidy k i b a')].
  change (stat (recorded_as _ _ ?s)) with (stat s). rewrite stat_written.
  rewrite <-(watched_prior a' _ _ (driven_record _ _ _ Hd i a' st Ha' Hi Hns)) in Hw.
  pose proof (tidy_outputs _ _ _ Htidy i a' Ha') as Hout.
  destruct (Invocation.outputs a') as [|o os] eqn:Eo; [done|].
  apply (touch_newer _ _ _ _ _ x o); try done.
  - intros ??. by apply bounded_before, Hd.
  - rewrite Eo. left.
  - apply (unique_disjoint i k a' b); [done..|]. rewrite Eo. left.
Qed.

(** An affected invocation that is ready has a reason to run. *)
Lemma affected_pushed c i :
  driven c → ordered (preds g) (statuses c) →
  affected i → statuses c !! i = Some Ready → pushed c i.
Proof.
  intros Hd Hord. induction 1 as [i Hst|j i Hj IH Hji]; intros Hi; [by left|].
  destruct (decide (j = i)) as [->|Hne]; [by apply IH|]. right. exists j. split; [done|].
  destruct Hji as (a & b & x & Ha & Hb & Hx & Hw).
  assert (depends invs j i) as Hdep%(build_edge invs g Hbuild).
  { apply (tidy_produced _ _ _ Htidy i j a b x); try done. apply elem_of_app. by left. }
  pose proof (Hord i Ready j Hi eq_refl Hdep) as [?|Hsk]%is_finished_true; [done|].
  by destruct (driven_skipped _ _ _ Hd j Hj).
Qed.

(** The record of an invocation changes only when it succeeds. *)
Lemma change_record e s i a :
  invs !! i = Some a → e ≠ ESucceed i →
  prior (change tl invs e s) !! Invocation.outputs a = prior s !! Invocation.outputs a.
Proof.
  intros Ha He. rewrite change_prior. destruct e as [| | | |k| |]; try done.
  destruct (invs !! k) as [b|] eqn:Hb; [cbn|done].
  apply lookup_insert_ne, (distinct_keys tl invs _ g Hbuild Htidy k i b a Hb Ha). congruence.
Qed.

Lemma step_driven_record c e c' i a st :
  driven c → step c e c' → invs !! i = Some a →
  statuses c' !! i = Some st → st ≠ Succeeded →
  prior (env c') !! Invocation.outputs a = prior s0 !! Invocation.outputs a.
Proof.
  intros Hd Hs Ha Hi Hns.
  assert (e ≠ ESucceed i ∧ ∃ st0, statuses c !! i = Some st0 ∧ st0 ≠ Succeeded)
    as (He & st0 & Hi0 & Hns0).
  { destruct (step_status _ _ _ _ _ _ _ _ Hs Hi) as [(-> & -> & ?)|[? ?]].
    - split; [by destruct e|]. eexists. split; [done|]. by destruct e.
    - split; [by intros ->|]. by eauto. }
  rewrite <-(driven_record _ _ _ Hd i a st0 Ha Hi0 Hns0).
  pose proof Hs as (_ & _ & ->)%step_inv. by apply (change_record e _ i).
Qed.

Lemma step_driven_stale c e c' i a st :
  driven c → step c e c' → invs !! i = Some a →
  statuses c' !! i = Some st → waiting st = true → pushed c' i →
  stale_in (env c') a = true.
Proof.
  intros Hd Hs Ha Hi Hw Hp.
  destruct (step_status _ _ _ _ _ _ _ _ Hs Hi) as [(-> & -> & Hi0)|[Hne Hi0]].
  - assert (idle e = true ∧ waiting (source_of e) = true) as [Hidle Hw0] by by destruct e.
    rewrite (step_idle _ _ _ _ _ _ Hs Hidle).
    apply (driven_stale _ _ _ Hd _ a _ Ha Hi0 Hw0).
    destruct Hp as [?|(j & Hji & Hj)]; [by left|]. right. exists j. split; [done|].
    destruct (step_status _ _ _ _ _ _ _ _ Hs Hj) as [(-> & Ho & _)|[_ ?]]; [|done].
    by destruct e.
  - destruct Hp as [Hst|(j & Hji & Hj)].
    + apply (step_stale_persists c e c' i a); [apply Hd|done..|].
      apply (driven_stale _ _ _ Hd i a st Ha Hi0 Hw). by left.
    + destruct (step_status _ _ _ _ _ _ _ _ Hs Hj) as [(-> & Ho & _)|[_ Hj0]].
      * assert (e = ESucceed (subject e)) as He by by destruct e.
        rewrite He in Hs. by apply (step_succeeded_stale c (subject e) c' i a st).
      * apply (step_stale_persists c e c' i a); [apply Hd|done..|].
        apply (driven_stale _ _ _ Hd i a st Ha Hi0 Hw). right. by exists j.
Qed.

Lemma step_driven_skipped c e c' i :
  driven c → ordered (preds g) (statuses c) → step c e c' →
  affected i → statuses c' !! i ≠ Some Skipped.
Proof.
  intros Hd Hord Hs Hi Hsk.
  destruct (step_status _ _ _ _ _ _ _ _ Hs Hsk) as [(-> & Ho & Hi0)|[_ Hi0]];
    [|by apply (driven_skipped _ _ _ Hd i)].
  destruct e as [|k| | | | |]; try done. cbn [subject source_of] in *.
  destruct (affected_lookup k Hi) as [a Ha].
  pose proof (driven_stale _ _ _ Hd k a Ready Ha Hi0 eq_refl (affected_pushed c k Hd Hord Hi Hi0))
    as Hst.
  apply step_inv in Hs as (_ & Hg & _). unfold guard_in in Hg. apply guard_skip in Hg.
  cbn in Hg. rewrite (stale_of_lookup _ _ _ _ _ Ha) in Hg. congruence.
Qed.

Lemma step_driven c e c' :
  driven c → ordered (preds g) (statuses c) → step c e c' → driven c'.
Proof.
  intros Hd Hord Hs. split.
  - pose proof Hs as (_ & _ & ->)%step_inv. apply change_bounded, Hd.
  - intros i a st. by apply (step_driven_record c e).
  - intros i a st. by apply (step_driven_stale c e).
  - intros i. by apply (step_driven_skipped c e).
Qed.

Lemma steps_driven c es c' :
  driven c → ordered (preds g) (statuses c) → steps c es c' → driven c'.
Proof.
  intros Hd Hord Hr. induction Hr as [|c e c1 es c' Hs _ IH]; [done|].
  apply IH; [by eapply step_driven|by eapply step_ordered].
Qed.

Lemma initial_driven n : bounded s0 → driven (Config (initial n) s0).
Proof.
  intros Hb. split; [done..| |].
  - intros i a st Ha _ _ [Hst|(j & _ & [? _]%initial_lookup)]; [|done].
    by rewrite <-(stale_of_lookup _ invs _ i).
  - by intros i _ [? _]%initial_lookup.
Qed.

(** An affected invocation of a run that has finished it has started. *)
Lemma steps_affected_start es c i st :
  bounded s0 → steps (Config (initial (length invs)) s0) es c →
  affected i → statuses c !! i = Some st → finished st = true → EStart i ∈ es.
Proof.
  intros Hb Hr Hi Hst Hfin.
  pose proof (steps_driven _ _ _ (initial_driven _ Hb) (ordered_initial _ _) Hr) as Hd.
  assert (st = Succeeded) as ->.
  { destruct st; try done. by destruct (driven_skipped _ _ _ Hd i Hi). }
  destruct (steps_status_event _ _ _ _ _ _ _ _ _ Hr Hst) as (e & He & <- & Ho); [done|].
  apply (steps_exit_started _ _ _ _ _ _ _ e Hr He). by destruct e.
Qed.

End exactness.

Section rebuild_claims.
Context (tl : tools) (invs : list Invocation.t).
Implicit Types (s : store) (c : config store) (es : list event) (g : graph).

Local Abbreviation rebuild := (rebuild tl).
Local Abbreviation steps g := (@steps store (build_world tl invs) (preds g)).
Local Abbreviation start s := (Config (initial (length invs)) s).

(** In every run of a build, an invocation is started only when it is
    affected: it was stale when the build began, or it watches, directly
    or through others, what such an invocation produces. *)
Theorem build_starts_only_affected g slots fail_fast s es c i :
  build invs = inr g → tidy tl invs (prior s) → bounded s →
  steps g slots fail_fast (start s) es c →
  EStart i ∈ es → affected invs s i.
Proof.
  intros Hg Htidy Hb Hr Hi.
  by apply (steps_start_affected tl invs s g slots fail_fast Hg Htidy (length invs) es c i).
Qed.

(** In every run of a build, an affected invocation is never skipped:
    when it has finished, it has been started. *)
Theorem build_starts_all_affected g slots fail_fast s es c i st :
  build invs = inr g → tidy tl invs (prior s) → bounded s →
  steps g slots fail_fast (start s) es c →
  affected invs s i → statuses c !! i = Some st → finished st = true →
  EStart i ∈ es ∧ st = Succeeded.
Proof.
  intros Hg Htidy Hb Hr Hi Hst Hfin. split.
  - by apply (steps_affected_start tl invs s g slots fail_fast Hg Htidy es c i st).
  - pose proof (steps_driven tl invs s g _ _ Hg Htidy _ _ _
                  (initial_driven invs s _ Hb) (ordered_initial _ _) Hr) as Hd.
    destruct st; try done. by destruct (driven_skipped _ _ _ Hd i Hi).
Qed.

(** C6.  A build that succeeds runs exactly the affected invocations: those
    that were stale when it began and those that watch, directly or
    through others, what these produce; every other invocation is
    skipped. *)
Theorem rebuild_exact slots fail_fast s es c i :
  tidy tl invs (prior s) → bounded s →
  rebuild slots fail_fast invs s = inr (es, c) →
  Forall (λ st, finished st = true) (statuses c) → (i < length invs)%nat →
  (EStart i ∈ es ↔ affected invs s i)
  ∧ (ESkip i ∈ es ↔ ¬ affected invs s i).
Proof.
  intros Htidy Hb Hr Hfin Hi.
  destruct (schedule_run _ _ _ _ _ _ Hr) as (g & Hg & Hs & _ & Hlen).
  destruct (lookup_lt_is_Some_2 (statuses c) i) as [st Hst]; [by rewrite Hlen|].
  pose proof (Forall_lookup_1 _ _ _ _ Hfin Hst) as Hf.
  pose proof (steps_start_affected tl invs s g slots fail_fast Hg Htidy _ es c i Hb Hs)
    as Honly.
  pose proof (λ H, steps_affected_start tl invs s g slots fail_fast Hg Htidy es c i st Hb Hs H
                     Hst Hf) as Hall.
  split; [by split|]. split.
  - intros Hsk Ha. by pose proof (steps_same_source _ _ _ _ _ _ _ _ Hs Hsk (Hall Ha) eq_refl eq_refl).
  - intros Hna. destruct (steps_status_event _ _ _ _ _ _ _ _ _ Hs Hst) as (e & He & <- & Ho);
      [by destruct st|].
    destruct e; simplify_eq/=; try done. destruct Hna. apply Honly.
    by apply (steps_exit_started _ _ _ _ _ _ _ (ESucceed i) Hs He).
Qed.

End rebuild_claims.

Section rebuild_scenarios.

Local Abbreviation demo_world := (build_world demo_tools demo_invocations).
Local Abbreviation link := (demo_invocation ["a.o"] [] [] ["app"]).
Local Abbreviation demo_rebuilt :=
  (Config [Succeeded; Succeeded; Skipped; Skipped]
     (built (rebuild demo_tools 2 false demo_invocations demo_edited) demo_edited)).

Lemma demo_edited_bounded : bounded demo_edited.
Proof. by apply (bool_decide_unpack _); vm_compute. Defined.

Lemma demo_second_build :
  rebuild demo_tools 2 false demo_invocations demo_edited
  = inr (demo_rerun, demo_rebuilt).
Proof. vm_compute. reflexivity. Defined.

Lemma demo_second_steps :
  @steps store demo_world (preds demo_graph) 2 false
    (Config (initial (length demo_invocations)) demo_edited) demo_rerun
    demo_rebuilt.
Proof. apply (run_steps _ _ _ (budget 4)). vm_compute. reflexivity. Defined.

(** After the edit the compilation is stale and the link watches what it
    produces. *)
Lemma demo_affected_link : affected demo_invocations demo_edited 1.
Proof.
  apply (affected_consumes _ _ 0%nat); [apply affected_stale; by vm_compute|].
  exists link, (demo_invocation ["a.h"; "a.c"] [] [] ["a.o"]), "a.o".
  split_and!; [done..| |]; apply elem_of_cons; by left.
Defined.

Lemma build_starts_only_affected_witness : affected demo_invocations demo_edited 1.
Proof.
  apply (build_starts_only_affected demo_tools demo_invocations demo_graph 2 false
           demo_edited demo_rerun demo_rebuilt 1 demo_build);
    [by apply demo_tidy|apply demo_edited_bounded|exact demo_second_steps|].
  do 6 right. left.
Defined.

Lemma build_starts_all_affected_witness : EStart 1 ∈ demo_rerun ∧ Succeeded = Succeeded.
Proof.
  apply (build_starts_all_affected demo_tools demo_invocations demo_graph 2 false
           demo_edited demo_rerun demo_rebuilt 1 Succeeded demo_build);
    [by apply demo_tidy|apply demo_edited_bounded|exact demo_second_steps
    |exact demo_affected_link|done..].
Defined.

Lemma rebuild_exact_witness :
  (EStart 3 ∈ demo_rerun ↔ affected demo_invocations demo_edited 3)
  ∧ (ESkip 3 ∈ demo_rerun ↔ ¬ affected demo_invocations demo_edited 3).
Proof.
  apply (rebuild_exact demo_tools demo_invocations 2 false demo_edited demo_rerun
           demo_rebuilt 3);
    [by apply demo_tidy|apply demo_edited_bounded|exact demo_second_build| |cbn; lia].
  by repeat constructor.
Defined.

(** After the edit the program is linked again, and the invocation that
    strips it, which is ordered after the link and watches nothing, is
    skipped: the stripped program is older than the program. *)
Example order_dependent_left_behind :
  let s := built (rebuild demo_tools 2 false demo_invocations demo_edited) demo_edited in
  ESkip 3 ∈ demo_rerun ∧ tc (depends demo_invocations) 0%nat 3%nat
  ∧ stat s "app" = Some 14 ∧ stat s "app.stripped" = Some 9.
Proof.
  split_and!; [do 9 right; left| |by vm_compute..].
  apply (tc_l _ 0 1 3)%nat; [exact demo_depends_link|exact (tc_once _ _ _ demo_depends_strip)].
Qed.

End rebuild_scenarios.
