(* ===== verification/Execution.v ===== *)
(** * The invocations run on the file tree

    The scheduler of [Scheduler] with the materializer of
    [AuxiliaryFiles], the reader of [DependencyInfoReader] and a
    process-spawn capability, over the file tree of [Posix] on which
    [DefaultFilesystem] works (sections 4.1, 4.2, 4.3, 4.5, 6 and 7 of
    the specification).  No code of it is among the sources: the
    definitions follow the specification, over [Invocation.t] and the
    methods of [DefaultFilesystem] of the sources.

    A [site] is the file tree with the inputs that the tools have
    reported.  Starting an invocation materializes its auxiliary files in
    their order; the process is spawned on the executable that the
    invocation names, which has to be executable for [DefaultFilesystem]
    or a built-in tool; what the process writes is seen when it exits;
    after an exit with status zero the dependency-info files of the
    invocation are parsed in the tree that the process has left, and an
    error of the parser fails the invocation.  What a program does to the
    tree is the record [programs]; the staleness decision is a parameter,
    since the tree has no modification times ([Build] has them).

    [file_world] is the instance of the scheduler's [Oracle], and
    [execute] the scheduler run in it. *)

From Stdlib Require Import ZArith Lia.
From stdpp Require Import gmap strings list.
From S2P Require Import Prelude StdString Posix PosixRename DefaultFilesystem Invocation.
From S2P Require Import DependencyInfoReader AuxiliaryFiles InvocationGraph Scheduler.

#[local] Set Warnings "-clear-no-such-hyp".

Open Scope Z_scope.

(** ** The process-spawn capability *)

Inductive SpawnError : Type :=
  | NoExecutable                       (* the invocation names no executable *)
  | NotExecutable (path : string)      (* not found, or not executable *)
  | UnknownBuiltin (name : string).

#[global] Instance SpawnError_eq_dec : EqDecision SpawnError.
Proof. solve_decision. Defined.

(** What a program does: its exit status and the tree it leaves. *)
Record programs : Type := Programs {
  program_at : string → Invocation.t → world → Z * world;
  builtin_tool : string → option (Invocation.t → world → Z * world);
}.

(** [spawn] and the blocking wait: an external executable has to be
    executable; a built-in tool is run by the build itself. *)
Definition spawn (pg : programs) (inv : Invocation.t) (w : world)
  : SpawnError + (Z * world) :=
  match Invocation.executable inv with
  | None => inl NoExecutable
  | Some exe =>
    match Executable.external exe, Executable.builtin exe with
    | Some path, _ =>
      if isExecutable w path then inr (program_at pg path inv w)
      else inl (NotExecutable path)
    | None, Some name =>
      match builtin_tool pg name with
      | Some tool => inr (tool inv w)
      | None => inl (UnknownBuiltin name)
      end
    | None, None => inl NoExecutable
    end
  end.

(** The dependency-info files of an invocation, in their order, up to
    the first that is refused: the inputs they report. *)
Fixpoint parse_all (w : world) (infos : list DependencyInfo.t)
  : outcome (parse (gset string)) :=
  match infos with
  | [] => Done (Accept ∅)
  | info :: infos' =>
    r ← Parse w info;
    match r with
    | Reject e => Done (Reject e)
    | Accept found =>
      rs ← parse_all w infos';
      Done (match rs with
            | Accept more => Accept (found ∪ more)
            | Reject e => Reject e
            end)
    end
  end.

(** ** The world of the scheduler *)

Record site : Type := Site {
  tree : world;
  discovered : gmap nat (gset string);   (* the inputs reported, by invocation *)
}.

(** Why a process has not succeeded. *)
Inductive ExecutionError : Type :=
  | Spawn (e : SpawnError)
  | ExitStatus (status : Z)
  | DependencyInfoParse (e : ParseError)
  | Thrown (f : fault).

Section execution.
Context (temporary : string → string) (pg : programs).
Context (stale : site → nat → bool) (invs : list Invocation.t).

(** The materialization before the invocation at [i] is spawned. *)
Definition prepared (s : site) (i : nat) : outcome (option AuxiliaryFileError * world) :=
  match invs !! i with
  | Some inv => materialize_all temporary (tree s) (Invocation.auxiliaryFiles inv)
  | None => Done (None, tree s)
  end.

(** The process of the invocation at [i]: the tree it leaves, and the
    inputs it has reported or the reason of its failure. *)
Definition executed (s : site) (i : nat) : world * (ExecutionError + gset string) :=
  match invs !! i with
  | None => (tree s, inl (Spawn NoExecutable))
  | Some inv =>
    match spawn pg inv (tree s) with
    | inl e => (tree s, inl (Spawn e))
    | inr (status, w') =>
      if decide (status = 0) then
        match parse_all w' (Invocation.dependencyInfo inv) with
        | Done (Accept found) => (w', inr found)
        | Done (Reject e) => (w', inl (DependencyInfoParse e))
        | Fault f => (w', inl (Thrown f))
        end
      else (w', inl (ExitStatus status))
    end
  end.

Definition can_prepare (s : site) (i : nat) : bool :=
  match prepared s i with
  | Done (None, _) => true
  | _ => false
  end.

Definition succeeds (s : site) (i : nat) : bool :=
  match (executed s i).2 with
  | inr _ => true
  | inl _ => false
  end.

(** What an event does to the site. *)
Definition perform (e : event) (s : site) : site :=
  match e with
  | EStart i | EAuxFail i =>
    match prepared s i with
    | Done (_, w') => Site w' (discovered s)
    | Fault _ => s
    end
  | ESucceed i | EFail i =>
    match executed s i with
    | (w', inr found) => Site w' (<[i := found]> (discovered s))
    | (w', inl _) => Site w' (discovered s)
    end
  | EReady _ | ESkip _ | ECascade _ => s
  end.

Lemma perform_idle e s : idle e = true → perform e s = s.
Proof. by destruct e. Qed.

Definition file_world : Oracle site :=
  {| is_stale := stale; materializes := can_prepare; exits_ok := succeeds;
     effect := perform; effect_idle := perform_idle |}.

(** The scheduler on the file tree. *)
Definition execute (slots : nat) (fail_fast : bool) (s : site)
  : GraphError + (list event * config site) :=
  @schedule site file_world slots fail_fast invs s.

End execution.

(** Programs that keep the tree well formed. *)
Record programs_wf (pg : programs) : Prop := {
  program_at_wf : ∀ path inv w, fs_wf w → fs_wf (program_at pg path inv w).2;
  builtin_tool_wf : ∀ name tool inv w,
    builtin_tool pg name = Some tool → fs_wf w → fs_wf (tool inv w).2;
}.

(** ** Scenario

    The file tree of [AuxiliaryFiles.scenario_world].  A compiler, built
    into the tool, that needs the header [/a/x.h] written before it runs,
    writes [/a/x.o] and reports the header; a second invocation copies
    the object file. *)

(** A tool that writes its outputs, and [report] as its dependency
    info. *)
Definition compiles (report : list byte) (inv : Invocation.t) (w : world) : Z * world :=
  let w1 := foldl (λ w output, (write w [Byte.x7f] output).2) w (Invocation.outputs inv) in
  (0, foldl (λ w info, (write w report (DependencyInfo.path info)).2) w1
        (Invocation.dependencyInfo inv)).

(** A tool that copies its input to its output. *)
Definition copies (inv : Invocation.t) (w : world) : Z * world :=
  match Invocation.inputs inv, Invocation.outputs inv with
  | [input], [output] =>
    match read w [] input 0 None with
    | Done (true, contents) =>
      let '(ok, w') := write w contents output in (if ok : bool then 0 else 1, w')
    | _ => (1, w)
    end
  | _, _ => (2, w)
  end.

Definition site_programs (report : list byte) : programs :=
  Programs (λ _, compiles report)
    (λ name, if decide (name = "builtin-cc") then Some (compiles report)
             else if decide (name = "builtin-copy") then Some copies else None).

Definition site_compile : Invocation.t :=
  Invocation.Build (Executable.Determine "builtin-cc") [] ∅ "/a" ["/a/ten"] ["/a/x.o"]
    [] [] [] [DependencyInfo.Build DependencyInfo.Binary "/a/x.d"] [scenario_file]
    "" false false.

Definition site_copy : Invocation.t :=
  Invocation.Build (Executable.Determine "builtin-copy") [] ∅ "/a" ["/a/x.o"] ["/a/app"]
    [] [] [] [] [] "" false false.

Definition site_invocations : list Invocation.t := [site_compile; site_copy].

(** The same with a header that copies a file that is not there. *)
Definition site_unreadable : list Invocation.t :=
  [ Invocation.Build (Executable.Determine "builtin-cc") [] ∅ "/a" ["/a/ten"] ["/a/x.o"]
      [] [] [] []
      [AuxiliaryFile.Build "/a/x.h" [Chunk.Data scenario_define; Chunk.File "/a/none"] false]
      "" false false;
    site_copy ].

(** The same with a script beside the header. *)
Definition site_scripted : list Invocation.t :=
  [ Invocation.Build (Executable.Determine "builtin-cc") [] ∅ "/a" ["/a/ten"] ["/a/x.o"]
      [] [] [] [DependencyInfo.Build DependencyInfo.Binary "/a/x.d"]
      [scenario_file; scenario_script] "" false false;
    site_copy ].

Definition site_start : site := Site scenario_world ∅.

(** The predecessors in the graph of the two invocations. *)
Definition site_preds : list (list nat) := [[]; [0%nat]].

(** The report of the header, whole and cut after four bytes. *)
Definition good_report : list byte := encode_inputs Byte.x01 {["/a/x.h"]}.

Definition cut_report : list byte := take 4 good_report.

Definition site_run (report : list byte) : GraphError + (list event * config site) :=
  execute dot_tmp (site_programs report) (λ _ _, true) site_invocations 1 false site_start.

(** What a run has done and left. *)
Definition site_events (r : GraphError + (list event * config site)) : list event :=
  match r with
  | inr (es, _) => es
  | inl _ => []
  end.

Definition site_end (r : GraphError + (list event * config site)) : config site :=
  match r with
  | inr (_, c) => c
  | inl _ => Config [] site_start
  end.

(** * Theorems *)

Section capabilities.
Context (temporary : string → string) (pg : programs).
Implicit Types (w : world) (inv : Invocation.t) (infos : list DependencyInfo.t).

Lemma spawn_wf inv w status w' :
  programs_wf pg → fs_wf w → spawn pg inv w = inr (status, w') → fs_wf w'.
Proof.
  intros [Hp Hb] Hw. unfold spawn.
  destruct (Invocation.executable inv) as [[[path|] [name|]]|]; cbn; try done.
  1,2: destruct (isExecutable w path); [|done]; intros [= E];
       specialize (Hp path inv w Hw); by rewrite E in Hp.
  destruct (builtin_tool pg name) as [tool|] eqn:Et; [|done]. intros [= E].
  specialize (Hb name tool inv w Et Hw). by rewrite E in Hb.
Qed.

Lemma materialize_wf w a e w' :
  fs_wf w → materialize temporary w a = Done (e, w') → fs_wf w'.
Proof.
  intros Hw. unfold materialize. destruct (resolve w _) as [[err|contents]|]; cbn; [| |done].
  - by intros [= _ <-].
  - intros [= E]. pose proof (install_wf temporary w (AuxiliaryFile.path a)
      (AuxiliaryFile.executable a) contents Hw) as Hi. by rewrite E in Hi.
Qed.

Lemma materialize_all_wf files w e w' :
  fs_wf w → materialize_all temporary w files = Done (e, w') → fs_wf w'.
Proof.
  revert w. induction files as [|a files IH]; intros w Hw; cbn; [by intros [= _ <-]|].
  destruct (materialize temporary w a) as [[[err|] w1]|] eqn:Em; cbn; [| |done].
  - intros [= _ <-]. by eapply materialize_wf.
  - apply IH. by eapply materialize_wf.
Qed.

(** The inputs that [parse_all] reports are those of the files, and
    every file has been accepted. *)
Lemma parse_all_Accept w infos found :
  parse_all w infos = Done (Accept found) ↔
  ∃ founds, Forall2 (λ info f, Parse w info = Done (Accept f)) infos founds
    ∧ found = ⋃ founds.
Proof.
  revert found. induction infos as [|info infos IH]; intros found; cbn.
  { split; [intros [= <-]; by exists []|]. by intros (? & ->%Forall2_nil_inv_l & ->). }
  split.
  - destruct (Parse w info) as [[f|e]|] eqn:Ep; cbn; [|done..].
    destruct (parse_all w infos) as [[more|e]|]; cbn; [|done..].
    intros [= <-]. destruct (proj1 (IH more) eq_refl) as (founds & Hf & ->).
    exists (f :: founds). split; [by constructor|done].
  - intros (founds & Hf & ->). apply Forall2_cons_inv_l in Hf as (f & fs & Hp & Hf & ->).
    rewrite Hp. cbn. by rewrite (proj2 (IH (⋃ fs))) by eauto.
Qed.

(** The first file that is refused fails the whole. *)
Lemma parse_all_Reject w pre founds info post e :
  Forall2 (λ info f, Parse w info = Done (Accept f)) pre founds →
  Parse w info = Done (Reject e) →
  parse_all w (pre ++ info :: post) = Done (Reject e).
Proof.
  intros Hpre Hp. induction Hpre as [|i f pre founds Hi _ IH]; cbn; [by rewrite Hp|].
  by rewrite Hi; cbn; rewrite IH.
Qed.

End capabilities.

Section site_steps.
Context (temporary : string → string) (pg : programs).
Context (stale : site → nat → bool) (invs : list Invocation.t).
Context (preds : list (list nat)) (slots : nat) (fail_fast : bool).
Implicit Types (c : config site) (s : site) (e : event) (es : list event).
Implicit Types (inv : Invocation.t) (w : world).

Local Abbreviation file_world := (file_world temporary pg stale invs).
Local Abbreviation step := (@step site file_world preds slots fail_fast).
Local Abbreviation steps := (@steps site file_world preds slots fail_fast).
Local Abbreviation prepare s inv :=
  (materialize_all temporary (tree s) (Invocation.auxiliaryFiles inv)).

Lemma step_start c i c' inv :
  step c (EStart i) c' → invs !! i = Some inv →
  stale (env c) i = true
  ∧ prepare (env c) inv = Done (None, tree (env c'))
  ∧ discovered (env c') = discovered (env c).
Proof.
  intros (_ & Hg & ->)%step_inv Hi. unfold guard_in in Hg.
  apply guard_start in Hg as [Hst Hm]. split; [done|].
  cbn [materializes file_world Execution.file_world] in Hm.
  cbn [fire env effect file_world Execution.file_world perform].
  unfold can_prepare, prepared in *. rewrite Hi in *.
  by destruct (materialize_all _ _ _) as [[[err|] w']|].
Qed.

Lemma step_aux_fail c i c' inv :
  step c (EAuxFail i) c' → invs !! i = Some inv →
  (∃ err, prepare (env c) inv = Done (Some err, tree (env c')))
  ∨ (∃ f, prepare (env c) inv = Fault f ∧ env c' = env c).
Proof.
  intros (_ & Hg & ->)%step_inv Hi. unfold guard_in in Hg.
  apply andb_true_iff in Hg as [_ Hm%negb_true_iff].
  cbn [materializes file_world Execution.file_world] in Hm.
  cbn [fire env effect file_world Execution.file_world perform].
  unfold can_prepare, prepared in *. rewrite Hi in *.
  destruct (materialize_all _ _ _) as [[[err|] w']|]; [by left; eauto|done|by right; eauto].
Qed.

Lemma step_succeed c i c' inv :
  step c (ESucceed i) c' → invs !! i = Some inv →
  ∃ w' found,
    spawn pg inv (tree (env c)) = inr (0, w')
    ∧ parse_all w' (Invocation.dependencyInfo inv) = Done (Accept found)
    ∧ env c' = Site w' (<[i := found]> (discovered (env c))).
Proof.
  intros (_ & Hg & ->)%step_inv Hi. unfold guard_in in Hg.
  cbn [guard exits_ok file_world Execution.file_world] in Hg.
  cbn [fire env effect file_world Execution.file_world perform].
  unfold succeeds, executed in *. rewrite Hi in *.
  destruct (spawn pg inv _) as [e|[status w']]; [done|].
  case_decide as Hs; [subst status|done].
  destruct (parse_all w' _) as [[found|e]|] eqn:Ep; [|done..]. by exists w', found.
Qed.

(** Only the success of an invocation changes what is recorded for
    it. *)
Lemma step_discovered c e c' j :
  step c e c' → e ≠ ESucceed j → discovered (env c') !! j = discovered (env c) !! j.
Proof.
  intros (_ & Hg & ->)%step_inv He.
  cbn [fire env effect file_world Execution.file_world]. unfold perform.
  destruct e as [| |i|i|i|i|]; try done.
  1,2: by destruct (prepared _ _ _ _) as [[? ?]|].
  - assert (i ≠ j) by congruence.
    destruct (executed _ _ _ _) as [w' [err|found]]; cbn; [done|by rewrite lookup_insert_ne].
  - unfold guard_in in Hg. cbn [guard exits_ok file_world Execution.file_world] in Hg.
    apply negb_true_iff in Hg. unfold succeeds in Hg.
    by destruct (executed _ _ _ _) as [w' [err|found]].
Qed.

Lemma steps_discovered c es c' j :
  steps c es c' → ESucceed j ∉ es → discovered (env c') !! j = discovered (env c) !! j.
Proof.
  induction 1 as [|c e c1 es c2 Hs _ IH]; [done|].
  intros [He Hes]%not_elem_of_cons. rewrite IH by done.
  by eapply step_discovered.
Qed.

(** Every step keeps the tree well formed, when the programs do. *)
Lemma step_wf c e c' :
  programs_wf pg → step c e c' → fs_wf (tree (env c)) → fs_wf (tree (env c')).
Proof.
  intros Hpg (_ & _ & ->)%step_inv Hw.
  cbn [fire env effect file_world Execution.file_world]. unfold perform.
  destruct e as [| |i|i|i|i|]; try done.
  1,2: unfold prepared; destruct (invs !! i) as [inv|]; [|done];
       destruct (materialize_all _ _ _) as [[err w']|] eqn:Em; [|done];
       by eapply materialize_all_wf.
  all: unfold executed; destruct (invs !! i) as [inv|]; [|done];
       destruct (spawn pg inv _) as [err|[status w']] eqn:Es; [done|];
       pose proof (spawn_wf pg inv _ _ _ Hpg Hw Es);
       case_decide; [|done]; by destruct (parse_all _ _) as [[?|?]|].
Qed.

End site_steps.

Section execution_claims.
Context (temporary : string → string) (pg : programs).
Context (stale : site → nat → bool) (invs : list Invocation.t).
Context (preds : list (list nat)) (slots : nat) (fail_fast : bool).
Implicit Types (c : config site) (s : site) (e : event) (es : list event).
Implicit Types (inv : Invocation.t) (w : world).

Local Abbreviation file_world := (file_world temporary pg stale invs).
Local Abbreviation step := (@step site file_world preds slots fail_fast).
Local Abbreviation steps := (@steps site file_world preds slots fail_fast).
Local Abbreviation enabled_in := (@enabled_in site file_world preds slots fail_fast).
Local Abbreviation prepare s inv :=
  (materialize_all temporary (tree s) (Invocation.auxiliaryFiles inv)).

(** In every run, when an invocation starts it is stale and all its
    auxiliary files have just been materialized, in their order and
    without an error: the tree in which its process is spawned is the one
    that the materializer has left. *)
Theorem start_after_materialization c0 es1 i es2 c inv :
  steps c0 (es1 ++ EStart i :: es2) c → invs !! i = Some inv →
  ∃ c1 c2, steps c0 es1 c1 ∧ steps c2 es2 c
    ∧ stale (env c1) i = true
    ∧ prepare (env c1) inv = Done (None, tree (env c2))
    ∧ statuses c2 !! i = Some Running.
Proof.
  intros (c1 & H1 & H2)%steps_app Hi. inversion H2 as [|? ? c2 ? ? Hs Hr]; subst.
  destruct (step_start _ _ _ _ _ _ _ _ _ _ _ Hs Hi) as (Hst & Hm & _).
  exists c1, c2. split_and!; try done.
  apply step_inv in Hs as (Hsrc & _ & ->). cbn [fire statuses]. unfold apply_event.
  apply list_lookup_insert_eq. by eapply lookup_lt_Some.
Qed.

(** An invocation whose auxiliary files cannot be materialized fails
    before it is spawned: the materializer has reported an error or
    thrown, and the run has no start and no exit of its process. *)
Theorem auxiliary_error_fails_unspawned c0 es1 i es2 c inv :
  steps c0 (es1 ++ EAuxFail i :: es2) c → invs !! i = Some inv →
  ∃ c1, steps c0 es1 c1
    ∧ can_prepare temporary invs (env c1) i = false
    ∧ statuses c !! i = Some Failed
    ∧ EStart i ∉ es1 ++ EAuxFail i :: es2.
Proof.
  intros Hr Hi. pose proof Hr as (c1 & H1 & H2)%steps_app. exists c1.
  inversion H2 as [|? ? c2 ? ? Hs Hr2]; subst. split; [done|].
  pose proof Hs as (Hsrc & Hg & ->)%step_inv. split_and!.
  - unfold guard_in in Hg. by apply andb_true_iff in Hg as [_ Hm%negb_true_iff].
  - eapply steps_terminal; [exact Hr2| |done]. cbn [fire statuses]. unfold apply_event.
    apply list_lookup_insert_eq. by eapply lookup_lt_Some.
  - intros Hin. assert (EAuxFail i ∈ es1 ++ EAuxFail i :: es2) as Hin' by set_solver.
    by pose proof (steps_same_source _ _ _ _ _ _ _ _ Hr Hin Hin' eq_refl eq_refl).
Qed.

(** C17.  An invocation succeeds only when its process has exited with status
    zero and every dependency-info file it names has been accepted in the
    tree that the process has left; the inputs that the files report are
    recorded for the invocation and are still recorded when the run
    ends. *)
Theorem success_records_reported_inputs c0 es1 i es2 c inv :
  steps c0 (es1 ++ ESucceed i :: es2) c → invs !! i = Some inv →
  ∃ c1 w' founds, steps c0 es1 c1
    ∧ spawn pg inv (tree (env c1)) = inr (0, w')
    ∧ Forall2 (λ info f, Parse w' info = Done (Accept f))
        (Invocation.dependencyInfo inv) founds
    ∧ discovered (env c) !! i = Some (⋃ founds).
Proof.
  intros Hr Hi. pose proof Hr as (c1 & H1 & H2)%steps_app.
  inversion H2 as [|? ? c2 ? ? Hs Hr2]; subst.
  destruct (step_succeed _ _ _ _ _ _ _ _ _ _ _ Hs Hi) as (w' & found & Hsp & Hp & Hc2).
  apply parse_all_Accept in Hp as (founds & Hf & ->).
  exists c1, w', founds. split_and!; try done.
  rewrite (steps_discovered _ _ _ _ _ _ _ _ _ _ _ Hr2), Hc2; [by cbn; rewrite lookup_insert_eq|].
  pose proof (steps_NoDup _ _ _ _ _ _ Hr) as Hnd.
  apply NoDup_app in Hnd as (_ & _ & Hnd). by inversion Hnd.
Qed.

(** C29.  A dependency-info file that cannot be parsed fails the invocation,
    though its process has exited with status zero: the success is not
    enabled and the failure is, and nothing is recorded. *)
Theorem unparsed_dependency_info_fails c i inv w' pre founds info post err :
  statuses c !! i = Some Running → invs !! i = Some inv →
  spawn pg inv (tree (env c)) = inr (0, w') →
  Invocation.dependencyInfo inv = pre ++ info :: post →
  Forall2 (λ info f, Parse w' info = Done (Accept f)) pre founds →
  Parse w' info = Done (Reject err) →
  enabled_in c (ESucceed i) = false
  ∧ step c (EFail i) (Config (<[i := Failed]> (statuses c)) (Site w' (discovered (env c)))).
Proof.
  intros Hst Hi Hsp Hd Hpre Hp.
  assert (executed pg invs (env c) i = (w', inl (DependencyInfoParse err))) as He.
  { unfold executed. rewrite Hi, Hsp, decide_True by done.
    by rewrite Hd, (parse_all_Reject _ _ _ _ _ _ Hpre Hp). }
  split.
  - apply not_true_is_false. intros [_ Hg]%enabled_in_spec. unfold guard_in in Hg.
    cbn [guard exits_ok file_world Execution.file_world] in Hg. unfold succeeds in Hg.
    by rewrite He in Hg.
  - apply step_inv. split_and!; [done| |].
    + unfold guard_in. cbn [guard exits_ok file_world Execution.file_world].
      unfold succeeds. by rewrite He.
    + unfold fire, apply_event. cbn [effect file_world Execution.file_world perform subject
        outcome_of]. by rewrite He.
Qed.

(** Every run keeps the file tree well formed, when the programs do:
    the materializer and the parser do. *)
Theorem execution_preserves_wf c0 es c :
  programs_wf pg → steps c0 es c → fs_wf (tree (env c0)) → fs_wf (tree (env c)).
Proof.
  intros Hpg. induction 1 as [|c e c1 es c2 Hs _ IH]; [done|].
  intros Hw. apply IH. by eapply step_wf.
Qed.

End execution_claims.

Section started_files.
Context (temporary : string → string) (pg : programs).
Context (stale : site → nat → bool) (invs : list Invocation.t).
Context (preds : list (list nat)) (slots : nat) (fail_fast : bool).
Context (c c' : config site) (i : nat) (inv : Invocation.t) (pls : list place).

Local Abbreviation file_world := (file_world temporary pg stale invs).
Local Abbreviation w := (tree (env c)).
Local Abbreviation files := (Invocation.auxiliaryFiles inv).

(** The invocation and its auxiliary files, in a tree in which each can
    be installed at an entry of its own, and no chunk copies an entry
    that a file of the list is installed at. *)
Context (Hinv : invs !! i = Some inv).
Context (Hplaced : Forall2 (placed temporary w) files pls).
Context (Hdistinct : NoDup (places pls)).
Context (Hchunks :
  Forall (λ a, Forall (chunk_apart w (places pls)) (AuxiliaryFile.chunks a)) files).

(** C9.  When an invocation starts, its process finds every auxiliary
    file written: [DefaultFilesystem.read] returns the bytes of the
    chunks of each in their order, a file is executable when its
    description says so, and no entry of the tree but those of the files
    has changed. *)
Theorem started_file_holds_chunks :
  @step site file_world preds slots fail_fast c (EStart i) c' →
  Forall2 (λ a pl,
    read (tree (env c')) [] (AuxiliaryFile.path a) 0 None
      = Done (true, concat (at_bytes pl))
    ∧ (AuxiliaryFile.executable a = true
       → isExecutable (tree (env c')) (AuxiliaryFile.path a) = true)) files pls
  ∧ ∀ q, q ∉ places pls → nodes (tree (env c')) !! q = nodes w !! q.
Proof.
  intros Hs. destruct (step_start _ _ _ _ _ _ _ _ _ _ _ Hs Hinv) as (_ & Hm & _).
  by eapply materialize_all_readable.
Qed.

End started_files.

Section execution_scenarios.

(** The two invocations run: the header is written before the
    compiler runs, the reported input is recorded, and the copy holds what
    the compiler wrote. *)
Example site_run_succeeds :
  site_events (site_run good_report)
  = [EReady 0; EStart 0; ESucceed 0; EReady 1; EStart 1; ESucceed 1]%nat
  ∧ statuses (site_end (site_run good_report)) = [Succeeded; Succeeded]
  ∧ discovered (env (site_end (site_run good_report))) !! 0%nat = Some {["/a/x.h"]}
  ∧ read (tree (env (site_end (site_run good_report)))) [] "/a/app" 0 None
    = Done (true, [Byte.x7f])
  ∧ read (tree (env (site_end (site_run good_report)))) [] "/a/x.h" 0 None
    = Done (true, scenario_define ++ scenario_ten).
Proof. split_and!; by vm_compute. Qed.

(** A compiler that leaves its report unfinished fails, though it has
    exited with status zero, and what depends on it is not run. *)
Example site_run_cut_report :
  site_events (site_run cut_report) = [EReady 0; EStart 0; EFail 0; ECascade 1]%nat
  ∧ statuses (site_end (site_run cut_report)) = [Failed; Failed]
  ∧ discovered (env (site_end (site_run cut_report))) = ∅.
Proof. split_and!; by vm_compute. Qed.

(** A file that is not executable cannot be spawned. *)
Example spawn_not_executable :
  spawn (site_programs good_report)
    (Invocation.Build (Executable.Determine "/a/ten") [] ∅ "/a" [] [] [] [] [] [] [] ""
       false false) scenario_world
  = inl (NotExecutable "/a/ten").
Proof. by vm_compute. Qed.

Local Abbreviation site_world report invs := (file_world dot_tmp (site_programs report) (λ _ _, true) invs).
Local Abbreviation site_steps report invs := (@steps site (site_world report invs) site_preds 1 false).
Local Abbreviation site_run_in report invs :=
  (@run site (site_world report invs) site_preds 1 false).
Local Abbreviation site_initial := (Config (initial 2) site_start).

Lemma site_preds_graph :
  (∃ g, build site_invocations = inr g ∧ preds g = site_preds)
  ∧ (∃ g, build site_unreadable = inr g ∧ preds g = site_preds).
Proof. split; eexists; split; by vm_compute. Qed.

Lemma site_steps_good :
  site_steps good_report site_invocations site_initial
    ([EReady 0] ++ EStart 0 :: [ESucceed 0; EReady 1; EStart 1; ESucceed 1])%nat
    (site_end (site_run good_report)).
Proof. apply (run_steps _ _ _ (budget 2)). vm_compute. reflexivity. Defined.

Lemma site_steps_unreadable :
  site_steps good_report site_unreadable site_initial
    ([EReady 0] ++ EAuxFail 0 :: [ECascade 1])%nat
    (site_run_in good_report site_unreadable (budget 2) site_initial).2.
Proof. apply (run_steps _ _ _ (budget 2)). vm_compute. reflexivity. Defined.

Lemma foldl_write_wf {A} (f : A → string) d (l : list A) w :
  fs_wf w → fs_wf (foldl (λ w x, (write w d (f x)).2) w l).
Proof.
  revert w. induction l as [|x l IH]; intros w Hw; cbn; [done|]. by apply IH, write_wf.
Qed.

Lemma site_programs_wf report : programs_wf (site_programs report).
Proof.
  assert (∀ inv w, fs_wf w → fs_wf (compiles report inv w).2) as Hc.
  { intros inv w Hw. unfold compiles. cbn [snd].
    by apply (foldl_write_wf DependencyInfo.path), (foldl_write_wf id). }
  split; [intros path; apply Hc|]. intros name tool inv w. cbn.
  repeat case_decide; intros [= <-] Hw; [by apply Hc|]. unfold copies.
  destruct (Invocation.inputs inv) as [|input [|]], (Invocation.outputs inv) as [|output [|]];
    try done.
  destruct (read w [] input 0 None) as [[[] contents]|]; try done.
  pose proof (write_wf w contents output Hw). by destruct (write w contents output) as [[] ?].
Qed.

Lemma start_after_materialization_witness :
  ∃ c1 c2,
    site_steps good_report site_invocations site_initial [EReady 0%nat] c1
    ∧ site_steps good_report site_invocations c2
        [ESucceed 0; EReady 1; EStart 1; ESucceed 1]%nat (site_end (site_run good_report))
    ∧ true = true
    ∧ materialize_all dot_tmp (tree (env c1)) [scenario_file] = Done (None, tree (env c2))
    ∧ statuses c2 !! 0%nat = Some Running.
Proof.
  apply (start_after_materialization dot_tmp (site_programs good_report) (λ _ _, true)
           site_invocations site_preds 1 false site_initial [EReady 0%nat] 0
           [ESucceed 0; EReady 1; EStart 1; ESucceed 1]%nat _ _ site_steps_good eq_refl).
Defined.

Lemma auxiliary_error_fails_unspawned_witness :
  ∃ c1, site_steps good_report site_unreadable site_initial [EReady 0%nat] c1
    ∧ can_prepare dot_tmp site_unreadable (env c1) 0 = false
    ∧ statuses (site_run_in good_report site_unreadable (budget 2) site_initial).2 !! 0%nat
      = Some Failed
    ∧ EStart 0%nat ∉ ([EReady 0] ++ EAuxFail 0 :: [ECascade 1])%nat.
Proof.
  apply (auxiliary_error_fails_unspawned dot_tmp (site_programs good_report) (λ _ _, true)
           site_unreadable site_preds 1 false site_initial [EReady 0%nat] 0 [ECascade 1%nat]
           _ _ site_steps_unreadable eq_refl).
Defined.

Lemma success_records_reported_inputs_witness :
  ∃ c1 w' founds,
    site_steps good_report site_invocations site_initial ([EReady 0] ++ [EStart 0])%nat c1
    ∧ spawn (site_programs good_report) site_compile (tree (env c1)) = inr (0, w')
    ∧ Forall2 (λ info f, Parse w' info = Done (Accept f))
        (Invocation.dependencyInfo site_compile) founds
    ∧ discovered (env (site_end (site_run good_report))) !! 0%nat = Some (⋃ founds).
Proof.
  apply (success_records_reported_inputs dot_tmp (site_programs good_report) (λ _ _, true)
           site_invocations site_preds 1 false site_initial ([EReady 0] ++ [EStart 0])%nat 0
           [EReady 1; EStart 1; ESucceed 1]%nat (site_end (site_run good_report))
           site_compile); [|reflexivity].
  rewrite <-app_assoc. exact site_steps_good.
Defined.

Local Abbreviation site_running :=
  (site_run_in cut_report site_invocations 2 site_initial).2.

Lemma unparsed_dependency_info_fails_witness :
  @enabled_in site (site_world cut_report site_invocations) site_preds 1 false
    site_running (ESucceed 0) = false
  ∧ @step site (site_world cut_report site_invocations) site_preds 1 false
      site_running (EFail 0)
      (Config (<[0%nat := Failed]> (statuses site_running))
         (Site (compiles cut_report site_compile (tree (env site_running))).2
            (discovered (env site_running)))).
Proof.
  apply (unparsed_dependency_info_fails dot_tmp (site_programs cut_report) (λ _ _, true)
           site_invocations site_preds 1 false site_running 0 site_compile _ [] []
           (DependencyInfo.Build DependencyInfo.Binary "/a/x.d") [] Truncated);
    [by vm_compute|reflexivity|by vm_compute|reflexivity|constructor|by vm_compute].
Defined.

Local Abbreviation site_ready :=
  (site_run_in good_report site_scripted 1 site_initial).2.

Local Abbreviation site_started :=
  (@fire site (site_world good_report site_scripted) (EStart 0) site_ready).

Lemma site_step_start :
  @step site (site_world good_report site_scripted) site_preds 1 false
    site_ready (EStart 0) site_started.
Proof. apply step_inv. split_and!; by vm_compute. Defined.

Lemma started_file_holds_chunks_witness :
  Forall2 (λ a pl,
    read (tree (env site_started)) [] (AuxiliaryFile.path a) 0 None
      = Done (true, concat (at_bytes pl))
    ∧ (AuxiliaryFile.executable a = true
       → isExecutable (tree (env site_started)) (AuxiliaryFile.path a) = true))
    [scenario_file; scenario_script] scenario_places
  ∧ ∀ q, q ∉ places scenario_places →
      nodes (tree (env site_started)) !! q = nodes scenario_world !! q.
Proof.
  apply (started_file_holds_chunks dot_tmp (site_programs good_report) (λ _ _, true)
           site_scripted site_preds 1 false site_ready _ 0 _ scenario_places
           eq_refl scenario_placed);
    [apply (bool_decide_unpack _); by vm_compute|exact scenario_apart
    |exact site_step_start].
Defined.

(** The two files of the scenario after the start: the header of
    twenty-two bytes, and the script, which can be run. *)
Example site_started_files :
  read (tree (env site_started)) [] "/a/x.h" 0 None
    = Done (true, scenario_define ++ scenario_ten)
  ∧ read (tree (env site_started)) [] "/a/run.sh" 0 None = Done (true, scenario_shebang)
  ∧ isExecutable (tree (env site_started)) "/a/run.sh" = true
  ∧ isExecutable (tree (env site_started)) "/a/x.h" = false.
Proof. by vm_compute. Qed.

Lemma execution_preserves_wf_witness : fs_wf (tree (env (site_end (site_run good_report)))).
Proof.
  apply (execution_preserves_wf dot_tmp (site_programs good_report) (λ _ _, true)
           site_invocations site_preds 1 false site_initial _ _
           (site_programs_wf good_report) site_steps_good).
  apply (bool_decide_unpack _). by vm_compute.
Defined.

End execution_scenarios.
