(* ===== verification/Win32.v ===== *)
(** * The Win32 calls of the sources

    What the branches for Windows of [DefaultFilesystem.cpp] and
    [DefaultContext.cpp] call, as far as those branches depend on it.
    Nothing here is translated from the sources: the definitions follow
    the documentation of the calls.

    A wide string is a list of UTF-16 code units.  A call that fills a
    buffer returns its result and what it has written, [None] when it has
    written nothing; the write itself is [poke] of [StdString].  A wide
    string that is passed as a pointer has to be terminated in its buffer:
    [c_wstr] reads it.

    The conversion between UTF-8 and UTF-16 is the class [CodePage]:
    only that the empty string, and no other, converts to the empty string
    is used.

    [GetLastError] is read right after a call only: for each call that
    the sources ask about there is the error that it leaves, which is
    the error of the thread before the call when the call succeeds.
    [c_assert] is the [assert] of [<cassert>], which does nothing when
    [NDEBUG] is defined. *)

From Stdlib Require Import ZArith Lia Ascii.
From stdpp Require Import gmap strings list.
From S2P Require Import Prelude StdString.

#[local] Set Warnings "-clear-no-such-hyp".

Open Scope Z_scope.

(** ** Wide strings and buffers *)

Abbreviation WCHAR := Z.

Abbreviation wstring := (list WCHAR).

Definition MAX_PATH : Z := 260.

Definition ERROR_INSUFFICIENT_BUFFER : Z := 122.

Definition ERROR_ENVVAR_NOT_FOUND : Z := 203.

(** [assert (b)]. *)
Definition c_assert (NDEBUG : bool) (b : bool) : outcome unit :=
  if NDEBUG || b then Done () else Fault Aborted.

(** The conversions of [MultiByteToWideChar] and [WideCharToMultiByte]
    with [CP_UTF8] and no flags: total, an invalid sequence is replaced. *)
Class CodePage : Type := {
  to_wide : string → wstring;
  to_multi : wstring → string;
  to_wide_empty : ∀ s, to_wide s = [] ↔ s = "";
  to_multi_empty : ∀ w, to_multi w = "" ↔ w = [];
}.

(** The write through a pointer into a wide string. *)
Definition poke_wide : wstring → option wstring → outcome wstring := poke_terminated 0.

(** [buffer.reserve (n)] for a wide string: the size stays. *)
Definition reserve_wide (buffer : wstring) (n : Z) : outcome wstring :=
  if decide (LONG_MAX < n) then Fault LengthError else Done buffer.

(** The wide string that a pointer into [buffer] names. *)
Definition c_wstr : wstring → outcome wstring := c_read 0.

(** [wcslen (block + at)]. *)
Definition wcslen (block : wstring) (at_ : nat) : outcome Z :=
  (λ s, Z.of_nat (length s)) <$> c_wstr (drop at_ block).

(** ** The system *)

Record windows : Type := Windows {
  win_directory : option wstring;                (* the current directory *)
  win_module : wstring;                          (* the path of the executable *)
  win_variables : list (wstring * wstring);      (* the environment, in its order *)
  win_profile : option wstring;                  (* the folder CSIDL_PROFILE *)
  win_files : list wstring;                      (* the paths that name a file or a directory *)
  win_last_error : Z;                            (* the last error of the thread *)
  win_exhausted : bool;                          (* no memory for a copy of the environment *)
}.

Section calls.
Context `{CodePage}.
Implicit Types (sys : windows) (src : string) (w name : wstring).

(** [MultiByteToWideChar (CP_UTF8, 0, src.data (), src.size (), buffer,
    cch)]: with [cch = 0] the size that is needed; zero when [src] is
    empty or the buffer too small. *)
Definition MultiByteToWideChar src (cch : Z) : Z * option wstring :=
  let w := to_wide src in
  if bool_decide (src = "") then (0, None)
  else if bool_decide (cch = 0) then (Z.of_nat (length w), None)
  else if bool_decide (Z.of_nat (length w) ≤ cch) then (Z.of_nat (length w), Some w)
  else (0, None).

(** [WideCharToMultiByte (CP_UTF8, 0, w.data (), w.size (), buffer, cb,
    NULL, NULL)]. *)
Definition WideCharToMultiByte w (cb : Z) : Z * option string :=
  let s := to_multi w in
  if bool_decide (w = []) then (0, None)
  else if bool_decide (cb = 0) then (Z.of_nat (String.length s), None)
  else if bool_decide (Z.of_nat (String.length s) ≤ cb) then (Z.of_nat (String.length s), Some s)
  else (0, None).

(** [GetCurrentDirectoryW (n, buffer)]: the length without the terminator
    when the buffer holds the directory and its terminator, the size that
    is needed when it does not, zero on failure. *)
Definition GetCurrentDirectoryW sys (n : Z) : Z * option wstring :=
  match win_directory sys with
  | None => (0, None)
  | Some d =>
    if bool_decide (Z.of_nat (length d) < n) then (Z.of_nat (length d), Some (d ++ [0]))
    else (Z.of_nat (length d) + 1, None)
  end.

(** [GetModuleFileNameW (NULL, buffer, n)]: the length copied; the path
    cut to [n] with its terminator, and [n], when the buffer is too
    small. *)
Definition GetModuleFileNameW sys (n : Z) : Z * option wstring :=
  if bool_decide (n ≤ 0) then (0, None)
  else if bool_decide (Z.of_nat (length (win_module sys)) < n)
  then (Z.of_nat (length (win_module sys)), Some (win_module sys ++ [0]))
  else (n, Some (take (Z.to_nat (n - 1)) (win_module sys) ++ [0])).

(** [GetLastError ()] after that call: a buffer that is too small sets
    the error, a success leaves it. *)
Definition GetModuleFileNameW_error sys (n : Z) : Z :=
  if bool_decide (Z.of_nat (length (win_module sys)) < n) then win_last_error sys
  else ERROR_INSUFFICIENT_BUFFER.

(** The value of the first variable of that name. *)
Definition variable_value sys name : option wstring :=
  snd <$> head (filter (λ kv, kv.1 = name) (win_variables sys)).

(** [GetEnvironmentVariableW (name, buffer, n)]: zero when there is no
    such variable. *)
Definition GetEnvironmentVariableW sys name (n : Z) : Z * option wstring :=
  match variable_value sys name with
  | None => (0, None)
  | Some v =>
    if bool_decide (Z.of_nat (length v) < n) then (Z.of_nat (length v), Some (v ++ [0]))
    else (Z.of_nat (length v) + 1, None)
  end.

(** [GetLastError ()] after that call. *)
Definition GetEnvironmentVariableW_error sys name (n : Z) : Z :=
  match variable_value sys name with
  | None => ERROR_ENVVAR_NOT_FOUND
  | Some v =>
    if bool_decide (Z.of_nat (length v) < n) then win_last_error sys
    else ERROR_INSUFFICIENT_BUFFER
  end.

(** The block of the environment: each variable as [name=value] with its
    terminator, and one terminator more. *)
Definition environment_block sys : wstring :=
  flat_map (λ kv, kv.1 ++ [61] ++ kv.2 ++ [0]) (win_variables sys) ++ [0].

(** [GetEnvironmentStringsW ()]: a copy of the block, null without
    memory for it. *)
Definition GetEnvironmentStringsW sys : option wstring :=
  if win_exhausted sys then None else Some (environment_block sys).

(** [FreeEnvironmentStringsW (block) != 0]: the block has to be the one
    that [GetEnvironmentStringsW] has returned. *)
Definition FreeEnvironmentStringsW sys (block : wstring) : bool :=
  bool_decide (GetEnvironmentStringsW sys = Some block).

(** [SHGetFolderPathW (NULL, CSIDL_PROFILE, NULL, 0, buffer)]: what it
    writes when it returns [S_OK]. *)
Definition SHGetFolderPathW sys : option wstring := (λ p, p ++ [0]) <$> win_profile sys.

(** [GetFileAttributesW (path) != INVALID_FILE_ATTRIBUTES]. *)
Definition GetFileAttributesW sys (path : wstring) : bool := bool_decide (path ∈ win_files sys).

End calls.

(** ** The conversion of text that is ASCII *)

Definition ascii_to_wide (s : string) : wstring :=
  (λ a, Z.of_N (N_of_ascii a)) <$> chars s.

Definition ascii_to_multi (w : wstring) : string :=
  str ((λ c, ascii_of_N (Z.to_N c)) <$> w).

(** * Lemmas *)

Lemma poke_wide_empty (d : wstring) :
  poke_wide [] (Some d)
  = if decide (d = [] ∨ d = [0]) then Done [] else Fault Undefined.
Proof. apply poke_terminated_empty. Qed.

Lemma reserve_wide_fits (buffer : wstring) n : n ≤ LONG_MAX → reserve_wide buffer n = Done buffer.
Proof. intros Hn. unfold reserve_wide. by rewrite decide_False by lia. Qed.

Lemma c_wstr_terminated (w rest : wstring) :
  0 ∉ w → c_wstr (w ++ 0 :: rest) = Done w.
Proof. apply c_read_terminated. Qed.

Lemma c_wstr_unterminated (w : wstring) : 0 ∉ w → c_wstr w = Fault Undefined.
Proof. apply c_read_unterminated. Qed.

Lemma c_assert_holds NDEBUG : c_assert NDEBUG true = Done ().
Proof. unfold c_assert. by rewrite orb_true_r. Qed.

Lemma GetEnvironmentVariableW_absent sys name n :
  (GetEnvironmentVariableW sys name n).1 = 0 → n ≤ 0 →
  GetEnvironmentVariableW_error sys name n = ERROR_ENVVAR_NOT_FOUND.
Proof.
  unfold GetEnvironmentVariableW, GetEnvironmentVariableW_error.
  destruct (variable_value sys name) as [v|]; [|done].
  case_bool_decide; cbn; lia.
Qed.

Lemma GetEnvironmentStringsW_Some sys block :
  GetEnvironmentStringsW sys = Some block ↔
  win_exhausted sys = false ∧ block = environment_block sys.
Proof. unfold GetEnvironmentStringsW. destruct (win_exhausted sys); naive_solver. Qed.

Lemma FreeEnvironmentStringsW_returned sys block :
  GetEnvironmentStringsW sys = Some block → FreeEnvironmentStringsW sys block = true.
Proof. intros Hb. unfold FreeEnvironmentStringsW. by rewrite bool_decide_eq_true_2. Qed.

Lemma ascii_to_wide_empty s : ascii_to_wide s = [] ↔ s = "".
Proof. destruct s; cbn; split; done. Qed.

Lemma ascii_to_multi_empty w : ascii_to_multi w = "" ↔ w = [].
Proof. destruct w; cbn; split; done. Qed.

#[global] Instance ascii_code_page : CodePage :=
  {| to_wide := ascii_to_wide; to_multi := ascii_to_multi;
     to_wide_empty := ascii_to_wide_empty; to_multi_empty := ascii_to_multi_empty |}.
