(* ===== verification/DefaultFilesystemWin32.v ===== *)
(** * [libutil::DefaultFilesystem] on Windows

    The branches for [_WIN32] of
    [src/Libraries/libutil/Sources/DefaultFilesystem.cpp], over the calls
    of [Win32].  [read] and [write] have no such branch and are the ones
    of [DefaultFilesystem].

    Most methods are stubs that return [false].  [exists] converts the
    path into a [std::vector] of wide characters that has no terminator
    and passes its elements as a string.  [createFile] asks [isWritable],
    which is a stub, and so always opens the file with [fopen (path,
    "w")]: the file tree of [Posix] stands for the files that [fopen]
    works on.  [createDirectory] returns [false] in the first round of its
    second loop.  [resolvePath] returns [false] where a [std::string] is
    expected: a string made of a null pointer. *)

From Stdlib Require Import ZArith Lia Ascii.
From stdpp Require Import gmap strings list.
From S2P Require Import Prelude StdString Posix DefaultFilesystem Win32.

#[local] Set Warnings "-clear-no-such-hyp".

Open Scope Z_scope.

Module WinFS.

Section methods.
Context `{CodePage}.

(** [WideString] is a [std::vector] here: [WideString (size)] has [size]
    elements, and the conversion fills them. *)
Definition StringToWideString (str : string) : outcome wstring :=
  let size := (MultiByteToWideChar str 0).1 in
  let wide := replicate (Z.to_nat size) 0 in
  poke wide (MultiByteToWideChar str size).2.

(** [wide.data ()] of an empty vector is null, and the call fails. *)
Definition exists_ (sys : windows) (path : string) : outcome bool :=
  wide ← StringToWideString path;
  match wide with
  | [] => Done false
  | _ => name ← c_wstr wide; Done (GetFileAttributesW sys name)
  end.

End methods.

Definition isDirectory (path : string) : bool := false.

Definition isSymbolicLink (path : string) : bool := false.

Definition isReadable (path : string) : bool := false.

Definition isWritable (path : string) : bool := false.

Definition isExecutable (path : string) : bool := false.

Definition createFile (w : world) (path : string) : bool * world :=
  if isWritable path then (true, w)
  else
    match fopen_w w (c_str path) with
    | Err _ => (false, w)
    | Ok (_, w') => (true, w')
    end.

(** The second loop of [createDirectory]: its first round returns. *)
Definition make_directories (rcomponents : list string) : bool :=
  match rcomponents with
  | [] => true
  | _ :: _ => false
  end.

Section directories.
Context (GetDirectoryName GetBaseName : string → string).

Definition createDirectory (fuel : nat) (path : string) : option bool :=
  '(components, _) ← split_components GetDirectoryName GetBaseName fuel path [];
  Some (make_directories (reverse components)).

End directories.

Definition readSymbolicLink (path : string) : option string := None.

Definition writeSymbolicLink (target path : string) : bool := false.

Definition removeFile (path : string) : bool := false.

(** [return false;] in a function that returns a [std::string]: the
    string is constructed from a null pointer. *)
Definition resolvePath (path : string) : outcome string := Fault Undefined.

Definition enumerateDirectory (path : string) : bool := false.

End WinFS.

(** ** Scenario *)

(** A system with one file. *)
Definition demo_windows : windows :=
  Windows (Some (ascii_to_wide "C:\src")) (ascii_to_wide "C:\bin\xcbuild.exe")
    [(ascii_to_wide "HOME", ascii_to_wide "C:\Users\dev")]
    (Some (ascii_to_wide "C:\Users\dev")) [ascii_to_wide "C:\src\a.c"] 0 false.

(** * Theorems *)

Section win32_filesystem.
Context `{CodePage}.
Implicit Types (sys : windows) (path : string) (w : world).

(** The conversion of [DefaultFilesystem.cpp] is right: the vector holds
    the wide characters of the string, and nothing more. *)
Lemma WinFS_StringToWideString_spec str :
  WinFS.StringToWideString str = Done (to_wide str).
Proof.
  unfold WinFS.StringToWideString, MultiByteToWideChar.
  destruct (decide (str = "")) as [->|Hne].
  { rewrite !bool_decide_eq_true_2 by done. cbn. by rewrite (proj2 (to_wide_empty "")). }
  assert (to_wide str ≠ []) as Hw by (by rewrite to_wide_empty).
  rewrite !(bool_decide_eq_false_2 (str = "")) by done.
  rewrite (bool_decide_eq_true_2 (_ = 0)) by done. cbn [fst snd].
  rewrite bool_decide_eq_false_2 by (destruct (to_wide str); [done|cbn; lia]).
  rewrite bool_decide_eq_true_2 by lia. cbn [snd]. unfold poke.
  rewrite Nat2Z.id, length_replicate, decide_True by done.
  by rewrite drop_replicate, Nat.sub_diag, app_nil_r.
Qed.

(** C22.  On Windows [exists] reads past the end of its buffer for every path
    that is not empty and has no zero character: the vector it passes as
    a string holds the characters of the path and no terminator.  For the
    empty path it returns [false]. *)
Theorem win32_exists_unterminated sys path :
  0 ∉ to_wide path →
  WinFS.exists_ sys path = if decide (path = "") then Done false else Fault Undefined.
Proof.
  intros Hz. unfold WinFS.exists_. rewrite WinFS_StringToWideString_spec. cbn.
  destruct (to_wide path) as [|c cs] eqn:E.
  - apply to_wide_empty in E as ->. by rewrite decide_True.
  - rewrite decide_False by (intros ->; by rewrite (proj2 (to_wide_empty "")) in E).
    by rewrite (c_wstr_unterminated _ Hz).
Qed.

(** With a terminator among the characters [exists] asks for the path
    before it. *)
Lemma win32_exists_terminated sys path pre rest :
  to_wide path = pre ++ 0 :: rest → 0 ∉ pre →
  WinFS.exists_ sys path = Done (GetFileAttributesW sys pre).
Proof.
  intros E Hz. unfold WinFS.exists_. rewrite WinFS_StringToWideString_spec, E. cbn.
  destruct (pre ++ 0 :: rest) as [|c cs] eqn:E'; [by destruct pre|].
  rewrite <-E'. by rewrite (c_wstr_terminated _ _ Hz).
Qed.

End win32_filesystem.

Section win32_files.
Implicit Types (path : string) (w : world) (p : list string).

(** C38.  On Windows [createFile] always opens the file for writing: a file
    that is there and can be written loses its contents, where the other
    branch leaves it as it is. *)
Theorem win32_createFile_truncates w path p d pm :
  lookup_node w (c_str path) true = Ok (p, File d pm) → p_write pm = true →
  WinFS.createFile w path
  = (true, World (<[p := File [] pm]> (nodes w)) (cwd w) (space w + length d))
  ∧ createFile w path = (true, w).
Proof.
  intros Hl Hw. pose proof Hl as [Hn Hp]%lookup_node_Ok. split.
  - unfold WinFS.createFile, WinFS.isWritable, fopen_w. rewrite Hn. cbn. by rewrite Hp, Hw.
  - unfold createFile. enough (isWritable w path = true) as -> by done.
    unfold isWritable, sys_access. rewrite Hl. cbn. by rewrite Hw.
Qed.

Section directories.
Context (GetDirectoryName GetBaseName : string → string).

Lemma split_components_extends fuel current acc components rest :
  split_components GetDirectoryName GetBaseName fuel current acc = Some (components, rest) →
  ∃ more, components = acc ++ more.
Proof.
  revert current acc. induction fuel as [|fuel IH]; intros current acc; cbn.
  - case_decide; [|done]. intros [= <- <-]. exists []. by rewrite app_nil_r.
  - case_decide; [intros [= <- <-]; exists []; by rewrite app_nil_r|].
    intros (more & ->)%IH. eexists. by rewrite <-app_assoc.
Qed.

(** On Windows [createDirectory] creates nothing: it returns [true] for a
    path that is its own directory name, and [false] for every other
    path. *)
Theorem win32_createDirectory_spec fuel path r :
  WinFS.createDirectory GetDirectoryName GetBaseName fuel path = Some r →
  r = bool_decide (path = GetDirectoryName path).
Proof.
  unfold WinFS.createDirectory. destruct fuel as [|fuel]; cbn.
  - case_decide; [|done]. intros [= <-]. by rewrite bool_decide_eq_true_2.
  - case_decide as Hp; [intros [= <-]; by rewrite bool_decide_eq_true_2|].
    rewrite bool_decide_eq_false_2 by done.
    destruct (split_components _ _ fuel _ _) as [[components current]|] eqn:E; [|done].
    cbn. intros [= <-].
    apply split_components_extends in E as (more & ->).
    rewrite reverse_app. by destruct (reverse more).
Qed.

End directories.

End win32_files.

Section win32_scenarios.

Lemma win32_exists_unterminated_witness :
  WinFS.exists_ demo_windows "C:\src\a.c" = Fault Undefined.
Proof.
  apply (win32_exists_unterminated demo_windows "C:\src\a.c").
  apply (bool_decide_unpack _). by vm_compute.
Defined.

(** The file is there and is not found. *)
Example win32_exists_misses_file :
  GetFileAttributesW demo_windows (to_wide "C:\src\a.c") = true
  ∧ WinFS.exists_ demo_windows "C:\src\a.c" ≠ Done true.
Proof. by vm_compute. Qed.

Lemma win32_createFile_truncates_witness :
  WinFS.createFile demo_world "/a/f"
  = (true, World (<[["a"; "f"] := File [] perm_rw]> (nodes demo_world)) (cwd demo_world)
             (space demo_world + length demo_ABC))
  ∧ createFile demo_world "/a/f" = (true, demo_world).
Proof.
  apply (win32_createFile_truncates demo_world "/a/f" ["a"; "f"] demo_ABC perm_rw);
    [exact demo_file|reflexivity].
Defined.

End win32_scenarios.
