(* ===== verification/DefaultContextWin32.v ===== *)
(** * [process::DefaultContext] on Windows

    The branches for [_WIN32] of [DefaultContext.cpp] (lines 264-678 of
    [src/Libraries/pbxbuild/Headers/pbxbuild/Tool/Invocation.h]), over the
    calls of [Win32].  The statics, [std::call_once] and the dereference
    of a pointer are the ones of [DefaultContext].

    The two conversions reserve the storage of the result and let the
    call write through the pointer to its first element: the size of the
    string stays zero.  The same is done with every buffer that a method
    hands to the system.  The loop of [environmentVariables] declares a
    second [length] inside its body: [environ_loop] has the length that
    the condition reads, which never changes, and the one of the body.

    The two [assert]s on [GetLastError] are [c_assert], for a build with
    and without [NDEBUG]; [environmentVariables] aborts when
    [GetEnvironmentStringsW] returns null or [FreeEnvironmentStringsW]
    fails. *)

From Stdlib Require Import ZArith Lia Ascii.
From stdpp Require Import gmap strings list.
From S2P Require Import Prelude StdString PosixProcess DefaultContext Win32.

#[local] Set Warnings "-clear-no-such-hyp".

Open Scope Z_scope.

Module Win.

Section conversions.
Context `{CodePage}.

Definition WideStringToString (str : wstring) : outcome string :=
  let size := (WideCharToMultiByte str 0).1 in
  multi ← reserve "" size;
  poke_string multi (WideCharToMultiByte str size).2.

Definition StringToWideString (str : string) : outcome wstring :=
  let size := (MultiByteToWideChar str 0).1 in
  wide ← reserve_wide [] size;
  poke_wide wide (MultiByteToWideChar str size).2.

End conversions.

(** The body of the loop over the environment block, after the
    conversion. *)
Definition environ_entry (variable : string) (values : gmap string string)
  : outcome (gmap string string) :=
  let offset := find EQUALS variable in
  name ← substr variable 0 offset;
  value ← substr variable (size_add offset 1) npos;
  Done (insert_new name value values).

Section loop.
(** The conversion that the loop calls. *)
Context (convert : wstring → outcome string).

(** [length] is the variable of the condition; the body has its own. *)
Fixpoint environ_loop (fuel : nat) (block : wstring) (length : Z) (current : nat)
    (values : gmap string string) : option (outcome (gmap string string)) :=
  if decide (length = 0) then Some (Done values)
  else
    match fuel with
    | O => None
    | S fuel' =>
      match
        inner ← wcslen block current;
        let buffer := take (Z.to_nat inner) (drop current block) in
        variable ← convert buffer;
        values' ← environ_entry variable values;
        let current' := (current + Z.to_nat inner + 1)%nat in
        _ ← wcslen block current';
        Done (current', values')
      with
      | Fault e => Some (Fault e)
      | Done (current', values') => environ_loop fuel' block length current' values'
      end
    end.

End loop.

Section methods.
Context `{CodePage}.
(** Whether [NDEBUG] is defined, for the [assert]s. *)
Context (NDEBUG : bool).

Definition currentDirectory (sys : windows) (st : statics) : outcome (string * statics) :=
  '(_, st') ← call_once new_flag
      (λ st,
         let length := (GetCurrentDirectoryW sys 0).1 in
         if decide (length = 0) then Fault Aborted
         else
           buffer ← reserve_wide [] length;
           let '(ret, data) := GetCurrentDirectoryW sys (Z.of_nat (List.length buffer)) in
           buffer ← poke_wide buffer data;
           if decide (ret = 0) then Fault Aborted
           else
             path ← WideStringToString buffer;
             Done (set_directory path st)) st;
  directory ← deref (st_directory st');
  Done (directory, st').

(** The loop of [executablePath]: [size] doubles while the path does not
    fit. *)
Fixpoint module_loop (fuel : nat) (sys : windows) (size : Z) : option (outcome string) :=
  match reserve_wide [] size with
  | Fault e => Some (Fault e)
  | Done buffer =>
    let n := Z.of_nat (List.length buffer) in
    let '(ret, data) := GetModuleFileNameW sys n in
    match poke_wide buffer data with
    | Fault e => Some (Fault e)
    | Done buffer =>
      if decide (ret = 0) then Some (Fault Aborted)
      else if decide (ret ≠ size) then Some (WideStringToString buffer)
      else
        match
          c_assert NDEBUG
            (bool_decide (GetModuleFileNameW_error sys n = ERROR_INSUFFICIENT_BUFFER))
        with
        | Fault e => Some (Fault e)
        | Done _ =>
          match fuel with
          | O => None
          | S fuel' => module_loop fuel' sys (to_size_t (size * 2))
          end
        end
    end
  end.

Section executable_path.
Context (NormalizePath : string → string).

Definition executablePath (fuel : nat) (sys : windows) (st : statics)
  : option (outcome (string * statics)) :=
  r ← module_loop fuel sys MAX_PATH;
  Some ('(_, st') ← call_once new_flag
          (λ st, absolutePath ← r; Done (set_executablePath (NormalizePath absolutePath) st))
          st;
        executablePath ← deref (st_executablePath st');
        Done (executablePath, st')).

End executable_path.

Definition commandLineArguments (st : statics) : outcome (list string * statics) :=
  '(_, st') ← call_once new_flag (λ st, Done (set_arguments [] st)) st;
  arguments ← deref (st_arguments st');
  Done (arguments, st').

(** [name.data ()] is the wide string with its terminator. *)
Definition environmentVariable (sys : windows) (variable : string)
  : outcome (option string) :=
  name ← StringToWideString variable;
  buffer ← reserve_wide [] 32768;
  name ← c_wstr (name ++ [0]);
  let n := Z.of_nat (List.length buffer) in
  let '(ret, data) := GetEnvironmentVariableW sys name n in
  buffer ← poke_wide buffer data;
  if decide (ret = 0) then
    _ ← c_assert NDEBUG
          (bool_decide (GetEnvironmentVariableW_error sys name n = ERROR_ENVVAR_NOT_FOUND));
    Done None
  else Some <$> WideStringToString buffer.

Definition environmentVariables (fuel : nat) (sys : windows) (st : statics)
  : option (outcome (gmap string string * statics)) :=
  match GetEnvironmentStringsW sys with
  | None => Some (Fault Aborted)
  | Some variables =>
    match wcslen variables 0 with
    | Fault e => Some (Fault e)
    | Done length =>
      r ← environ_loop WideStringToString fuel variables length 0 ∅;
      Some ('(_, st') ← call_once new_flag
              (λ st,
                 values ← r;
                 if FreeEnvironmentStringsW sys variables
                 then Done (set_environment values st)
                 else Fault Aborted) st;
            environment ← deref (st_environment st');
            Done (environment, st'))
    end
  end.

Definition userName (st : statics) : outcome (string * statics) :=
  '(_, st') ← call_once new_flag (λ st, Done (set_userName "" st)) st;
  userName ← deref (st_userName st');
  Done (userName, st').

Definition groupName (st : statics) : outcome (string * statics) :=
  '(_, st') ← call_once new_flag (λ st, Done (set_groupName "" st)) st;
  groupName ← deref (st_groupName st');
  Done (groupName, st').

Definition userID : Z := 0.

Definition groupID : Z := 0.

Definition userHomeDirectory (sys : windows) : outcome (option string) :=
  buffer ← reserve_wide [] MAX_PATH;
  match SHGetFolderPathW sys with
  | None => Done None
  | Some data =>
    buffer ← poke_wide buffer (Some data);
    Some <$> WideStringToString buffer
  end.

End methods.

End Win.

(** ** Scenario *)

(** A system with a directory, two variables and a profile; a system
    that has no variable. *)
Definition win_system : windows :=
  Windows (Some (ascii_to_wide "C:\src")) (ascii_to_wide "C:\bin\xcbuild.exe")
    [(ascii_to_wide "HOME", ascii_to_wide "C:\Users\dev");
     (ascii_to_wide "TMP", ascii_to_wide "C:\tmp")]
    (Some (ascii_to_wide "C:\Users\dev")) [] 0 false.

Definition bare_system : windows := Windows None [] [] None [] 0 false.

(** The same without memory for a copy of the environment. *)
Definition exhausted_system : windows := Windows None [] [] None [] 0 true.

(** A conversion that is right, for the loop. *)
Definition convert_ascii (w : wstring) : outcome string := Done (ascii_to_multi w).

(** * Theorems *)

Section win32_conversions.
Context `{CodePage}.
Implicit Types (w : wstring) (s : string).

Lemma WideCharToMultiByte_measure w :
  (WideCharToMultiByte w 0).1 = if decide (w = []) then 0 else Z.of_nat (String.length (to_multi w)).
Proof.
  unfold WideCharToMultiByte. repeat case_bool_decide; by repeat case_decide.
Qed.

Lemma WideCharToMultiByte_fill w :
  w ≠ [] → (WideCharToMultiByte w (Z.of_nat (String.length (to_multi w)))).2 = Some (to_multi w).
Proof.
  intros Hw. unfold WideCharToMultiByte. rewrite bool_decide_eq_false_2 by done.
  assert (to_multi w ≠ "") as Hm by (by rewrite to_multi_empty).
  rewrite bool_decide_eq_false_2 by (destruct (to_multi w); [done|cbn; lia]).
  by rewrite bool_decide_eq_true_2 by lia.
Qed.

Lemma MultiByteToWideChar_measure s :
  (MultiByteToWideChar s 0).1 = if decide (s = "") then 0 else Z.of_nat (length (to_wide s)).
Proof.
  unfold MultiByteToWideChar. repeat case_bool_decide; by repeat case_decide.
Qed.

Lemma MultiByteToWideChar_fill s :
  s ≠ "" → (MultiByteToWideChar s (Z.of_nat (length (to_wide s)))).2 = Some (to_wide s).
Proof.
  intros Hs. unfold MultiByteToWideChar. rewrite bool_decide_eq_false_2 by done.
  assert (to_wide s ≠ []) as Hw by (by rewrite to_wide_empty).
  rewrite bool_decide_eq_false_2 by (destruct (to_wide s); [done|cbn; lia]).
  by rewrite bool_decide_eq_true_2 by lia.
Qed.

Lemma WideStringToString_empty : Win.WideStringToString [] = Done "".
Proof.
  unfold Win.WideStringToString, WideCharToMultiByte. by rewrite !bool_decide_eq_true_2.
Qed.

(** C23.  [WideStringToString] never returns the converted string: it writes
    the conversion into a string of size zero.  The empty string comes
    back for the empty wide string; every other conversion is a write past
    the end of the string, but for the one that is a single terminator. *)
Theorem win32_WideStringToString_spec w :
  Z.of_nat (String.length (to_multi w)) ≤ LONG_MAX →
  Win.WideStringToString w
  = if decide (w = [] ∨ to_multi w = String Ascii.zero "") then Done "" else Fault Undefined.
Proof.
  intros Hb. destruct (decide (w = [])) as [->|Hw].
  { rewrite WideStringToString_empty. by rewrite decide_True by auto. }
  unfold Win.WideStringToString. rewrite WideCharToMultiByte_measure, decide_False by done.
  unfold reserve. rewrite decide_False by lia. cbn [mbind outcome_bind].
  rewrite WideCharToMultiByte_fill, poke_string_empty by done.
  assert (to_multi w ≠ "") by (by rewrite to_multi_empty).
  repeat case_decide; naive_solver.
Qed.

(** The same for [StringToWideString]. *)
Lemma win32_StringToWideString_spec s :
  Z.of_nat (length (to_wide s)) ≤ LONG_MAX →
  Win.StringToWideString s
  = if decide (s = "" ∨ to_wide s = [0]) then Done [] else Fault Undefined.
Proof.
  intros Hb. unfold Win.StringToWideString. rewrite MultiByteToWideChar_measure.
  destruct (decide (s = "")) as [->|Hs].
  { unfold MultiByteToWideChar. rewrite bool_decide_eq_true_2 by done.
    by rewrite decide_True by auto. }
  rewrite reserve_wide_fits by lia. cbn [mbind outcome_bind].
  rewrite MultiByteToWideChar_fill, poke_wide_empty by done.
  assert (to_wide s ≠ []) by (by rewrite to_wide_empty).
  repeat case_decide; naive_solver.
Qed.

End win32_conversions.

Section win32_methods.
Context `{CodePage} (NDEBUG : bool).
Implicit Types (sys : windows) (st : statics) (w : wstring) (s : string).

Lemma GetCurrentDirectoryW_measure sys d n :
  win_directory sys = Some d → n ≤ Z.of_nat (length d) →
  GetCurrentDirectoryW sys n = (Z.of_nat (length d) + 1, None).
Proof.
  intros Hd Hn. unfold GetCurrentDirectoryW. rewrite Hd.
  by rewrite bool_decide_eq_false_2 by lia.
Qed.

(** On Windows [currentDirectory] is the empty string, whatever the
    directory of the process: the second call is given a buffer of size
    zero, answers with the size it needs and writes nothing. *)
Theorem win32_currentDirectory_empty sys st d :
  win_directory sys = Some d → Z.of_nat (length d) < LONG_MAX →
  Win.currentDirectory sys st = Done ("", set_directory "" st).
Proof.
  intros Hd Hb. unfold Win.currentDirectory, call_once, new_flag. cbn [called].
  rewrite (GetCurrentDirectoryW_measure _ _ 0 Hd) by lia. cbn [fst].
  rewrite decide_False, reserve_wide_fits by lia.
  cbn [mbind outcome_bind]. rewrite (GetCurrentDirectoryW_measure _ _ _ Hd) by (cbn; lia).
  cbn [poke_wide poke_terminated mbind outcome_bind]. rewrite decide_False by lia.
  by rewrite WideStringToString_empty.
Qed.

(** Without a directory it aborts. *)
Lemma win32_currentDirectory_aborts sys st :
  win_directory sys = None → Win.currentDirectory sys st = Fault Aborted.
Proof.
  intros Hd. unfold Win.currentDirectory, call_once, new_flag, GetCurrentDirectoryW.
  by rewrite Hd.
Qed.

Lemma module_loop_aborts fuel sys :
  Win.module_loop NDEBUG fuel sys MAX_PATH = Some (Fault Aborted).
Proof. by destruct fuel. Qed.

(** On Windows [executablePath] always aborts: [GetModuleFileNameW] is
    given a buffer of size zero and returns zero. *)
Theorem win32_executablePath_aborts (NormalizePath : string → string) fuel sys st :
  Win.executablePath NDEBUG NormalizePath fuel sys st = Some (Fault Aborted).
Proof. unfold Win.executablePath. by rewrite module_loop_aborts. Qed.

(** On Windows [environmentVariable] never returns the value of a
    variable: for a name that is not empty the conversion of the name
    writes past the end of its string; for the empty name the answer is
    the empty string or nothing, and the [assert] holds. *)
Theorem win32_environmentVariable_spec sys variable :
  Z.of_nat (length (to_wide variable)) ≤ LONG_MAX → to_wide variable ≠ [0] →
  Win.environmentVariable NDEBUG sys variable
  = if decide (variable = "") then
      match variable_value sys [] with Some _ => Done (Some "") | None => Done None end
    else Fault Undefined.
Proof.
  intros Hb Hz. unfold Win.environmentVariable.
  rewrite win32_StringToWideString_spec by done.
  destruct (decide (variable = "")) as [->|Hne].
  - rewrite decide_True, reserve_wide_fits by (auto || done).
    cbn [mbind outcome_bind]. rewrite (c_wstr_terminated [] []) by apply not_elem_of_nil.
    cbn. unfold GetEnvironmentVariableW, GetEnvironmentVariableW_error.
    destruct (variable_value sys []) as [v|]; [|by rewrite c_assert_holds].
    rewrite bool_decide_eq_false_2 by lia. cbn. rewrite decide_False by lia.
    by rewrite WideStringToString_empty.
  - by rewrite decide_False by naive_solver.
Qed.

(** On Windows [userHomeDirectory] writes the folder into a string of
    size zero. *)
Theorem win32_userHomeDirectory_overflows sys p :
  win_profile sys = Some p → p ≠ [] → Win.userHomeDirectory sys = Fault Undefined.
Proof.
  intros Hp Hne. unfold Win.userHomeDirectory, SHGetFolderPathW.
  rewrite Hp, reserve_wide_fits by done. cbn [mbind outcome_bind fmap option_fmap option_map].
  rewrite poke_wide_empty, decide_False; [done|].
  destruct p; [done|]. intros [?|?]; simplify_eq/=. by destruct p.
Qed.

End win32_methods.

Section win32_environment.
Context (convert : wstring → outcome string).
Implicit Types (block : wstring) (values : gmap string string).

(** The loop of [environmentVariables] never ends once it is entered:
    the length that its condition reads is the one of the first variable,
    for good. *)
Lemma environ_loop_entered fuel block length current values r :
  length ≠ 0 → Win.environ_loop convert fuel block length current values ≠ Some (Done r).
Proof.
  intros Hl. revert current values.
  induction fuel as [|fuel IH]; intros current values; cbn [Win.environ_loop];
    rewrite decide_False by done; [done|].
  destruct (_ ≫= _) as [[current' values']|]; [apply IH|done].
Qed.

Lemma environ_loop_empty fuel block current values :
  Win.environ_loop convert fuel block 0 current values = Some (Done values).
Proof. by destruct fuel. Qed.

End win32_environment.

Section win32_variables.
Context `{CodePage}.
Implicit Types (sys : windows) (st : statics).

(** C24.  On Windows [environmentVariables] returns the empty map whenever it
    returns: with a variable in the block the loop is entered and does not
    end. *)
Theorem win32_environmentVariables_empty fuel sys st environment st' :
  Win.environmentVariables fuel sys st = Some (Done (environment, st')) →
  environment = ∅ ∧ wcslen (environment_block sys) 0 = Done 0.
Proof.
  unfold Win.environmentVariables.
  destruct (GetEnvironmentStringsW sys) as [variables|] eqn:Eg; [|done].
  rewrite (FreeEnvironmentStringsW_returned _ _ Eg).
  apply GetEnvironmentStringsW_Some in Eg as [_ ->].
  destruct (wcslen _ 0) as [length|e] eqn:El; [|done].
  destruct (decide (length = 0)) as [->|Hl].
  - rewrite environ_loop_empty. cbn. by intros [= <- <-].
  - destruct (Win.environ_loop _ _ _ _ _ _) as [[r|e]|] eqn:Er; [|done..].
    by apply environ_loop_entered in Er.
Qed.

(** Without a variable it returns the empty map. *)
Lemma win32_environmentVariables_none fuel sys st :
  win_variables sys = [] → win_exhausted sys = false →
  Win.environmentVariables fuel sys st = Some (Done (∅, set_environment ∅ st)).
Proof.
  intros Hv He. unfold Win.environmentVariables.
  assert (GetEnvironmentStringsW sys = Some (environment_block sys)) as Eg
    by (by apply GetEnvironmentStringsW_Some).
  rewrite Eg, (FreeEnvironmentStringsW_returned _ _ Eg).
  assert (wcslen (environment_block sys) 0 = Done 0) as ->
    by (unfold environment_block; by rewrite Hv).
  by rewrite environ_loop_empty.
Qed.

(** Without the block of the environment it aborts. *)
Lemma win32_environmentVariables_aborts fuel sys st :
  win_exhausted sys = true → Win.environmentVariables fuel sys st = Some (Fault Aborted).
Proof. intros He. unfold Win.environmentVariables, GetEnvironmentStringsW. by rewrite He. Qed.

End win32_variables.

Section win32_scenarios.

(** With a conversion that is right the loop reads the variables of the
    scenario, then the end of the block as one more variable, then past
    the block. *)
Example win32_environ_loop_overruns :
  wcslen (environment_block win_system) 0 = Done 17
  ∧ Win.environ_loop convert_ascii 2 (environment_block win_system) 17 0 ∅ = None
  ∧ Win.environ_loop convert_ascii 3 (environment_block win_system) 17 0 ∅
    = Some (Fault Undefined).
Proof. by vm_compute. Qed.

Example win32_environmentVariables_exhausted :
  Win.environmentVariables 1 exhausted_system no_statics = Some (Fault Aborted).
Proof. by apply win32_environmentVariables_aborts. Qed.

Lemma win32_WideStringToString_spec_witness :
  Win.WideStringToString (ascii_to_wide "C:\src") = Fault Undefined.
Proof. by rewrite win32_WideStringToString_spec by (vm_compute; done). Defined.

Lemma win32_currentDirectory_empty_witness :
  Win.currentDirectory win_system no_statics = Done ("", set_directory "" no_statics).
Proof. by apply (win32_currentDirectory_empty win_system no_statics (ascii_to_wide "C:\src")). Defined.

Lemma win32_environmentVariable_spec_witness :
  Win.environmentVariable false win_system "HOME" = Fault Undefined.
Proof. by rewrite win32_environmentVariable_spec by (vm_compute; done). Defined.

Lemma win32_userHomeDirectory_overflows_witness :
  Win.userHomeDirectory win_system = Fault Undefined.
Proof. by apply (win32_userHomeDirectory_overflows win_system (ascii_to_wide "C:\Users\dev")). Defined.

Lemma win32_environmentVariables_empty_witness :
  Win.environmentVariables 1 bare_system no_statics = Some (Done (∅, set_environment ∅ no_statics))
  ∧ (∅ : gmap string string) = ∅.
Proof.
  split; [done|].
  by apply (win32_environmentVariables_empty 1 bare_system no_statics ∅
              (set_environment ∅ no_statics)).
Defined.

End win32_scenarios.
